(** * Chart state engine: a shallow embedding of [ChartStateService]

    The service (an Angular injectable written in TypeScript) owns the
    node map, the geometry map, the drawings, the selection, the view and
    the two history stacks of a whiteboard / organisation-chart editor.

    Conventions of the embedding:
    - a JS [number] is an exact rational ([Qc]), so sums and products do
      not round; NaN and the infinities are outside the model, except for
      the two divisions of [zoomToFit], whose results are a [Quotient]; a
      running minimum that starts at [Infinity] is an [option] that starts
      at [None].  Where rounding decides a property, the operations
      concerned are restated on binary64 floats ([Binary64]);
    - a string is compared byte by byte, which is the order of the code
      (UTF-16 code units) on ASCII text;
    - a JS [Map] is an association list in insertion order ([JsMap.t]);
      [set] on a present key keeps its place, on a new key appends;
    - a JS [Set] of strings is a duplicate-free list in insertion order;
    - an optional field is an [option]; [undefined] and "absent" coincide;
    - objects are values: [JSON.parse(JSON.stringify(x))] is the identity.
      The service only mutates objects in place in [sortChildrenByDepartment]
      (always on the live map, whose objects no history entry shares) and on
      objects it has just created, so value semantics loses nothing;
    - [alert], [console.error] and the DOM are not modelled;
    - [Math.random().toString(36).substr(2, 9)] is an argument of the
      operation that draws it. *)

From Stdlib Require Import String Ascii List Bool Arith Lia ZArith QArith Qcanon Qround.
From Stdlib Require PrimFloat.
Import ListNotations.

Open Scope nat_scope.
Open Scope string_scope.
Open Scope list_scope.

(** ** Numbers *)

Definition num := Qc.

Definition zq (z : Z) : num := Q2Qc (inject_Z z).

Definition num_ltb (a b : num) : bool := if Qclt_le_dec a b then true else false.
Definition num_leb (a b : num) : bool := if Qclt_le_dec b a then false else true.
Definition num_eqb (a b : num) : bool := if Qc_eq_dec a b then true else false.

Definition num_max (a b : num) : num := if num_ltb a b then b else a.
Definition num_min (a b : num) : num := if num_ltb b a then b else a.
Definition num_abs (a : num) : num := if num_ltb a (zq 0) then Qcopp a else a.

(** [w || d] for an optional number: [undefined] and [0] are falsy. *)
Definition num_or (w : option num) (d : num) : num :=
  match w with
  | Some x => if num_eqb x (zq 0) then d else x
  | None => d
  end.

(** [s || ''] for an optional string. *)
Definition str_or_empty (s : option string) : string :=
  match s with Some x => x | None => "" end.

(** Truthiness of a string: the empty string is falsy. *)
Definition str_truthy (s : string) : bool := negb (s =? "").

(** ** JS [Map] with string keys *)

Module JsMap.
Section WithValue.
Context {V : Type}.

Definition t := list (string * V).

Definition empty : t := [].

Fixpoint get (m : t) (k : string) : option V :=
  match m with
  | [] => None
  | (k', v) :: r => if k' =? k then Some v else get r k
  end.

Definition has (m : t) (k : string) : bool :=
  match get m k with Some _ => true | None => false end.

Fixpoint set (m : t) (k : string) (v : V) : t :=
  match m with
  | [] => [(k, v)]
  | (k', v') :: r => if k' =? k then (k, v) :: r else (k', v') :: set r k v
  end.

Fixpoint delete (m : t) (k : string) : t :=
  match m with
  | [] => []
  | (k', v') :: r => if k' =? k then r else (k', v') :: delete r k
  end.

Definition keys (m : t) : list string := map fst m.
Definition values (m : t) : list V := map snd m.

(** [new Map(entries)]: successive [set]s into an empty map. *)
Definition of_entries (l : list (string * V)) : t :=
  fold_left (fun m kv => set m (fst kv) (snd kv)) l empty.

(** [m.forEach(cb)] where [cb] may call [m.set]: the loop runs over the
    live entry list by position, reads the value that is current when the
    entry is reached, and also reaches entries appended meanwhile.  Every
    callback of the service that writes to the map it walks appends at most
    one entry per original entry and none for an appended one, so twice
    the initial size bounds the number of visits. *)
Fixpoint forEach_from (fuel i : nat) (cb : t -> V -> t) (m : t) : t :=
  match fuel with
  | O => m
  | S fuel' =>
      match nth_error m i with
      | None => m
      | Some (_, v) => forEach_from fuel' (S i) cb (cb m v)
      end
  end.

Definition forEach (cb : t -> V -> t) (m : t) : t :=
  forEach_from (2 * length m) 0 cb m.

(** Every object stored in the map is replaced by [f] of it (in-place
    mutation of each value, or a read-only walk that rebuilds values). *)
Definition map_values (f : V -> V) (m : t) : t :=
  map (fun kv => (fst kv, f (snd kv))) m.

Definition wf (m : t) : Prop := NoDup (keys m).

End WithValue.
Arguments t : clear implicits.
End JsMap.

(** ** JS [Set] of strings *)

Module JsSet.
Definition t := list string.
Definition empty : t := [].
Definition has (s : t) (x : string) : bool := existsb (String.eqb x) s.
Definition add (s : t) (x : string) : t := if has s x then s else s ++ [x].
Definition delete (s : t) (x : string) : t := filter (fun y => negb (y =? x)) s.
Definition size (s : t) : nat := length s.
Definition of_list (l : list string) : t := fold_left add l empty.
End JsSet.

(** ** Data model *)

Inductive NodeType :=
  executive | manager | employee | note | shape | group | text.

Inductive ShapeType := rectangle | circle | triangle | star | diamond.
Inductive TextAlign := align_left | align_center | align_right.
Inductive AvatarType := avatar_image | avatar_icon.

Definition NodeType_eqb (a b : NodeType) : bool :=
  match a, b with
  | executive, executive | manager, manager | employee, employee
  | note, note | shape, shape | group, group | text, text => true
  | _, _ => false
  end.

(** [['executive', 'manager', 'employee'].includes(type)] *)
Definition functionalTypes (ty : NodeType) : bool :=
  match ty with
  | executive | manager | employee => true
  | _ => false
  end.

Record ChartNode := mkNode {
  id : string;
  name : string;
  role : string;
  department : option string;
  type : NodeType;
  shapeType : option ShapeType;
  borderRadius : option num;
  fontSize : option num;
  fontFamily : option string;
  fontWeight : option string;
  fontStyle : option string;
  textDecoration : option string;
  textAlign : option TextAlign;
  avatarType : AvatarType;
  avatarImage : option string;
  avatarIcon : option string;
  level : option string;
  children : option (list string);
  backgroundColor : option string;
  nameColor : option string;
  roleColor : option string;
  departmentColor : option string;
  borderColor : option string;
  borderWidth : option num
}.

(** [Partial<ChartNode>]: [None] is a key that the object literal does not
    have.  A key present with the value [undefined] is not modelled. *)
Record PartialNode := mkPartial {
  p_id : option string;
  p_name : option string;
  p_role : option string;
  p_department : option string;
  p_type : option NodeType;
  p_shapeType : option ShapeType;
  p_borderRadius : option num;
  p_fontSize : option num;
  p_fontFamily : option string;
  p_fontWeight : option string;
  p_fontStyle : option string;
  p_textDecoration : option string;
  p_textAlign : option TextAlign;
  p_avatarType : option AvatarType;
  p_avatarImage : option string;
  p_avatarIcon : option string;
  p_level : option string;
  p_children : option (list string);
  p_backgroundColor : option string;
  p_nameColor : option string;
  p_roleColor : option string;
  p_departmentColor : option string;
  p_borderColor : option string;
  p_borderWidth : option num
}.

Definition no_fields : PartialNode :=
  mkPartial None None None None None None None None None None None None
            None None None None None None None None None None None None.

(** Spread of a required field and of an optional field. *)
Definition over {A} (old : A) (new : option A) : A :=
  match new with Some x => x | None => old end.
Definition over_opt {A} (old : option A) (new : option A) : option A :=
  match new with Some x => Some x | None => old end.

(** [{ ...node, ...partial }] *)
Definition spread (n : ChartNode) (p : PartialNode) : ChartNode :=
  {| id := over (id n) (p_id p);
     name := over (name n) (p_name p);
     role := over (role n) (p_role p);
     department := over_opt (department n) (p_department p);
     type := over (type n) (p_type p);
     shapeType := over_opt (shapeType n) (p_shapeType p);
     borderRadius := over_opt (borderRadius n) (p_borderRadius p);
     fontSize := over_opt (fontSize n) (p_fontSize p);
     fontFamily := over_opt (fontFamily n) (p_fontFamily p);
     fontWeight := over_opt (fontWeight n) (p_fontWeight p);
     fontStyle := over_opt (fontStyle n) (p_fontStyle p);
     textDecoration := over_opt (textDecoration n) (p_textDecoration p);
     textAlign := over_opt (textAlign n) (p_textAlign p);
     avatarType := over (avatarType n) (p_avatarType p);
     avatarImage := over_opt (avatarImage n) (p_avatarImage p);
     avatarIcon := over_opt (avatarIcon n) (p_avatarIcon p);
     level := over_opt (level n) (p_level p);
     children := over_opt (children n) (p_children p);
     backgroundColor := over_opt (backgroundColor n) (p_backgroundColor p);
     nameColor := over_opt (nameColor n) (p_nameColor p);
     roleColor := over_opt (roleColor n) (p_roleColor p);
     departmentColor := over_opt (departmentColor n) (p_departmentColor p);
     borderColor := over_opt (borderColor n) (p_borderColor p);
     borderWidth := over_opt (borderWidth n) (p_borderWidth p) |}.

(** [{ ...node, children: cs }], [{ ...node, department: d }] and
    [{ ...node, id: i }] *)
Definition with_children (n : ChartNode) (cs : list string) : ChartNode :=
  spread n {| p_id := None; p_name := None; p_role := None; p_department := None;
              p_type := None; p_shapeType := None; p_borderRadius := None;
              p_fontSize := None; p_fontFamily := None; p_fontWeight := None;
              p_fontStyle := None; p_textDecoration := None; p_textAlign := None;
              p_avatarType := None; p_avatarImage := None; p_avatarIcon := None;
              p_level := None; p_children := Some cs; p_backgroundColor := None;
              p_nameColor := None; p_roleColor := None; p_departmentColor := None;
              p_borderColor := None; p_borderWidth := None |}.

Definition with_department (n : ChartNode) (d : string) : ChartNode :=
  spread n {| p_id := None; p_name := None; p_role := None; p_department := Some d;
              p_type := None; p_shapeType := None; p_borderRadius := None;
              p_fontSize := None; p_fontFamily := None; p_fontWeight := None;
              p_fontStyle := None; p_textDecoration := None; p_textAlign := None;
              p_avatarType := None; p_avatarImage := None; p_avatarIcon := None;
              p_level := None; p_children := None; p_backgroundColor := None;
              p_nameColor := None; p_roleColor := None; p_departmentColor := None;
              p_borderColor := None; p_borderWidth := None |}.

Definition with_id (n : ChartNode) (i : string) : ChartNode :=
  spread n {| p_id := Some i; p_name := None; p_role := None; p_department := None;
              p_type := None; p_shapeType := None; p_borderRadius := None;
              p_fontSize := None; p_fontFamily := None; p_fontWeight := None;
              p_fontStyle := None; p_textDecoration := None; p_textAlign := None;
              p_avatarType := None; p_avatarImage := None; p_avatarIcon := None;
              p_level := None; p_children := None; p_backgroundColor := None;
              p_nameColor := None; p_roleColor := None; p_departmentColor := None;
              p_borderColor := None; p_borderWidth := None |}.

(** [node.children || []] *)
Definition children_of (n : ChartNode) : list string :=
  match children n with Some cs => cs | None => [] end.

(** [arr.includes(x)] on strings *)
Definition includes (l : list string) (x : string) : bool :=
  existsb (String.eqb x) l.

Record NodePosition := mkPos {
  x : num;
  y : num;
  width : option num;
  height : option num
}.

Record ChartEdge := mkEdge {
  edge_id : string;
  sourceId : string;
  targetId : string
}.

(** A drawing's [path] is an SVG path string.  The model keeps the token
    structure that both [shiftPath] and [getDrawingBounds] read out of the
    string: the command letters, each with its numeric parameters. *)
Record PathCommand := mkCmd {
  command : ascii;
  params : list num
}.

Record Drawing := mkDrawing {
  d_id : string;
  path : list PathCommand;
  color : string;
  strokeWidth : num
}.

Inductive ClipboardData :=
  | clip_node (n : ChartNode)
  | clip_drawing (d : Drawing).

Record ClipboardItem := mkClip {
  c_data : ClipboardData;
  c_x : num;
  c_y : num;
  c_width : num;
  c_height : num
}.

Record HistorySnapshot := mkSnap {
  snap_nodes : list (string * ChartNode);
  snap_positions : list (string * NodePosition);
  snap_drawings : list Drawing
}.

Definition NodeMap := JsMap.t ChartNode.
Definition PosMap := JsMap.t NodePosition.

(** The service's fields. *)
Record State := mkState {
  nodes : NodeMap;
  nodePositions : PosMap;
  drawings : list Drawing;
  selectedNodeIds : JsSet.t;
  selectedDrawingIds : JsSet.t;
  selectedEdgeId : option string;
  zoomLevel : num;
  panOffset : num * num;
  isDarkMode : bool;
  undoStack : list HistorySnapshot;
  redoStack : list HistorySnapshot;
  clipboard : list ClipboardItem
}.

Definition maxHistorySize : nat := 50.

(** Field updates. *)
Definition set_nodes (s : State) (v : NodeMap) : State :=
  mkState v (nodePositions s) (drawings s) (selectedNodeIds s) (selectedDrawingIds s)
          (selectedEdgeId s) (zoomLevel s) (panOffset s) (isDarkMode s)
          (undoStack s) (redoStack s) (clipboard s).
Definition set_nodePositions (s : State) (v : PosMap) : State :=
  mkState (nodes s) v (drawings s) (selectedNodeIds s) (selectedDrawingIds s)
          (selectedEdgeId s) (zoomLevel s) (panOffset s) (isDarkMode s)
          (undoStack s) (redoStack s) (clipboard s).
Definition set_drawings (s : State) (v : list Drawing) : State :=
  mkState (nodes s) (nodePositions s) v (selectedNodeIds s) (selectedDrawingIds s)
          (selectedEdgeId s) (zoomLevel s) (panOffset s) (isDarkMode s)
          (undoStack s) (redoStack s) (clipboard s).
Definition set_selectedNodeIds (s : State) (v : JsSet.t) : State :=
  mkState (nodes s) (nodePositions s) (drawings s) v (selectedDrawingIds s)
          (selectedEdgeId s) (zoomLevel s) (panOffset s) (isDarkMode s)
          (undoStack s) (redoStack s) (clipboard s).
Definition set_selectedDrawingIds (s : State) (v : JsSet.t) : State :=
  mkState (nodes s) (nodePositions s) (drawings s) (selectedNodeIds s) v
          (selectedEdgeId s) (zoomLevel s) (panOffset s) (isDarkMode s)
          (undoStack s) (redoStack s) (clipboard s).
Definition set_selectedEdgeId (s : State) (v : option string) : State :=
  mkState (nodes s) (nodePositions s) (drawings s) (selectedNodeIds s)
          (selectedDrawingIds s) v (zoomLevel s) (panOffset s) (isDarkMode s)
          (undoStack s) (redoStack s) (clipboard s).
Definition set_zoomLevel (s : State) (v : num) : State :=
  mkState (nodes s) (nodePositions s) (drawings s) (selectedNodeIds s)
          (selectedDrawingIds s) (selectedEdgeId s) v (panOffset s) (isDarkMode s)
          (undoStack s) (redoStack s) (clipboard s).
Definition set_panOffset (s : State) (v : num * num) : State :=
  mkState (nodes s) (nodePositions s) (drawings s) (selectedNodeIds s)
          (selectedDrawingIds s) (selectedEdgeId s) (zoomLevel s) v (isDarkMode s)
          (undoStack s) (redoStack s) (clipboard s).
Definition set_isDarkMode (s : State) (v : bool) : State :=
  mkState (nodes s) (nodePositions s) (drawings s) (selectedNodeIds s)
          (selectedDrawingIds s) (selectedEdgeId s) (zoomLevel s) (panOffset s) v
          (undoStack s) (redoStack s) (clipboard s).
Definition set_undoStack (s : State) (v : list HistorySnapshot) : State :=
  mkState (nodes s) (nodePositions s) (drawings s) (selectedNodeIds s)
          (selectedDrawingIds s) (selectedEdgeId s) (zoomLevel s) (panOffset s)
          (isDarkMode s) v (redoStack s) (clipboard s).
Definition set_redoStack (s : State) (v : list HistorySnapshot) : State :=
  mkState (nodes s) (nodePositions s) (drawings s) (selectedNodeIds s)
          (selectedDrawingIds s) (selectedEdgeId s) (zoomLevel s) (panOffset s)
          (isDarkMode s) (undoStack s) v (clipboard s).
Definition set_clipboard (s : State) (v : list ClipboardItem) : State :=
  mkState (nodes s) (nodePositions s) (drawings s) (selectedNodeIds s)
          (selectedDrawingIds s) (selectedEdgeId s) (zoomLevel s) (panOffset s)
          (isDarkMode s) (undoStack s) (redoStack s) v.

(** An operation either returns or throws; the fields keep what was written
    before the throw. *)
Inductive Outcome :=
  | Returned (s : State)
  | Threw (s : State).

Definition state_of (o : Outcome) : State :=
  match o with Returned s => s | Threw s => s end.

(** ** History management *)

Definition current_snapshot (s : State) : HistorySnapshot :=
  {| snap_nodes := nodes s;
     snap_positions := nodePositions s;
     snap_drawings := drawings s |}.

(** [undoStack.push(snapshot); if (length > max) shift(); redoStack = []] *)
Definition push_bounded (st : list HistorySnapshot) (snap : HistorySnapshot)
  : list HistorySnapshot :=
  let st' := st ++ [snap] in
  if Nat.ltb maxHistorySize (length st') then tl st' else st'.

Definition saveHistory (s : State) : State :=
  set_redoStack (set_undoStack s (push_bounded (undoStack s) (current_snapshot s))) [].

Definition clearSelection (s : State) : State :=
  set_selectedEdgeId
    (set_selectedDrawingIds (set_selectedNodeIds s JsSet.empty) JsSet.empty) None.

Definition applySnapshot (s : State) (snap : HistorySnapshot) : State :=
  clearSelection
    (set_drawings
       (set_nodePositions
          (set_nodes s (JsMap.of_entries (snap_nodes snap)))
          (JsMap.of_entries (snap_positions snap)))
       (snap_drawings snap)).

(** [stack.pop()]: the last element and the rest. *)
Definition pop {A} (st : list A) : option (A * list A) :=
  match rev st with
  | [] => None
  | top :: r => Some (top, rev r)
  end.

Definition undo (s : State) : State :=
  match pop (undoStack s) with
  | None => s
  | Some (prevSnapshot, rest) =>
      let s1 := set_redoStack s (redoStack s ++ [current_snapshot s]) in
      applySnapshot (set_undoStack s1 rest) prevSnapshot
  end.

Definition redo (s : State) : State :=
  match pop (redoStack s) with
  | None => s
  | Some (nextSnapshot, rest) =>
      let s1 := set_undoStack s (undoStack s ++ [current_snapshot s]) in
      applySnapshot (set_redoStack s1 rest) nextSnapshot
  end.

Definition clearChart (s : State) : State :=
  clearSelection
    (set_drawings (set_nodePositions (set_nodes s JsMap.empty) JsMap.empty) []).

(** ** Computed edges *)

(** The template literal [`${node.id}-${childId}`]. *)
Definition edge_name (a b : string) : string := String.append a (String.append "-" b).

Definition edges (s : State) : list ChartEdge :=
  let nodeMap := nodes s in
  flat_map
    (fun node =>
       flat_map
         (fun childId =>
            if JsMap.has nodeMap childId
            then [{| edge_id := edge_name (id node) childId;
                     sourceId := id node;
                     targetId := childId |}]
            else [])
         (children_of node))
    (JsMap.values nodeMap).

(** ** Topology actions *)

Definition removeFromParent (map : NodeMap) (childId : string) : NodeMap :=
  JsMap.forEach
    (fun m node =>
       if includes (children_of node) childId
       then JsMap.set m (id node)
              (with_children node
                 (filter (fun c => negb (c =? childId)) (children_of node)))
       else m)
    map.

(** The [for ... of] loop of [isDescendant], over a recursive call [rec]. *)
Fixpoint isDescendant_loop (rec : string -> option bool) (searchId : string)
    (cs : list string) : option bool :=
  match cs with
  | [] => Some false
  | childId :: rest =>
      if childId =? searchId then Some true
      else match rec childId with
           | None => None
           | Some true => Some true
           | Some false => isDescendant_loop rec searchId rest
           end
  end.

(** [isDescendant] recurses along [children] without a visited set.  [fuel]
    bounds the depth of nested calls; [None] is a recursion that needs more.
    A call chain of a run that returns never repeats a node, so the depth of
    such a run stays within the number of keys plus one. *)
Fixpoint isDescendant (fuel : nat) (map : NodeMap) (rootId searchId : string)
  : option bool :=
  match fuel with
  | O => None
  | S fuel' =>
      match JsMap.get map rootId with
      | None => Some false
      | Some node =>
          match children node with
          | None => Some false
          | Some cs => isDescendant_loop (fun c => isDescendant fuel' map c searchId)
                         searchId cs
          end
      end
  end.

Definition depth_bound (map : NodeMap) : nat := S (length map).
Arguments depth_bound : simpl never.

Definition linkNodes (sourceId targetId : string) (s : State) : Outcome :=
  if sourceId =? targetId then Returned s
  else if match JsMap.get (nodes s) sourceId with
          | Some source => includes (children_of source) targetId
          | None => false
          end
  then Returned s
  else match isDescendant (depth_bound (nodes s)) (nodes s) targetId sourceId with
       | None => Threw s
       | Some true => Returned s
       | Some false =>
           let s1 := saveHistory s in
           Returned
             (set_nodes s1
                (match JsMap.get (nodes s1) sourceId with
                 | Some node =>
                     let newMap := removeFromParent (nodes s1) targetId in
                     JsMap.set newMap sourceId
                       (with_children node (children_of node ++ [targetId]))
                 | None => nodes s1
                 end))
       end.

Definition unlinkEdge (sourceId targetId : string) (s : State) : State :=
  set_nodes s
    (match JsMap.get (nodes s) sourceId with
     | Some node =>
         match children node with
         | Some cs =>
             JsMap.set (nodes s) sourceId
               (with_children node (filter (fun i => negb (i =? targetId)) cs))
         | None => nodes s
         end
     | None => nodes s
     end).

Definition deleteSelectedEdge (s : State) : State :=
  match selectedEdgeId s with
  | None => s
  | Some edgeId =>
      if negb (str_truthy edgeId) then s
      else match find (fun e => edge_id e =? edgeId) (edges s) with
           | Some edge =>
               set_selectedEdgeId
                 (unlinkEdge (sourceId edge) (targetId edge) (saveHistory s)) None
           | None => s
           end
  end.

(** ** Node actions *)

Definition updateNodePosition (i : string) (nx ny : num) (s : State) : State :=
  set_nodePositions s
    (let current := JsMap.get (nodePositions s) i in
     JsMap.set (nodePositions s) i
       {| x := nx; y := ny;
          width := match current with Some c => width c | None => None end;
          height := match current with Some c => height c | None => None end |}).

(** [Math.round(v * 100) / 100], of the exact product. *)
Definition round2 (v : num) : num :=
  (zq (Qfloor (v * zq 100 + Q2Qc (1 # 2))%Qc) / zq 100)%Qc.

(** The [coords.map((coord, index) => ...)] of [shiftPath]. *)
Fixpoint shift_coords (index : nat) (dx dy : num) (coords : list num) : list num :=
  match coords with
  | [] => []
  | val :: rest =>
      round2 (val + (if Nat.even index then dx else dy))%Qc
        :: shift_coords (S index) dx dy rest
  end.

Definition shiftPath (p : list PathCommand) (dx dy : num) : list PathCommand :=
  map (fun c => {| command := command c; params := shift_coords 0 dx dy (params c) |}) p.

Definition with_path (d : Drawing) (p : list PathCommand) : Drawing :=
  {| d_id := d_id d; path := p; color := color d; strokeWidth := strokeWidth d |}.

Definition moveSelectedDrawings (dx dy : num) (s : State) : State :=
  let selectedIds := selectedDrawingIds s in
  if Nat.eqb (JsSet.size selectedIds) 0 then s
  else set_drawings s
         (map (fun d => if JsSet.has selectedIds (d_id d)
                        then with_path d (shiftPath (path d) dx dy)
                        else d)
              (drawings s)).

Definition updateNodeDimensions (i : string) (w h : num) (s : State) : State :=
  set_nodePositions s
    (match JsMap.get (nodePositions s) i with
     | Some current =>
         if num_ltb (zq 1) (num_abs (num_or (width current) (zq 208) - w)%Qc)
            || num_ltb (zq 1) (num_abs (num_or (height current) (zq 100) - h)%Qc)
         then JsMap.set (nodePositions s) i
                {| x := x current; y := y current; width := Some w; height := Some h |}
         else nodePositions s
     | None =>
         JsMap.set (nodePositions s) i
           {| x := zq 0; y := zq 0; width := Some w; height := Some h |}
     end).

Definition toggle (multi : bool) (current : JsSet.t) (i : string) : JsSet.t :=
  let newSet := if multi then current else JsSet.empty in
  if multi && JsSet.has newSet i then JsSet.delete newSet i else JsSet.add newSet i.

Definition selectNode (i : string) (multi : bool) (s : State) : State :=
  let s1 := set_selectedEdgeId s None in
  let s2 := set_selectedNodeIds s1 (toggle multi (selectedNodeIds s1) i) in
  if multi then s2 else set_selectedDrawingIds s2 JsSet.empty.

Definition selectDrawing (i : string) (multi : bool) (s : State) : State :=
  let s1 := set_selectedEdgeId s None in
  let s2 := set_selectedDrawingIds s1 (toggle multi (selectedDrawingIds s1) i) in
  if multi then s2 else set_selectedNodeIds s2 JsSet.empty.

Definition selectAll (s : State) : State :=
  set_selectedEdgeId
    (set_selectedDrawingIds
       (set_selectedNodeIds s (JsSet.of_list (JsMap.keys (nodes s))))
       (JsSet.of_list (map d_id (drawings s))))
    None.

Definition selectEdge (i : string) (s : State) : State :=
  set_selectedEdgeId
    (set_selectedDrawingIds (set_selectedNodeIds s JsSet.empty) JsSet.empty)
    (Some i).

(** [otherNode.department === v] *)
Definition department_is (n : ChartNode) (v : string) : bool :=
  match department n with Some d => d =? v | None => false end.

(** The rename propagation inside [updateNode]. *)
Definition propagate_rename (oldName newName : string) (newMap : NodeMap) : NodeMap :=
  JsMap.forEach
    (fun m otherNode =>
       if department_is otherNode oldName
       then JsMap.set m (id otherNode) (with_department otherNode newName)
       else m)
    newMap.

(** The body of [currentIds.forEach] in [updateNode]. *)
Definition updateNode_step (updatedNode : PartialNode) (newMap : NodeMap) (i : string)
  : NodeMap :=
  match JsMap.get newMap i with
  | Some node =>
      let newMap1 :=
        match p_name updatedNode with
        | Some newName =>
            if NodeType_eqb (type node) group && str_truthy newName
               && negb (name node =? newName)
            then propagate_rename (name node) newName newMap
            else newMap
        | None => newMap
        end in
      JsMap.set newMap1 i (spread node updatedNode)
  | None => newMap
  end.

Definition updateNode (updatedNode : PartialNode) (s : State) : State :=
  let currentIds := selectedNodeIds s in
  if Nat.eqb (JsSet.size currentIds) 0 then s
  else set_nodes s (fold_left (updateNode_step updatedNode) currentIds (nodes s)).

(** ** Group membership *)

Record Rect := mkRect { rx : num; ry : num; rw : num; rh : num }.

Definition getOverlapArea (r1 r2 : Rect) : num :=
  let overlapLeft := num_max (rx r1) (rx r2) in
  let overlapRight := num_min (rx r1 + rw r1)%Qc (rx r2 + rw r2)%Qc in
  let overlapTop := num_max (ry r1) (ry r2) in
  let overlapBottom := num_min (ry r1 + rh r1)%Qc (ry r2 + rh r2)%Qc in
  if num_ltb overlapLeft overlapRight && num_ltb overlapTop overlapBottom
  then ((overlapRight - overlapLeft) * (overlapBottom - overlapTop))%Qc
  else zq 0.

(** The rectangle of a group ([300] defaults) and of a card ([208 x 100]). *)
Definition group_rect (p : NodePosition) : Rect :=
  {| rx := x p; ry := y p;
     rw := num_or (width p) (zq 300); rh := num_or (height p) (zq 300) |}.
Definition node_rect (p : NodePosition) : Rect :=
  {| rx := x p; ry := y p;
     rw := num_or (width p) (zq 208); rh := num_or (height p) (zq 100) |}.

Definition updateGroupMembership (groupId : string) (s : State) : State :=
  let positions := nodePositions s in
  match JsMap.get (nodes s) groupId, JsMap.get positions groupId with
  | Some groupNode, Some groupPos =>
      if negb (NodeType_eqb (type groupNode) group) then s
      else
        let gRect := group_rect groupPos in
        set_nodes s
          (JsMap.forEach
             (fun newMap node =>
                if functionalTypes (type node) && negb (id node =? groupId)
                then match JsMap.get positions (id node) with
                     | Some pos =>
                         let overlap := getOverlapArea gRect (node_rect pos) in
                         if num_ltb (zq 0) overlap
                         then if department_is node (name groupNode) then newMap
                              else JsMap.set newMap (id node)
                                     (with_department node (name groupNode))
                         else if department_is node (name groupNode)
                              then JsMap.set newMap (id node) (with_department node "")
                              else newMap
                     | None => newMap
                     end
                else newMap)
             (nodes s))
  | _, _ => s
  end.

(** The search loop of [updateNodeMembership]: [(bestGroup, maxOverlap)]
    after the walk over the node map. *)
Definition best_group_step (positions : PosMap) (nodeId : string) (nRect : Rect)
    (acc : option ChartNode * num) (gNode : ChartNode) : option ChartNode * num :=
  if NodeType_eqb (type gNode) group && negb (id gNode =? nodeId)
  then match JsMap.get positions (id gNode) with
       | Some gPos =>
           let overlap := getOverlapArea nRect (group_rect gPos) in
           if num_ltb (snd acc) overlap then (Some gNode, overlap) else acc
       | None => acc
       end
  else acc.

Definition find_best_group (nodesMap : NodeMap) (positions : PosMap) (nodeId : string)
    (nRect : Rect) : option ChartNode * num :=
  fold_left (best_group_step positions nodeId nRect) (JsMap.values nodesMap)
            (None, zq 0).

Definition updateNodeMembership (nodeId : string) (s : State) : State :=
  match JsMap.get (nodes s) nodeId, JsMap.get (nodePositions s) nodeId with
  | Some node, Some pos =>
      if negb (functionalTypes (type node)) then s
      else
        let bestGroup :=
          fst (find_best_group (nodes s) (nodePositions s) nodeId (node_rect pos)) in
        set_nodes s
          (match JsMap.get (nodes s) nodeId with
           | None => nodes s
           | Some currentNode =>
               match bestGroup with
               | Some g =>
                   if department_is currentNode (name g) then nodes s
                   else JsMap.set (nodes s) nodeId (with_department currentNode (name g))
               | None =>
                   if str_truthy (str_or_empty (department currentNode))
                   then JsMap.set (nodes s) nodeId (with_department currentNode "")
                   else nodes s
               end
           end)
  | _, _ => s
  end.

(** ** Deletion *)

Definition deleteSelection (s : State) : State :=
  let nodeIds := selectedNodeIds s in
  let drawingIds := selectedDrawingIds s in
  if Nat.eqb (JsSet.size nodeIds) 0 && Nat.eqb (JsSet.size drawingIds) 0 then s
  else
    let s1 := saveHistory s in
    let s2 :=
      if Nat.ltb 0 (JsSet.size nodeIds)
      then set_nodePositions
             (set_nodes s1
                (fold_left
                   (fun newMap idToDelete =>
                      JsMap.delete (removeFromParent newMap idToDelete) idToDelete)
                   nodeIds (nodes s1)))
             (fold_left (fun newMap i => JsMap.delete newMap i) nodeIds
                        (nodePositions s1))
      else s1 in
    let s3 :=
      if Nat.ltb 0 (JsSet.size drawingIds)
      then set_drawings s2
             (filter (fun d => negb (JsSet.has drawingIds (d_id d))) (drawings s2))
      else s2 in
    set_selectedDrawingIds (set_selectedNodeIds s3 JsSet.empty) JsSet.empty.

Definition deleteDrawing (i : string) (s : State) : State :=
  let s1 := saveHistory s in
  let s2 := set_drawings s1 (filter (fun d => negb (d_id d =? i)) (drawings s1)) in
  set_selectedDrawingIds s2 (JsSet.delete (selectedDrawingIds s2) i).

Definition deleteSelectedNode (s : State) : State := deleteSelection s.

(** ** Path bounds *)

Definition lower (acc : option num) (v : num) : option num :=
  match acc with
  | None => Some v
  | Some m => if num_ltb v m then Some v else Some m
  end.
Definition raise (acc : option num) (v : num) : option num :=
  match acc with
  | None => Some v
  | Some m => if num_ltb m v then Some v else Some m
  end.

Record Bounds := mkBounds {
  b_minX : option num; b_minY : option num; b_maxX : option num; b_maxY : option num
}.

(** The loop [for (i = 0; i < numbers.length; i += 2)]; a missing [y]
    compares false and changes nothing. *)
Fixpoint bounds_loop (numbers : list num) (b : Bounds) : Bounds :=
  match numbers with
  | [] => b
  | vx :: [] =>
      {| b_minX := lower (b_minX b) vx; b_minY := b_minY b;
         b_maxX := raise (b_maxX b) vx; b_maxY := b_maxY b |}
  | vx :: vy :: rest =>
      bounds_loop rest
        {| b_minX := lower (b_minX b) vx; b_minY := lower (b_minY b) vy;
           b_maxX := raise (b_maxX b) vx; b_maxY := raise (b_maxY b) vy |}
  end.

(** All the numbers of the path, in order.  A path with a single number
    leaves [minY] infinite; that result is outside the model and is reported
    as the empty box. *)
Definition getDrawingBounds (d : list PathCommand) : Rect :=
  let numbers := flat_map params d in
  let b := bounds_loop numbers (mkBounds None None None None) in
  match b_minX b, b_minY b, b_maxX b, b_maxY b with
  | Some minX, Some minY, Some maxX, Some maxY =>
      {| rx := minX; ry := minY; rw := (maxX - minX)%Qc; rh := (maxY - minY)%Qc |}
  | _, _, _, _ => {| rx := zq 0; ry := zq 0; rw := zq 0; rh := zq 0 |}
  end.

(** ** Clipboard *)

Definition copySelection (s : State) : State :=
  let selectedNodes := selectedNodeIds s in
  let selectedDrawings := selectedDrawingIds s in
  if Nat.eqb (JsSet.size selectedNodes) 0 && Nat.eqb (JsSet.size selectedDrawings) 0
  then s
  else
    let copiedNodes :=
      flat_map
        (fun i =>
           match JsMap.get (nodes s) i, JsMap.get (nodePositions s) i with
           | Some node, Some pos =>
               [{| c_data := clip_node node; c_x := x pos; c_y := y pos;
                   c_width := num_or (width pos) (zq 208);
                   c_height := num_or (height pos) (zq 100) |}]
           | _, _ => []
           end)
        selectedNodes in
    let copiedDrawings :=
      flat_map
        (fun i =>
           match find (fun d => d_id d =? i) (drawings s) with
           | Some drawing =>
               let bounds := getDrawingBounds (path drawing) in
               [{| c_data := clip_drawing drawing; c_x := rx bounds; c_y := ry bounds;
                   c_width := rw bounds; c_height := rh bounds |}]
           | None => []
           end)
        selectedDrawings in
    set_clipboard s (copiedNodes ++ copiedDrawings).

(** What the first pass of [pasteNodes] accumulates. *)
Record PasteAcc := mkPasteAcc {
  idMap : JsMap.t string;
  newItems : list (ChartNode * NodePosition);
  newDrawings : list Drawing
}.

(** One clipboard item of the first pass; [newId] is the id drawn for it. *)
Definition paste_item (minX minY targetX targetY : num) (acc : PasteAcc)
    (drawn : string * ClipboardItem) : PasteAcc :=
  let newId := fst drawn in
  let item := snd drawn in
  let offsetX := (c_x item - minX)%Qc in
  let offsetY := (c_y item - minY)%Qc in
  match c_data item with
  | clip_node nodeData =>
      {| idMap := JsMap.set (idMap acc) (id nodeData) newId;
         newItems := newItems acc ++
           [(with_id nodeData newId,
             {| x := (targetX + offsetX)%Qc; y := (targetY + offsetY)%Qc;
                width := Some (c_width item); height := Some (c_height item) |})];
         newDrawings := newDrawings acc |}
  | clip_drawing drawingData =>
      let shiftedPath :=
        shiftPath (path drawingData)
                  ((targetX + offsetX) - c_x item)%Qc ((targetY + offsetY) - c_y item)%Qc in
      {| idMap := idMap acc;
         newItems := newItems acc;
         newDrawings := newDrawings acc ++
           [{| d_id := newId; path := shiftedPath; color := color drawingData;
               strokeWidth := strokeWidth drawingData |}] |}
  end.

(** The second pass: children of a pasted node are looked up in [idMap]. *)
Definition remap_children (ids : JsMap.t string) (n : ChartNode) : ChartNode :=
  match children n with
  | Some (c :: cs) =>
      with_children n
        (flat_map (fun childId => match JsMap.get ids childId with
                                  | Some newId => [newId]
                                  | None => []
                                  end) (c :: cs))
  | _ => n
  end.

(** [gen i] is the id that [Math.random()] yields for the [i]-th item. *)
Definition pasteNodes (gen : nat -> string) (targetX targetY : num) (s : State) : State :=
  match clipboard s with
  | [] => s
  | first :: others =>
      let s1 := saveHistory s in
      let minX := fold_left (fun m item => if num_ltb (c_x item) m then c_x item else m)
                            others (c_x first) in
      let minY := fold_left (fun m item => if num_ltb (c_y item) m then c_y item else m)
                            others (c_y first) in
      let drawn := combine (map gen (seq 0 (length (clipboard s)))) (clipboard s) in
      let acc := fold_left (paste_item minX minY targetX targetY) drawn
                           (mkPasteAcc JsMap.empty [] []) in
      let items := map (fun it => (remap_children (idMap acc) (fst it), snd it))
                       (newItems acc) in
      let s2 :=
        if Nat.ltb 0 (length items)
        then set_nodePositions
               (set_nodes s1
                  (fold_left (fun newMap it => JsMap.set newMap (id (fst it)) (fst it))
                             items (nodes s1)))
               (fold_left (fun newMap it => JsMap.set newMap (id (fst it)) (snd it))
                          items (nodePositions s1))
        else s1 in
      let s3 :=
        if Nat.ltb 0 (length (newDrawings acc))
        then set_drawings s2 (drawings s2 ++ newDrawings acc)
        else s2 in
      let s4 :=
        set_selectedDrawingIds
          (set_selectedNodeIds s3 (JsSet.of_list (map (fun it => id (fst it)) items)))
          (JsSet.of_list (map d_id (newDrawings acc))) in
      fold_left
        (fun st it => if NodeType_eqb (type (fst it)) group
                      then updateGroupMembership (id (fst it)) st
                      else st)
        items s4
  end.

(** ** Import *)

(** A JSON value read where an array is expected. *)
Inductive JsField (A : Type) :=
  | not_array
  | array (l : list A).
Arguments not_array {A}.
Arguments array {A} l.

(** An element handed to [new Map(iterable)]: a pair, or a value that is not
    an object, for which the constructor throws a [TypeError]. *)
Inductive JsEntry (V : Type) :=
  | entry (k : string) (v : V)
  | not_entry.
Arguments entry {V} k v.
Arguments not_entry {V}.

Record ImportData := mkImport {
  imp_nodes : JsField (JsEntry ChartNode);
  imp_positions : JsField (JsEntry NodePosition);
  imp_drawings : JsField Drawing
}.

Fixpoint map_of_json {V} (l : list (JsEntry V)) (acc : JsMap.t V) : option (JsMap.t V) :=
  match l with
  | [] => Some acc
  | entry k v :: rest => map_of_json rest (JsMap.set acc k v)
  | not_entry :: _ => None
  end.

(** [data] is [None] when the parsed value is falsy. *)
Definition importFromJson (data : option ImportData) (s : State) : Outcome :=
  match data with
  | Some {| imp_nodes := array ns; imp_positions := array ps; imp_drawings := ds |} =>
      let s1 := saveHistory s in
      match map_of_json ns JsMap.empty, map_of_json ps JsMap.empty with
      | Some newNodes, Some newPositions =>
          let newDrawings := match ds with array l => l | not_array => [] end in
          Returned
            (clearSelection
               (set_drawings
                  (set_nodePositions (set_nodes s1 newNodes) newPositions)
                  newDrawings))
      | _, _ =>
          (* catch: undo, then drop the redo entry that undo has pushed *)
          Returned (set_redoStack (undo s1) [])
      end
  | _ => Threw s
  end.

(** ** Auto layout *)

Definition CARD_WIDTH : num := zq 250.
Definition LEVEL_HEIGHT : num := zq 400.
Definition GROUP_PADDING : num := zq 150.
Definition GROUP_MARGIN : num := zq 800.
Definition NODE_MARGIN : num := zq 80.

Record Anchor := mkAnchor {
  groupId : string;
  offsetX : num;
  offsetY : num
}.

Definition is_freeform (ty : NodeType) : bool :=
  match ty with
  | text | note | shape => true
  | _ => false
  end.

Definition half (v : num) : num := (v / zq 2)%Qc.

(** The containment test of STEP 0.5: the centre of the node lies in the
    rectangle of the group. *)
Definition center_inside (nodePos groupPos : NodePosition) : bool :=
  let nodeCx := (x nodePos + half (num_or (width nodePos) (zq 0)))%Qc in
  let nodeCy := (y nodePos + half (num_or (height nodePos) (zq 0)))%Qc in
  num_leb (x groupPos) nodeCx
  && num_leb nodeCx (x groupPos + num_or (width groupPos) (zq 0))%Qc
  && num_leb (y groupPos) nodeCy
  && num_leb nodeCy (y groupPos + num_or (height groupPos) (zq 0))%Qc.

Definition anchor_to_group (currentPositions : PosMap) (node : ChartNode)
    (nodePos : NodePosition) (anchored : JsMap.t Anchor) (grp : ChartNode)
  : JsMap.t Anchor :=
  if NodeType_eqb (type grp) group
  then match JsMap.get currentPositions (id grp) with
       | Some groupPos =>
           if center_inside nodePos groupPos
           then JsMap.set anchored (id node)
                  {| groupId := id grp;
                     offsetX := (x nodePos - x groupPos)%Qc;
                     offsetY := (y nodePos - y groupPos)%Qc |}
           else anchored
       | None => anchored
       end
  else anchored.

Definition anchor_node (map : NodeMap) (currentPositions : PosMap)
    (anchoredNodes : JsMap.t Anchor) (node : ChartNode) : JsMap.t Anchor :=
  if is_freeform (type node)
  then match JsMap.get currentPositions (id node) with
       | None => anchoredNodes
       | Some nodePos =>
           fold_left (anchor_to_group currentPositions node nodePos)
                     (JsMap.values map) anchoredNodes
       end
  else anchoredNodes.

Definition capture_anchors (map : NodeMap) (currentPositions : PosMap) : JsMap.t Anchor :=
  fold_left (anchor_node map currentPositions) (JsMap.values map) JsMap.empty.

(** [map.get(i)?.department || ''] *)
Definition dept_of (map : NodeMap) (i : string) : string :=
  match JsMap.get map i with
  | Some n => str_or_empty (department n)
  | None => ""
  end.

(** [Array.prototype.sort] is stable; with a comparator that is a total
    preorder every stable sort returns the same array.  It is modelled by
    the stable insertion sort. *)
Fixpoint insert_by (le : string -> string -> bool) (a : string) (l : list string)
  : list string :=
  match l with
  | [] => [a]
  | b :: r => if le a b then a :: l else b :: insert_by le a r
  end.

Definition stable_sort (le : string -> string -> bool) (l : list string) : list string :=
  fold_right (insert_by le) [] l.

(** The comparator returns [1] exactly when [deptA > deptB].  The code
    compares the UTF-16 code units of the two strings, the model the bytes
    of theirs; on ASCII text a character is one code unit and one byte of
    the same value, and the two orders are the same. *)
Definition dept_le (map : NodeMap) (aId bId : string) : bool :=
  String.leb (dept_of map aId) (dept_of map bId).

Definition sort_node_children (map : NodeMap) (node : ChartNode) : ChartNode :=
  match children node with
  | Some (c1 :: c2 :: cs) =>
      with_children node (stable_sort (dept_le map) (c1 :: c2 :: cs))
  | _ => node
  end.

Definition sortChildrenByDepartment (map : NodeMap) : NodeMap :=
  JsMap.map_values (sort_node_children map) map.

(** The inner [while] of [measureSubtree]: one block of same-department
    children.  Returns the block width and the children not yet read. *)
Fixpoint measure_block (rec : string -> option num) (map : NodeMap)
    (startDept : string) (first : bool) (cs : list string) (blockWidth : num)
  : option (num * list string) :=
  match cs with
  | [] => Some (blockWidth, [])
  | c :: rest =>
      if dept_of map c =? startDept
      then match rec c with
           | None => None
           | Some w =>
               measure_block rec map startDept false rest
                 ((if first then blockWidth else blockWidth + NODE_MARGIN) + w)%Qc
           end
      else Some (blockWidth, cs)
  end.

(** The outer [while]; [n] counts its iterations and is never used up,
    because each block takes at least one child. *)
Fixpoint measure_blocks (n : nat) (rec : string -> option num) (map : NodeMap)
    (cs : list string) (totalWidth : num) : option num :=
  match cs, n with
  | [], _ => Some totalWidth
  | _ :: _, O => Some totalWidth
  | c :: _, S n' =>
      let startDept := dept_of map c in
      match measure_block rec map startDept true cs (zq 0) with
      | None => None
      | Some (blockWidth, rest) =>
          let blockWidth1 :=
            if str_truthy startDept then (blockWidth + GROUP_PADDING * zq 2)%Qc
            else blockWidth in
          let total1 := (totalWidth + blockWidth1)%Qc in
          let total2 := match rest with
                        | [] => total1
                        | _ :: _ => (total1 + GROUP_MARGIN)%Qc
                        end in
          measure_blocks n' rec map rest total2
      end
  end.

(** [fuel] bounds the depth of nested calls, as for [isDescendant]. *)
Fixpoint measureSubtree (fuel : nat) (map : NodeMap) (nodeId : string) : option num :=
  match fuel with
  | O => None
  | S fuel' =>
      match JsMap.get map nodeId with
      | None => Some (zq 0)
      | Some node =>
          match children node with
          | None | Some [] => Some CARD_WIDTH
          | Some cs =>
              measure_blocks (length cs) (measureSubtree fuel' map) map cs (zq 0)
          end
      end
  end.

(** The inner [while] of [executeLayout]. *)
Fixpoint layout_block (rec : string -> num -> PosMap -> option PosMap)
    (measure : string -> option num) (map : NodeMap) (startDept : string)
    (first : bool) (cs : list string) (currentX : num) (newPositions : PosMap)
  : option (num * PosMap * list string) :=
  match cs with
  | [] => Some (currentX, newPositions, [])
  | c :: rest =>
      if dept_of map c =? startDept
      then
        let currentX1 := if first then currentX else (currentX + NODE_MARGIN)%Qc in
        match measure c with
        | None => None
        | Some childW =>
            match rec c currentX1 newPositions with
            | None => None
            | Some np =>
                layout_block rec measure map startDept false rest
                             (currentX1 + childW)%Qc np
            end
        end
      else Some (currentX, newPositions, cs)
  end.

(** The outer [while] of [executeLayout]. *)
Fixpoint layout_blocks (n : nat) (rec : string -> num -> PosMap -> option PosMap)
    (measure : string -> option num) (map : NodeMap) (cs : list string)
    (currentX : num) (newPositions : PosMap) : option PosMap :=
  match cs, n with
  | [], _ => Some newPositions
  | _ :: _, O => Some newPositions
  | c :: _, S n' =>
      let startDept := dept_of map c in
      let currentX1 :=
        if str_truthy startDept then (currentX + GROUP_PADDING)%Qc else currentX in
      match layout_block rec measure map startDept true cs currentX1 newPositions with
      | None => None
      | Some (currentX2, np, rest) =>
          let currentX3 :=
            if str_truthy startDept then (currentX2 + GROUP_PADDING)%Qc else currentX2 in
          let currentX4 := match rest with
                           | [] => currentX3
                           | _ :: _ => (currentX3 + GROUP_MARGIN)%Qc
                           end in
          layout_blocks n' rec measure map rest currentX4 np
      end
  end.

(** [oldPos?.width || 208] and [oldPos?.height || 100] *)
Definition old_width (currentPositions : PosMap) (nodeId : string) : num :=
  num_or (match JsMap.get currentPositions nodeId with
          | Some p => width p
          | None => None
          end) (zq 208).
Definition old_height (currentPositions : PosMap) (nodeId : string) : num :=
  num_or (match JsMap.get currentPositions nodeId with
          | Some p => height p
          | None => None
          end) (zq 100).

(** [executeLayout(nodeId, x, depth)], writing into [newPositions]. *)
Fixpoint executeLayout (fuel : nat) (map : NodeMap) (currentPositions : PosMap)
    (nodeId : string) (x0 : num) (depth : num) (newPositions : PosMap)
  : option PosMap :=
  match fuel with
  | O => None
  | S fuel' =>
      match JsMap.get map nodeId with
      | None => Some newPositions
      | Some node =>
          match measureSubtree (depth_bound map) map nodeId with
          | None => None
          | Some totalW =>
              let contentCenter := (x0 + half totalW)%Qc in
              let w := old_width currentPositions nodeId in
              let h := old_height currentPositions nodeId in
              let np := JsMap.set newPositions nodeId
                          {| x := (contentCenter - half w)%Qc;
                             y := (depth * LEVEL_HEIGHT + zq 50)%Qc;
                             width := Some w; height := Some h |} in
              match children node with
              | None | Some [] => Some np
              | Some cs =>
                  layout_blocks (length cs)
                    (fun c cx acc =>
                       executeLayout fuel' map currentPositions c cx (depth + zq 1)%Qc acc)
                    (measureSubtree (depth_bound map) map) map cs x0 np
              end
          end
      end
  end.

(** Step 1: one root, and the roots left to right. *)
Definition layout_root (map : NodeMap) (currentPositions : PosMap)
    (acc : option (num * PosMap)) (root : ChartNode) : option (num * PosMap) :=
  match acc with
  | None => None
  | Some (rootX, newPositions) =>
      match measureSubtree (depth_bound map) map (id root) with
      | None => None
      | Some w =>
          match executeLayout (depth_bound map) map currentPositions
                              (id root) rootX (zq 0) newPositions with
          | None => None
          | Some np => Some ((rootX + (w + GROUP_MARGIN + zq 200))%Qc, np)
          end
      end
  end.

Definition layout_roots (map : NodeMap) (currentPositions : PosMap) : option PosMap :=
  let childrenSet := flat_map children_of (JsMap.values map) in
  let roots := filter (fun n => negb (includes childrenSet (id n))
                                && functionalTypes (type n))
                      (JsMap.values map) in
  option_map snd
    (fold_left (layout_root map currentPositions) roots (Some (zq 0, JsMap.empty))).

(** Step 2: nodes outside the hierarchy keep their position. *)
Definition transfer_step (map : NodeMap) (np : PosMap) (kv : string * NodePosition)
  : PosMap :=
  match JsMap.get map (fst kv) with
  | Some node => if functionalTypes (type node) then np
                 else JsMap.set np (fst kv) (snd kv)
  | None => np
  end.

Definition transfer_non_hierarchy (map : NodeMap) (currentPositions newPositions : PosMap)
  : PosMap :=
  fold_left (transfer_step map) currentPositions newPositions.

(** Step 3: the bounding box of one group's members. *)
Definition member_bounds (newPositions : PosMap) (members : list ChartNode) : Bounds :=
  fold_left
    (fun b member =>
       match JsMap.get newPositions (id member) with
       | Some pos =>
           let w := num_or (width pos) (zq 208) in
           let h := num_or (height pos) (zq 100) in
           {| b_minX := lower (b_minX b) (x pos);
              b_minY := lower (b_minY b) (y pos);
              b_maxX := raise (b_maxX b) (x pos + w)%Qc;
              b_maxY := raise (b_maxY b) (y pos + h)%Qc |}
       | None => b
       end)
    members (mkBounds None None None None).

Definition BOX_PADDING_SIDE : num := zq 100.
Definition BOX_PADDING_TOP : num := zq 100.
Definition BOX_PADDING_BOTTOM : num := zq 140.

(** The members of a group: the functional nodes tagged with its name. *)
Definition group_members (map : NodeMap) (grp : ChartNode) : list ChartNode :=
  filter (fun n => department_is n (name grp) && negb (id n =? id grp)
                   && functionalTypes (type n))
         (JsMap.values map).

(** The padded bounding box of the members that have a new position, if
    any has one. *)
Definition group_box (map : NodeMap) (newPositions : PosMap) (grp : ChartNode)
  : option NodePosition :=
  let b := member_bounds newPositions (group_members map grp) in
  match b_minX b, b_minY b, b_maxX b, b_maxY b with
  | Some minX, Some minY, Some maxX, Some maxY =>
      Some {| x := (minX - BOX_PADDING_SIDE)%Qc;
              y := (minY - BOX_PADDING_TOP)%Qc;
              width := Some ((maxX - minX) + BOX_PADDING_SIDE * zq 2)%Qc;
              height := Some ((maxY - minY) + BOX_PADDING_TOP + BOX_PADDING_BOTTOM)%Qc |}
  | _, _, _, _ => None
  end.

Definition fit_group (map : NodeMap) (newPositions : PosMap) (grp : ChartNode) : PosMap :=
  match group_box map newPositions grp with
  | Some box => JsMap.set newPositions (id grp) box
  | None => newPositions
  end.

Definition fit_groups (map : NodeMap) (newPositions : PosMap) : PosMap :=
  fold_left (fit_group map)
            (filter (fun n => NodeType_eqb (type n) group) (JsMap.values map))
            newPositions.

(** Step 4: anchored nodes follow their group. *)
Definition reattach_step (np : PosMap) (kv : string * Anchor) : PosMap :=
  let nodeId := fst kv in
  let anchor := snd kv in
  match JsMap.get np (groupId anchor), JsMap.get np nodeId with
  | Some newGroupPos, Some currentNodePos =>
      JsMap.set np nodeId
        {| x := (x newGroupPos + offsetX anchor)%Qc;
           y := (y newGroupPos + offsetY anchor)%Qc;
           width := width currentNodePos;
           height := height currentNodePos |}
  | _, _ => np
  end.

Definition reattach (anchoredNodes : JsMap.t Anchor) (newPositions : PosMap) : PosMap :=
  fold_left reattach_step anchoredNodes newPositions.

(** Steps 1 to 4; [None] when a recursion does not return. *)
Definition layout (map : NodeMap) (currentPositions : PosMap)
    (anchoredNodes : JsMap.t Anchor) : option PosMap :=
  match layout_roots map currentPositions with
  | None => None
  | Some np1 =>
      let np2 := transfer_non_hierarchy map currentPositions np1 in
      let np3 := fit_groups map np2 in
      Some (reattach anchoredNodes np3)
  end.

Definition autoLayout (saveState : bool) (s : State) : Outcome :=
  let s1 := if saveState then saveHistory s else s in
  let currentPositions := nodePositions s1 in
  let anchoredNodes := capture_anchors (nodes s1) currentPositions in
  let s2 := set_nodes s1 (sortChildrenByDepartment (nodes s1)) in
  match layout (nodes s2) currentPositions anchoredNodes with
  | Some newPositions => Returned (set_nodePositions s2 newPositions)
  | None => Threw s2
  end.

(** ** Adding nodes *)

Definition addNode (newId : string) (ty : NodeType) (nx ny : num)
    (options : PartialNode) (dimensions : option (num * num)) (s : State) : State :=
  let s1 := saveHistory s in
  let is_group := NodeType_eqb ty group in
  let is_text := NodeType_eqb ty text in
  let newNode :=
    spread
      {| id := newId;
         name := match ty with
                 | note => "New Note"
                 | shape => "New Shape"
                 | group => "New Area"
                 | text => "Type text..."
                 | _ => "New Role"
                 end;
         role := match ty with
                 | note | shape | group | text => ""
                 | _ => "Position"
                 end;
         department := None;
         type := ty;
         shapeType := Some rectangle;
         borderRadius := Some (zq 8);
         fontSize := Some (zq 14);
         fontFamily := Some "sans-serif";
         fontWeight := Some "normal";
         fontStyle := Some "normal";
         textDecoration := Some "none";
         textAlign := None;
         avatarType := avatar_icon;
         avatarImage := None;
         avatarIcon := Some "person";
         level := if functionalTypes ty then Some "P0 - Egresado" else None;
         children := Some [];
         backgroundColor := Some (if is_group || is_text then "transparent" else "#ffffff");
         nameColor := Some (if is_group then "#64748b" else "#0f172a");
         roleColor := Some "#475569";
         departmentColor := Some "#64748b";
         borderColor := Some "#cbd5e1";
         borderWidth := Some (if is_group then zq 2 else if is_text then zq 0 else zq 2) |}
      options in
  let size :=
    match dimensions with
    | Some (w, h) => (num_or (Some w) (zq 208), num_or (Some h) (zq 100))
    | None =>
        match ty with
        | note => (zq 200, zq 200)
        | shape => (zq 150, zq 150)
        | group => (zq 300, zq 300)
        | text => (zq 150, zq 50)
        | _ => (zq 208, zq 100)
        end
    end in
  let s2 := set_nodes s1 (JsMap.set (nodes s1) (id newNode) newNode) in
  let s3 := set_nodePositions s2
              (JsMap.set (nodePositions s2) (id newNode)
                 {| x := nx; y := ny; width := Some (fst size); height := Some (snd size) |}) in
  if is_group then updateGroupMembership (id newNode) s3 else s3.

(** The id that [addNode] returns. *)
Definition addNode_id (newId : string) (options : PartialNode) : string :=
  over newId (p_id options).

Definition addMember (newId : string) (s : State) : State :=
  let s1 := saveHistory s in
  let currentIds := selectedNodeIds s1 in
  let positions := nodePositions s1 in
  let parentId := match pop currentIds with
                  | Some (lastId, _) => Some lastId
                  | None => None
                  end in
  let parent_ok := match parentId with Some p => str_truthy p | None => false end in
  let place :=
    if parent_ok
    then match JsMap.get positions (str_or_empty parentId) with
         | Some parentPos =>
             let siblingsCount :=
               match JsMap.get (nodes s1) (str_or_empty parentId) with
               | Some parentNode => length (children_of parentNode)
               | None => O
               end in
             ((x parentPos + zq (Z.of_nat siblingsCount) * zq 240)%Qc,
              (y parentPos + zq 180)%Qc)
         | None => (zq 100, zq 100)
         end
    else match positions with
         | [] => (zq 100, zq 100)
         | _ :: _ =>
             let maxX := fold_left (fun m kv => if num_ltb m (x (snd kv)) then x (snd kv) else m)
                                   positions (zq 0) in
             ((maxX + zq 250)%Qc, zq 100)
         end in
  let s2 := addNode newId employee (fst place) (snd place) no_fields None s1 in
  let s3 :=
    if parent_ok
    then set_nodes s2
           (match JsMap.get (nodes s2) (str_or_empty parentId) with
            | Some parent =>
                JsMap.set (nodes s2) (str_or_empty parentId)
                  (with_children parent (children_of parent ++ [newId]))
            | None => nodes s2
            end)
    else s2 in
  set_selectedNodeIds s3 (JsSet.of_list [newId]).

(** ** Drawings and view *)

Definition addDrawing (d : Drawing) (s : State) : State :=
  let s1 := saveHistory s in
  set_drawings s1 (drawings s1 ++ [d]).

Definition clearDrawings (s : State) : State :=
  set_drawings (saveHistory s) [].

Definition updatePan (dx dy : num) (s : State) : State :=
  set_panOffset s ((fst (panOffset s) + dx)%Qc, (snd (panOffset s) + dy)%Qc).

(** ** Templates *)

Definition _addNode (mp : NodeMap * PosMap) (i nm rl : string) (ty : NodeType)
    (dept : string) (nx ny : num) (cs : list string) (options : PartialNode)
  : NodeMap * PosMap :=
  (JsMap.set (fst mp) i
     (spread
        {| id := i; name := nm; role := rl; department := Some dept; type := ty;
           shapeType := Some rectangle; borderRadius := Some (zq 8);
           fontSize := None; fontFamily := None; fontWeight := None;
           fontStyle := None; textDecoration := None; textAlign := None;
           avatarType := avatar_icon; avatarImage := None; avatarIcon := Some "person";
           level := if NodeType_eqb ty group then None else Some "P4 - Facilitar";
           children := Some cs;
           backgroundColor := Some "#ffffff"; nameColor := Some "#0f172a";
           roleColor := Some "#475569"; departmentColor := Some "#64748b";
           borderColor := Some "#cbd5e1"; borderWidth := Some (zq 2) |}
        options),
   JsMap.set (snd mp) i
     {| x := nx; y := ny; width := Some (zq 208); height := Some (zq 100) |}).

Definition addGroup (mp : NodeMap * PosMap) (i nm : string) (nx ny w h : num)
  : NodeMap * PosMap :=
  (JsMap.set (fst mp) i
     {| id := i; name := nm; role := ""; department := Some ""; type := group;
        shapeType := Some rectangle; borderRadius := Some (zq 16);
        fontSize := None; fontFamily := None; fontWeight := None;
        fontStyle := None; textDecoration := None; textAlign := None;
        avatarType := avatar_icon; avatarImage := None; avatarIcon := None;
        level := None; children := Some [];
        backgroundColor := Some "#fef9c3"; nameColor := Some "#854d0e";
        roleColor := Some ""; departmentColor := Some "";
        borderColor := Some "#fde047"; borderWidth := Some (zq 2) |},
   JsMap.set (snd mp) i {| x := nx; y := ny; width := Some w; height := Some h |}).

(** The avatar of node ['1'] is the "woman office worker" emoji; its UTF-8
    bytes are kept as they are. *)
Definition ceo_icon : string := "👩‍💼".

Definition functional_template : NodeMap * PosMap :=
  let mp0 : NodeMap * PosMap := (JsMap.empty, JsMap.empty) in
  let mp1 := addGroup mp0 "g1" "Management" (zq 500) (zq 50) (zq 300) (zq 300) in
  let mp2 := addGroup mp1 "g2" "Growth" (zq 200) (zq 250) (zq 300) (zq 300) in
  let mp3 := addGroup mp2 "g3" "Product" (zq 800) (zq 250) (zq 300) (zq 300) in
  let mp4 := _addNode mp3 "1" "Sarah Connor" "CEO / Founder" executive "Management"
                      (zq 600) (zq 50) ["2"; "3"] no_fields in
  let mp5 := _addNode mp4 "2" "James Wright" "Marketing VP" manager "Growth"
                      (zq 350) (zq 250) ["2-1"; "2-2"] no_fields in
  let mp6 := _addNode mp5 "2-1" "Growth Team" "Lead" employee "Growth"
                      (zq 250) (zq 450) [] no_fields in
  let mp7 := _addNode mp6 "2-2" "Brand Team" "Lead" employee "Growth"
                      (zq 450) (zq 450) [] no_fields in
  let mp8 := _addNode mp7 "3" "Emily Chen" "Engineering VP" manager "Product"
                      (zq 850) (zq 250) ["3-1"; "3-2"] no_fields in
  let mp9 := _addNode mp8 "3-1" "Frontend" "Team A" employee "Product"
                      (zq 750) (zq 450) [] no_fields in
  let mp10 := _addNode mp9 "3-2" "Backend" "Team B" employee "Product"
                       (zq 950) (zq 450) [] no_fields in
  (match JsMap.get (fst mp10) "1" with
   | Some n1 =>
       JsMap.set (fst mp10) "1"
         (spread n1 {| p_id := None; p_name := None; p_role := None;
                       p_department := None; p_type := None;
                       p_shapeType := None; p_borderRadius := None;
                       p_fontSize := None; p_fontFamily := None;
                       p_fontWeight := None; p_fontStyle := None;
                       p_textDecoration := None; p_textAlign := None;
                       p_avatarType := Some avatar_icon;
                       p_avatarImage := None; p_avatarIcon := Some ceo_icon;
                       p_level := None; p_children := None;
                       p_backgroundColor := None; p_nameColor := None;
                       p_roleColor := None; p_departmentColor := None;
                       p_borderColor := None; p_borderWidth := None |})
   | None => fst mp10
   end,
   snd mp10).

Definition loadFunctionalChart (saveState : bool) (s : State) : Outcome :=
  let s1 := if saveState then saveHistory s else s in
  let s2 := set_nodePositions (set_nodes s1 (fst functional_template))
                              (snd functional_template) in
  autoLayout false s2.

Definition loadWhiteboard (saveState : bool) (s : State) : State :=
  clearChart (if saveState then saveHistory s else s).

(** The fields as their initialisers leave them, and the state after the
    constructor, which loads the functional chart without saving history. *)
Definition blank : State :=
  {| nodes := JsMap.empty; nodePositions := JsMap.empty; drawings := [];
     selectedNodeIds := JsSet.empty; selectedDrawingIds := JsSet.empty;
     selectedEdgeId := None; zoomLevel := zq 100; panOffset := (zq 0, zq 0);
     isDarkMode := false; undoStack := []; redoStack := []; clipboard := [] |}.

Definition initial : State := state_of (loadFunctionalChart false blank).

(** ** The command surface *)

(** The public operations of the service.  [c_setZoom] and [c_setPan] stand
    for the writes to the two view signals ([zoomToFit], and the zoom buttons
    of the component, which set the signals directly). *)
Inductive Command :=
  | c_saveHistory
  | c_undo
  | c_redo
  | c_loadFunctionalChart (saveState : bool)
  | c_loadWhiteboard (saveState : bool)
  | c_autoLayout (saveState : bool)
  | c_linkNodes (source target : string)
  | c_unlinkEdge (source target : string)
  | c_deleteSelectedEdge
  | c_updateNodePosition (i : string) (nx ny : num)
  | c_moveSelectedDrawings (dx dy : num)
  | c_updateNodeDimensions (i : string) (w h : num)
  | c_selectNode (i : string) (multi : bool)
  | c_selectDrawing (i : string) (multi : bool)
  | c_selectAll
  | c_selectEdge (i : string)
  | c_clearSelection
  | c_updateNode (updatedNode : PartialNode)
  | c_updateGroupMembership (i : string)
  | c_updateNodeMembership (i : string)
  | c_deleteSelection
  | c_deleteDrawing (i : string)
  | c_deleteSelectedNode
  | c_copySelection
  | c_pasteNodes (gen : nat -> string) (targetX targetY : num)
  | c_importFromJson (data : option ImportData)
  | c_addNode (newId : string) (ty : NodeType) (nx ny : num)
              (options : PartialNode) (dimensions : option (num * num))
  | c_addMember (newId : string)
  | c_addDrawing (d : Drawing)
  | c_clearDrawings
  | c_updatePan (dx dy : num)
  | c_setZoom (z : num)
  | c_setPan (p : num * num)
  | c_toggleDarkMode.

Definition run (c : Command) (s : State) : Outcome :=
  match c with
  | c_saveHistory => Returned (saveHistory s)
  | c_undo => Returned (undo s)
  | c_redo => Returned (redo s)
  | c_loadFunctionalChart b => loadFunctionalChart b s
  | c_loadWhiteboard b => Returned (loadWhiteboard b s)
  | c_autoLayout b => autoLayout b s
  | c_linkNodes a b => linkNodes a b s
  | c_unlinkEdge a b => Returned (unlinkEdge a b s)
  | c_deleteSelectedEdge => Returned (deleteSelectedEdge s)
  | c_updateNodePosition i nx ny => Returned (updateNodePosition i nx ny s)
  | c_moveSelectedDrawings dx dy => Returned (moveSelectedDrawings dx dy s)
  | c_updateNodeDimensions i w h => Returned (updateNodeDimensions i w h s)
  | c_selectNode i multi => Returned (selectNode i multi s)
  | c_selectDrawing i multi => Returned (selectDrawing i multi s)
  | c_selectAll => Returned (selectAll s)
  | c_selectEdge i => Returned (selectEdge i s)
  | c_clearSelection => Returned (clearSelection s)
  | c_updateNode p => Returned (updateNode p s)
  | c_updateGroupMembership i => Returned (updateGroupMembership i s)
  | c_updateNodeMembership i => Returned (updateNodeMembership i s)
  | c_deleteSelection => Returned (deleteSelection s)
  | c_deleteDrawing i => Returned (deleteDrawing i s)
  | c_deleteSelectedNode => Returned (deleteSelectedNode s)
  | c_copySelection => Returned (copySelection s)
  | c_pasteNodes gen tx ty => Returned (pasteNodes gen tx ty s)
  | c_importFromJson data => importFromJson data s
  | c_addNode newId ty nx ny options dims =>
      Returned (addNode newId ty nx ny options dims s)
  | c_addMember newId => Returned (addMember newId s)
  | c_addDrawing d => Returned (addDrawing d s)
  | c_clearDrawings => Returned (clearDrawings s)
  | c_updatePan dx dy => Returned (updatePan dx dy s)
  | c_setZoom z => Returned (set_zoomLevel s z)
  | c_setPan p => Returned (set_panOffset s p)
  | c_toggleDarkMode => Returned (set_isDarkMode s (negb (isDarkMode s)))
  end.

(** The fields after a command, whether it returned or threw. *)
Definition step (c : Command) (s : State) : State := state_of (run c s).

Definition run_all (cs : list Command) (s : State) : State :=
  fold_left (fun st c => step c st) cs s.

(** The part of the state that a history snapshot records. *)
Definition content (s : State) : NodeMap * PosMap * list Drawing :=
  (nodes s, nodePositions s, drawings s).

(** ** Well-formedness *)

(** Every node is stored under its own [id]. *)
Definition ids_ok (m : NodeMap) : Prop :=
  forall k n, In (k, n) m -> id n = k.

Definition wf_state (s : State) : Prop :=
  JsMap.wf (nodes s) /\ JsMap.wf (nodePositions s).

(** ** Pointwise readings of the walks that write to the map they walk *)

Definition strip_child (childId : string) (node : ChartNode) : ChartNode :=
  if includes (children_of node) childId
  then with_children node (filter (fun c => negb (c =? childId)) (children_of node))
  else node.

Definition rename_department (oldName newName : string) (n : ChartNode) : ChartNode :=
  if department_is n oldName then with_department n newName else n.

(** What [updateGroupMembership] does to one node. *)
Definition adopt_or_orphan (positions : PosMap) (groupId : string) (gname : string)
    (gRect : Rect) (node : ChartNode) : ChartNode :=
  if functionalTypes (type node) && negb (id node =? groupId)
  then match JsMap.get positions (id node) with
       | Some pos =>
           if num_ltb (zq 0) (getOverlapArea gRect (node_rect pos))
           then if department_is node gname then node else with_department node gname
           else if department_is node gname then with_department node "" else node
       | None => node
       end
  else node.

(** ** Which commands record history *)

Definition already_linked (a b : string) (s : State) : bool :=
  match JsMap.get (nodes s) a with
  | Some source => includes (children_of source) b
  | None => false
  end.

(** [linkNodes a b] reaches its [saveHistory]. *)
Definition link_accepted (a b : string) (s : State) : bool :=
  negb (a =? b) && negb (already_linked a b s)
  && match isDescendant (depth_bound (nodes s)) (nodes s) b a with
     | Some false => true
     | _ => false
     end.

(** [deleteSelectedEdge] finds the selected edge. *)
Definition edge_found (s : State) : bool :=
  match selectedEdgeId s with
  | Some e => str_truthy e
              && match find (fun ed => edge_id ed =? e) (edges s) with
                 | Some _ => true
                 | None => false
                 end
  | None => false
  end.

Definition selection_empty (s : State) : bool :=
  Nat.eqb (JsSet.size (selectedNodeIds s)) 0
  && Nat.eqb (JsSet.size (selectedDrawingIds s)) 0.

Inductive ImportCase :=
  | import_invalid
  | import_fails
  | import_applies (newNodes : NodeMap) (newPositions : PosMap) (newDrawings : list Drawing).

(** The three ways [importFromJson] can go: the shape check fails; a [Map]
    constructor throws after the snapshot was saved; the data is applied. *)
Definition import_case (data : option ImportData) : ImportCase :=
  match data with
  | Some {| imp_nodes := array ns; imp_positions := array ps; imp_drawings := ds |} =>
      match map_of_json ns JsMap.empty, map_of_json ps JsMap.empty with
      | Some n, Some p =>
          import_applies n p (match ds with array l => l | not_array => [] end)
      | _, _ => import_fails
      end
  | _ => import_invalid
  end.

(** The command pushes a snapshot of the state it starts from and then
    leaves both stacks alone. *)
Definition records_history (c : Command) (s : State) : bool :=
  match c with
  | c_saveHistory => true
  | c_loadFunctionalChart b | c_loadWhiteboard b | c_autoLayout b => b
  | c_linkNodes a b => link_accepted a b s
  | c_deleteSelectedEdge => edge_found s
  | c_deleteSelection | c_deleteSelectedNode => negb (selection_empty s)
  | c_deleteDrawing _ | c_addNode _ _ _ _ _ _ | c_addMember _
  | c_addDrawing _ | c_clearDrawings => true
  | c_pasteNodes _ _ _ => match clipboard s with [] => false | _ :: _ => true end
  | c_importFromJson data =>
      match import_case data with import_applies _ _ _ => true | _ => false end
  | _ => false
  end.

Definition stacks (s : State) : list HistorySnapshot * list HistorySnapshot :=
  (undoStack s, redoStack s).

(** A state with the stacks that the command leaves. *)
Definition hist_model (c : Command) (s : State) : State :=
  match c with
  | c_undo => undo s
  | c_redo => redo s
  | c_addMember _ => saveHistory (saveHistory s)
  | c_importFromJson data =>
      match import_case data with
      | import_invalid => s
      | import_fails => set_redoStack (undo (saveHistory s)) []
      | import_applies _ _ _ => saveHistory s
      end
  | _ => if records_history c s then saveHistory s else s
  end.

(** The invariant behind the bound: the two stacks together never hold more
    than [maxHistorySize] entries.  [redo] pushes without trimming, but only
    what [undo] has popped before. *)
Definition history_inv (s : State) : Prop :=
  length (undoStack s) + length (redoStack s) <= maxHistorySize.

(** ** Decidable well-formedness *)

Fixpoint nodupb (l : list string) : bool :=
  match l with
  | [] => true
  | a :: r => negb (includes r a) && nodupb r
  end.

Definition wf_stateb (s : State) : bool :=
  nodupb (JsMap.keys (nodes s)) && nodupb (JsMap.keys (nodePositions s)).

Definition ids_okb (m : NodeMap) : bool :=
  forallb (fun kv => id (snd kv) =? fst kv) m.

(** ** Undo and redo as one operation *)

Inductive HistoryOp := op_undo | op_redo.

Definition history_op (o : HistoryOp) (s : State) : State :=
  match o with op_undo => undo s | op_redo => redo s end.

(** The operation finds a snapshot on its stack and applies it. *)
Definition applies_snapshot (o : HistoryOp) (s : State) : bool :=
  match o with
  | op_undo => match undoStack s with [] => false | _ :: _ => true end
  | op_redo => match redoStack s with [] => false | _ :: _ => true end
  end.

(** ** The children adjacency *)

(** [b] is listed in the [children] of the node stored under [a]. *)
Definition edge (m : NodeMap) (a b : string) : Prop :=
  exists n, JsMap.get m a = Some n /\ In b (children_of n).

(** [descends m a b]: a path of one or more edges leads from [a] to [b]. *)
Inductive descends (m : NodeMap) : string -> string -> Prop :=
  | desc_edge a b : edge m a b -> descends m a b
  | desc_step a b c : edge m a b -> descends m b c -> descends m a c.

Definition acyclic (m : NodeMap) : Prop := forall k, ~ descends m k k.

(** A chain of nested calls: each element is a stored node and lists the
    next one among its children. *)
Inductive chain_from (m : NodeMap) : string -> list string -> Prop :=
  | cf_nil r : chain_from m r []
  | cf_cons r n c l :
      JsMap.get m r = Some n -> In c (children_of n) -> chain_from m c l ->
      chain_from m r (r :: l).

(** Acyclicity decided with the service's own search. *)
Definition acyclicb (m : NodeMap) : bool :=
  forallb (fun k => match isDescendant (depth_bound m) m k k with
                    | Some false => true
                    | _ => false
                    end)
          (JsMap.keys m).

(** A sequence of [linkNodes] calls, each given as [(sourceId, targetId)]. *)
Definition link_all (links : list (string * string)) (s : State) : State :=
  fold_left (fun st l => state_of (linkNodes (fst l) (snd l) st)) links s.

(** The node map after an accepted link, for a stored source node. *)
Definition linked (m : NodeMap) (a b : string) (node : ChartNode) : NodeMap :=
  JsMap.set (JsMap.map_values (strip_child b) m) a
            (with_children node (children_of node ++ [b])).

(** ** Reading the membership search *)



(** The partial object [{ name: v }]. *)
Definition only_name (v : string) : PartialNode :=
  mkPartial None (Some v) None None None None None None None None None None
            None None None None None None None None None None None None.



(** ** Reading a paste *)

(** The clipboard with the id drawn for each item. *)
Definition drawn_ids (gen : nat -> string) (clip : list ClipboardItem)
  : list (string * ClipboardItem) :=
  combine (map gen (seq 0 (length clip))) clip.

Definition pasted_node (d : string * ClipboardItem) : list (string * ChartNode) :=
  match c_data (snd d) with
  | clip_node n => [(fst d, n)]
  | clip_drawing _ => []
  end.






(** The original ids on the clipboard. *)
Definition clipboard_node_ids (clip : list ClipboardItem) : list string :=
  flat_map (fun item => match c_data item with
                        | clip_node n => [id n]
                        | clip_drawing _ => []
                        end) clip.

(** Two node maps with the same keys, ids and children. *)
Definition same_links (m m' : NodeMap) : Prop :=
  forall k, option_map (fun n => (id n, children n)) (JsMap.get m' k)
            = option_map (fun n => (id n, children n)) (JsMap.get m k).

(** A chart with the manager ['2'] and its two reports copied, and ids to
    draw for a paste. *)
Definition copied_manager : State :=
  copySelection (selectNode "2-2" true (selectNode "2-1" true (selectNode "2" false initial))).

Definition sample_ids (i : nat) : string :=
  match i with
  | 0 => "n0"
  | 1 => "n1"
  | 2 => "n2"
  | _ => "n3"
  end.

(** ** Sorted children *)

Fixpoint sortedb (le : string -> string -> bool) (l : list string) : bool :=
  match l with
  | [] => true
  | a :: r => match r with
              | [] => true
              | b :: _ => le a b && sortedb le r
              end
  end.

(** ** Reading the layout *)


(** Every entry written so far belongs to a stored node and carries the old
    width and height of that node. *)
Definition laid_out (map : NodeMap) (C np : PosMap) : Prop :=
  forall k p, JsMap.get np k = Some p ->
              (exists node, JsMap.get map k = Some node)
              /\ width p = Some (old_width C k)
              /\ height p = Some (old_height C k).


(** ** Keyset parity *)

(** The node map and the geometry map hold the same ids. *)
Definition parity (M : NodeMap) (P : PosMap) : Prop :=
  forall k, JsMap.has M k = JsMap.has P k.

Definition parityb (M : NodeMap) (P : PosMap) : bool :=
  forallb (JsMap.has P) (JsMap.keys M) && forallb (JsMap.has M) (JsMap.keys P).

Definition keyed (s : State) : Prop :=
  ids_ok (nodes s) /\ parity (nodes s) (nodePositions s).

(** A snapshot that [undo] or [redo] can bring back. *)
Definition snapshot_ok (snap : HistorySnapshot) : Prop :=
  JsMap.wf (snap_nodes snap) /\ JsMap.wf (snap_positions snap)
  /\ ids_ok (snap_nodes snap) /\ parity (snap_nodes snap) (snap_positions snap).

(** Parity of the current maps and of every snapshot on the two stacks. *)
Definition parity_inv (s : State) : Prop :=
  wf_state s /\ keyed s
  /\ Forall snapshot_ok (undoStack s) /\ Forall snapshot_ok (redoStack s).

Definition functional_at (M : NodeMap) (k : string) : bool :=
  match JsMap.get M k with
  | Some n => functionalTypes (type n)
  | None => false
  end.

(** Every stored card (executive, manager, employee) that is listed as a
    child is listed by cards only, so that the layout, which starts from the
    cards without a parent, reaches it. *)
Definition hierarchy_ok (M : NodeMap) : Prop :=
  forall p c, edge M p c -> functional_at M c = true -> functional_at M p = true.

Definition hierarchy_okb (M : NodeMap) : bool :=
  forallb (fun kv => functionalTypes (type (snd kv))
                     || negb (existsb (functional_at M) (children_of (snd kv))))
          M.

(** In the geometry map under construction, every placed parent outside
    [excl] has all its stored children placed. *)
Definition children_placed (M : NodeMap) (excl : string -> Prop) (np : PosMap) : Prop :=
  forall p n c,
    ~ excl p -> JsMap.has np p = true -> JsMap.get M p = Some n ->
    In c (children_of n) -> JsMap.has M c = true -> JsMap.has np c = true.

(** The imported maps, when the import is applied, store every node under
    its own id and hold the same ids. *)
Definition import_ok (data : option ImportData) : Prop :=
  match import_case data with
  | import_applies newNodes newPositions _ =>
      ids_ok newNodes /\ parity newNodes newPositions
  | _ => True
  end.

(** The calls under which parity is kept: a geometry is written only for a
    stored node, a patch leaves the [id] field alone, an import brings
    matching maps, and the layout runs on an acyclic hierarchy of cards. *)
Definition keeps_parity (c : Command) (s : State) : Prop :=
  match c with
  | c_updateNodePosition i _ _ | c_updateNodeDimensions i _ _ =>
      JsMap.has (nodes s) i = true
  | c_updateNode p => p_id p = None
  | c_importFromJson data => import_ok data
  | c_autoLayout _ => acyclic (nodes s) /\ hierarchy_ok (nodes s)
  | _ => True
  end.

Fixpoint safe_trace (cs : list Command) (s : State) : Prop :=
  match cs with
  | [] => True
  | c :: rest => keeps_parity c s /\ safe_trace rest (step c s)
  end.

(** A session that adds a card, moves it, links it under the chief executive,
    lays the chart out, deletes the card and undoes the deletion. *)
Definition sample_session : list Command :=
  [ c_addNode "n1" employee (zq 10) (zq 20) no_fields None;
    c_updateNodePosition "n1" (zq 5) (zq 5);
    c_linkNodes "1" "n1";
    c_autoLayout true;
    c_selectNode "n1" false;
    c_deleteSelection;
    c_undo ].

(** A card linked under a note, then laid out. *)
Definition card_under_note : list Command :=
  [ c_addNode "n" note (zq 0) (zq 0) no_fields None;
    c_addNode "e" employee (zq 0) (zq 0) no_fields None;
    c_linkNodes "n" "e";
    c_autoLayout true ].

(** ** Derived views *)

(** An element of [flatNodes]: the node with its geometry. *)
Record FlatNode := mkFlat {
  f_data : ChartNode;
  f_x : num;
  f_y : num;
  f_width : option num;
  f_height : option num
}.

(** The stable sort of an array of nodes, as [insert_by] for ids. *)
Fixpoint insert_node (le : ChartNode -> ChartNode -> bool) (a : ChartNode)
    (l : list ChartNode) : list ChartNode :=
  match l with
  | [] => [a]
  | b :: r => if le a b then a :: l else b :: insert_node le a r
  end.

Definition sort_nodes (le : ChartNode -> ChartNode -> bool) (l : list ChartNode)
  : list ChartNode :=
  fold_right (insert_node le) [] l.

Definition is_group (n : ChartNode) : bool := NodeType_eqb (type n) group.

(** The comparator of [flatNodes] returns [1] exactly when [a] is not a
    group and [b] is one. *)
Definition groups_first (a b : ChartNode) : bool :=
  negb (negb (is_group a) && is_group b).

(** [positions.get(node.id) || { x: 0, y: 0 }] *)
Definition flat_of (positions : PosMap) (node : ChartNode) : FlatNode :=
  match JsMap.get positions (id node) with
  | Some pos => {| f_data := node; f_x := x pos; f_y := y pos;
                   f_width := width pos; f_height := height pos |}
  | None => {| f_data := node; f_x := zq 0; f_y := zq 0;
               f_width := None; f_height := None |}
  end.

Definition flatNodes (s : State) : list FlatNode :=
  map (flat_of (nodePositions s)) (sort_nodes groups_first (JsMap.values (nodes s))).


Definition selectionCount (s : State) : nat :=
  JsSet.size (selectedNodeIds s) + JsSet.size (selectedDrawingIds s).

(** ** Export *)

(** [exportAsJson] of the component: the entries of the two maps and the
    drawings, as [JSON.parse] reads them back. *)
Definition entries_of {V} (m : JsMap.t V) : JsField (JsEntry V) :=
  array (map (fun kv => entry (fst kv) (snd kv)) m).

Definition exportAsJson (s : State) : ImportData :=
  {| imp_nodes := entries_of (nodes s);
     imp_positions := entries_of (nodePositions s);
     imp_drawings := array (drawings s) |}.


(** No node is listed as a child by two nodes. *)
Definition single_parent (M : NodeMap) : Prop :=
  forall p q c, edge M p c -> edge M q c -> p = q.

(** The initial chart with the node ["2"] selected. *)
Definition sample_selection : State := selectNode "2" false initial.

(** What [updateNodeDimensions] does to the geometry map. *)
Definition resized (i : string) (w h : num) (P : PosMap) : PosMap :=
  match JsMap.get P i with
  | Some current =>
      if num_ltb (zq 1) (num_abs (num_or (width current) (zq 208) - w)%Qc)
         || num_ltb (zq 1) (num_abs (num_or (height current) (zq 100) - h)%Qc)
      then JsMap.set P i
             {| x := x current; y := y current; width := Some w; height := Some h |}
      else P
  | None =>
      JsMap.set P i {| x := zq 0; y := zq 0; width := Some w; height := Some h |}
  end.

(** ** The view *)

(** One step of the first loop of [zoomToFit]. *)
Definition position_bounds (b : Bounds) (pos : NodePosition) : Bounds :=
  let w := num_or (width pos) (zq 208) in
  let h := num_or (height pos) (zq 100) in
  {| b_minX := lower (b_minX b) (x pos);
     b_minY := lower (b_minY b) (y pos);
     b_maxX := raise (b_maxX b) (x pos + w)%Qc;
     b_maxY := raise (b_maxY b) (y pos + h)%Qc |}.

(** One step of its second loop: a drawing counts when its box has a
    positive width. *)
Definition drawing_bounds (b : Bounds) (d : Drawing) : Bounds :=
  let r := getDrawingBounds (path d) in
  if num_ltb (zq 0) (rw r)
  then {| b_minX := lower (b_minX b) (rx r);
          b_minY := lower (b_minY b) (ry r);
          b_maxX := raise (b_maxX b) (rx r + rw r)%Qc;
          b_maxY := raise (b_maxY b) (ry r + rh r)%Qc |}
  else b.

Definition reset_view (s : State) : State :=
  set_zoomLevel (set_panOffset s (zq 0, zq 0)) (zq 100).

(** The zoom that [zoomToFit] derives from the scale that fits: capped at
    150%, rounded down to a whole percent, at least 1%.  The floor is that
    of the exact product; the code floors the rounded one, which can be the
    neighbouring whole number. *)
Definition fit_percentage (newScale0 : num) : num :=
  let newScale := if num_ltb (Q2Qc (3 # 2)) newScale0 then Q2Qc (3 # 2) else newScale0 in
  let zoomPercentage := zq (Qfloor (newScale * zq 100)%Qc) in
  if num_ltb zoomPercentage (zq 1) then zq 1 else zoomPercentage.

(** The result of a division as the code computes it: a number, or, when
    the divisor is [0], an infinity with the sign of the dividend, or [NaN]
    for [0 / 0].  The divisors of [zoomToFit] are sums, so a zero divisor is
    the positive zero. *)
Inductive Quotient :=
  | q_num (v : num)
  | q_posInf
  | q_negInf
  | q_nan.

Definition js_div (a b : num) : Quotient :=
  if num_eqb b (zq 0)
  then if num_eqb a (zq 0) then q_nan
       else if num_ltb (zq 0) a then q_posInf else q_negInf
  else q_num (a / b)%Qc.

(** [Math.min] of two such results: [NaN] when one of them is. *)
Definition quotient_min (a b : Quotient) : Quotient :=
  match a, b with
  | q_nan, _ => q_nan
  | _, q_nan => q_nan
  | q_negInf, _ => q_negInf
  | _, q_negInf => q_negInf
  | q_posInf, o => o
  | o, q_posInf => o
  | q_num u, q_num v => q_num (num_min u v)
  end.

(** The zoom for a scale that may be infinite: [Infinity] is capped at 150%,
    the floor of [-Infinity] is below 1 and is raised to 1%, and [NaN] fails
    every comparison and is stored as it is ([None]: the zoom of the model
    is a number). *)
Definition fit_zoom (newScale : Quotient) : option num :=
  match newScale with
  | q_num v => Some (fit_percentage v)
  | q_posInf => Some (zq 150)
  | q_negInf => Some (zq 1)
  | q_nan => None
  end.

(** [zoomToFit(containerWidth, containerHeight)].  [None] when the zoom it
    computes is [NaN]: a container dimension and the padded content
    dimension it is divided by are both [0]. *)
Definition zoomToFit (containerWidth containerHeight : num) (s : State) : option State :=
  let positions := nodePositions s in
  if Nat.eqb (length positions) 0 && Nat.eqb (length (drawings s)) 0
  then Some (reset_view s)
  else
    let b1 := fold_left position_bounds (JsMap.values positions)
                        (mkBounds None None None None) in
    let b := fold_left drawing_bounds (drawings s) b1 in
    match b_minX b, b_minY b, b_maxX b, b_maxY b with
    | Some minX, Some minY, Some maxX, Some maxY =>
        let padding := zq 100 in
        let contentW := ((maxX - minX) + padding * zq 2)%Qc in
        let contentH := ((maxY - minY) + padding * zq 2)%Qc in
        let scaleX := js_div containerWidth contentW in
        let scaleY := js_div containerHeight contentH in
        match fit_zoom (quotient_min scaleX scaleY) with
        | None => None
        | Some zoomPercentage =>
            let finalScale := (zoomPercentage / zq 100)%Qc in
            let contentCenterX := (minX + (maxX - minX) / zq 2)%Qc in
            let contentCenterY := (minY + (maxY - minY) / zq 2)%Qc in
            let newPanX := (containerWidth / zq 2 - contentCenterX * finalScale)%Qc in
            let newPanY := (containerHeight / zq 2 - contentCenterY * finalScale)%Qc in
            Some (set_panOffset (set_zoomLevel s zoomPercentage) (newPanX, newPanY))
        end
    | _, _, _, _ => Some (reset_view s)
    end.

(** The zoom controls of the component. *)
Definition zoomIn (s : State) : State :=
  set_zoomLevel s (num_min (zoomLevel s + zq 10)%Qc (zq 500)).
Definition zoomOut (s : State) : State :=
  set_zoomLevel s (num_max (zoomLevel s - zq 10)%Qc (zq 10)).
Definition resetZoom (s : State) : State :=
  set_panOffset (set_zoomLevel s (zq 100)) (zq 0, zq 0).

(** [onWheel] with the control key held. *)
Definition wheelZoom (deltaY : num) (s : State) : State :=
  let delta := (- deltaY)%Qc in
  let zoomChange := if num_ltb (zq 0) delta then zq 10 else zq (-10) in
  set_zoomLevel s
    (num_min (num_max (zoomLevel s + zoomChange)%Qc (zq 10)) (zq 500)).

Inductive ViewOp :=
  | v_zoomIn
  | v_zoomOut
  | v_resetZoom
  | v_wheelZoom (deltaY : num)
  | v_zoomToFit (containerWidth containerHeight : num).

Definition view_step (o : ViewOp) (s : State) : option State :=
  match o with
  | v_zoomIn => Some (zoomIn s)
  | v_zoomOut => Some (zoomOut s)
  | v_resetZoom => Some (resetZoom s)
  | v_wheelZoom deltaY => Some (wheelZoom deltaY s)
  | v_zoomToFit w h => zoomToFit w h s
  end.

Fixpoint view_run (ops : list ViewOp) (s : State) : option State :=
  match ops with
  | [] => Some s
  | o :: rest => match view_step o s with
                 | Some s1 => view_run rest s1
                 | None => None
                 end
  end.

(** A zoom to fit whose container has a width and a height other than [0]
    never computes [NaN]. *)
Definition view_ok (o : ViewOp) : Prop :=
  match o with
  | v_zoomToFit w h => w <> zq 0 /\ h <> zq 0
  | _ => True
  end.

Definition zoom_in_range (s : State) : Prop :=
  (zq 1 <= zoomLevel s)%Qc /\ (zoomLevel s <= zq 500)%Qc.

Definition sample_view_ops : list ViewOp :=
  [v_zoomIn; v_zoomToFit (zq 800) (zq 600); v_zoomOut; v_wheelZoom (zq 3); v_zoomOut].

(** A whiteboard with one size report of 200 to the left for an id without
    a geometry: the padded content is 0 wide, so the scale along x is
    infinite. *)
Definition narrow_card : State :=
  updateNodeDimensions "c" (zq (-200)) (zq 100) blank.

(** ** Reading the result of the layout *)

(** The freeform node [k] has a geometry whose centre lies in the rectangle
    of some group that has a geometry: STEP 0.5 anchors it. *)
Definition inside_some_group (M : NodeMap) (C : PosMap) (k : string) : Prop :=
  exists pos grp gpos,
    JsMap.get C k = Some pos /\ In grp (JsMap.values M) /\ type grp = group
    /\ JsMap.get C (id grp) = Some gpos /\ center_inside pos gpos = true.


(** The geometry [box] of a group surrounds the geometry [pm] of a member
    with the paddings of STEP 3: 100 at the sides and the top, 140 below. *)
Definition surrounds (box pm : NodePosition) : Prop :=
  exists bw bh,
    width box = Some bw /\ height box = Some bh
    /\ (x box + zq 100 <= x pm)%Qc
    /\ (x pm + num_or (width pm) (zq 208) + zq 100 <= x box + bw)%Qc
    /\ (y box + zq 100 <= y pm)%Qc
    /\ (y pm + num_or (height pm) (zq 100) + zq 140 <= y box + bh)%Qc.


(** ** Reading the placement of a paste *)

(** The smallest [x] (or [y]) on the clipboard, as [pasteNodes] finds it. *)
Definition clip_min (f : ClipboardItem -> num) (first : ClipboardItem)
    (others : list ClipboardItem) : num :=
  fold_left (fun m item => if num_ltb (f item) m then f item else m) others (f first).

(** The geometry that [pasteNodes] gives to the copy of a clipboard node. *)
Definition pasted_geometry (minX minY targetX targetY : num) (item : ClipboardItem)
  : NodePosition :=
  {| x := (targetX + (c_x item - minX))%Qc;
     y := (targetY + (c_y item - minY))%Qc;
     width := Some (c_width item);
     height := Some (c_height item) |}.

Definition placed (minX minY targetX targetY : num) (d : string * ClipboardItem)
  : list (string * NodePosition) :=
  match c_data (snd d) with
  | clip_node _ => [(fst d, pasted_geometry minX minY targetX targetY (snd d))]
  | clip_drawing _ => []
  end.

(** ** Keeping the children links acyclic *)

Definition links_ok (M : NodeMap) : Prop := ids_ok M /\ acyclic M.

Definition snapshot_links_ok (snap : HistorySnapshot) : Prop :=
  JsMap.wf (snap_nodes snap) /\ JsMap.wf (snap_positions snap)
  /\ links_ok (snap_nodes snap).

(** Acyclic links in the current node map and in every snapshot on the two
    stacks. *)
Definition links_inv (s : State) : Prop :=
  wf_state s /\ links_ok (nodes s)
  /\ Forall snapshot_links_ok (undoStack s) /\ Forall snapshot_links_ok (redoStack s).

(** The calls under which the links stay acyclic: a patch or the options of
    a new node bring no [id] and no [children], the id drawn for a new
    member is not a selected id, an import brings acyclic links between
    nodes stored under their own ids.  [pasteNodes] is left out. *)
Definition keeps_links (c : Command) (s : State) : Prop :=
  match c with
  | c_updateNode p => p_id p = None /\ p_children p = None
  | c_addNode _ _ _ _ options _ => p_children options = None
  | c_addMember newId => ~ In newId (selectedNodeIds s)
  | c_pasteNodes _ _ _ => False
  | c_importFromJson data =>
      match import_case data with
      | import_applies newNodes _ _ => links_ok newNodes
      | _ => True
      end
  | _ => True
  end.

Fixpoint links_trace (cs : list Command) (s : State) : Prop :=
  match cs with
  | [] => True
  | c :: rest => keeps_links c s /\ links_trace rest (step c s)
  end.

(** A session that links, adds a member, lays out, deletes and undoes. *)
Definition sample_topology : list Command :=
  [ c_linkNodes "2" "3";
    c_selectNode "3-1" false;
    c_addMember "m";
    c_autoLayout true;
    c_unlinkEdge "1" "2";
    c_selectNode "2" false;
    c_deleteSelection;
    c_undo;
    c_linkNodes "3-2" "1" ].

(** ** Charts on which the claims are tested beyond their conditions *)

(** The partial objects [{ id: v }], [{ department: v }],
    [{ name: n, department: d }] and [{ id: i, name: n }]. *)
Definition only_id (v : string) : PartialNode :=
  mkPartial (Some v) None None None None None None None None None None None
            None None None None None None None None None None None None.
Definition only_department (v : string) : PartialNode :=
  mkPartial None None None (Some v) None None None None None None None None
            None None None None None None None None None None None None.
Definition name_and_department (n d : string) : PartialNode :=
  mkPartial None (Some n) None (Some d) None None None None None None None None
            None None None None None None None None None None None None.
Definition id_and_name (i n : string) : PartialNode :=
  mkPartial (Some i) (Some n) None None None None None None None None None None
            None None None None None None None None None None None None.

(** The initial chart after the manager ['2'] was selected and given the id
    ['zz'] through [updateNode]: the node stays under the key ['2']. *)
Definition renamed_manager : State :=
  run_all [c_selectNode "2" false; c_updateNode (only_id "zz")] initial.

(** The same for the group ['g2']. *)
Definition renamed_group : State :=
  run_all [c_selectNode "g2" false; c_updateNode (only_id "zz")] initial.

(** The group ['g2'] with its own name as department, still selected. *)
Definition self_tagged_group : State :=
  run_all [c_selectNode "g2" false; c_updateNode (only_department "Growth")] initial.


(** ** The overlap of two rectangles, in the words of the specification *)

(** A stored side, or the default where none, or [0], is stored. *)
Definition side (stored : option num) (default : Z) : num :=
  match stored with
  | Some v => if Qc_eq_dec v (zq 0) then zq default else v
  | None => zq default
  end.

(** The rectangle of a geometry, given the default width and height. *)
Definition rect_at (dw dh : Z) (p : NodePosition) : Rect :=
  {| rx := x p; ry := y p; rw := side (width p) dw; rh := side (height p) dh |}.

(** The length that the intervals from [lo1] and from [lo2], of lengths
    [len1] and [len2], have in common. *)
Definition common_length (lo1 len1 lo2 len2 : num) : num :=
  let lo := if Qclt_le_dec lo1 lo2 then lo2 else lo1 in
  let hi := if Qclt_le_dec (lo2 + len2) (lo1 + len1) then (lo2 + len2)%Qc
            else (lo1 + len1)%Qc in
  if Qclt_le_dec lo hi then (hi - lo)%Qc else zq 0.

(** The area two rectangles have in common. *)
Definition intersection_area (a b : Rect) : num :=
  (common_length (rx a) (rw a) (rx b) (rw b)
   * common_length (ry a) (rh a) (ry b) (rh b))%Qc.




(** ** The arithmetic of the anchors in binary64

    The numbers of the code are IEEE doubles.  The two operations below are
    the ones [autoLayout] applies to an anchored note: STEP 0.5 stores
    [nodePos.y - groupPos.y], STEP 4 writes [newGroupPos.y + anchor.offsetY]. *)
Module Binary64.
Import PrimFloat.




End Binary64.

(** A string of ASCII characters only. *)
Definition ascii_only (v : string) : bool :=
  forallb (fun c => Nat.ltb (nat_of_ascii c) 128) (list_ascii_of_string v).

(** The initial chart with the two reports of ['1'] linked in the other
    order: ['3'] (Product) before ['2'] (Growth). *)
Definition shuffled_reports : State :=
  link_all [("1", "2")] (unlinkEdge "1" "2" initial).

(** The width and the height stored for a key, if any. *)
Definition stored_width (C : PosMap) (k : string) : option num :=
  match JsMap.get C k with
  | Some p => width p
  | None => None
  end.
Definition stored_height (C : PosMap) (k : string) : option num :=
  match JsMap.get C k with
  | Some p => height p
  | None => None
  end.

(** The initial chart after the card ['2-1'] reported the size 0 x 0. *)
Definition flattened_card : State :=
  updateNodeDimensions "2-1" (zq 0) (zq 0) initial.

(** The initial chart with one drawing, selected and copied. *)
Definition copied_drawing : State :=
  copySelection
    (selectDrawing "d" false (addDrawing (mkDrawing "d" [] "red" (zq 2)) initial)).

(** * Proofs *)

(** ** Numbers *)

Lemma num_ltb_true a b : num_ltb a b = true <-> (a < b)%Qc.
Proof.
  unfold num_ltb. destruct (Qclt_le_dec a b) as [H | H]; split; intro K; auto.
  - discriminate.
  - exfalso. exact (Qcle_not_lt _ _ H K).
Qed.

Lemma num_ltb_false a b : num_ltb a b = false <-> (b <= a)%Qc.
Proof.
  unfold num_ltb. destruct (Qclt_le_dec a b) as [H | H]; split; intro K; auto.
  - discriminate.
  - exfalso. exact (Qcle_not_lt _ _ K H).
Qed.

Lemma num_eqb_true a b : num_eqb a b = true <-> a = b.
Proof.
  unfold num_eqb. destruct (Qc_eq_dec a b); split; intro K; auto; try discriminate; contradiction.
Qed.

Lemma num_eqb_refl a : num_eqb a a = true.
Proof. apply num_eqb_true. reflexivity. Qed.


Lemma NodeType_eqb_eq a b : NodeType_eqb a b = true <-> a = b.
Proof. destruct a, b; simpl; split; intro H; try reflexivity; discriminate. Qed.

(** ** Facts about maps *)

Section MapFacts.
Context {V : Type}.
Implicit Types (m : JsMap.t V) (k : string) (v : V).

Lemma get_set_same m k v : JsMap.get (JsMap.set m k v) k = Some v.
Proof.
  induction m as [| [k' v'] r IH]; simpl.
  - rewrite String.eqb_refl. reflexivity.
  - destruct (k' =? k) eqn:E; simpl.
    + rewrite String.eqb_refl. reflexivity.
    + rewrite E. exact IH.
Qed.

Lemma get_set_other m k k' v : k <> k' -> JsMap.get (JsMap.set m k v) k' = JsMap.get m k'.
Proof.
  intro Hne. induction m as [| [k0 v0] r IH]; simpl.
  - destruct (k =? k') eqn:E; [apply String.eqb_eq in E; contradiction | reflexivity].
  - destruct (k0 =? k) eqn:E; simpl.
    + apply String.eqb_eq in E. subst k0.
      destruct (k =? k') eqn:E'; [apply String.eqb_eq in E'; contradiction | reflexivity].
    + destruct (k0 =? k'); [reflexivity | exact IH].
Qed.

Lemma get_set m k k' v :
  JsMap.get (JsMap.set m k v) k' = if k =? k' then Some v else JsMap.get m k'.
Proof.
  destruct (k =? k') eqn:E.
  - apply String.eqb_eq in E. subst. apply get_set_same.
  - apply String.eqb_neq in E. apply get_set_other. exact E.
Qed.

Lemma get_In m k v : JsMap.get m k = Some v -> In (k, v) m.
Proof.
  induction m as [| [k' v'] r IH]; simpl; [discriminate |].
  destruct (k' =? k) eqn:E; intro H.
  - apply String.eqb_eq in E. injection H as ->. subst. left. reflexivity.
  - right. apply IH. exact H.
Qed.

Lemma get_None_keys m k : JsMap.get m k = None <-> ~ In k (JsMap.keys m).
Proof.
  induction m as [| [k' v'] r IH]; simpl.
  - split; auto.
  - destruct (k' =? k) eqn:E.
    + apply String.eqb_eq in E. split; [discriminate | intro H; exfalso; apply H; auto].
    + apply String.eqb_neq in E. rewrite IH. split; intro H.
      * intros [K | K]; [contradiction | auto].
      * intro K. apply H. right. exact K.
Qed.

Lemma get_Some_keys m k : (exists v, JsMap.get m k = Some v) <-> In k (JsMap.keys m).
Proof.
  split.
  - intros [v H]. apply get_In in H. apply (in_map fst) in H. exact H.
  - intro H. destruct (JsMap.get m k) eqn:E; [eauto |].
    apply get_None_keys in E. contradiction.
Qed.

Lemma In_get m k v : JsMap.wf m -> In (k, v) m -> JsMap.get m k = Some v.
Proof.
  unfold JsMap.wf. induction m as [| [k' v'] r IH]; simpl; intros Hnd Hin; [contradiction |].
  inversion Hnd as [| ? ? Hnotin Hnd']; subst.
  destruct Hin as [Heq | Hin].
  - injection Heq as -> ->. rewrite String.eqb_refl. reflexivity.
  - destruct (k' =? k) eqn:E.
    + apply String.eqb_eq in E. subst. exfalso. apply Hnotin.
      apply (in_map fst) in Hin. exact Hin.
    + apply IH; assumption.
Qed.

Lemma keys_set_present m k v :
  In k (JsMap.keys m) -> JsMap.keys (JsMap.set m k v) = JsMap.keys m.
Proof.
  induction m as [| [k' v'] r IH]; simpl; intro H; [contradiction |].
  destruct (k' =? k) eqn:E; simpl.
  - apply String.eqb_eq in E. subst. reflexivity.
  - f_equal. apply IH. destruct H as [H | H]; [| exact H].
    apply String.eqb_neq in E. contradiction.
Qed.

Lemma keys_set_absent m k v :
  ~ In k (JsMap.keys m) -> JsMap.keys (JsMap.set m k v) = JsMap.keys m ++ [k].
Proof.
  induction m as [| [k' v'] r IH]; simpl; intro H; [reflexivity |].
  destruct (k' =? k) eqn:E; simpl.
  - apply String.eqb_eq in E. subst. exfalso. apply H. left. reflexivity.
  - f_equal. apply IH. intro K. apply H. right. exact K.
Qed.

Lemma in_keys_set m k v k' :
  In k' (JsMap.keys (JsMap.set m k v)) <-> k' = k \/ In k' (JsMap.keys m).
Proof.
  destruct (in_dec string_dec k (JsMap.keys m)) as [Hin | Hnin].
  - rewrite keys_set_present by exact Hin. split; [auto |].
    intros [-> | H]; assumption.
  - rewrite keys_set_absent by exact Hnin. rewrite in_app_iff. simpl.
    split; [intros [H | [H | []]]; auto | intros [H | H]; auto].
Qed.

Lemma wf_set m k v : JsMap.wf m -> JsMap.wf (JsMap.set m k v).
Proof.
  unfold JsMap.wf. intro Hnd.
  destruct (in_dec string_dec k (JsMap.keys m)) as [Hin | Hnin].
  - rewrite keys_set_present by exact Hin. exact Hnd.
  - rewrite keys_set_absent by exact Hnin.
    apply NoDup_app; [exact Hnd | repeat constructor; simpl; tauto |].
    intros a Ha [<- | []]. contradiction.
Qed.

Lemma wf_empty : JsMap.wf (@JsMap.empty V).
Proof. constructor. Qed.

Lemma in_keys_delete m k k' :
  JsMap.wf m -> (In k' (JsMap.keys (JsMap.delete m k)) <-> k' <> k /\ In k' (JsMap.keys m)).
Proof.
  unfold JsMap.wf. induction m as [| [k0 v0] r IH]; simpl; intro Hnd.
  - tauto.
  - inversion Hnd as [| ? ? Hnotin Hnd']; subst.
    destruct (k0 =? k) eqn:E; simpl.
    + apply String.eqb_eq in E. subst. split.
      * intro H. split; [intros -> ; contradiction | auto].
      * intros [Hne [H | H]]; [congruence | exact H].
    + apply String.eqb_neq in E. rewrite (IH Hnd'). split.
      * intros [-> | [H1 H2]]; auto.
      * intros [H1 [H2 | H2]]; auto.
Qed.

Lemma wf_delete m k : JsMap.wf m -> JsMap.wf (JsMap.delete m k).
Proof.
  unfold JsMap.wf. induction m as [| [k0 v0] r IH]; simpl; intro Hnd; [constructor |].
  inversion Hnd as [| ? ? Hnotin Hnd']; subst.
  destruct (k0 =? k); simpl; [exact Hnd' |].
  constructor; [| apply IH; exact Hnd'].
  intro K. apply Hnotin. apply (in_keys_delete r k k0 Hnd') in K. tauto.
Qed.

Lemma set_absent_app m k v :
  ~ In k (JsMap.keys m) -> JsMap.set m k v = m ++ [(k, v)].
Proof.
  induction m as [| [k' v'] r IH]; simpl; intro H; [reflexivity |].
  destruct (k' =? k) eqn:E.
  - apply String.eqb_eq in E. subst. exfalso. apply H. left. reflexivity.
  - f_equal. apply IH. intro K. apply H. right. exact K.
Qed.

(** [new Map(Array.from(m.entries()))] rebuilds [m]. *)
Lemma of_entries_from acc l :
  JsMap.wf (acc ++ l) ->
  fold_left (fun m kv => JsMap.set m (fst kv) (snd kv)) l acc = acc ++ l.
Proof.
  revert acc. induction l as [| [k v] r IH]; simpl; intros acc Hwf.
  - rewrite app_nil_r. reflexivity.
  - rewrite set_absent_app.
    + rewrite IH; rewrite <- app_assoc; simpl; [reflexivity | exact Hwf].
    + unfold JsMap.wf, JsMap.keys in Hwf. rewrite map_app in Hwf. simpl in Hwf.
      apply NoDup_remove_2 in Hwf. intro K. apply Hwf. apply in_or_app. left. exact K.
Qed.

Lemma of_entries_id m : JsMap.wf m -> JsMap.of_entries m = m.
Proof. intro H. unfold JsMap.of_entries. apply (of_entries_from [] m). exact H. Qed.

Lemma wf_fold_set {A} (f : A -> string) (g : A -> V) (l : list A) m :
  JsMap.wf m -> JsMap.wf (fold_left (fun acc a => JsMap.set acc (f a) (g a)) l m).
Proof.
  revert m. induction l as [| a r IH]; simpl; intros m H; [exact H |].
  apply IH. apply wf_set. exact H.
Qed.

Lemma wf_of_entries (l : list (string * V)) : JsMap.wf (JsMap.of_entries l).
Proof. unfold JsMap.of_entries. apply wf_fold_set. apply wf_empty. Qed.

Lemma keys_map_values (f : V -> V) m : JsMap.keys (JsMap.map_values f m) = JsMap.keys m.
Proof.
  unfold JsMap.keys, JsMap.map_values. rewrite map_map. simpl. reflexivity.
Qed.

Lemma get_map_values (f : V -> V) m k :
  JsMap.get (JsMap.map_values f m) k = option_map f (JsMap.get m k).
Proof.
  induction m as [| [k' v'] r IH]; simpl; [reflexivity |].
  destruct (k' =? k); [reflexivity | exact IH].
Qed.

Lemma wf_map_values (f : V -> V) m : JsMap.wf m -> JsMap.wf (JsMap.map_values f m).
Proof. unfold JsMap.wf. rewrite keys_map_values. auto. Qed.

End MapFacts.

Section MoreMapFacts.
Context {V : Type}.
Implicit Types (m : JsMap.t V) (k : string) (v : V).

Lemma get_app_notin (A B : JsMap.t V) k :
  ~ In k (JsMap.keys A) -> JsMap.get (A ++ B) k = JsMap.get B k.
Proof.
  induction A as [| [k' v'] r IH]; simpl; intro H; [reflexivity |].
  destruct (k' =? k) eqn:E.
  - apply String.eqb_eq in E. subst. exfalso. apply H. left. reflexivity.
  - apply IH. intro K. apply H. right. exact K.
Qed.

Lemma set_app_notin (A B : JsMap.t V) k v :
  ~ In k (JsMap.keys A) -> JsMap.set (A ++ B) k v = A ++ JsMap.set B k v.
Proof.
  induction A as [| [k' v'] r IH]; simpl; intro H; [reflexivity |].
  destruct (k' =? k) eqn:E.
  - apply String.eqb_eq in E. subst. exfalso. apply H. left. reflexivity.
  - f_equal. apply IH. intro K. apply H. right. exact K.
Qed.

Lemma set_get_same m k v : JsMap.get m k = Some v -> JsMap.set m k v = m.
Proof.
  induction m as [| [k' v'] r IH]; simpl; [discriminate |].
  destruct (k' =? k) eqn:E; intro H.
  - apply String.eqb_eq in E. injection H as ->. subst. reflexivity.
  - f_equal. apply IH. exact H.
Qed.

(** A walk whose callback rewrites the entry it visits, and only that one,
    rewrites every entry. *)
Lemma forEach_from_pointwise (cb : JsMap.t V -> V -> JsMap.t V) (g : V -> V)
    (B A : JsMap.t V) (fuel : nat) :
  JsMap.wf (A ++ B) ->
  (forall m' k v, In (k, v) B -> JsMap.get m' k = Some v ->
                  cb m' v = JsMap.set m' k (g v)) ->
  length B <= fuel ->
  JsMap.forEach_from fuel (length A) cb (JsMap.map_values g A ++ B)
  = JsMap.map_values g (A ++ B).
Proof.
  revert A fuel. induction B as [| [k v] B' IH]; intros A fuel Hwf Hcb Hfuel.
  - rewrite !app_nil_r.
    assert (Hnone : nth_error (JsMap.map_values g A) (length A) = None).
    { apply nth_error_None. unfold JsMap.map_values. rewrite length_map. lia. }
    destruct fuel; simpl; [reflexivity |]. rewrite Hnone. reflexivity.
  - destruct fuel as [| fuel]; [simpl in Hfuel; lia |]. simpl.
    assert (Hnth : nth_error (JsMap.map_values g A ++ (k, v) :: B') (length A)
                   = Some (k, v)).
    { rewrite nth_error_app2; unfold JsMap.map_values; rewrite length_map; [| lia].
      rewrite Nat.sub_diag. reflexivity. }
    rewrite Hnth.
    assert (Hk : ~ In k (JsMap.keys A)).
    { unfold JsMap.wf, JsMap.keys in Hwf. rewrite map_app in Hwf. simpl in Hwf.
      apply NoDup_remove_2 in Hwf. intro K. apply Hwf. apply in_or_app. left. exact K. }
    assert (Hk' : ~ In k (JsMap.keys (JsMap.map_values g A))).
    { rewrite keys_map_values. exact Hk. }
    rewrite (Hcb _ k v).
    + rewrite set_app_notin by exact Hk'. simpl. rewrite String.eqb_refl.
      replace (JsMap.map_values g A ++ (k, g v) :: B')
        with (JsMap.map_values g (A ++ [(k, v)]) ++ B').
      2:{ unfold JsMap.map_values. rewrite map_app. rewrite <- app_assoc. reflexivity. }
      replace (S (length A)) with (length (A ++ [(k, v)])).
      2:{ rewrite length_app. simpl. lia. }
      rewrite IH.
      * rewrite <- app_assoc. reflexivity.
      * rewrite <- app_assoc. exact Hwf.
      * intros m' k0 v0 Hin. apply Hcb. right. exact Hin.
      * simpl in Hfuel. lia.
    + left. reflexivity.
    + rewrite get_app_notin by exact Hk'. simpl. rewrite String.eqb_refl. reflexivity.
Qed.

Lemma forEach_pointwise (cb : JsMap.t V -> V -> JsMap.t V) (g : V -> V) m :
  JsMap.wf m ->
  (forall m' k v, In (k, v) m -> JsMap.get m' k = Some v ->
                  cb m' v = JsMap.set m' k (g v)) ->
  JsMap.forEach cb m = JsMap.map_values g m.
Proof.
  intros Hwf Hcb. unfold JsMap.forEach.
  apply (forEach_from_pointwise cb g m [] (2 * length m)); simpl; auto. lia.
Qed.

End MoreMapFacts.

Lemma removeFromParent_pointwise (m : NodeMap) (childId : string) :
  JsMap.wf m -> ids_ok m ->
  removeFromParent m childId = JsMap.map_values (strip_child childId) m.
Proof.
  intros Hwf Hids. unfold removeFromParent. apply forEach_pointwise; [exact Hwf |].
  intros m' k v Hin Hget. unfold strip_child. rewrite (Hids k v Hin).
  destruct (includes (children_of v) childId); [reflexivity |].
  symmetry. apply set_get_same. exact Hget.
Qed.

Lemma propagate_rename_pointwise (m : NodeMap) (oldName newName : string) :
  JsMap.wf m -> ids_ok m ->
  propagate_rename oldName newName m
  = JsMap.map_values (rename_department oldName newName) m.
Proof.
  intros Hwf Hids. unfold propagate_rename. apply forEach_pointwise; [exact Hwf |].
  intros m' k v Hin Hget. unfold rename_department. rewrite (Hids k v Hin).
  destruct (department_is v oldName); [reflexivity |].
  symmetry. apply set_get_same. exact Hget.
Qed.

Lemma ids_ok_map_values (g : ChartNode -> ChartNode) (m : NodeMap) :
  (forall n, id (g n) = id n) -> ids_ok m -> ids_ok (JsMap.map_values g m).
Proof.
  intros Hg Hids k n Hin. unfold JsMap.map_values in Hin.
  apply in_map_iff in Hin. destruct Hin as [[k0 n0] [Heq Hin]].
  simpl in Heq. injection Heq as <- <-. rewrite Hg. apply Hids. exact Hin.
Qed.

Lemma ids_ok_set (m : NodeMap) k n : ids_ok m -> id n = k -> ids_ok (JsMap.set m k n).
Proof.
  intros Hids Hid. induction m as [| [k' n'] r IH]; simpl.
  - intros k0 n0 [H | []]. injection H as <- <-. exact Hid.
  - assert (Hr : ids_ok r) by (intros a b Hab; apply Hids; right; exact Hab).
    destruct (k' =? k) eqn:E.
    + intros k0 n0 [H | H]; [injection H as <- <-; exact Hid | apply Hids; right; exact H].
    + intros k0 n0 [H | H]; [apply Hids; left; exact H | apply (IH Hr); exact H].
Qed.

Lemma ids_ok_delete (m : NodeMap) k : ids_ok m -> ids_ok (JsMap.delete m k).
Proof.
  intros Hids. induction m as [| [k' n'] r IH]; simpl; [exact Hids |].
  assert (Hr : ids_ok r) by (intros a b Hab; apply Hids; right; exact Hab).
  destruct (k' =? k); [exact Hr |].
  intros k0 n0 [H | H]; [apply Hids; left; exact H | apply (IH Hr); exact H].
Qed.

Lemma ids_ok_get (m : NodeMap) k n : ids_ok m -> JsMap.get m k = Some n -> id n = k.
Proof. intros Hids Hget. apply Hids. apply get_In. exact Hget. Qed.

(** ** Deciding well-formedness *)

Lemma includes_In l a : includes l a = true <-> In a l.
Proof.
  unfold includes. rewrite existsb_exists. split.
  - intros [y [Hy E]]. apply String.eqb_eq in E. subst. exact Hy.
  - intro H. exists a. split; [exact H | apply String.eqb_refl].
Qed.

Lemma nodupb_sound l : nodupb l = true -> NoDup l.
Proof.
  induction l as [| a r IH]; simpl; intro H; [constructor |].
  apply andb_prop in H. destruct H as [H1 H2]. constructor.
  - intro K. apply includes_In in K. rewrite K in H1. discriminate.
  - apply IH. exact H2.
Qed.

Lemma wf_stateb_sound s : wf_stateb s = true -> wf_state s.
Proof.
  unfold wf_stateb, wf_state, JsMap.wf. intro H. apply andb_prop in H.
  destruct H as [H1 H2]. split; apply nodupb_sound; assumption.
Qed.

Lemma ids_okb_sound m : ids_okb m = true -> ids_ok m.
Proof.
  unfold ids_okb, ids_ok. rewrite forallb_forall. intros H k n Hin.
  specialize (H (k, n) Hin). simpl in H. apply String.eqb_eq in H. exact H.
Qed.

(** ** Facts about the history stacks *)

Lemma pop_app {A} (st : list A) (a : A) : pop (st ++ [a]) = Some (a, st).
Proof. unfold pop. rewrite rev_app_distr. simpl. rewrite rev_involutive. reflexivity. Qed.

Lemma pop_nil {A} : pop (@nil A) = None.
Proof. reflexivity. Qed.

Lemma pop_some {A} (st : list A) (a : A) (r : list A) :
  pop st = Some (a, r) -> st = r ++ [a].
Proof.
  unfold pop. destruct (rev st) as [| top rest] eqn:E; [discriminate |].
  intro H. injection H as <- <-.
  rewrite <- (rev_involutive st). rewrite E. reflexivity.
Qed.

Lemma pop_none {A} (st : list A) : pop st = None -> st = [].
Proof.
  unfold pop. destruct (rev st) as [| top rest] eqn:E; [| discriminate].
  intros _. rewrite <- (rev_involutive st). rewrite E. reflexivity.
Qed.

Lemma push_bounded_last st snap :
  exists rest, push_bounded st snap = rest ++ [snap].
Proof.
  unfold push_bounded. destruct st as [| a st'].
  - exists []. reflexivity.
  - destruct (Nat.ltb maxHistorySize (length ((a :: st') ++ [snap]))).
    + exists st'. reflexivity.
    + exists (a :: st'). reflexivity.
Qed.

(** ** Well-formedness is kept by every operation *)

Lemma wf_forEach_from {V} (cb : JsMap.t V -> V -> JsMap.t V) fuel i (m : JsMap.t V) :
  (forall m' v, JsMap.wf m' -> JsMap.wf (cb m' v)) ->
  JsMap.wf m -> JsMap.wf (JsMap.forEach_from fuel i cb m).
Proof.
  intro Hcb. revert i m. induction fuel as [| fuel IH]; simpl; intros i m Hwf; [exact Hwf |].
  destruct (nth_error m i) as [[k v] |]; [| exact Hwf].
  apply IH. apply Hcb. exact Hwf.
Qed.

Lemma wf_forEach {V} (cb : JsMap.t V -> V -> JsMap.t V) (m : JsMap.t V) :
  (forall m' v, JsMap.wf m' -> JsMap.wf (cb m' v)) ->
  JsMap.wf m -> JsMap.wf (JsMap.forEach cb m).
Proof. intros. unfold JsMap.forEach. apply wf_forEach_from; assumption. Qed.

Lemma wf_removeFromParent m c : JsMap.wf m -> JsMap.wf (removeFromParent m c).
Proof.
  intro H. unfold removeFromParent. apply wf_forEach; [| exact H].
  intros m' v Hm'. destruct (includes (children_of v) c); [apply wf_set |]; exact Hm'.
Qed.

Lemma wf_propagate_rename a b m : JsMap.wf m -> JsMap.wf (propagate_rename a b m).
Proof.
  intro H. unfold propagate_rename. apply wf_forEach; [| exact H].
  intros m' v Hm'. destruct (department_is v a); [apply wf_set |]; exact Hm'.
Qed.

Lemma wf_fold_left {A V} (f : JsMap.t V -> A -> JsMap.t V) (l : list A) (m : JsMap.t V) :
  (forall m' a, JsMap.wf m' -> JsMap.wf (f m' a)) ->
  JsMap.wf m -> JsMap.wf (fold_left f l m).
Proof.
  intro Hf. revert m. induction l as [| a r IH]; simpl; intros m H; [exact H |].
  apply IH. apply Hf. exact H.
Qed.

Lemma wf_updateGroupMembership g s : wf_state s -> wf_state (updateGroupMembership g s).
Proof.
  intros [Hn Hp]. unfold updateGroupMembership.
  destruct (JsMap.get (nodes s) g) as [gn |]; [| split; assumption].
  destruct (JsMap.get (nodePositions s) g) as [gp |]; [| split; assumption].
  destruct (negb (NodeType_eqb (type gn) group)); [split; assumption |].
  split; [| exact Hp]. simpl. apply wf_forEach; [| exact Hn].
  intros m' v Hm'.
  destruct (functionalTypes (type v) && negb (id v =? g)); [| exact Hm'].
  destruct (JsMap.get (nodePositions s) (id v)); [| exact Hm'].
  destruct (num_ltb _ _); destruct (department_is v (name gn));
    try exact Hm'; apply wf_set; exact Hm'.
Qed.

Lemma wf_applySnapshot s snap : wf_state (applySnapshot s snap).
Proof. split; simpl; apply wf_of_entries. Qed.

Lemma wf_undo s : wf_state s -> wf_state (undo s).
Proof.
  intro H. unfold undo. destruct (pop (undoStack s)) as [[p r] |]; [| exact H].
  apply wf_applySnapshot.
Qed.

Lemma wf_redo s : wf_state s -> wf_state (redo s).
Proof.
  intro H. unfold redo. destruct (pop (redoStack s)) as [[p r] |]; [| exact H].
  apply wf_applySnapshot.
Qed.

Lemma wf_layout_block rec measure map sd first cs cx np cx' np' rest :
  (forall c cx0 acc acc', JsMap.wf acc -> rec c cx0 acc = Some acc' -> JsMap.wf acc') ->
  JsMap.wf np ->
  layout_block rec measure map sd first cs cx np = Some (cx', np', rest) ->
  JsMap.wf np'.
Proof.
  intro Hrec. revert first cx np. induction cs as [| c r IH]; simpl; intros first cx np Hwf H.
  - injection H as <- <- <-. exact Hwf.
  - destruct (dept_of map c =? sd).
    + destruct (measure c) as [w |]; [| discriminate].
      destruct (rec c _ np) as [np1 |] eqn:E; [| discriminate].
      apply (IH _ _ _ (Hrec _ _ _ _ Hwf E) H).
    + injection H as <- <- <-. exact Hwf.
Qed.

Lemma wf_layout_blocks n rec measure map cs cx np np' :
  (forall c cx0 acc acc', JsMap.wf acc -> rec c cx0 acc = Some acc' -> JsMap.wf acc') ->
  JsMap.wf np ->
  layout_blocks n rec measure map cs cx np = Some np' ->
  JsMap.wf np'.
Proof.
  intro Hrec. revert cs cx np. induction n as [| n IH]; intros cs cx np Hwf H.
  - destruct cs; cbn [layout_blocks] in H; injection H as <-; exact Hwf.
  - destruct cs as [| c r]; cbn [layout_blocks] in H; [injection H as <-; exact Hwf |].
    destruct (layout_block rec measure map (dept_of map c) true (c :: r) _ np)
      as [[[cx2 np2] rest] |] eqn:E; [| discriminate].
    apply (IH _ _ _ (wf_layout_block _ _ _ _ _ _ _ _ _ _ _ Hrec Hwf E) H).
Qed.

Lemma wf_executeLayout fuel map cur nodeId x0 depth np np' :
  JsMap.wf np ->
  executeLayout fuel map cur nodeId x0 depth np = Some np' ->
  JsMap.wf np'.
Proof.
  revert nodeId x0 depth np np'.
  induction fuel as [| fuel IH]; intros nodeId x0 depth np np' Hwf H;
    cbn [executeLayout] in H; [discriminate |].
  destruct (JsMap.get map nodeId) as [node |]; [| injection H as <-; exact Hwf].
  destruct (measureSubtree (depth_bound map) map nodeId) as [tw |]; [| discriminate].
  match type of H with
  | context [JsMap.set np nodeId ?p] =>
      assert (Hwf1 : JsMap.wf (JsMap.set np nodeId p)) by (apply wf_set; exact Hwf)
  end.
  destruct (children node) as [[| c cs] |]; try (injection H as <-; exact Hwf1).
  eapply wf_layout_blocks; [| exact Hwf1 | exact H].
  intros c0 cx0 acc acc' Hacc Hrec. cbv beta in Hrec. eapply IH; eassumption.
Qed.

Lemma wf_layout_root map cur acc root rx p :
  (forall rx0 p0, acc = Some (rx0, p0) -> JsMap.wf p0) ->
  layout_root map cur acc root = Some (rx, p) -> JsMap.wf p.
Proof.
  intros Hacc H. unfold layout_root in H.
  destruct acc as [[rootX p0] |]; [| discriminate].
  destruct (measureSubtree (depth_bound map) map (id root)); [| discriminate].
  destruct (executeLayout _ _ _ _ _ _ p0) as [np0 |] eqn:E; [| discriminate].
  injection H as <- <-. eapply wf_executeLayout; [| exact E].
  eapply Hacc. reflexivity.
Qed.

Lemma wf_layout_roots map cur np : layout_roots map cur = Some np -> JsMap.wf np.
Proof.
  unfold layout_roots.
  set (roots := filter _ (JsMap.values map)). clearbody roots.
  assert (Hgen : forall acc,
             (forall rx0 p, acc = Some (rx0, p) -> JsMap.wf p) ->
             forall rx1 p1,
               fold_left (layout_root map cur) roots acc = Some (rx1, p1) -> JsMap.wf p1).
  { induction roots as [| r rs IH]; cbn [fold_left]; intros acc Hacc rx1 p1 H.
    - eapply Hacc. exact H.
    - eapply IH; [| exact H]. intros rx0 p Heq.
      eapply wf_layout_root; eassumption. }
  intro H.
  match type of H with
  | option_map snd ?f = _ => destruct f as [[rx1 p1] |] eqn:E; [| discriminate]
  end.
  simpl in H. injection H as <-. eapply Hgen; [| exact E].
  intros rx0 p Heq. injection Heq as <- <-. apply wf_empty.
Qed.

Lemma wf_layout map cur anchored np : layout map cur anchored = Some np -> JsMap.wf np.
Proof.
  unfold layout. destruct (layout_roots map cur) as [np1 |] eqn:E; [| discriminate].
  intro H. injection H as <-. apply wf_layout_roots in E.
  unfold reattach. apply wf_fold_left.
  { intros m' a Hm'. unfold reattach_step.
    destruct (JsMap.get m' (groupId (snd a))); [| exact Hm'].
    destruct (JsMap.get m' (fst a)); [apply wf_set |]; exact Hm'. }
  unfold fit_groups. apply wf_fold_left.
  { intros m' a Hm'. unfold fit_group.
    destruct (group_box map m' a); [apply wf_set |]; exact Hm'. }
  unfold transfer_non_hierarchy. apply wf_fold_left; [| exact E].
  intros m' a Hm'. unfold transfer_step.
  destruct (JsMap.get map (fst a)) as [nd |]; [| exact Hm'].
  destruct (functionalTypes (type nd)); [exact Hm' | apply wf_set; exact Hm'].
Qed.

Lemma wf_autoLayout b s : wf_state s -> wf_state (state_of (autoLayout b s)).
Proof.
  intros [Hn Hp]. unfold autoLayout.
  assert (H1 : wf_state (if b then saveHistory s else s)) by (destruct b; split; assumption).
  destruct H1 as [Hn1 Hp1].
  destruct (layout _ _ _) as [np |] eqn:E; simpl.
  - split; simpl; [apply wf_map_values; exact Hn1 | eapply wf_layout; exact E].
  - split; simpl; [apply wf_map_values; exact Hn1 | exact Hp1].
Qed.

Lemma wf_map_of_json {V} (l : list (JsEntry V)) (acc m : JsMap.t V) :
  JsMap.wf acc -> map_of_json l acc = Some m -> JsMap.wf m.
Proof.
  revert acc. induction l as [| [k v |] r IH]; simpl; intros acc Hacc H.
  - injection H as <-. exact Hacc.
  - eapply IH; [| exact H]. apply wf_set. exact Hacc.
  - discriminate.
Qed.

Lemma wf_addNode newId ty nx ny options dims s :
  wf_state s -> wf_state (addNode newId ty nx ny options dims s).
Proof.
  intros [Hn Hp]. unfold addNode.
  match goal with
  | |- wf_state (if _ then updateGroupMembership ?i ?st else ?st') =>
      assert (Hst : wf_state st) by (split; simpl; apply wf_set; assumption)
  end.
  destruct (NodeType_eqb ty group); [apply wf_updateGroupMembership |]; exact Hst.
Qed.

Lemma wf_pasteNodes gen tx ty s : wf_state s -> wf_state (pasteNodes gen tx ty s).
Proof.
  intros [Hn Hp]. unfold pasteNodes.
  destruct (clipboard s) as [| first others]; [split; assumption |].
  match goal with
  | |- wf_state (fold_left ?f ?items ?s4) =>
      assert (Hs4 : wf_state s4); [| generalize Hs4; generalize s4; generalize items]
  end.
  - match goal with
    | |- context [if Nat.ltb 0 (length ?its) then _ else _] =>
        destruct (Nat.ltb 0 (length its))
    end;
    match goal with
    | |- context [if Nat.ltb 0 (length ?ds) then _ else _] =>
        destruct (Nat.ltb 0 (length ds))
    end; split; simpl; try assumption; apply wf_fold_set; assumption.
  - intros items. induction items as [| it r IH]; simpl; intros st Hst; [exact Hst |].
    apply IH. destruct (NodeType_eqb (type (fst it)) group);
      [apply wf_updateGroupMembership |]; exact Hst.
Qed.

Lemma wf_saveHistory s : wf_state s -> wf_state (saveHistory s).
Proof. intros [H1 H2]. split; assumption. Qed.

Lemma wf_updateNode_step p m i : JsMap.wf m -> JsMap.wf (updateNode_step p m i).
Proof.
  intro Hm. unfold updateNode_step. destruct (JsMap.get m i) as [node |]; [| exact Hm].
  apply wf_set. destruct (p_name p) as [nn |]; [| exact Hm].
  destruct (NodeType_eqb (type node) group && str_truthy nn && negb (name node =? nn));
    [apply wf_propagate_rename |]; exact Hm.
Qed.

Lemma wf_updateNode p s : wf_state s -> wf_state (updateNode p s).
Proof.
  intros [Hn Hp]. unfold updateNode.
  destruct (Nat.eqb (JsSet.size (selectedNodeIds s)) 0); [split; assumption |].
  split; [| exact Hp]. simpl. apply wf_fold_left; [| exact Hn].
  intros m' a Hm'. apply wf_updateNode_step. exact Hm'.
Qed.

Lemma wf_deleteSelection s : wf_state s -> wf_state (deleteSelection s).
Proof.
  intros [Hn Hp]. unfold deleteSelection.
  destruct (Nat.eqb (JsSet.size (selectedNodeIds s)) 0
            && Nat.eqb (JsSet.size (selectedDrawingIds s)) 0); [split; assumption |].
  destruct (Nat.ltb 0 (JsSet.size (selectedNodeIds s)));
    destruct (Nat.ltb 0 (JsSet.size (selectedDrawingIds s)));
    split; simpl; try assumption;
    apply wf_fold_left; try assumption; intros m' a Hm';
    try (apply wf_delete; apply wf_removeFromParent; exact Hm');
    apply wf_delete; exact Hm'.
Qed.

Lemma wf_unlinkEdge a b s : wf_state s -> wf_state (unlinkEdge a b s).
Proof.
  intros [Hn Hp]. split; [| exact Hp]. simpl.
  destruct (JsMap.get (nodes s) a) as [node |]; [| exact Hn].
  destruct (children node); [apply wf_set |]; exact Hn.
Qed.

Lemma wf_linkNodes a b s : wf_state s -> wf_state (state_of (linkNodes a b s)).
Proof.
  intros [Hn Hp]. unfold linkNodes.
  destruct (a =? b); [split; assumption |].
  destruct (match JsMap.get (nodes s) a with
            | Some source => includes (children_of source) b
            | None => false
            end); [split; assumption |].
  destruct (isDescendant _ _ _ _) as [[|] |]; try (split; assumption).
  split; [| exact Hp]. simpl.
  destruct (JsMap.get (nodes s) a); [| exact Hn].
  apply wf_set. apply wf_removeFromParent. exact Hn.
Qed.

Lemma wf_step c s : wf_state s -> wf_state (step c s).
Proof.
  intro H. pose proof H as [Hn Hp].
  destruct c; unfold step; cbn [run state_of];
    try (unfold loadFunctionalChart; apply wf_autoLayout;
         split; apply nodupb_sound; vm_compute; reflexivity);
    try (split; assumption);
    try (apply wf_undo; exact H); try (apply wf_redo; exact H).
  - (* loadWhiteboard *) split; simpl; constructor.
  - apply wf_autoLayout. exact H.
  - apply wf_linkNodes. exact H.
  - apply wf_unlinkEdge. exact H.
  - (* deleteSelectedEdge *)
    unfold deleteSelectedEdge. destruct (selectedEdgeId s) as [e |]; [| exact H].
    destruct (negb (str_truthy e)); [exact H |].
    destruct (find _ _); [| exact H].
    apply (wf_unlinkEdge _ _ (saveHistory s)). exact H.
  - (* updateNodePosition *) split; simpl; [exact Hn | apply wf_set; exact Hp].
  - (* moveSelectedDrawings *)
    unfold moveSelectedDrawings.
    destruct (Nat.eqb _ 0); split; assumption.
  - (* updateNodeDimensions *)
    split; simpl; [exact Hn |].
    destruct (JsMap.get (nodePositions s) i); [| apply wf_set; exact Hp].
    destruct (_ || _); [apply wf_set |]; exact Hp.
  - (* selectNode *) unfold selectNode. destruct multi; split; assumption.
  - (* selectDrawing *) unfold selectDrawing. destruct multi; split; assumption.
  - apply wf_updateNode. exact H.
  - apply wf_updateGroupMembership. exact H.
  - (* updateNodeMembership *)
    unfold updateNodeMembership.
    destruct (JsMap.get (nodes s) i) as [node |] eqn:E; [| exact H].
    destruct (JsMap.get (nodePositions s) i); [| exact H].
    destruct (negb (functionalTypes (type node))); [exact H |].
    split; [| exact Hp]. simpl.
    destruct (fst _) as [g |].
    + destruct (department_is node (name g)); [| apply wf_set]; exact Hn.
    + destruct (str_truthy _); [apply wf_set |]; exact Hn.
  - apply wf_deleteSelection. exact H.
  - apply wf_deleteSelection. exact H.
  - (* copySelection *)
    unfold copySelection. destruct (_ && _); split; assumption.
  - apply wf_pasteNodes. exact H.
  - (* importFromJson *)
    unfold importFromJson.
    destruct data as [[[| ns] [| ps] ds] |]; simpl; try exact H.
    destruct (map_of_json ns JsMap.empty) as [nn |] eqn:En.
    + destruct (map_of_json ps JsMap.empty) as [pp |] eqn:Ep; simpl.
      * split; simpl;
          [eapply (wf_map_of_json ns JsMap.empty) | eapply (wf_map_of_json ps JsMap.empty)];
          try eassumption; apply wf_empty.
      * apply (wf_undo (saveHistory s)). exact H.
    + simpl. apply (wf_undo (saveHistory s)). exact H.
  - apply wf_addNode. exact H.
  - (* addMember *)
    unfold addMember.
    match goal with
    | |- wf_state (set_selectedNodeIds (if ?b then set_nodes ?s2 _ else ?s2') _) =>
        assert (H2 : wf_state s2) by (apply wf_addNode; apply wf_saveHistory; exact H);
        destruct b
    end; [| exact H2].
    destruct H2 as [H2n H2p]. split; [| exact H2p]. simpl.
    match goal with
    | |- JsMap.wf (match ?g with _ => _ end) => destruct g
    end; [apply wf_set |]; exact H2n.
Qed.

(** ** The history stacks after each command *)

Lemma stacks_updateGroupMembership g s : stacks (updateGroupMembership g s) = stacks s.
Proof.
  unfold updateGroupMembership.
  destruct (JsMap.get (nodes s) g) as [gn |]; [| reflexivity].
  destruct (JsMap.get (nodePositions s) g); [| reflexivity].
  destruct (negb _); reflexivity.
Qed.

Lemma stacks_autoLayout_false s : stacks (state_of (autoLayout false s)) = stacks s.
Proof. unfold autoLayout. destruct (layout _ _ _); reflexivity. Qed.

Lemma stacks_autoLayout_true s :
  stacks (state_of (autoLayout true s)) = stacks (saveHistory s).
Proof. unfold autoLayout. destruct (layout _ _ _); reflexivity. Qed.

Lemma stacks_addNode newId ty nx ny options dims s :
  stacks (addNode newId ty nx ny options dims s) = stacks (saveHistory s).
Proof.
  unfold addNode. destruct (NodeType_eqb ty group); [| reflexivity].
  rewrite stacks_updateGroupMembership. reflexivity.
Qed.

Lemma stacks_fold_membership (items : list (ChartNode * NodePosition)) s :
  stacks (fold_left
            (fun st it => if NodeType_eqb (type (fst it)) group
                          then updateGroupMembership (id (fst it)) st
                          else st) items s) = stacks s.
Proof.
  revert s. induction items as [| it r IH]; intro s; cbn [fold_left]; [reflexivity |].
  rewrite IH. destruct (NodeType_eqb _ _); [apply stacks_updateGroupMembership | reflexivity].
Qed.

Lemma stacks_pasteNodes gen tx ty s :
  stacks (pasteNodes gen tx ty s)
  = stacks (match clipboard s with [] => s | _ :: _ => saveHistory s end).
Proof.
  unfold pasteNodes. destruct (clipboard s) as [| first others]; [reflexivity |].
  rewrite stacks_fold_membership.
  match goal with
  | |- context [if Nat.ltb 0 (length ?its) then _ else _] =>
      destruct (Nat.ltb 0 (length its))
  end;
  match goal with
  | |- context [if Nat.ltb 0 (length ?ds) then _ else _] =>
      destruct (Nat.ltb 0 (length ds))
  end; reflexivity.
Qed.

Lemma stacks_linkNodes a b s :
  stacks (state_of (linkNodes a b s))
  = stacks (if link_accepted a b s then saveHistory s else s).
Proof.
  unfold linkNodes, link_accepted, already_linked.
  destruct (a =? b); [reflexivity |].
  destruct (match JsMap.get (nodes s) a with
            | Some source => includes (children_of source) b
            | None => false
            end); [reflexivity |].
  destruct (isDescendant _ _ _ _) as [[|] |]; reflexivity.
Qed.

Lemma stacks_deleteSelection s :
  stacks (deleteSelection s)
  = stacks (if negb (selection_empty s) then saveHistory s else s).
Proof.
  unfold deleteSelection, selection_empty.
  destruct (Nat.eqb (JsSet.size (selectedNodeIds s)) 0
            && Nat.eqb (JsSet.size (selectedDrawingIds s)) 0); [reflexivity |].
  destruct (Nat.ltb 0 (JsSet.size (selectedNodeIds s)));
    destruct (Nat.ltb 0 (JsSet.size (selectedDrawingIds s))); reflexivity.
Qed.

Lemma stacks_step c s : stacks (step c s) = stacks (hist_model c s).
Proof.
  destruct c; unfold step, hist_model; cbn [run state_of records_history];
    try (unfold loadFunctionalChart; cbv zeta; rewrite stacks_autoLayout_false;
         destruct saveState; reflexivity);
    try reflexivity.
  - destruct saveState; [apply stacks_autoLayout_true | apply stacks_autoLayout_false].
  - apply stacks_linkNodes.
  - (* deleteSelectedEdge *)
    unfold deleteSelectedEdge, edge_found.
    destruct (selectedEdgeId s) as [e |]; [| reflexivity].
    destruct (str_truthy e); simpl; [| reflexivity].
    destruct (find _ _); reflexivity.
  - unfold moveSelectedDrawings. destruct (Nat.eqb _ 0); reflexivity.
  - unfold selectNode. destruct multi; reflexivity.
  - unfold selectDrawing. destruct multi; reflexivity.
  - unfold updateNode. destruct (Nat.eqb _ 0); reflexivity.
  - apply stacks_updateGroupMembership.
  - unfold updateNodeMembership.
    destruct (JsMap.get (nodes s) i) as [node |]; [| reflexivity].
    destruct (JsMap.get (nodePositions s) i); [| reflexivity].
    destruct (negb _); reflexivity.
  - apply stacks_deleteSelection.
  - apply stacks_deleteSelection.
  - unfold copySelection. destruct (_ && _); reflexivity.
  - rewrite stacks_pasteNodes. destruct (clipboard s); reflexivity.
  - (* importFromJson *)
    unfold importFromJson, import_case.
    destruct data as [[[| ns] [| ps] ds] |]; try reflexivity.
    destruct (map_of_json ns JsMap.empty); [| reflexivity].
    destruct (map_of_json ps JsMap.empty); reflexivity.
  - apply stacks_addNode.
  - (* addMember *)
    unfold addMember.
    match goal with
    | |- stacks (set_selectedNodeIds (if ?b then set_nodes ?s2 _ else ?s2') _) = _ =>
        assert (H2 : stacks s2 = stacks (saveHistory (saveHistory s)))
          by apply stacks_addNode;
        destruct b
    end; exact H2.
Qed.

Lemma length_push_bounded st snap :
  length st <= maxHistorySize -> length (push_bounded st snap) <= maxHistorySize.
Proof.
  intro H. unfold push_bounded.
  destruct (Nat.ltb maxHistorySize (length (st ++ [snap]))) eqn:E.
  - destruct st as [| a st']; simpl in *; [lia |].
    rewrite length_app in *. simpl in *. lia.
  - apply Nat.ltb_ge in E. exact E.
Qed.

Lemma history_inv_saveHistory s : history_inv s -> history_inv (saveHistory s).
Proof.
  unfold history_inv. intro H. simpl. rewrite Nat.add_0_r.
  apply length_push_bounded. lia.
Qed.

Lemma history_inv_undo s : history_inv s -> history_inv (undo s).
Proof.
  unfold history_inv, undo. intro H.
  destruct (pop (undoStack s)) as [[p r] |] eqn:E; [| exact H].
  apply pop_some in E. simpl. rewrite E in H.
  rewrite !length_app in *. simpl in *. lia.
Qed.

Lemma history_inv_redo s : history_inv s -> history_inv (redo s).
Proof.
  unfold history_inv, redo. intro H.
  destruct (pop (redoStack s)) as [[p r] |] eqn:E; [| exact H].
  apply pop_some in E. simpl. rewrite E in H.
  rewrite !length_app in *. simpl in *. lia.
Qed.

Lemma history_inv_stacks s s' : stacks s' = stacks s -> history_inv s -> history_inv s'.
Proof.
  unfold stacks, history_inv. intros H. injection H as -> ->. auto.
Qed.

Lemma history_inv_step c s : history_inv s -> history_inv (step c s).
Proof.
  intro H. apply (history_inv_stacks _ _ (stacks_step c s)).
  destruct c; unfold hist_model;
    try (destruct (records_history _ s); [apply history_inv_saveHistory |]; exact H).
  - apply history_inv_undo. exact H.
  - apply history_inv_redo. exact H.
  - destruct (import_case data).
    + exact H.
    + pose proof (history_inv_undo _ (history_inv_saveHistory _ H)) as K.
      unfold history_inv in *. simpl. simpl in K. lia.
    + apply history_inv_saveHistory. exact H.
  - apply history_inv_saveHistory. apply history_inv_saveHistory. exact H.
Qed.

Lemma history_inv_initial : history_inv initial.
Proof.
  apply (history_inv_stacks blank).
  - unfold initial, loadFunctionalChart. cbv zeta.
    rewrite stacks_autoLayout_false. reflexivity.
  - unfold history_inv. simpl. unfold maxHistorySize. lia.
Qed.

Lemma history_inv_run_all cs s : history_inv s -> history_inv (run_all cs s).
Proof.
  revert s. induction cs as [| c r IH]; intros s H; [exact H |].
  apply IH. apply history_inv_step. exact H.
Qed.

(** ** Undo and redo *)

Lemma undo_after s snap rest :
  undoStack s = rest ++ [snap] ->
  undo s = applySnapshot
             (set_undoStack (set_redoStack s (redoStack s ++ [current_snapshot s])) rest)
             snap.
Proof. intro H. unfold undo. rewrite H, pop_app. reflexivity. Qed.

Lemma redo_after s snap rest :
  redoStack s = rest ++ [snap] ->
  redo s = applySnapshot
             (set_redoStack (set_undoStack s (undoStack s ++ [current_snapshot s])) rest)
             snap.
Proof. intro H. unfold redo. rewrite H, pop_app. reflexivity. Qed.

Lemma content_applySnapshot_current s s0 :
  wf_state s0 -> content (applySnapshot s (current_snapshot s0)) = content s0.
Proof.
  intros [Hn Hp]. unfold content. simpl.
  rewrite (of_entries_id _ Hn), (of_entries_id _ Hp). reflexivity.
Qed.

(** A command that records history leaves the snapshot of its start state on
    top of the undo stack and an empty redo stack. *)
Lemma records_history_stacks c s :
  records_history c s = true ->
  exists rest, undoStack (step c s) = rest ++ [current_snapshot s]
               /\ redoStack (step c s) = [].
Proof.
  intro H. pose proof (stacks_step c s) as Hst. unfold stacks in Hst.
  assert (Hsave : exists rest, undoStack (saveHistory s) = rest ++ [current_snapshot s]
                               /\ redoStack (saveHistory s) = []).
  { destruct (push_bounded_last (undoStack s) (current_snapshot s)) as [rest Hr].
    exists rest. split; [exact Hr | reflexivity]. }
  assert (Hsave2 : exists rest,
             undoStack (saveHistory (saveHistory s)) = rest ++ [current_snapshot s]
             /\ redoStack (saveHistory (saveHistory s)) = []).
  { destruct (push_bounded_last (undoStack (saveHistory s))
                                (current_snapshot (saveHistory s))) as [rest Hr].
    exists rest. split; [exact Hr | reflexivity]. }
  injection Hst as Hu Hr. rewrite Hu, Hr.
  destruct c; unfold hist_model; try rewrite H; try exact Hsave; try exact Hsave2;
    try (simpl in H; discriminate).
  simpl in H. destruct (import_case data); try discriminate. exact Hsave.
Qed.

(** C1, as amended: undo right after a command that records history gives
    back the nodes, geometries and drawings the command started from, and
    redo right after that undo gives back what the command had produced. *)
Theorem undo_redo_inverse (c : Command) (s : State) :
  wf_state s ->
  records_history c s = true ->
  content (undo (step c s)) = content s
  /\ content (redo (undo (step c s))) = content (step c s).
Proof.
  intros Hwf Hrec.
  destruct (records_history_stacks c s Hrec) as [rest [Hu Hr]].
  pose proof (wf_step c s Hwf) as Hwf'.
  rewrite (undo_after _ _ _ Hu). split.
  - apply content_applySnapshot_current. exact Hwf.
  - rewrite (redo_after _ (current_snapshot (step c s)) []).
    + apply content_applySnapshot_current. exact Hwf'.
    + simpl. rewrite Hr. reflexivity.
Qed.

Lemma undo_redo_inverse_witness :
  wf_state initial
  /\ records_history (c_addNode "n1" employee (zq 10) (zq 20) no_fields None) initial = true
  /\ (content (undo (step (c_addNode "n1" employee (zq 10) (zq 20) no_fields None) initial))
      = content initial
      /\ content (redo (undo (step (c_addNode "n1" employee (zq 10) (zq 20) no_fields None)
                                   initial)))
         = content (step (c_addNode "n1" employee (zq 10) (zq 20) no_fields None) initial)).
Proof.
  assert (Hwf : wf_state initial) by (apply wf_stateb_sound; vm_compute; reflexivity).
  split; [exact Hwf |]. split; [reflexivity |].
  apply (undo_redo_inverse (c_addNode "n1" employee (zq 10) (zq 20) no_fields None) initial Hwf).
  reflexivity.
Defined.

(** C1 as stated fails for [unlinkEdge]: it saves nothing, so on a fresh
    chart the undo that follows finds an empty stack and the edge stays
    removed. *)
Lemma unlinkEdge_not_undone :
  content (undo (step (c_unlinkEdge "1" "2") initial)) <> content initial.
Proof.
  intro H.
  apply (f_equal (fun c => option_map children_of (JsMap.get (fst (fst c)) "1"))) in H.
  vm_compute in H. discriminate.
Qed.

(** C10: an undo or redo that applies a snapshot empties both selection
    sets and the selected edge, and leaves zoom and pan as they were. *)
Theorem history_op_clears_selection_keeps_view (o : HistoryOp) (s : State) :
  applies_snapshot o s = true ->
  selectedNodeIds (history_op o s) = JsSet.empty
  /\ selectedDrawingIds (history_op o s) = JsSet.empty
  /\ selectedEdgeId (history_op o s) = None
  /\ zoomLevel (history_op o s) = zoomLevel s
  /\ panOffset (history_op o s) = panOffset s.
Proof.
  destruct o; simpl; intro H.
  - unfold undo. destruct (pop (undoStack s)) as [[p r] |] eqn:E.
    + repeat split.
    + apply pop_none in E. rewrite E in H. discriminate.
  - unfold redo. destruct (pop (redoStack s)) as [[p r] |] eqn:E.
    + repeat split.
    + apply pop_none in E. rewrite E in H. discriminate.
Qed.

Lemma history_op_clears_selection_keeps_view_witness :
  let s := set_zoomLevel (selectNode "1" false (saveHistory initial)) (zq 150) in
  applies_snapshot op_undo s = true
  /\ (selectedNodeIds (history_op op_undo s) = JsSet.empty
      /\ selectedDrawingIds (history_op op_undo s) = JsSet.empty
      /\ selectedEdgeId (history_op op_undo s) = None
      /\ zoomLevel (history_op op_undo s) = zoomLevel s
      /\ panOffset (history_op op_undo s) = panOffset s).
Proof.
  intro s. split; [reflexivity |].
  apply (history_op_clears_selection_keeps_view op_undo s). reflexivity.
Defined.

(** C9: however many commands run, the undo stack holds at most
    [maxHistorySize] entries; [saveHistory] drops the oldest entry when the
    stack is full, and every command that records history leaves the redo
    stack empty. *)
Theorem history_bounded (cs : list Command) :
  let s := run_all cs initial in
  length (undoStack s) <= maxHistorySize
  /\ undoStack (saveHistory s)
     = (if Nat.ltb (length (undoStack s)) maxHistorySize
        then undoStack s else tl (undoStack s)) ++ [current_snapshot s]
  /\ redoStack (saveHistory s) = []
  /\ (forall c, records_history c s = true ->
                redoStack (step c s) = []
                /\ length (undoStack (step c s)) <= maxHistorySize).
Proof.
  intro s.
  assert (Hinv : history_inv s).
  { apply history_inv_run_all. apply history_inv_initial. }
  assert (Hlen : length (undoStack s) <= maxHistorySize).
  { unfold history_inv in Hinv. lia. }
  split; [exact Hlen |]. split; [| split; [reflexivity |]].
  - simpl. unfold push_bounded. rewrite length_app. simpl.
    destruct (Nat.ltb (length (undoStack s)) maxHistorySize) eqn:E.
    + apply Nat.ltb_lt in E.
      assert (E' : Nat.ltb maxHistorySize (length (undoStack s) + 1) = false)
        by (apply Nat.ltb_ge; lia).
      rewrite E'. reflexivity.
    + apply Nat.ltb_ge in E.
      assert (E' : Nat.ltb maxHistorySize (length (undoStack s) + 1) = true)
        by (apply Nat.ltb_lt; lia).
      rewrite E'. destruct (undoStack s) as [| a r]; [simpl in E; unfold maxHistorySize in E; lia |].
      reflexivity.
  - intros c Hc. destruct (records_history_stacks c s Hc) as [rest [Hu Hr]].
    split; [exact Hr |].
    pose proof (history_inv_step c s Hinv) as K. unfold history_inv in K. lia.
Qed.

Lemma history_bounded_witness :
  records_history c_clearDrawings (run_all [c_addDrawing (mkDrawing "d" [] "red" (zq 2)); c_undo]
                                           initial) = true
  /\ redoStack (step c_clearDrawings
                     (run_all [c_addDrawing (mkDrawing "d" [] "red" (zq 2)); c_undo] initial))
     = [].
Proof.
  split; [reflexivity |].
  apply (history_bounded [c_addDrawing (mkDrawing "d" [] "red" (zq 2)); c_undo]).
  reflexivity.
Defined.

(** ** Import *)

(** C4: input whose [nodes] or [positions] is not an array is rejected with
    every field of the service untouched (so no history entry is pushed);
    and when a [Map] constructor throws after the snapshot was saved, the
    call returns with the nodes, geometries and drawings it started from, an
    empty redo stack, and the snapshot it had pushed popped again. *)
Theorem importFromJson_contract (data : option ImportData) (s : State) :
  wf_state s ->
  (forall d, data = None
             \/ (data = Some d /\ (imp_nodes d = not_array \/ imp_positions d = not_array)) ->
             importFromJson data s = Threw s)
  /\ (forall ns ps ds,
         data = Some (mkImport (array ns) (array ps) ds) ->
         map_of_json ns JsMap.empty = None \/ map_of_json ps JsMap.empty = None ->
         exists s', importFromJson data s = Returned s'
                    /\ content s' = content s
                    /\ redoStack s' = []
                    /\ undoStack (saveHistory s) = undoStack s' ++ [current_snapshot s]
                    /\ selectedNodeIds s' = JsSet.empty
                    /\ selectedDrawingIds s' = JsSet.empty
                    /\ selectedEdgeId s' = None).
Proof.
  intro Hwf. split.
  - intros d [-> | [-> [H | H]]]; [reflexivity | |];
      destruct d as [n p ds]; simpl in H; subst; simpl; [reflexivity |].
    destruct n; reflexivity.
  - intros ns ps ds -> Hfail.
    exists (set_redoStack (undo (saveHistory s)) []).
    destruct (push_bounded_last (undoStack s) (current_snapshot s)) as [rest Hrest].
    assert (Hu : undoStack (saveHistory s) = rest ++ [current_snapshot (saveHistory s)])
      by exact Hrest.
    split; [| rewrite (undo_after _ _ _ Hu); repeat split].
    + unfold importFromJson.
      destruct Hfail as [E | E]; rewrite E; [reflexivity |].
      destruct (map_of_json ns JsMap.empty); reflexivity.
    + unfold content. simpl. destruct Hwf as [Hn Hp].
      rewrite (of_entries_id _ Hn), (of_entries_id _ Hp). reflexivity.
    + simpl. exact Hrest.
Qed.

Lemma importFromJson_contract_witness :
  wf_state initial
  /\ exists s', importFromJson (Some (mkImport (array [not_entry]) (array []) not_array))
                               initial = Returned s'
                /\ content s' = content initial
                /\ redoStack s' = []
                /\ undoStack (saveHistory initial) = undoStack s' ++ [current_snapshot initial]
                /\ selectedNodeIds s' = JsSet.empty
                /\ selectedDrawingIds s' = JsSet.empty
                /\ selectedEdgeId s' = None.
Proof.
  assert (Hwf : wf_state initial) by (apply wf_stateb_sound; vm_compute; reflexivity).
  split; [exact Hwf |].
  apply (proj2 (importFromJson_contract
                  (Some (mkImport (array [not_entry]) (array []) not_array)) initial Hwf)
               [not_entry] [] not_array eq_refl).
  left. reflexivity.
Defined.

(** ** Paths, chains and the depth bound *)

Lemma edge_in_keys m a b : edge m a b -> In a (JsMap.keys m).
Proof. intros [n [H _]]. apply get_Some_keys. exists n. exact H. Qed.

Lemma descends_trans m a b c : descends m a b -> descends m b c -> descends m a c.
Proof.
  intro H. revert c. induction H as [a b E | a b d E P IH]; intros c Q.
  - apply (desc_step m a b c E Q).
  - apply (desc_step m a b c E). apply IH. exact Q.
Qed.

Lemma chain_in_keys m r l : chain_from m r l -> forall a, In a l -> In a (JsMap.keys m).
Proof.
  induction 1 as [r | r n c l Hget Hin Hc IH]; intros a Ha; [contradiction |].
  destruct Ha as [<- | Ha]; [| apply IH; exact Ha].
  apply get_Some_keys. exists n. exact Hget.
Qed.

Lemma chain_reach m r l : chain_from m r l -> forall a, In a l -> a = r \/ descends m r a.
Proof.
  induction 1 as [r | r n c l Hget Hin Hc IH]; intros a Ha; [contradiction |].
  destruct Ha as [<- | Ha]; [left; reflexivity |].
  right. assert (E : edge m r c) by (exists n; split; assumption).
  destruct (IH a Ha) as [-> | P]; [apply desc_edge; exact E |].
  apply (desc_step m r c a E P).
Qed.

Lemma chain_dup_cycle m r l : chain_from m r l -> ~ NoDup l -> exists a, descends m a a.
Proof.
  induction 1 as [r | r n c l Hget Hin Hc IH]; intro Hnd.
  - exfalso. apply Hnd. constructor.
  - destruct (in_dec string_dec r l) as [Hr | Hr].
    + exists r. assert (E : edge m r c) by (exists n; split; assumption).
      destruct (chain_reach m c l Hc r Hr) as [-> | P];
        [apply desc_edge; exact E | apply (desc_step m r c r E P)].
    + apply IH. intro K. apply Hnd. constructor; assumption.
Qed.

(** A chain longer than the map repeats a node, so the map has a cycle. *)
Lemma chain_too_long m r l :
  chain_from m r l -> length m < length l -> exists a, descends m a a.
Proof.
  intros Hc Hlen. apply (chain_dup_cycle m r l Hc). intro Hnd.
  assert (Hincl : incl l (JsMap.keys m)) by (intros a Ha; eapply chain_in_keys; eassumption).
  pose proof (NoDup_incl_length Hnd Hincl) as K.
  unfold JsMap.keys in K. rewrite length_map in K. lia.
Qed.

Lemma isDescendant_loop_false rec x cs :
  isDescendant_loop rec x cs = Some false ->
  forall c, In c cs -> c <> x /\ rec c = Some false.
Proof.
  induction cs as [| c0 r IH]; simpl; intros H c Hc; [contradiction |].
  destruct (c0 =? x) eqn:E; [discriminate |].
  destruct (rec c0) as [[|] |] eqn:R; try discriminate.
  destruct Hc as [<- | Hc]; [| apply IH; assumption].
  split; [apply String.eqb_neq; exact E | exact R].
Qed.

Lemma isDescendant_loop_true rec x cs :
  isDescendant_loop rec x cs = Some true ->
  exists c, In c cs /\ (c = x \/ rec c = Some true).
Proof.
  induction cs as [| c0 r IH]; simpl; intro H; [discriminate |].
  destruct (c0 =? x) eqn:E.
  - exists c0. split; [left; reflexivity | left; apply String.eqb_eq; exact E].
  - destruct (rec c0) as [[|] |] eqn:R; try discriminate.
    + exists c0. split; [left; reflexivity | right; exact R].
    + destruct (IH H) as [c [Hc K]]. exists c. split; [right; exact Hc | exact K].
Qed.

Lemma isDescendant_loop_none rec x cs :
  isDescendant_loop rec x cs = None -> exists c, In c cs /\ rec c = None.
Proof.
  induction cs as [| c0 r IH]; simpl; intro H; [discriminate |].
  destruct (c0 =? x); [discriminate |].
  destruct (rec c0) as [[|] |] eqn:R; try discriminate.
  - destruct (IH H) as [c [Hc K]]. exists c. split; [right; exact Hc | exact K].
  - exists c0. split; [left; reflexivity | exact R].
Qed.

Lemma descends_first m a c :
  descends m a c ->
  exists n b, JsMap.get m a = Some n /\ In b (children_of n) /\ (b = c \/ descends m b c).
Proof.
  intro P. destruct P as [a b [n [Hn Hb]] | a b c [n [Hn Hb]] P].
  - exists n, b. auto.
  - exists n, b. auto.
Qed.

Lemma isDescendant_false_sound fuel m r x :
  isDescendant fuel m r x = Some false -> ~ descends m r x.
Proof.
  revert r. induction fuel as [| fuel IH]; intros r H P; cbn [isDescendant] in H;
    [discriminate |].
  destruct (descends_first m r x P) as [n [b [Hn [Hb Hbx]]]].
  rewrite Hn in H. unfold children_of in Hb.
  destruct (children n) as [cs |]; [| contradiction].
  destruct (isDescendant_loop_false _ _ _ H b Hb) as [Hne Hrec].
  destruct Hbx as [-> | Pb]; [apply Hne; reflexivity |].
  apply (IH b Hrec Pb).
Qed.

Lemma isDescendant_true_sound fuel m r x :
  isDescendant fuel m r x = Some true -> descends m r x.
Proof.
  revert r. induction fuel as [| fuel IH]; intros r H; cbn [isDescendant] in H;
    [discriminate |].
  destruct (JsMap.get m r) as [n |] eqn:Hn; [| discriminate].
  destruct (children n) as [cs |] eqn:Hc; [| discriminate].
  destruct (isDescendant_loop_true _ _ _ H) as [c [Hin K]].
  assert (E : edge m r c).
  { exists n. split; [exact Hn |]. unfold children_of. rewrite Hc. exact Hin. }
  destruct K as [-> | K]; [apply desc_edge; exact E |].
  apply (desc_step m r c x E). apply IH. exact K.
Qed.

Lemma isDescendant_none_chain fuel m r x :
  isDescendant fuel m r x = None -> exists l, length l = fuel /\ chain_from m r l.
Proof.
  revert r. induction fuel as [| fuel IH]; intros r H; cbn [isDescendant] in H.
  - exists []. split; [reflexivity | constructor].
  - destruct (JsMap.get m r) as [n |] eqn:Hn; [| discriminate].
    destruct (children n) as [cs |] eqn:Hc; [| discriminate].
    destruct (isDescendant_loop_none _ _ _ H) as [c [Hin K]].
    destruct (IH c K) as [l [Hlen Hl]].
    exists (r :: l). split; [simpl; rewrite Hlen; reflexivity |].
    apply (cf_cons m r n c l Hn); [| exact Hl].
    unfold children_of. rewrite Hc. exact Hin.
Qed.

(** On an acyclic map the search returns, and it returns whether a path
    exists. *)
Lemma isDescendant_total m r x :
  acyclic m -> isDescendant (depth_bound m) m r x <> None.
Proof.
  intros Hac H. destruct (isDescendant_none_chain _ _ _ _ H) as [l [Hlen Hl]].
  destruct (chain_too_long m r l Hl) as [a Pa].
  - rewrite Hlen. unfold depth_bound. lia.
  - exact (Hac a Pa).
Qed.

Lemma isDescendant_complete m r x :
  acyclic m -> descends m r x -> isDescendant (depth_bound m) m r x = Some true.
Proof.
  intros Hac P. destruct (isDescendant (depth_bound m) m r x) as [[|] |] eqn:E.
  - reflexivity.
  - exfalso. exact (isDescendant_false_sound _ _ _ _ E P).
  - exfalso. exact (isDescendant_total m r x Hac E).
Qed.

Lemma acyclicb_sound m : acyclicb m = true -> acyclic m.
Proof.
  unfold acyclicb. rewrite forallb_forall. intros H k P.
  assert (Hk : In k (JsMap.keys m)).
  { destruct (descends_first m k k P) as [n [b [Hn _]]]. apply get_Some_keys. eauto. }
  specialize (H k Hk).
  destruct (isDescendant (depth_bound m) m k k) as [[|] |] eqn:E; try discriminate.
  exact (isDescendant_false_sound _ _ _ _ E P).
Qed.

(** ** Linking keeps the adjacency acyclic *)

Lemma children_of_strip_child t n c :
  In c (children_of (strip_child t n)) -> In c (children_of n).
Proof.
  unfold strip_child. destruct (includes (children_of n) t); [| auto].
  unfold children_of at 1. simpl. intro H. apply filter_In in H. tauto.
Qed.

Lemma id_strip_child t n : id (strip_child t n) = id n.
Proof. unfold strip_child. destruct (includes _ _); reflexivity. Qed.

Lemma edge_linked m a b node k c :
  JsMap.get m a = Some node ->
  edge (linked m a b node) k c -> edge m k c \/ (k = a /\ c = b).
Proof.
  intros Hnode [n' [Hget Hin]]. unfold linked in Hget. rewrite get_set in Hget.
  destruct (a =? k) eqn:E.
  - apply String.eqb_eq in E. subst k. injection Hget as <-.
    unfold children_of at 1 in Hin. simpl in Hin. apply in_app_or in Hin.
    destruct Hin as [Hin | [<- | []]]; [left | right; auto].
    exists node. auto.
  - rewrite get_map_values in Hget. destruct (JsMap.get m k) as [n |] eqn:Hk; [| discriminate].
    simpl in Hget. injection Hget as <-. left. exists n. split; [exact Hk |].
    eapply children_of_strip_child. exact Hin.
Qed.

Lemma descends_linked m a b node x0 y0 :
  JsMap.get m a = Some node ->
  descends (linked m a b node) x0 y0 ->
  descends m x0 y0
  \/ ((x0 = a \/ descends m x0 a) /\ (b = y0 \/ descends m b y0)).
Proof.
  intros Hnode P. induction P as [u v E | u v w E P IH].
  - destruct (edge_linked m a b node u v Hnode E) as [E' | [-> ->]].
    + left. apply desc_edge. exact E'.
    + right. auto.
  - destruct (edge_linked m a b node u v Hnode E) as [E' | [-> ->]].
    + destruct IH as [Q | [[-> | Q1] Q2]].
      * left. apply (desc_step m u v w E' Q).
      * right. split; [right; apply desc_edge; exact E' | exact Q2].
      * right. split; [right; apply (desc_step m u v a E' Q1) | exact Q2].
    + destruct IH as [Q | [_ Q2]].
      * right. split; [left; reflexivity | right; exact Q].
      * right. split; [left; reflexivity | exact Q2].
Qed.

Lemma acyclic_linked m a b node :
  JsMap.get m a = Some node -> a <> b -> acyclic m -> ~ descends m b a ->
  acyclic (linked m a b node).
Proof.
  intros Hnode Hne Hac Hno k P.
  destruct (descends_linked m a b node k k Hnode P) as [Q | [[-> | Q1] [<- | Q2]]].
  - exact (Hac k Q).
  - apply Hne. reflexivity.
  - exact (Hno Q2).
  - exact (Hno Q1).
  - apply Hno. apply (descends_trans m b k a Q2 Q1).
Qed.

(** What [linkNodes] leaves in the node map. *)
Lemma nodes_linkNodes a b s :
  JsMap.wf (nodes s) -> ids_ok (nodes s) ->
  nodes (state_of (linkNodes a b s))
  = if link_accepted a b s
    then match JsMap.get (nodes s) a with
         | Some node => linked (nodes s) a b node
         | None => nodes s
         end
    else nodes s.
Proof.
  intros Hwf Hids. unfold linkNodes, link_accepted, already_linked.
  destruct (a =? b); [reflexivity |].
  destruct (match JsMap.get (nodes s) a with
            | Some source => includes (children_of source) b
            | None => false
            end); [reflexivity |].
  destruct (isDescendant _ _ _ _) as [[|] |]; try reflexivity.
  simpl. destruct (JsMap.get (nodes s) a) as [node |]; [| reflexivity].
  unfold linked. rewrite (removeFromParent_pointwise _ _ Hwf Hids). reflexivity.
Qed.

Lemma linkNodes_keeps a b s :
  JsMap.wf (nodes s) -> ids_ok (nodes s) -> acyclic (nodes s) ->
  JsMap.wf (nodes (state_of (linkNodes a b s)))
  /\ ids_ok (nodes (state_of (linkNodes a b s)))
  /\ acyclic (nodes (state_of (linkNodes a b s))).
Proof.
  intros Hwf Hids Hac. rewrite (nodes_linkNodes a b s Hwf Hids).
  destruct (link_accepted a b s) eqn:Hacc; [| auto].
  destruct (JsMap.get (nodes s) a) as [node |] eqn:Hnode; [| auto].
  unfold link_accepted in Hacc. apply andb_prop in Hacc. destruct Hacc as [Hacc Hdesc].
  apply andb_prop in Hacc. destruct Hacc as [Hne _].
  destruct (isDescendant _ _ b a) as [[|] |] eqn:E; try discriminate.
  split; [| split].
  - unfold linked. apply wf_set. apply wf_map_values. exact Hwf.
  - unfold linked. apply ids_ok_set.
    + apply ids_ok_map_values; [apply id_strip_child | exact Hids].
    + simpl. apply (ids_ok_get _ _ _ Hids Hnode).
  - apply acyclic_linked; try assumption.
    + apply String.eqb_neq. destruct (a =? b); [discriminate | reflexivity].
    + exact (isDescendant_false_sound _ _ _ _ E).
Qed.

(** C3, as amended: from an acyclic node map in which every node is stored
    under its own id, no sequence of [linkNodes] calls ever produces a path
    from a node back to itself; and a call whose source already descends
    from its target leaves every field as it was. *)
Theorem linkNodes_acyclic (s : State) :
  JsMap.wf (nodes s) -> ids_ok (nodes s) -> acyclic (nodes s) ->
  (forall links, acyclic (nodes (link_all links s)))
  /\ (forall sourceId targetId,
         descends (nodes s) targetId sourceId ->
         linkNodes sourceId targetId s = Returned s).
Proof.
  intros Hwf Hids Hac. split.
  - intro links. revert s Hwf Hids Hac.
    induction links as [| [a b] r IH]; intros s Hwf Hids Hac; [exact Hac |].
    destruct (linkNodes_keeps a b s Hwf Hids Hac) as [H1 [H2 H3]].
    apply (IH _ H1 H2 H3).
  - intros a b P. unfold linkNodes.
    destruct (a =? b); [reflexivity |].
    destruct (match JsMap.get (nodes s) a with
              | Some source => includes (children_of source) b
              | None => false
              end); [reflexivity |].
    rewrite (isDescendant_complete _ _ _ Hac P). reflexivity.
Qed.

Lemma linkNodes_acyclic_witness :
  JsMap.wf (nodes initial) /\ ids_ok (nodes initial) /\ acyclic (nodes initial)
  /\ descends (nodes initial) "1" "3-2"
  /\ acyclic (nodes (link_all [("2-1", "3"); ("3-2", "1")] initial))
  /\ linkNodes "3-2" "1" initial = Returned initial.
Proof.
  assert (Hwf : JsMap.wf (nodes initial)).
  { apply nodupb_sound. vm_compute. reflexivity. }
  assert (Hids : ids_ok (nodes initial)).
  { apply ids_okb_sound. vm_compute. reflexivity. }
  assert (Hac : acyclic (nodes initial)).
  { apply acyclicb_sound. vm_compute. reflexivity. }
  assert (Hd : descends (nodes initial) "1" "3-2").
  { apply (desc_step _ "1" "3" "3-2").
    - eexists. split; [reflexivity | simpl; auto].
    - apply desc_edge. eexists. split; [reflexivity | simpl; auto]. }
  split; [exact Hwf |]. split; [exact Hids |]. split; [exact Hac |]. split; [exact Hd |].
  destruct (linkNodes_acyclic initial Hwf Hids Hac) as [H1 H2].
  split; [apply H1 | apply H2; exact Hd].
Defined.

(** C3 as stated fails where a node is stored under a key other than its
    id, which [updateNode] with an id in its patch brings about: the
    adjacency is acyclic, both links are accepted, and [removeFromParent]
    writes the old parent of ['2-1'] under its id ['zz'], which closes the
    path from ['zz'] over ['2-2'] back to ['zz']. *)
Lemma linkNodes_cycle_under_foreign_key :
  acyclic (nodes renamed_manager)
  /\ link_accepted "2-2" "zz" renamed_manager = true
  /\ link_accepted "3" "2-1" (link_all [("2-2", "zz")] renamed_manager) = true
  /\ descends (nodes (link_all [("2-2", "zz"); ("3", "2-1")] renamed_manager)) "zz" "zz"
  /\ ~ acyclic (nodes (link_all [("2-2", "zz"); ("3", "2-1")] renamed_manager)).
Proof.
  assert (Hd : descends (nodes (link_all [("2-2", "zz"); ("3", "2-1")] renamed_manager))
                        "zz" "zz").
  { apply (isDescendant_true_sound 12). vm_compute. reflexivity. }
  split; [apply acyclicb_sound; vm_compute; reflexivity |].
  split; [vm_compute; reflexivity |]. split; [vm_compute; reflexivity |].
  split; [exact Hd |]. intro Hac. exact (Hac "zz" Hd).
Qed.

(** ** Renaming a group *)

Lemma department_with_department n d : department (with_department n d) = Some d.
Proof. reflexivity. Qed.

Lemma department_is_true n v : department_is n v = true <-> department n = Some v.
Proof.
  unfold department_is. destruct (department n) as [d |]; split; intro H;
    try discriminate.
  - apply String.eqb_eq in H. subst. reflexivity.
  - injection H as ->. apply String.eqb_refl.
Qed.

Lemma rename_department_keeps oldName newName n :
  id (rename_department oldName newName n) = id n
  /\ name (rename_department oldName newName n) = name n
  /\ type (rename_department oldName newName n) = type n.
Proof. unfold rename_department. destruct (department_is n oldName); auto. Qed.

(** A department that is the old or the new name is the new name after the
    propagation, whatever group it was run for, as long as that group's own
    name differs from the new one. *)
Lemma rename_department_new old0 oldName newName n :
  oldName <> newName ->
  department n = Some newName \/ (old0 = oldName /\ department n = Some old0) ->
  department (rename_department oldName newName n) = Some newName.
Proof.
  intros Hne H. unfold rename_department.
  destruct (department_is n oldName) eqn:E; [reflexivity |].
  destruct H as [H | [-> H]]; [exact H |].
  apply department_is_true in H. rewrite H in E. discriminate.
Qed.

Lemma rename_department_other_group old0 oldName newName n :
  oldName <> newName ->
  department n = Some newName \/ department n = Some old0 ->
  department (rename_department oldName newName n) = Some newName
  \/ department (rename_department oldName newName n) = Some old0.
Proof.
  intros Hne H. unfold rename_department.
  destruct (department_is n oldName) eqn:E; [left; reflexivity |].
  destruct H; auto.
Qed.

(** One step of the walk over the selection, seen from a key other than the
    one being updated. *)
Lemma updateNode_step_other p m i k :
  JsMap.wf m -> ids_ok m -> k <> i ->
  JsMap.get (updateNode_step p m i) k = JsMap.get m k
  \/ exists node newName,
       JsMap.get m i = Some node /\ p_name p = Some newName
       /\ type node = group /\ newName <> "" /\ name node <> newName
       /\ JsMap.get (updateNode_step p m i) k
          = option_map (rename_department (name node) newName) (JsMap.get m k).
Proof.
  intros Hwf Hids Hne. unfold updateNode_step.
  destruct (JsMap.get m i) as [node |] eqn:Hi; [| left; reflexivity].
  rewrite get_set_other by (intro K; apply Hne; symmetry; exact K).
  destruct (p_name p) as [newName |] eqn:Hp; [| left; reflexivity].
  destruct (NodeType_eqb (type node) group && str_truthy newName
            && negb (name node =? newName)) eqn:C; [| left; reflexivity].
  right. exists node, newName.
  apply andb_prop in C. destruct C as [C C3]. apply andb_prop in C. destruct C as [C1 C2].
  apply NodeType_eqb_eq in C1. unfold str_truthy in C2.
  repeat split; auto.
  - intro K. subst newName. discriminate.
  - intro K. rewrite K, String.eqb_refl in C3. discriminate.
  - rewrite (propagate_rename_pointwise _ _ _ Hwf Hids). apply get_map_values.
Qed.

Lemma updateNode_step_keeps p m i :
  p_id p = None -> JsMap.wf m -> ids_ok m ->
  JsMap.wf (updateNode_step p m i) /\ ids_ok (updateNode_step p m i).
Proof.
  intros Hpid Hwf Hids. split; [apply wf_updateNode_step; exact Hwf |].
  unfold updateNode_step. destruct (JsMap.get m i) as [node |] eqn:Hi; [| exact Hids].
  apply ids_ok_set.
  - destruct (p_name p) as [newName |]; [| exact Hids].
    destruct (_ && _); [| exact Hids].
    rewrite (propagate_rename_pointwise _ _ _ Hwf Hids).
    apply ids_ok_map_values; [| exact Hids]. intro n. apply rename_department_keeps.
  - simpl. rewrite Hpid. simpl. apply (ids_ok_get _ _ _ Hids Hi).
Qed.

(** The step of the walk at the selected key itself: the node read at the
    start of the step is written back with the patch, whatever the
    propagation did to the entry in between. *)
Lemma updateNode_step_at p m i n :
  JsMap.get m i = Some n ->
  JsMap.get (updateNode_step p m i) i = Some (spread n p).
Proof. intro H. unfold updateNode_step. rewrite H. apply get_set_same. Qed.

Lemma department_spread n p :
  p_department p = None -> department (spread n p) = department n.
Proof. intro H. unfold spread. cbn [department]. rewrite H. reflexivity. Qed.

Lemma updateNode_fold_new p sel m k n newName :
  p_id p = None -> p_name p = Some newName ->
  JsMap.wf m -> ids_ok m -> (In k sel -> p_department p = None) ->
  JsMap.get m k = Some n -> department n = Some newName ->
  exists n', JsMap.get (fold_left (updateNode_step p) sel m) k = Some n'
             /\ department n' = Some newName.
Proof.
  intros Hpid Hpn. revert m n. induction sel as [| i r IH]; intros m n Hwf Hids Hk Hget Hd.
  - exists n. auto.
  - cbn [fold_left].
    assert (Hkr : In k r -> p_department p = None) by (intro K; apply Hk; right; exact K).
    destruct (updateNode_step_keeps p m i Hpid Hwf Hids) as [Hwf' Hids'].
    destruct (string_dec k i) as [<- | Hki].
    + apply (IH _ (spread n p) Hwf' Hids' Hkr (updateNode_step_at p m k n Hget)).
      rewrite department_spread; [exact Hd | apply Hk; left; reflexivity].
    + destruct (updateNode_step_other p m i k Hwf Hids Hki)
        as [E | [node [nn [Hi [Hp [Hty [Hnn [Hname E]]]]]]]].
      * apply (IH _ n Hwf' Hids' Hkr); [rewrite E; exact Hget | exact Hd].
      * rewrite Hpn in Hp. injection Hp as <-. rewrite Hget in E. simpl in E.
        apply (IH _ _ Hwf' Hids' Hkr E).
        apply (rename_department_new newName); auto.
Qed.

Lemma updateNode_fold_rename p sel m g gnode k n newName :
  p_id p = None -> p_name p = Some newName -> newName <> "" ->
  JsMap.wf m -> ids_ok m -> In g sel -> k <> g ->
  (In k sel -> p_department p = None) ->
  JsMap.get m g = Some gnode -> type gnode = group -> name gnode <> newName ->
  JsMap.get m k = Some n ->
  department n = Some newName \/ department n = Some (name gnode) ->
  exists n', JsMap.get (fold_left (updateNode_step p) sel m) k = Some n'
             /\ department n' = Some newName.
Proof.
  intros Hpid Hpn Hnn. revert m gnode n.
  induction sel as [| i r IH];
    intros m gnode n Hwf Hids Hg Hkg Hk Hgg Hty Hname Hget Hd; [contradiction |].
  cbn [fold_left].
  assert (Hkr : In k r -> p_department p = None) by (intro K; apply Hk; right; exact K).
  destruct (updateNode_step_keeps p m i Hpid Hwf Hids) as [Hwf' Hids'].
  destruct (string_dec i g) as [-> | Hig].
  - (* the group itself is updated now *)
    assert (E : JsMap.get (updateNode_step p m g) k
                = Some (rename_department (name gnode) newName n)).
    { unfold updateNode_step. rewrite Hgg, Hpn.
      rewrite get_set_other by (intro K; apply Hkg; symmetry; exact K).
      assert (C : NodeType_eqb (type gnode) group && str_truthy newName
                  && negb (name gnode =? newName) = true).
      { rewrite Hty. simpl. unfold str_truthy.
        destruct (newName =? "") eqn:E1; [apply String.eqb_eq in E1; contradiction |].
        destruct (name gnode =? newName) eqn:E2;
          [apply String.eqb_eq in E2; contradiction | reflexivity]. }
      rewrite C. rewrite (propagate_rename_pointwise _ _ _ Hwf Hids).
      rewrite get_map_values, Hget. reflexivity. }
    apply (updateNode_fold_new p r _ k _ newName Hpid Hpn Hwf' Hids' Hkr E).
    apply (rename_department_new (name gnode)); [exact Hname |].
    destruct Hd as [Hd | Hd]; [left; exact Hd | right; auto].
  - (* another selected node is updated *)
    assert (Hgr : In g r) by (destruct Hg as [K | K]; [contradiction | exact K]).
    assert (Hgi : g <> i) by (intro K; apply Hig; symmetry; exact K).
    destruct (string_dec k i) as [<- | Hki].
    + (* the member itself: the patch is applied to it *)
      assert (Hpd : p_department p = None) by (apply Hk; left; reflexivity).
      pose proof (updateNode_step_at p m k n Hget) as Ek.
      assert (Hd' : department (spread n p) = Some newName
                    \/ department (spread n p) = Some (name gnode))
        by (rewrite department_spread; assumption).
      destruct (updateNode_step_other p m k g Hwf Hids Hgi) as [Eg | Eg].
      * eapply IH;
          [exact Hwf' | exact Hids' | exact Hgr | exact Hkg | exact Hkr
          | rewrite Eg; exact Hgg | exact Hty | exact Hname | exact Ek | exact Hd'].
      * destruct Eg as [node [nn [Hi [Hp [_ [_ [Hnm Eg]]]]]]].
        rewrite Hpn in Hp. injection Hp as <-. rewrite Hgg in Eg. simpl in Eg.
        destruct (rename_department_keeps (name node) newName gnode) as [_ [Kn Kt]].
        eapply IH;
          [exact Hwf' | exact Hids' | exact Hgr | exact Hkg | exact Hkr | exact Eg
          | rewrite Kt; exact Hty | rewrite Kn; exact Hname | exact Ek
          | rewrite Kn; exact Hd'].
    + destruct (updateNode_step_other p m i g Hwf Hids Hgi) as [Eg | Eg];
        destruct (updateNode_step_other p m i k Hwf Hids Hki) as [Ek | Ek].
      * eapply IH;
          [exact Hwf' | exact Hids' | exact Hgr | exact Hkg | exact Hkr
          | rewrite Eg; exact Hgg | exact Hty | exact Hname | rewrite Ek; exact Hget
          | exact Hd].
      * destruct Ek as [node [nn [Hi [Hp [_ [_ [Hnm Ek]]]]]]].
        rewrite Hpn in Hp. injection Hp as <-. rewrite Hget in Ek. simpl in Ek.
        eapply IH;
          [exact Hwf' | exact Hids' | exact Hgr | exact Hkg | exact Hkr
          | rewrite Eg; exact Hgg | exact Hty | exact Hname | exact Ek
          | apply rename_department_other_group; assumption].
      * destruct Eg as [node [nn [Hi [Hp [_ [_ [Hnm Eg]]]]]]].
        rewrite Hpn in Hp. injection Hp as <-. rewrite Hgg in Eg. simpl in Eg.
        destruct (rename_department_keeps (name node) newName gnode) as [_ [Kn Kt]].
        eapply IH;
          [exact Hwf' | exact Hids' | exact Hgr | exact Hkg | exact Hkr | exact Eg
          | rewrite Kt; exact Hty | rewrite Kn; exact Hname | rewrite Ek; exact Hget
          | rewrite Kn; exact Hd].
      * destruct Eg as [node [nn [Hi [Hp [_ [_ [Hnm Eg]]]]]]].
        destruct Ek as [node' [nn' [Hi' [Hp' [_ [_ [Hnm' Ek]]]]]]].
        rewrite Hpn in Hp, Hp'. injection Hp as <-. injection Hp' as <-.
        rewrite Hi in Hi'. injection Hi' as <-.
        rewrite Hgg in Eg. rewrite Hget in Ek. simpl in Eg, Ek.
        destruct (rename_department_keeps (name node) newName gnode) as [_ [Kn Kt]].
        eapply IH;
          [exact Hwf' | exact Hids' | exact Hgr | exact Hkg | exact Hkr | exact Eg
          | rewrite Kt; exact Hty | rewrite Kn; exact Hname | exact Ek
          | rewrite Kn; apply rename_department_other_group; assumption].
Qed.

(** C8, as amended: on a chart whose nodes are stored under their own ids,
    when a selected group is renamed through [updateNode], with a patch
    that carries no id, to a non-empty name different from its current one,
    every other node whose department was the old name has the new name as
    its department afterwards, selected or not; for a node that is itself
    selected the patch must carry no department, since the patch is applied
    to it as well. *)
Theorem rename_group_propagates (p : PartialNode) (s : State)
    (newName g : string) (gnode : ChartNode) :
  JsMap.wf (nodes s) -> ids_ok (nodes s) ->
  p_name p = Some newName -> p_id p = None -> newName <> "" ->
  In g (selectedNodeIds s) ->
  JsMap.get (nodes s) g = Some gnode -> type gnode = group -> name gnode <> newName ->
  forall k n,
    k <> g -> (In k (selectedNodeIds s) -> p_department p = None) ->
    JsMap.get (nodes s) k = Some n -> department n = Some (name gnode) ->
    exists n', JsMap.get (nodes (updateNode p s)) k = Some n'
               /\ department n' = Some newName.
Proof.
  intros Hwf Hids Hpn Hpid Hnn Hg Hgg Hty Hname k n Hkg Hk Hget Hd.
  unfold updateNode.
  destruct (Nat.eqb (JsSet.size (selectedNodeIds s)) 0) eqn:E.
  - apply Nat.eqb_eq in E. unfold JsSet.size in E.
    destruct (selectedNodeIds s); [contradiction | discriminate].
  - simpl. eapply updateNode_fold_rename; eauto.
Qed.

Lemma rename_group_propagates_witness :
  let s := selectNode "g2" true (selectNode "2-1" false initial) in
  JsMap.wf (nodes s) /\ ids_ok (nodes s)
  /\ selectedNodeIds s = ["2-1"; "g2"]
  /\ (exists gnode n,
         JsMap.get (nodes s) "g2" = Some gnode /\ name gnode = "Growth"
         /\ JsMap.get (nodes s) "2-1" = Some n /\ department n = Some "Growth")
  /\ exists n', JsMap.get (nodes (updateNode (only_name "Marketing") s)) "2-1" = Some n'
                /\ department n' = Some "Marketing".
Proof.
  intro s.
  assert (Hwf : JsMap.wf (nodes s)) by (apply nodupb_sound; vm_compute; reflexivity).
  assert (Hids : ids_ok (nodes s)) by (apply ids_okb_sound; vm_compute; reflexivity).
  destruct (JsMap.get (nodes s) "g2") as [gnode |] eqn:Eg; [| vm_compute in Eg; discriminate].
  destruct (JsMap.get (nodes s) "2-1") as [n |] eqn:En; [| vm_compute in En; discriminate].
  assert (Hname : name gnode = "Growth").
  { apply (f_equal (option_map name)) in Eg. vm_compute in Eg. injection Eg as Eg.
    symmetry. exact Eg. }
  assert (Hty : type gnode = group).
  { apply (f_equal (option_map type)) in Eg. vm_compute in Eg. injection Eg as Eg.
    symmetry. exact Eg. }
  assert (Hd : department n = Some "Growth").
  { apply (f_equal (option_map department)) in En. vm_compute in En. injection En as En.
    symmetry. exact En. }
  split; [exact Hwf |]. split; [exact Hids |]. split; [vm_compute; reflexivity |]. split.
  - exists gnode, n. auto.
  - apply (rename_group_propagates (only_name "Marketing") s "Marketing" "g2" gnode
             Hwf Hids eq_refl eq_refl) with (n := n); auto.
    + discriminate.
    + right. left. reflexivity.
    + rewrite Hname. discriminate.
    + discriminate.
    + rewrite Hname. exact Hd.
Defined.

(** C8 as stated fails for the empty name: [updateNode] propagates only a
    truthy name, so the group is renamed to [""] and its members keep the old
    department. *)
Lemma rename_to_empty_not_propagated :
  let s := selectNode "g2" false initial in
  let s' := updateNode (only_name "") s in
  option_map name (JsMap.get (nodes s) "g2") = Some "Growth"
  /\ option_map department (JsMap.get (nodes s) "2-1") = Some (Some "Growth")
  /\ option_map name (JsMap.get (nodes s') "g2") = Some ""
  /\ option_map department (JsMap.get (nodes s') "2-1") = Some (Some "Growth")
  /\ option_map department (JsMap.get (nodes s') "2-1") <> Some (Some "").
Proof.
  cbv zeta. repeat split; try (vm_compute; reflexivity).
  vm_compute. discriminate.
Qed.

(** C8 as stated also fails for the renamed group itself: a group whose own
    department is its name is written back as it was read before the
    propagation, so it keeps the old name as its department. *)
Example rename_skips_group_itself :
  let s := self_tagged_group in
  let s' := updateNode (only_name "Marketing") s in
  selectedNodeIds s = ["g2"]
  /\ option_map name (JsMap.get (nodes s) "g2") = Some "Growth"
  /\ option_map department (JsMap.get (nodes s) "g2") = Some (Some "Growth")
  /\ option_map name (JsMap.get (nodes s') "g2") = Some "Marketing"
  /\ option_map department (JsMap.get (nodes s') "g2") = Some (Some "Growth").
Proof. cbv zeta. repeat split; vm_compute; reflexivity. Qed.

(** A selected member takes its department from a patch that carries one. *)
Example rename_with_department_patch :
  let s := selectNode "g2" true (selectNode "2-1" false initial) in
  let s' := updateNode (name_and_department "Marketing" "Sales") s in
  option_map department (JsMap.get (nodes s) "2-1") = Some (Some "Growth")
  /\ option_map name (JsMap.get (nodes s') "g2") = Some "Marketing"
  /\ option_map department (JsMap.get (nodes s') "2-1") = Some (Some "Sales")
  /\ option_map department (JsMap.get (nodes s') "2-2") = Some (Some "Marketing").
Proof. cbv zeta. repeat split; vm_compute; reflexivity. Qed.

(** The propagation writes each member under its own id: a member stored
    under another key keeps the old department there. *)
Example rename_misses_foreign_key :
  let s := selectNode "g2" false renamed_manager in
  let s' := updateNode (only_name "Marketing") s in
  option_map id (JsMap.get (nodes s) "2") = Some "zz"
  /\ option_map department (JsMap.get (nodes s) "2") = Some (Some "Growth")
  /\ option_map name (JsMap.get (nodes s') "g2") = Some "Marketing"
  /\ option_map department (JsMap.get (nodes s') "2") = Some (Some "Growth")
  /\ option_map department (JsMap.get (nodes s') "zz") = Some (Some "Marketing").
Proof. cbv zeta. repeat split; vm_compute; reflexivity. Qed.

(** With an id in the patch, a selected member updated before the group is
    stored under its old key with the new id, and the propagation then
    writes it under the new id: its department under the old key stays. *)
Example rename_with_id_patch :
  let s := selectNode "g2" true (selectNode "2-1" false initial) in
  let s' := updateNode (id_and_name "zz" "Marketing") s in
  option_map department (JsMap.get (nodes s) "2-1") = Some (Some "Growth")
  /\ option_map name (JsMap.get (nodes s') "g2") = Some "Marketing"
  /\ option_map department (JsMap.get (nodes s') "2-1") = Some (Some "Growth").
Proof. cbv zeta. repeat split; vm_compute; reflexivity. Qed.

(** ** Group membership of one node *)






Lemma in_values_get (m : NodeMap) n :
  JsMap.wf m -> ids_ok m -> In n (JsMap.values m) -> JsMap.get m (id n) = Some n.
Proof.
  intros Hwf Hids Hin. unfold JsMap.values in Hin. apply in_map_iff in Hin.
  destruct Hin as [[k n0] [Heq Hin]]. simpl in Heq. subst n0.
  rewrite (Hids k n Hin). apply In_get; assumption.
Qed.




Lemma side_num_or w d : num_or w (zq d) = side w d.
Proof.
  unfold num_or, side, num_eqb. destruct w as [v |]; [| reflexivity].
  destruct (Qc_eq_dec v (zq 0)); reflexivity.
Qed.





(** A group stored under a key other than its id is looked up under its id
    and so has no geometry for the search: the card ['2-1'] lies on the
    rectangle stored for ['g2'] and still loses its department. *)
Example membership_misses_foreign_key :
  let s := renamed_group in
  option_map (fun n => (id n, type n)) (JsMap.get (nodes s) "g2") = Some ("zz", group)
  /\ match JsMap.get (nodePositions s) "2-1", JsMap.get (nodePositions s) "g2" with
     | Some pos, Some gpos =>
         num_ltb (zq 0) (intersection_area (rect_at 208 100 pos) (rect_at 300 300 gpos))
     | _, _ => false
     end = true
  /\ option_map department (JsMap.get (nodes s) "2-1") = Some (Some "Growth")
  /\ option_map department (JsMap.get (nodes (updateNodeMembership "2-1" s)) "2-1")
     = Some (Some "").
Proof. cbv zeta. repeat split; vm_compute; reflexivity. Qed.

(** The department that the witness state ends with: the node was moved
    over the "Product" area. *)
Example membership_after_move :
  option_map department
    (JsMap.get (nodes (updateNodeMembership "2-1"
                         (updateNodePosition "2-1" (zq 2300) (zq 400) initial))) "2-1")
  = Some (Some "Product").
Proof. vm_compute. reflexivity. Qed.

(** ** Paste *)

Lemma find_key_unique {A} (key : A -> string) (l : list A) (a : A) :
  NoDup (map key l) -> In a l -> find (fun b => key b =? key a) l = Some a.
Proof.
  induction l as [| b r IH]; intros Hnd Hin; [contradiction |].
  simpl in Hnd. inversion Hnd as [| ? ? Hnotin Hnd']; subst. simpl.
  destruct Hin as [-> | Hin].
  - rewrite String.eqb_refl. reflexivity.
  - destruct (key b =? key a) eqn:E; [| apply IH; assumption].
    apply String.eqb_eq in E. exfalso. apply Hnotin. rewrite E. apply in_map. exact Hin.
Qed.

Lemma get_fold_set {A V} (key : A -> string) (val : A -> V) (l : list A)
    (m0 : JsMap.t V) (k : string) :
  NoDup (map key l) ->
  JsMap.get (fold_left (fun m a => JsMap.set m (key a) (val a)) l m0) k
  = match find (fun a => key a =? k) l with
    | Some a => Some (val a)
    | None => JsMap.get m0 k
    end.
Proof.
  revert m0. induction l as [| a r IH]; intros m0 Hnd; [reflexivity |].
  simpl in Hnd. inversion Hnd as [| ? ? Hnotin Hnd']; subst.
  cbn [fold_left find]. rewrite (IH _ Hnd').
  destruct (key a =? k) eqn:E.
  - apply String.eqb_eq in E. subst k.
    destruct (find (fun a0 => key a0 =? key a) r) as [b |] eqn:F.
    + apply find_some in F. destruct F as [Hb Eb]. apply String.eqb_eq in Eb.
      exfalso. apply Hnotin. rewrite <- Eb. apply in_map. exact Hb.
    + apply get_set_same.
  - destruct (find (fun a0 => key a0 =? k) r); [reflexivity |].
    apply get_set_other. apply String.eqb_neq. exact E.
Qed.

Lemma ids_ok_fold_set {A} (val : A -> ChartNode) (l : list A) (m0 : NodeMap) :
  ids_ok m0 ->
  ids_ok (fold_left (fun m a => JsMap.set m (id (val a)) (val a)) l m0).
Proof.
  revert m0. induction l as [| a r IH]; intros m0 H; [exact H |].
  cbn [fold_left]. apply IH. apply ids_ok_set; [exact H | reflexivity].
Qed.



Lemma id_remap ids n : id (remap_children ids n) = id n.
Proof. unfold remap_children. destruct (children n) as [[| c cs] |]; reflexivity. Qed.

Lemma type_remap ids n : type (remap_children ids n) = type n.
Proof. unfold remap_children. destruct (children n) as [[| c cs] |]; reflexivity. Qed.

(** [updateGroupMembership] rewrites departments only. *)
Lemma updateGroupMembership_pointwise g s :
  JsMap.wf (nodes s) -> ids_ok (nodes s) ->
  exists f,
    (forall n, id (f n) = id n /\ children (f n) = children n)
    /\ updateGroupMembership g s = set_nodes s (JsMap.map_values f (nodes s)).
Proof.
  intros Hwf Hids.
  assert (Hid : exists f : ChartNode -> ChartNode,
             (forall n, id (f n) = id n /\ children (f n) = children n)
             /\ s = set_nodes s (JsMap.map_values f (nodes s))).
  { exists (fun n => n). split; [auto |]. unfold JsMap.map_values.
    rewrite (map_ext _ (fun kv => kv)) by (intros [a b]; reflexivity).
    rewrite map_id. destruct s; reflexivity. }
  unfold updateGroupMembership.
  destruct (JsMap.get (nodes s) g) as [gn |]; [| exact Hid].
  destruct (JsMap.get (nodePositions s) g) as [gp |]; [| exact Hid].
  destruct (negb (NodeType_eqb (type gn) group)); [exact Hid |].
  exists (adopt_or_orphan (nodePositions s) g (name gn) (group_rect gp)). split.
  - intro n. unfold adopt_or_orphan.
    destruct (functionalTypes (type n) && negb (id n =? g)); [| auto].
    destruct (JsMap.get (nodePositions s) (id n)); [| auto].
    destruct (num_ltb _ _); destruct (department_is n (name gn)); auto.
  - f_equal. apply forEach_pointwise; [exact Hwf |].
    intros m' k v Hin Hget. unfold adopt_or_orphan. rewrite (Hids k v Hin).
    destruct (functionalTypes (type v) && negb (k =? g));
      [| symmetry; apply set_get_same; exact Hget].
    destruct (JsMap.get (nodePositions s) k);
      [| symmetry; apply set_get_same; exact Hget].
    destruct (num_ltb _ _); destruct (department_is v (name gn));
      try reflexivity; symmetry; apply set_get_same; exact Hget.
Qed.

Lemma same_links_refl m : same_links m m.
Proof. intro k. reflexivity. Qed.

Lemma same_links_trans m1 m2 m3 : same_links m1 m2 -> same_links m2 m3 -> same_links m1 m3.
Proof. intros H1 H2 k. rewrite (H2 k). apply H1. Qed.

Lemma same_links_map_values f m :
  (forall n, id (f n) = id n /\ children (f n) = children n) ->
  same_links m (JsMap.map_values f m).
Proof.
  intros Hf k. rewrite get_map_values. destruct (JsMap.get m k) as [n |]; [| reflexivity].
  simpl. destruct (Hf n) as [-> ->]. reflexivity.
Qed.


Lemma in_pasted_fst drawn a :
  In a (map fst (flat_map pasted_node drawn)) -> In a (map fst drawn).
Proof.
  induction drawn as [| d r IH]; cbn [flat_map map]; [auto |].
  rewrite map_app, in_app_iff. intros [H | H]; [| right; apply IH; exact H].
  unfold pasted_node in H. destruct (c_data (snd d)); [| contradiction].
  destruct H as [<- | []]. left. reflexivity.
Qed.

Lemma nodup_pasted_fst drawn :
  NoDup (map fst drawn) -> NoDup (map fst (flat_map pasted_node drawn)).
Proof.
  induction drawn as [| d r IH]; cbn [flat_map map]; intro H; [constructor |].
  inversion H as [| ? ? Hnotin Hnd]; subst. rewrite map_app.
  unfold pasted_node at 1. destruct (c_data (snd d)); simpl; [| apply IH; exact Hnd].
  constructor; [| apply IH; exact Hnd].
  intro K. apply Hnotin. apply in_pasted_fst. exact K.
Qed.


Lemma map_fst_drawn gen clip :
  map fst (drawn_ids gen clip) = map gen (seq 0 (length clip)).
Proof.
  unfold drawn_ids.
  assert (H : forall (ids : list string) (l : list ClipboardItem),
             length ids = length l -> map fst (combine ids l) = ids).
  { induction ids as [| i r IH]; intros [| a l] Hl; try discriminate; [reflexivity |].
    simpl. f_equal. apply IH. simpl in Hl. lia. }
  apply H. rewrite length_map, length_seq. reflexivity.
Qed.



Lemma ltb_length_nil {A} (l : list A) : Nat.ltb 0 (length l) = false -> l = [].
Proof. destruct l; [reflexivity | discriminate]. Qed.





(** A copied drawing is appended under the id drawn for it and is the
    selection after the paste. *)
Example paste_drawing_appended :
  let s' := pasteNodes sample_ids (zq 40) (zq 60) copied_drawing in
  map d_id (drawings copied_drawing) = ["d"]
  /\ map d_id (drawings s') = ["d"; "n0"]
  /\ selectedDrawingIds s' = ["n0"]
  /\ selectedNodeIds s' = [].
Proof. cbv zeta. repeat split; vm_compute; reflexivity. Qed.

(** Where a copied node is stored under a key other than its id, its parent
    lists the key and the paste looks up the id: the copy of ['1'] loses
    the copy of its child stored under ['2']. *)
Example paste_foreign_key_not_mirrored :
  let s := copySelection (selectNode "2" true (selectNode "1" false renamed_manager)) in
  let s' := pasteNodes sample_ids (zq 40) (zq 60) s in
  option_map children (JsMap.get (nodes s) "1") = Some (Some ["2"; "3"])
  /\ option_map id (JsMap.get (nodes s) "2") = Some "zz"
  /\ selectedNodeIds s' = ["n0"; "n1"]
  /\ option_map children (JsMap.get (nodes s') "n0") = Some (Some []).
Proof. cbv zeta. repeat split; vm_compute; reflexivity. Qed.

(** The pasted copy of the manager has the pasted copies of its two
    reports as children, and the three new nodes are the selection. *)
Example paste_manager_with_reports :
  let s' := pasteNodes sample_ids (zq 40) (zq 60) copied_manager in
  option_map children (JsMap.get (nodes s') "n0") = Some (Some ["n1"; "n2"])
  /\ option_map children (JsMap.get (nodes s') "n1") = Some (Some [])
  /\ selectedNodeIds s' = ["n0"; "n1"; "n2"].
Proof. vm_compute. repeat split. Qed.

(** ** Sorting children by department *)

Lemma in_insert_by le a l c : In c (insert_by le a l) <-> c = a \/ In c l.
Proof.
  induction l as [| b r IH]; simpl.
  - split; [intros [H | []]; auto | intros [H | []]; auto].
  - destruct (le a b); simpl.
    + split; [intros [H | H]; auto | intros [H | H]; auto].
    + rewrite IH. split; [intros [H | [H | H]]; auto | intros [H | [H | H]]; auto].
Qed.

Lemma in_stable_sort le l c : In c (stable_sort le l) <-> In c l.
Proof.
  induction l as [| a r IH]; simpl; [tauto |].
  rewrite in_insert_by, IH. split; [intros [H | H]; auto | intros [H | H]; auto].
Qed.

Lemma sortedb_insert_by le a l :
  (forall u v, le u v = true \/ le v u = true) ->
  sortedb le l = true -> sortedb le (insert_by le a l) = true.
Proof.
  intro Htot. induction l as [| b r IH]; intro H; [reflexivity |].
  cbn [insert_by]. destruct (le a b) eqn:E.
  - cbn [sortedb]. rewrite E. exact H.
  - assert (Hba : le b a = true) by (destruct (Htot a b) as [K | K]; congruence).
    destruct r as [| c r'].
    + cbn. rewrite Hba. reflexivity.
    + cbn [sortedb] in H. apply andb_prop in H. destruct H as [Hbc Hr].
      specialize (IH Hr). cbn [insert_by] in *.
      destruct (le a c); cbn [sortedb] in *.
      * rewrite Hba. exact IH.
      * rewrite Hbc. exact IH.
Qed.

Lemma sortedb_stable_sort le l :
  (forall u v, le u v = true \/ le v u = true) -> sortedb le (stable_sort le l) = true.
Proof.
  intro Htot. induction l as [| a r IH]; [reflexivity |].
  simpl. apply sortedb_insert_by; assumption.
Qed.



Lemma dept_le_total m u v : dept_le m u v = true \/ dept_le m v u = true.
Proof. unfold dept_le. apply String.leb_total. Qed.

Lemma sort_node_children_keeps m n :
  id (sort_node_children m n) = id n
  /\ type (sort_node_children m n) = type n
  /\ name (sort_node_children m n) = name n
  /\ department (sort_node_children m n) = department n.
Proof.
  unfold sort_node_children. destruct (children n) as [[| c1 [| c2 cs]] |]; auto.
Qed.

Lemma in_children_sort m n c :
  In c (children_of (sort_node_children m n)) <-> In c (children_of n).
Proof.
  unfold sort_node_children.
  destruct (children n) as [[| c1 [| c2 cs]] |] eqn:E; try tauto.
  unfold children_of at 1. cbn [children with_children spread over_opt p_children].
  rewrite in_stable_sort. unfold children_of. rewrite E. tauto.
Qed.


Lemma with_children_twice n l l' : with_children (with_children n l) l' = with_children n l'.
Proof. reflexivity. Qed.




Lemma edge_sorted m a b : edge (sortChildrenByDepartment m) a b <-> edge m a b.
Proof.
  unfold edge, sortChildrenByDepartment. split.
  - intros [n [Hget Hin]]. rewrite get_map_values in Hget.
    destruct (JsMap.get m a) as [n0 |]; [| discriminate].
    simpl in Hget. injection Hget as <-. exists n0. split; [reflexivity |].
    apply in_children_sort in Hin. exact Hin.
  - intros [n [Hget Hin]]. exists (sort_node_children m n).
    rewrite get_map_values, Hget. split; [reflexivity |].
    apply in_children_sort. exact Hin.
Qed.

Lemma descends_sorted m a b : descends (sortChildrenByDepartment m) a b <-> descends m a b.
Proof.
  split; intro P.
  - induction P as [u v E | u v w E P IH].
    + apply desc_edge. apply edge_sorted. exact E.
    + apply (desc_step m u v w); [apply edge_sorted; exact E | exact IH].
  - induction P as [u v E | u v w E P IH].
    + apply desc_edge. apply edge_sorted. exact E.
    + apply (desc_step _ u v w); [apply edge_sorted; exact E | exact IH].
Qed.

Lemma acyclic_sorted m : acyclic m -> acyclic (sortChildrenByDepartment m).
Proof. intros H k P. apply (H k). apply descends_sorted. exact P. Qed.

Lemma ids_ok_sorted m : ids_ok m -> ids_ok (sortChildrenByDepartment m).
Proof.
  intro H. apply ids_ok_map_values; [| exact H].
  intro n. apply sort_node_children_keeps.
Qed.

(** ** The recursive passes of the layout *)

Lemma has_set {V} (m : JsMap.t V) k v k' :
  JsMap.has (JsMap.set m k v) k' = (k =? k') || JsMap.has m k'.
Proof. unfold JsMap.has. rewrite get_set. destruct (k =? k'); reflexivity. Qed.

(** A property of the geometry under construction that every write of
    [executeLayout] keeps is kept by the whole recursion. *)
Section LayoutInvariant.
Variable P : PosMap -> Prop.
Variable map : NodeMap.
Variable C : PosMap.
Hypothesis P_set :
  forall np k node px py,
    P np -> JsMap.get map k = Some node ->
    P (JsMap.set np k {| x := px; y := py;
                         width := Some (old_width C k);
                         height := Some (old_height C k) |}).

Lemma layout_block_invariant rec measure sd first cs cx np cx' np' rest :
  (forall c cx0 acc acc', P acc -> rec c cx0 acc = Some acc' -> P acc') ->
  P np ->
  layout_block rec measure map sd first cs cx np = Some (cx', np', rest) ->
  P np'.
Proof.
  intro Hrec. revert first cx np. induction cs as [| c r IH]; simpl; intros first cx np Hp H.
  - injection H as <- <- <-. exact Hp.
  - destruct (dept_of map c =? sd).
    + destruct (measure c) as [w |]; [| discriminate].
      destruct (rec c _ np) as [np1 |] eqn:E; [| discriminate].
      apply (IH _ _ _ (Hrec _ _ _ _ Hp E) H).
    + injection H as <- <- <-. exact Hp.
Qed.

Lemma layout_blocks_invariant n rec measure cs cx np np' :
  (forall c cx0 acc acc', P acc -> rec c cx0 acc = Some acc' -> P acc') ->
  P np ->
  layout_blocks n rec measure map cs cx np = Some np' ->
  P np'.
Proof.
  intro Hrec. revert cs cx np. induction n as [| n IH]; intros cs cx np Hp H.
  - destruct cs; cbn [layout_blocks] in H; injection H as <-; exact Hp.
  - destruct cs as [| c r]; cbn [layout_blocks] in H; [injection H as <-; exact Hp |].
    destruct (layout_block rec measure map (dept_of map c) true (c :: r) _ np)
      as [[[cx2 np2] rest] |] eqn:E; [| discriminate].
    apply (IH _ _ _ (layout_block_invariant _ _ _ _ _ _ _ _ _ _ Hrec Hp E) H).
Qed.

Lemma executeLayout_invariant fuel nodeId x0 depth np np' :
  P np ->
  executeLayout fuel map C nodeId x0 depth np = Some np' ->
  P np'.
Proof.
  revert nodeId x0 depth np np'.
  induction fuel as [| fuel IH]; intros nodeId x0 depth np np' Hp H;
    cbn [executeLayout] in H; [discriminate |].
  destruct (JsMap.get map nodeId) as [node |] eqn:Hnode; [| injection H as <-; exact Hp].
  destruct (measureSubtree (depth_bound map) map nodeId) as [tw |]; [| discriminate].
  cbv zeta in H.
  match type of H with
  | context [JsMap.set np nodeId ?p] =>
      assert (Hp1 : P (JsMap.set np nodeId p)) by (eapply P_set; eassumption)
  end.
  destruct (children node) as [[| c cs] |]; try (injection H as <-; exact Hp1).
  eapply layout_blocks_invariant; [| exact Hp1 | exact H].
  intros c0 cx0 acc acc' Hacc Hrec. cbv beta in Hrec. eapply IH; eassumption.
Qed.

Lemma layout_roots_invariant np :
  P JsMap.empty -> layout_roots map C = Some np -> P np.
Proof.
  intros Hempty. unfold layout_roots.
  set (roots := filter _ (JsMap.values map)). clearbody roots.
  assert (Hgen : forall acc,
             (forall rx0 p, acc = Some (rx0, p) -> P p) ->
             forall rx1 p1,
               fold_left (layout_root map C) roots acc = Some (rx1, p1) -> P p1).
  { induction roots as [| r rs IH]; cbn [fold_left]; intros acc Hacc rx1 p1 H.
    - eapply Hacc. exact H.
    - eapply IH; [| exact H]. intros rx0 p Heq. unfold layout_root in Heq.
      destruct acc as [[rootX p0] |]; [| discriminate].
      destruct (measureSubtree (depth_bound map) map (id r)); [| discriminate].
      destruct (executeLayout _ _ _ _ _ _ p0) as [np0 |] eqn:E; [| discriminate].
      injection Heq as <- <-. eapply executeLayout_invariant; [| exact E].
      eapply Hacc. reflexivity. }
  intro H.
  match type of H with
  | option_map snd ?f = _ => destruct f as [[rx1 p1] |] eqn:E; [| discriminate]
  end.
  simpl in H. injection H as <-. eapply Hgen; [| exact E].
  intros rx0 p Heq. injection Heq as <- <-. exact Hempty.
Qed.

End LayoutInvariant.

Lemma laid_out_roots map C np : layout_roots map C = Some np -> laid_out map C np.
Proof.
  apply (layout_roots_invariant (laid_out map C)).
  - intros np0 k node px py Hp Hnode k' p Hget. rewrite get_set in Hget.
    destruct (k =? k') eqn:E; [| apply Hp; exact Hget].
    apply String.eqb_eq in E. subst k'. injection Hget as <-. simpl.
    split; [exists node; exact Hnode | auto].
  - intros k p Hget. discriminate.
Qed.

(** Two runs of the recursion over the same node map, from two geometry
    maps, return together and agree. *)
Section LayoutCongruence.
Variable map : NodeMap.
Variables C0 C1 : PosMap.






End LayoutCongruence.

(** ** The passes after the recursion *)

Lemma get_transfer map C T k :
  JsMap.wf C ->
  JsMap.get (transfer_non_hierarchy map C T) k
  = match JsMap.get C k, JsMap.get map k with
    | Some pos, Some node => if functionalTypes (type node) then JsMap.get T k else Some pos
    | _, _ => JsMap.get T k
    end.
Proof.
  unfold transfer_non_hierarchy, JsMap.wf. revert T.
  induction C as [| [k0 p0] r IH]; intros T Hnd; [reflexivity |].
  simpl in Hnd. inversion Hnd as [| ? ? Hnotin Hnd']; subst.
  cbn [fold_left]. rewrite (IH _ Hnd'). cbn [JsMap.get].
  destruct (k0 =? k) eqn:E.
  - apply String.eqb_eq in E. subst k0.
    assert (Hr : JsMap.get r k = None) by (apply get_None_keys; exact Hnotin).
    rewrite Hr. unfold transfer_step. cbn [fst snd].
    destruct (JsMap.get map k) as [node |]; [| reflexivity].
    destruct (functionalTypes (type node)); [reflexivity | apply get_set_same].
  - assert (Hk : JsMap.get (transfer_step map T (k0, p0)) k = JsMap.get T k).
    { unfold transfer_step. cbn [fst snd].
      destruct (JsMap.get map k0) as [node |]; [| reflexivity].
      destruct (functionalTypes (type node)); [reflexivity |].
      apply get_set_other. apply String.eqb_neq. exact E. }
    rewrite Hk. reflexivity.
Qed.

Lemma fold_left_ext_in {A B} (f g : A -> B -> A) (l : list B) (a : A) :
  (forall acc b, In b l -> f acc b = g acc b) -> fold_left f l a = fold_left g l a.
Proof.
  revert a. induction l as [| b r IH]; intros a H; [reflexivity |].
  cbn [fold_left]. rewrite (H a b) by (left; reflexivity).
  apply IH. intros acc b0 Hb0. apply H. right. exact Hb0.
Qed.

Lemma group_box_ext map np np' g :
  (forall n, In n (JsMap.values map) -> functionalTypes (type n) = true ->
             JsMap.get np (id n) = JsMap.get np' (id n)) ->
  group_box map np g = group_box map np' g.
Proof.
  intro H. unfold group_box.
  assert (E : member_bounds np (group_members map g)
              = member_bounds np' (group_members map g)).
  { unfold member_bounds. apply fold_left_ext_in. intros acc n Hn.
    unfold group_members in Hn. apply filter_In in Hn. destruct Hn as [Hin Hc].
    apply andb_prop in Hc. destruct Hc as [_ Hfun].
    rewrite (H n Hin Hfun). reflexivity. }
  rewrite E. reflexivity.
Qed.

Lemma get_fit_fold M gs B k :
  NoDup (List.map id gs) ->
  (forall g n, In g gs -> In n (JsMap.values M) -> functionalTypes (type n) = true ->
               id n <> id g) ->
  JsMap.get (fold_left (fit_group M) gs B) k
  = match find (fun g => id g =? k) gs with
    | Some g => match group_box M B g with
                | Some box => Some box
                | None => JsMap.get B k
                end
    | None => JsMap.get B k
    end.
Proof.
  revert B. induction gs as [| g r IH]; intros B Hnd Hfun; [reflexivity |].
  simpl in Hnd. inversion Hnd as [| ? ? Hnotin Hnd']; subst.
  cbn [fold_left find].
  rewrite (IH _ Hnd') by (intros g0 n Hg0; apply Hfun; right; exact Hg0).
  assert (Hext : forall g0, group_box M (fit_group M B g) g0 = group_box M B g0).
  { intro g0. apply group_box_ext. intros n Hn Hf. unfold fit_group.
    destruct (group_box M B g); [| reflexivity].
    apply get_set_other. intro K. apply (Hfun g n (or_introl eq_refl) Hn Hf).
    symmetry. exact K. }
  destruct (id g =? k) eqn:E.
  - apply String.eqb_eq in E. subst k.
    destruct (find (fun g0 => id g0 =? id g) r) as [g1 |] eqn:F.
    + apply find_some in F. destruct F as [Hin Eg]. apply String.eqb_eq in Eg.
      exfalso. apply Hnotin. rewrite <- Eg. apply in_map. exact Hin.
    + unfold fit_group. destruct (group_box M B g); [apply get_set_same | reflexivity].
  - assert (Hk : JsMap.get (fit_group M B g) k = JsMap.get B k).
    { unfold fit_group. destruct (group_box M B g); [| reflexivity].
      apply get_set_other. apply String.eqb_neq. exact E. }
    rewrite Hk. destruct (find (fun g0 => id g0 =? k) r); [| reflexivity].
    rewrite Hext. reflexivity.
Qed.

Lemma keys_values_ids (m : NodeMap) : ids_ok m -> map id (JsMap.values m) = JsMap.keys m.
Proof.
  intro H. unfold JsMap.values, JsMap.keys. rewrite map_map. apply map_ext_in.
  intros [k n] Hin. simpl. apply H. exact Hin.
Qed.

Lemma nodup_ids_filter (keep : ChartNode -> bool) (ns : list ChartNode) :
  NoDup (map id ns) -> NoDup (map id (filter keep ns)).
Proof.
  intro Hnd. induction ns as [| n rest IH]; [constructor |].
  cbn [map] in Hnd. apply NoDup_cons_iff in Hnd. destruct Hnd as [Hfresh Hrest].
  cbn [filter]. destruct (keep n); [| exact (IH Hrest)].
  cbn [map]. apply NoDup_cons; [| exact (IH Hrest)].
  rewrite in_map_iff. intros [n' [Heq Hin]]. apply filter_In in Hin.
  apply Hfresh. rewrite <- Heq. apply in_map. exact (proj1 Hin).
Qed.

Lemma find_in_values (m : NodeMap) (p : ChartNode -> bool) k :
  JsMap.wf m -> ids_ok m ->
  find (fun g => id g =? k) (filter p (JsMap.values m))
  = match JsMap.get m k with
    | Some g => if p g then Some g else None
    | None => None
    end.
Proof.
  intros Hwf Hids.
  destruct (JsMap.get m k) as [g |] eqn:Hg.
  - destruct (p g) eqn:Hp.
    + assert (Hin : In g (filter p (JsMap.values m))).
      { apply filter_In. split; [| exact Hp].
        apply get_In in Hg. apply (in_map snd) in Hg. exact Hg. }
      rewrite <- (ids_ok_get _ _ _ Hids Hg).
      apply (find_key_unique id); [| exact Hin].
      apply nodup_ids_filter. rewrite (keys_values_ids _ Hids). exact Hwf.
    + destruct (find _ _) as [g' |] eqn:F; [| reflexivity].
      apply find_some in F. destruct F as [Hin E]. apply String.eqb_eq in E.
      apply filter_In in Hin. destruct Hin as [Hin Hp'].
      pose proof (in_values_get _ _ Hwf Hids Hin) as Hg'. rewrite E, Hg in Hg'.
      injection Hg' as ->. congruence.
  - destruct (find _ _) as [g' |] eqn:F; [| reflexivity].
    apply find_some in F. destruct F as [Hin E]. apply String.eqb_eq in E.
    apply filter_In in Hin. destruct Hin as [Hin _].
    pose proof (in_values_get _ _ Hwf Hids Hin) as Hg'. rewrite E, Hg in Hg'. discriminate.
Qed.

(** The geometry after the group fit: the box of a group that has
    positioned members, and what was there for every other key. *)
Lemma get_fit_groups map B k :
  JsMap.wf map -> ids_ok map ->
  JsMap.get (fit_groups map B) k
  = match JsMap.get map k with
    | Some g => if NodeType_eqb (type g) group
                then match group_box map B g with
                     | Some box => Some box
                     | None => JsMap.get B k
                     end
                else JsMap.get B k
    | None => JsMap.get B k
    end.
Proof.
  intros Hwf Hids. unfold fit_groups. rewrite get_fit_fold.
  - rewrite (find_in_values map (fun n => NodeType_eqb (type n) group) k Hwf Hids).
    destruct (JsMap.get map k) as [g |]; [| reflexivity].
    destruct (NodeType_eqb (type g) group); reflexivity.
  - apply nodup_ids_filter. rewrite (keys_values_ids _ Hids). exact Hwf.
  - intros g n Hg Hn Hfun K. apply filter_In in Hg. destruct Hg as [Hg Hty].
    pose proof (in_values_get _ _ Hwf Hids Hg) as E1.
    pose proof (in_values_get _ _ Hwf Hids Hn) as E2.
    rewrite K, E1 in E2. injection E2 as ->.
    apply NodeType_eqb_eq in Hty. rewrite Hty in Hfun. discriminate.
Qed.

Lemma has_reattach A F k : JsMap.has (reattach A F) k = JsMap.has F k.
Proof.
  unfold reattach. revert F. induction A as [| [k0 a] r IH]; intro F; [reflexivity |].
  cbn [fold_left]. rewrite IH. unfold reattach_step. cbn [fst snd].
  destruct (JsMap.get F (groupId a)); [| reflexivity].
  destruct (JsMap.get F k0) as [cur |] eqn:E; [| reflexivity].
  rewrite has_set. destruct (k0 =? k) eqn:Ek; [| reflexivity].
  apply String.eqb_eq in Ek. subst k0. unfold JsMap.has. rewrite E. reflexivity.
Qed.

Lemma get_reattach_other (A : JsMap.t Anchor) F k :
  ~ In k (JsMap.keys A) -> JsMap.get (reattach A F) k = JsMap.get F k.
Proof.
  unfold reattach. revert F. induction A as [| [k0 a] r IH]; intros F Hk; [reflexivity |].
  cbn [fold_left]. rewrite IH by (intro K; apply Hk; right; exact K).
  unfold reattach_step. cbn [fst snd].
  destruct (JsMap.get F (groupId a)); [| reflexivity].
  destruct (JsMap.get F k0); [| reflexivity].
  apply get_set_other. intro K. apply Hk. left. exact K.
Qed.


Lemma in_set_inv {V} (m : JsMap.t V) k v k' v' :
  In (k', v') (JsMap.set m k v) -> (k', v') = (k, v) \/ In (k', v') m.
Proof.
  induction m as [| [k0 v0] r IH]; simpl.
  - intros [H | []]. left. symmetry. exact H.
  - destruct (k0 =? k); simpl.
    + intros [H | H]; [left; symmetry; exact H | right; right; exact H].
    + intros [H | H]; [right; left; exact H |].
      destruct (IH H) as [K | K]; [left; exact K | right; right; exact K].
Qed.


(** ** A second layout moves nothing *)





(** ** The layout returns on an acyclic chart *)

Lemma measure_block_rest rec M sd first cs bw bw' rest :
  measure_block rec M sd first cs bw = Some (bw', rest) -> incl rest cs.
Proof.
  revert first bw. induction cs as [| c r IH]; simpl; intros first bw H.
  - injection H as _ <-. apply incl_refl.
  - destruct (dept_of M c =? sd).
    + destruct (rec c); [| discriminate].
      apply incl_tl. eapply IH. exact H.
    + injection H as _ <-. apply incl_refl.
Qed.

Lemma measure_block_none rec M sd first cs bw :
  measure_block rec M sd first cs bw = None -> exists c, In c cs /\ rec c = None.
Proof.
  revert first bw. induction cs as [| c r IH]; simpl; intros first bw H; [discriminate |].
  destruct (dept_of M c =? sd); [| discriminate].
  destruct (rec c) eqn:E.
  - destruct (IH _ _ H) as [c0 [Hc0 K]]. exists c0. auto.
  - exists c. auto.
Qed.

Lemma measure_blocks_none n rec M cs total :
  measure_blocks n rec M cs total = None -> exists c, In c cs /\ rec c = None.
Proof.
  revert cs total. induction n as [| n IH]; intros cs total H.
  - destruct cs; cbn [measure_blocks] in H; discriminate.
  - destruct cs as [| c r]; cbn [measure_blocks] in H; [discriminate |].
    destruct (measure_block rec M (dept_of M c) true (c :: r) (zq 0))
      as [[bw rest] |] eqn:E.
    + destruct (IH _ _ H) as [c0 [Hc0 K]]. exists c0. split; [| exact K].
      apply (measure_block_rest _ _ _ _ _ _ _ _ E). exact Hc0.
    + apply (measure_block_none _ _ _ _ _ _ E).
Qed.

Lemma measureSubtree_none_chain fuel M r :
  measureSubtree fuel M r = None -> exists l, length l = fuel /\ chain_from M r l.
Proof.
  revert r. induction fuel as [| fuel IH]; intros r H; cbn [measureSubtree] in H.
  - exists []. split; [reflexivity | constructor].
  - destruct (JsMap.get M r) as [n |] eqn:Hn; [| discriminate].
    destruct (children n) as [[| c cs] |] eqn:Hc; try discriminate.
    destruct (measure_blocks_none _ _ _ _ _ H) as [c0 [Hin K]].
    destruct (IH c0 K) as [l [Hlen Hl]].
    exists (r :: l). split; [simpl; rewrite Hlen; reflexivity |].
    apply (cf_cons M r n c0 l Hn); [| exact Hl].
    unfold children_of. rewrite Hc. exact Hin.
Qed.

Lemma measureSubtree_total M k : acyclic M -> measureSubtree (depth_bound M) M k <> None.
Proof.
  intros Hac H. destruct (measureSubtree_none_chain _ _ _ H) as [l [Hlen Hl]].
  destruct (chain_too_long M k l Hl) as [a Pa].
  - rewrite Hlen. unfold depth_bound. lia.
  - exact (Hac a Pa).
Qed.

Lemma layout_block_rest rec measure M sd first cs cx np cx' np' rest :
  layout_block rec measure M sd first cs cx np = Some (cx', np', rest) -> incl rest cs.
Proof.
  revert first cx np. induction cs as [| c r IH]; simpl; intros first cx np H.
  - injection H as _ _ <-. apply incl_refl.
  - destruct (dept_of M c =? sd).
    + destruct (measure c); [| discriminate].
      destruct (rec c _ np); [| discriminate].
      apply incl_tl. eapply IH. exact H.
    + injection H as _ _ <-. apply incl_refl.
Qed.

Lemma layout_block_none rec measure M sd first cs cx np :
  layout_block rec measure M sd first cs cx np = None ->
  exists c, In c cs /\ (measure c = None \/ exists cx0 acc, rec c cx0 acc = None).
Proof.
  revert first cx np. induction cs as [| c r IH]; simpl; intros first cx np H; [discriminate |].
  destruct (dept_of M c =? sd); [| discriminate].
  destruct (measure c) eqn:Em; [| exists c; auto].
  destruct (rec c _ np) eqn:Er; [| exists c; split; [auto | right; eauto]].
  destruct (IH _ _ _ H) as [c0 [Hc0 K]]. exists c0. auto.
Qed.

Lemma layout_blocks_none n rec measure M cs cx np :
  layout_blocks n rec measure M cs cx np = None ->
  exists c, In c cs /\ (measure c = None \/ exists cx0 acc, rec c cx0 acc = None).
Proof.
  revert cs cx np. induction n as [| n IH]; intros cs cx np H.
  - destruct cs; cbn [layout_blocks] in H; discriminate.
  - destruct cs as [| c r]; cbn [layout_blocks] in H; [discriminate |].
    destruct (layout_block rec measure M (dept_of M c) true (c :: r) _ np)
      as [[[cx2 np2] rest] |] eqn:E.
    + destruct (IH _ _ _ H) as [c0 [Hc0 K]]. exists c0. split; [| exact K].
      apply (layout_block_rest _ _ _ _ _ _ _ _ _ _ _ E). exact Hc0.
    + apply (layout_block_none _ _ _ _ _ _ _ _ E).
Qed.

Lemma executeLayout_none fuel M C r x0 depth np :
  executeLayout fuel M C r x0 depth np = None ->
  (exists k, measureSubtree (depth_bound M) M k = None)
  \/ exists l, length l = fuel /\ chain_from M r l.
Proof.
  revert r x0 depth np. induction fuel as [| fuel IH]; intros r x0 depth np H;
    cbn [executeLayout] in H.
  - right. exists []. split; [reflexivity | constructor].
  - destruct (JsMap.get M r) as [n |] eqn:Hn; [| discriminate].
    destruct (measureSubtree (depth_bound M) M r) eqn:Em; [| left; eauto].
    cbv zeta in H.
    destruct (children n) as [[| c cs] |] eqn:Hc; try discriminate.
    destruct (layout_blocks_none _ _ _ _ _ _ _ H) as [c0 [Hin [K | [cx0 [acc K]]]]];
      [left; eauto |].
    cbv beta in K. destruct (IH _ _ _ _ K) as [L | [l [Hlen Hl]]]; [left; exact L |].
    right. exists (r :: l). split; [simpl; rewrite Hlen; reflexivity |].
    apply (cf_cons M r n c0 l Hn); [| exact Hl].
    unfold children_of. rewrite Hc. exact Hin.
Qed.

Lemma executeLayout_total M C r x0 depth np :
  acyclic M -> executeLayout (depth_bound M) M C r x0 depth np <> None.
Proof.
  intros Hac H. destruct (executeLayout_none _ _ _ _ _ _ _ H) as [[k K] | [l [Hlen Hl]]].
  - exact (measureSubtree_total M k Hac K).
  - destruct (chain_too_long M r l Hl) as [a Pa].
    + rewrite Hlen. unfold depth_bound. lia.
    + exact (Hac a Pa).
Qed.

Lemma layout_roots_total M C : acyclic M -> layout_roots M C <> None.
Proof.
  intro Hac. unfold layout_roots.
  set (roots := filter _ (JsMap.values M)). clearbody roots.
  assert (Hgen : forall acc, acc <> None ->
                             fold_left (layout_root M C) roots acc <> None).
  { induction roots as [| r rs IH]; cbn [fold_left]; intros acc Hacc; [exact Hacc |].
    apply IH. unfold layout_root. destruct acc as [[rootX p0] |]; [| congruence].
    destruct (measureSubtree (depth_bound M) M (id r)) eqn:Em;
      [| exfalso; exact (measureSubtree_total M _ Hac Em)].
    destruct (executeLayout _ _ _ _ _ _ p0) eqn:Ee;
      [discriminate | exfalso; exact (executeLayout_total M C _ _ _ _ Hac Ee)]. }
  intro H.
  match type of H with
  | option_map snd ?f = _ => destruct f as [[rx1 p1] |] eqn:E; [discriminate |]
  end.
  apply (Hgen (Some (zq 0, JsMap.empty))); [discriminate | exact E].
Qed.






(** ** Keyset parity *)

Lemma has_in_keys {V} (m : JsMap.t V) k : JsMap.has m k = true <-> In k (JsMap.keys m).
Proof.
  unfold JsMap.has. rewrite <- get_Some_keys.
  destruct (JsMap.get m k) as [v |]; split; intro H; try discriminate; eauto.
  destruct H as [v0 H]. discriminate.
Qed.

Lemma has_get {V} (m : JsMap.t V) k : JsMap.has m k = true -> exists v, JsMap.get m k = Some v.
Proof. unfold JsMap.has. destruct (JsMap.get m k); [eauto | discriminate]. Qed.

Lemma get_has {V} (m : JsMap.t V) k v : JsMap.get m k = Some v -> JsMap.has m k = true.
Proof. unfold JsMap.has. intros ->. reflexivity. Qed.

Lemma has_map_values {V} (f : V -> V) (m : JsMap.t V) k :
  JsMap.has (JsMap.map_values f m) k = JsMap.has m k.
Proof. unfold JsMap.has. rewrite get_map_values. destruct (JsMap.get m k); reflexivity. Qed.

Lemma has_set_present {V} (m : JsMap.t V) k v k' :
  JsMap.has m k = true -> JsMap.has (JsMap.set m k v) k' = JsMap.has m k'.
Proof.
  intro H. rewrite has_set. destruct (k =? k') eqn:E; [| reflexivity].
  apply String.eqb_eq in E. subst. rewrite H. reflexivity.
Qed.

Lemma has_delete {V} (m : JsMap.t V) k k' :
  JsMap.wf m -> JsMap.has (JsMap.delete m k) k' = negb (k =? k') && JsMap.has m k'.
Proof.
  intro Hwf. apply Bool.eq_iff_eq_true.
  rewrite has_in_keys, in_keys_delete by exact Hwf.
  rewrite Bool.andb_true_iff, Bool.negb_true_iff, has_in_keys, String.eqb_neq.
  split; intros [H1 H2]; split; auto.
Qed.

Lemma has_fold_delete {V} (l : list string) (m : JsMap.t V) k :
  JsMap.wf m ->
  JsMap.has (fold_left (fun acc i => JsMap.delete acc i) l m) k
  = negb (includes l k) && JsMap.has m k.
Proof.
  revert m. induction l as [| a r IH]; intros m Hwf; cbn [fold_left]; [reflexivity |].
  rewrite IH by (apply wf_delete; exact Hwf). rewrite has_delete by exact Hwf.
  unfold includes. cbn [existsb]. rewrite (String.eqb_sym k a).
  destruct (a =? k); destruct (existsb _ r); reflexivity.
Qed.

Lemma parityb_sound M P : parityb M P = true -> parity M P.
Proof.
  unfold parityb. rewrite Bool.andb_true_iff, !forallb_forall. intros [H1 H2] k.
  destruct (JsMap.has M k) eqn:E.
  - symmetry. apply H1. apply has_in_keys. exact E.
  - destruct (JsMap.has P k) eqn:E'; [| reflexivity].
    rewrite <- E. apply H2. apply has_in_keys. exact E'.
Qed.

Lemma hierarchy_okb_sound M : hierarchy_okb M = true -> hierarchy_ok M.
Proof.
  unfold hierarchy_okb. rewrite forallb_forall. intros H p c [n [Hget Hin]] Hc.
  specialize (H (p, n) (get_In _ _ _ Hget)). cbn [snd] in H.
  unfold functional_at at 1. rewrite Hget.
  destruct (functionalTypes (type n)); [reflexivity |]. cbn [orb] in H.
  apply Bool.negb_true_iff in H.
  assert (K : existsb (functional_at M) (children_of n) = true)
    by (apply existsb_exists; eauto).
  congruence.
Qed.

Lemma parity_map_values (f : ChartNode -> ChartNode) M P :
  parity M P -> parity (JsMap.map_values f M) P.
Proof. intros H k. rewrite has_map_values. apply H. Qed.

Lemma parity_set_both M P k n p :
  parity M P -> parity (JsMap.set M k n) (JsMap.set P k p).
Proof. intros H k'. rewrite !has_set, H. reflexivity. Qed.

Lemma parity_set_node M P k n :
  JsMap.has M k = true -> parity M P -> parity (JsMap.set M k n) P.
Proof. intros Hk H k'. rewrite has_set_present by exact Hk. apply H. Qed.

Lemma parity_set_pos M P k p :
  JsMap.has M k = true -> parity M P -> parity M (JsMap.set P k p).
Proof.
  intros Hk H k'. rewrite has_set_present; [apply H |]. rewrite <- H. exact Hk.
Qed.

Lemma keyed_ext s s' :
  nodes s' = nodes s -> nodePositions s' = nodePositions s -> keyed s -> keyed s'.
Proof. unfold keyed. intros -> ->. auto. Qed.

Lemma keyed_map_values (f : ChartNode -> ChartNode) s :
  (forall n, id (f n) = id n) -> keyed s ->
  keyed (set_nodes s (JsMap.map_values f (nodes s))).
Proof.
  intros Hf [Hids Hpar]. split; cbn [nodes nodePositions set_nodes].
  - apply ids_ok_map_values; assumption.
  - apply parity_map_values. exact Hpar.
Qed.

Lemma keyed_set_node s k n :
  JsMap.has (nodes s) k = true -> id n = k -> keyed s ->
  keyed (set_nodes s (JsMap.set (nodes s) k n)).
Proof.
  intros Hk Hid [Hids Hpar]. split; cbn [nodes nodePositions set_nodes].
  - apply ids_ok_set; assumption.
  - apply parity_set_node; assumption.
Qed.

Lemma keyed_updateGroupMembership g s :
  JsMap.wf (nodes s) -> keyed s -> keyed (updateGroupMembership g s).
Proof.
  intros Hwf Hk. destruct (updateGroupMembership_pointwise g s Hwf (proj1 Hk))
    as [f [Hf ->]].
  apply keyed_map_values; [| exact Hk]. intro n. apply (Hf n).
Qed.

Lemma nodePositions_linkNodes a b s :
  nodePositions (state_of (linkNodes a b s)) = nodePositions s.
Proof.
  unfold linkNodes. destruct (a =? b); [reflexivity |].
  destruct (match JsMap.get (nodes s) a with
            | Some source => includes (children_of source) b
            | None => false
            end); [reflexivity |].
  destruct (isDescendant _ _ _ _) as [[|] |]; reflexivity.
Qed.

Lemma keyed_linkNodes a b s :
  JsMap.wf (nodes s) -> keyed s -> keyed (state_of (linkNodes a b s)).
Proof.
  intros Hwf [Hids Hpar]. unfold keyed.
  rewrite nodePositions_linkNodes, (nodes_linkNodes a b s Hwf Hids).
  destruct (link_accepted a b s); [| split; assumption].
  destruct (JsMap.get (nodes s) a) as [node |] eqn:E; [| split; assumption].
  unfold linked. split.
  - apply ids_ok_set; [apply ids_ok_map_values; [apply id_strip_child | exact Hids] |].
    apply (ids_ok_get _ _ _ Hids E).
  - apply parity_set_node; [| apply parity_map_values; exact Hpar].
    rewrite has_map_values. apply (get_has _ _ _ E).
Qed.

Lemma keyed_unlinkEdge a b s : keyed s -> keyed (unlinkEdge a b s).
Proof.
  intros Hk. unfold unlinkEdge.
  destruct (JsMap.get (nodes s) a) as [node |] eqn:E;
    [| apply (keyed_ext s); [reflexivity | reflexivity | exact Hk]].
  destruct (children node);
    [| apply (keyed_ext s); [reflexivity | reflexivity | exact Hk]].
  apply keyed_set_node; [apply (get_has _ _ _ E) | | exact Hk].
  apply (ids_ok_get _ _ _ (proj1 Hk) E).
Qed.

Lemma updateNode_step_keys p m i :
  p_id p = None -> JsMap.wf m -> ids_ok m ->
  ids_ok (updateNode_step p m i)
  /\ forall k, JsMap.has (updateNode_step p m i) k = JsMap.has m k.
Proof.
  intros Hp Hwf Hids. unfold updateNode_step.
  destruct (JsMap.get m i) as [node |] eqn:E; [| split; [exact Hids | reflexivity]].
  assert (Hid : id (spread node p) = i).
  { unfold spread. cbn [id]. rewrite Hp. apply (ids_ok_get _ _ _ Hids E). }
  match goal with
  | |- ids_ok (JsMap.set ?m1 _ _) /\ _ =>
      assert (H1 : ids_ok m1 /\ forall k, JsMap.has m1 k = JsMap.has m k)
  end.
  { destruct (p_name p) as [nn |]; [| split; [exact Hids | reflexivity]].
    destruct (NodeType_eqb (type node) group && str_truthy nn && negb (name node =? nn));
      [| split; [exact Hids | reflexivity]].
    rewrite (propagate_rename_pointwise _ _ _ Hwf Hids). split.
    - apply ids_ok_map_values; [| exact Hids].
      intro n. apply (rename_department_keeps (name node) nn n).
    - intro k. apply has_map_values. }
  destruct H1 as [H1 H2]. split.
  - apply ids_ok_set; assumption.
  - intro k. rewrite has_set_present; [apply H2 |].
    rewrite H2. apply (get_has _ _ _ E).
Qed.

Lemma keyed_updateNode p s :
  p_id p = None -> JsMap.wf (nodes s) -> keyed s -> keyed (updateNode p s).
Proof.
  intros Hp Hwf [Hids Hpar]. unfold updateNode.
  destruct (Nat.eqb (JsSet.size (selectedNodeIds s)) 0); [split; assumption |].
  unfold keyed. cbn [nodes nodePositions set_nodes].
  assert (H : forall l m, JsMap.wf m -> ids_ok m ->
                          ids_ok (fold_left (updateNode_step p) l m)
                          /\ forall k, JsMap.has (fold_left (updateNode_step p) l m) k
                                       = JsMap.has m k).
  { induction l as [| a r IH]; intros m Hm Hi; cbn [fold_left];
      [split; [exact Hi | reflexivity] |].
    destruct (updateNode_step_keys p m a Hp Hm Hi) as [Hi1 Hk1].
    destruct (IH _ (wf_updateNode_step p m a Hm) Hi1) as [Hi2 Hk2].
    split; [exact Hi2 |]. intro k. rewrite Hk2. apply Hk1. }
  destruct (H (selectedNodeIds s) (nodes s) Hwf Hids) as [H1 H2].
  split; [exact H1 |]. intro k. rewrite H2. apply Hpar.
Qed.

Lemma keyed_updateNodeMembership i s : keyed s -> keyed (updateNodeMembership i s).
Proof.
  intros Hk. unfold updateNodeMembership.
  destruct (JsMap.get (nodes s) i) as [node |] eqn:E; [| exact Hk].
  destruct (JsMap.get (nodePositions s) i); [| exact Hk].
  destruct (negb (functionalTypes (type node))); [exact Hk |].
  assert (Hid : forall d, id (with_department node d) = i)
    by (intro d; apply (ids_ok_get _ _ _ (proj1 Hk) E)).
  assert (Hsame : keyed (set_nodes s (nodes s)))
    by (apply (keyed_ext s); [reflexivity | reflexivity | exact Hk]).
  destruct (fst _) as [g |].
  - destruct (department_is node (name g)); [exact Hsame |].
    apply keyed_set_node; [apply (get_has _ _ _ E) | apply Hid | exact Hk].
  - destruct (str_truthy _); [| exact Hsame].
    apply keyed_set_node; [apply (get_has _ _ _ E) | apply Hid | exact Hk].
Qed.

Lemma keyed_deleteSelection s : wf_state s -> keyed s -> keyed (deleteSelection s).
Proof.
  intros [Hn Hp] [Hids Hpar]. unfold deleteSelection.
  destruct (Nat.eqb (JsSet.size (selectedNodeIds s)) 0
            && Nat.eqb (JsSet.size (selectedDrawingIds s)) 0); [split; assumption |].
  assert (H : forall l m, JsMap.wf m -> ids_ok m ->
            let m' := fold_left (fun newMap idToDelete =>
                         JsMap.delete (removeFromParent newMap idToDelete) idToDelete)
                                l m in
            ids_ok m' /\ forall k, JsMap.has m' k = negb (includes l k) && JsMap.has m k).
  { induction l as [| a r IH]; intros m Hm Hi; cbn [fold_left];
      [split; [exact Hi | reflexivity] |].
    rewrite (removeFromParent_pointwise m a Hm Hi).
    assert (Hm1 : JsMap.wf (JsMap.map_values (strip_child a) m))
      by (apply wf_map_values; exact Hm).
    assert (Hi1 : ids_ok (JsMap.delete (JsMap.map_values (strip_child a) m) a)).
    { apply ids_ok_delete. apply ids_ok_map_values; [apply id_strip_child | exact Hi]. }
    destruct (IH _ (wf_delete _ _ Hm1) Hi1) as [Hi2 Hk2].
    split; [exact Hi2 |]. intro k. rewrite Hk2, has_delete, has_map_values by exact Hm1.
    unfold includes. cbn [existsb]. rewrite (String.eqb_sym k a).
    destruct (a =? k); destruct (existsb _ r); reflexivity. }
  destruct (H (selectedNodeIds s) (nodes s) Hn Hids) as [H1 H2].
  destruct (Nat.ltb 0 (JsSet.size (selectedNodeIds s)));
    destruct (Nat.ltb 0 (JsSet.size (selectedDrawingIds s)));
    split; cbn [nodes nodePositions set_nodes set_nodePositions set_drawings
                set_selectedNodeIds set_selectedDrawingIds saveHistory set_undoStack
                set_redoStack];
    try assumption; try exact H1;
    intro k; rewrite H2, has_fold_delete by exact Hp; rewrite (Hpar k); reflexivity.
Qed.

Lemma keyed_fold_membership (items : list (ChartNode * NodePosition)) s :
  wf_state s -> keyed s ->
  keyed (fold_left (fun st it => if NodeType_eqb (type (fst it)) group
                                 then updateGroupMembership (id (fst it)) st
                                 else st) items s).
Proof.
  revert s. induction items as [| it r IH]; intros s Hwf Hk; cbn [fold_left]; [exact Hk |].
  destruct (NodeType_eqb (type (fst it)) group).
  - apply IH; [apply wf_updateGroupMembership; exact Hwf |].
    apply keyed_updateGroupMembership; [exact (proj1 Hwf) | exact Hk].
  - apply IH; assumption.
Qed.

Lemma parity_fold_set_both {A} (key : A -> string) (f : A -> ChartNode)
    (g : A -> NodePosition) (l : list A) M P :
  parity M P ->
  parity (fold_left (fun m a => JsMap.set m (key a) (f a)) l M)
         (fold_left (fun m a => JsMap.set m (key a) (g a)) l P).
Proof.
  revert M P. induction l as [| a r IH]; intros M P H; cbn [fold_left]; [exact H |].
  apply IH. apply parity_set_both. exact H.
Qed.

Lemma keyed_pasteNodes gen tx ty s :
  wf_state s -> keyed s -> keyed (pasteNodes gen tx ty s).
Proof.
  intros Hwf [Hids Hpar]. pose proof Hwf as [Hn Hp]. unfold pasteNodes.
  destruct (clipboard s) as [| first others]; [split; assumption |].
  match goal with
  | |- keyed (fold_left ?f ?items ?s4) =>
      assert (Hs4 : wf_state s4 /\ keyed s4);
        [| apply keyed_fold_membership; [exact (proj1 Hs4) | exact (proj2 Hs4)]]
  end.
  match goal with
  | |- context [if Nat.ltb 0 (length ?its) then _ else _] =>
      destruct (Nat.ltb 0 (length its))
  end;
  match goal with
  | |- context [if Nat.ltb 0 (length ?ds) then _ else _] =>
      destruct (Nat.ltb 0 (length ds))
  end;
  (split; [split | split]);
    cbn [nodes nodePositions set_nodes set_nodePositions set_drawings
         set_selectedNodeIds set_selectedDrawingIds saveHistory set_undoStack
         set_redoStack];
    try assumption;
    try (apply wf_fold_set; assumption);
    try (apply (ids_ok_fold_set fst); exact Hids);
    apply (parity_fold_set_both (fun it => id (fst it)) fst snd); exact Hpar.
Qed.

Lemma keyed_addNode newId ty nx ny options dims s :
  wf_state s -> keyed s -> keyed (addNode newId ty nx ny options dims s).
Proof.
  intros [Hn Hp] [Hids Hpar]. unfold addNode.
  match goal with
  | |- keyed (if _ then updateGroupMembership ?i ?st else ?st') =>
      assert (Hst : JsMap.wf (nodes st) /\ keyed st)
  end.
  { split; [| split];
      cbn [nodes nodePositions set_nodes set_nodePositions saveHistory set_undoStack
           set_redoStack].
    - apply wf_set. exact Hn.
    - apply ids_ok_set; [exact Hids | reflexivity].
    - apply parity_set_both. exact Hpar. }
  destruct (NodeType_eqb ty group); [| exact (proj2 Hst)].
  apply keyed_updateGroupMembership; [exact (proj1 Hst) | exact (proj2 Hst)].
Qed.

Lemma keyed_addMember newId s : wf_state s -> keyed s -> keyed (addMember newId s).
Proof.
  intros Hwf Hk. unfold addMember.
  match goal with
  | |- keyed (set_selectedNodeIds (if ?b then set_nodes ?s2 _ else ?s2') _) =>
      assert (H2 : keyed s2)
        by (apply keyed_addNode; [apply wf_saveHistory; exact Hwf | exact Hk]);
      destruct b
  end; [| exact H2].
  match goal with
  | |- keyed (set_selectedNodeIds
                (set_nodes _ (match JsMap.get ?m ?k with _ => _ end)) _) =>
      destruct (JsMap.get m k) as [parent |] eqn:E
  end; [| exact H2].
  match goal with
  | |- keyed (set_selectedNodeIds (set_nodes ?s2 (JsMap.set _ ?k ?n)) _) =>
      apply (keyed_ext (set_nodes s2 (JsMap.set (nodes s2) k n)));
        [reflexivity | reflexivity |]
  end.
  apply keyed_set_node; [apply (get_has _ _ _ E) | | exact H2].
  apply (ids_ok_get _ _ _ (proj1 H2) E).
Qed.

Lemma keyed_initial : wf_state initial /\ keyed initial.
Proof.
  split; [apply wf_stateb_sound; vm_compute; reflexivity |].
  split; [apply ids_okb_sound | apply parityb_sound]; vm_compute; reflexivity.
Qed.

Lemma autoLayout_maps b b' s s' :
  nodes s' = nodes s -> nodePositions s' = nodePositions s ->
  nodes (state_of (autoLayout b' s')) = nodes (state_of (autoLayout b s))
  /\ nodePositions (state_of (autoLayout b' s')) = nodePositions (state_of (autoLayout b s)).
Proof.
  intros Hn Hp. unfold autoLayout. cbv zeta.
  assert (H1 : nodes (if b then saveHistory s else s) = nodes s)
    by (destruct b; reflexivity).
  assert (H2 : nodePositions (if b then saveHistory s else s) = nodePositions s)
    by (destruct b; reflexivity).
  assert (H3 : nodes (if b' then saveHistory s' else s') = nodes s)
    by (destruct b'; exact Hn).
  assert (H4 : nodePositions (if b' then saveHistory s' else s') = nodePositions s)
    by (destruct b'; exact Hp).
  cbn [nodes set_nodes]. rewrite H1, H2, H3, H4.
  destruct (layout _ _ _);
    cbn [state_of nodes nodePositions set_nodes set_nodePositions];
    rewrite ?H2, ?H4; split; reflexivity.
Qed.

Lemma initial_unfold :
  initial
  = state_of (autoLayout false
                (set_nodePositions (set_nodes blank (fst functional_template))
                                   (snd functional_template))).
Proof. unfold initial, loadFunctionalChart. reflexivity. Qed.

Lemma keyed_loadFunctionalChart b s : keyed (state_of (loadFunctionalChart b s)).
Proof.
  unfold keyed, loadFunctionalChart. cbv zeta.
  match goal with
  | |- context [autoLayout false ?s2] =>
      destruct (autoLayout_maps false false
                  (set_nodePositions (set_nodes blank (fst functional_template))
                                     (snd functional_template)) s2) as [-> ->];
        [reflexivity | reflexivity |]
  end.
  rewrite <- initial_unfold. exact (proj2 keyed_initial).
Qed.

(** ** The layout places every card of a hierarchy of cards *)

Lemma executeLayout_grows M C fuel r x0 d np np' k :
  executeLayout fuel M C r x0 d np = Some np' ->
  JsMap.has np k = true -> JsMap.has np' k = true.
Proof.
  intros H Hk.
  eapply (executeLayout_invariant (fun acc => JsMap.has acc k = true) M C);
    [| exact Hk | exact H].
  intros acc k0 node px py Hacc _. rewrite has_set, Hacc. apply Bool.orb_true_r.
Qed.

Lemma layout_block_covers (Q : string -> PosMap -> Prop) rec measure M sd first cs cx np
    cx' np' rest :
  (forall c c' cx0 acc acc', rec c cx0 acc = Some acc' -> Q c' acc -> Q c' acc') ->
  (forall c cx0 acc acc', rec c cx0 acc = Some acc' -> Q c acc') ->
  layout_block rec measure M sd first cs cx np = Some (cx', np', rest) ->
  exists pre,
    cs = pre ++ rest
    /\ (forall c, In c pre -> Q c np')
    /\ (forall c, Q c np -> Q c np')
    /\ (forall c r, cs = c :: r -> (dept_of M c =? sd) = true -> pre <> []).
Proof.
  intros Hmono Hcov. revert first cx np.
  induction cs as [| c r IH]; simpl; intros first cx np H.
  - injection H as _ <- <-. exists [].
    split; [reflexivity | split; [intros c [] | split; [auto | intros; discriminate]]].
  - destruct (dept_of M c =? sd) eqn:E.
    + destruct (measure c) as [w |]; [| discriminate].
      destruct (rec c _ np) as [np1 |] eqn:Er; [| discriminate].
      destruct (IH _ _ _ H) as [pre [Hcs [Hpre [Hm _]]]].
      exists (c :: pre). split; [simpl; rewrite <- Hcs; reflexivity |].
      split; [| split].
      * intros c0 [<- | Hin]; [apply Hm; eapply Hcov; exact Er | apply Hpre; exact Hin].
      * intros c0 Hq. apply Hm. eapply Hmono; [exact Er | exact Hq].
      * intros; discriminate.
    + injection H as _ <- <-. exists [].
      split; [reflexivity | split; [intros c0 [] | split; [auto |]]].
      intros c0 r0 Heq Hd. injection Heq as <- <-. congruence.
Qed.

Lemma layout_blocks_covers (Q : string -> PosMap -> Prop) n rec measure M cs cx np np' :
  (forall c c' cx0 acc acc', rec c cx0 acc = Some acc' -> Q c' acc -> Q c' acc') ->
  (forall c cx0 acc acc', rec c cx0 acc = Some acc' -> Q c acc') ->
  length cs <= n ->
  layout_blocks n rec measure M cs cx np = Some np' ->
  (forall c, In c cs -> Q c np') /\ (forall c, Q c np -> Q c np').
Proof.
  intros Hmono Hcov. revert cs cx np.
  induction n as [| n IH]; intros cs cx np Hlen H.
  - destruct cs; [| simpl in Hlen; lia].
    cbn [layout_blocks] in H. injection H as <-. split; [contradiction | auto].
  - destruct cs as [| c r]; cbn [layout_blocks] in H.
    + injection H as <-. split; [contradiction | auto].
    + destruct (layout_block rec measure M (dept_of M c) true (c :: r) _ np)
        as [[[cx2 np2] rest] |] eqn:E; [| discriminate].
      destruct (layout_block_covers Q _ _ _ _ _ _ _ _ _ _ _ Hmono Hcov E)
        as [pre [Hcs [Hpre [Hm Hne]]]].
      specialize (Hne c r eq_refl (String.eqb_refl _)).
      assert (Hlen2 : length rest <= n).
      { apply (f_equal (@length string)) in Hcs. rewrite length_app in Hcs.
        simpl in Hcs, Hlen. destruct pre; [congruence | simpl in Hcs; lia]. }
      destruct (IH _ _ _ Hlen2 H) as [Hrest Hm2].
      split.
      * intros c0 Hin. rewrite Hcs in Hin. apply in_app_or in Hin.
        destruct Hin as [Hin | Hin]; [apply Hm2; apply Hpre; exact Hin | apply Hrest; exact Hin].
      * intros c0 Hq. apply Hm2. apply Hm. exact Hq.
Qed.

Lemma executeLayout_covers M C fuel :
  forall r x0 d np np' (excl : string -> Prop),
    executeLayout fuel M C r x0 d np = Some np' ->
    (JsMap.has M r = true -> JsMap.has np' r = true)
    /\ (children_placed M excl np -> children_placed M excl np').
Proof.
  induction fuel as [| fuel IH]; intros r x0 d np np' excl H;
    cbn [executeLayout] in H; [discriminate |].
  destruct (JsMap.get M r) as [node |] eqn:Hn.
  2:{ injection H as <-. split; [| auto].
      unfold JsMap.has. rewrite Hn. discriminate. }
  destruct (measureSubtree (depth_bound M) M r) as [totalW |]; [| discriminate].
  cbv zeta in H.
  match type of H with
  | context [JsMap.set np r ?pos] => set (np1 := JsMap.set np r pos) in H
  end.
  assert (Hr1 : JsMap.has np1 r = true).
  { unfold np1. rewrite has_set, String.eqb_refl. reflexivity. }
  assert (Hgrow : forall k, JsMap.has np k = true -> JsMap.has np1 k = true).
  { intros k Hk. unfold np1. rewrite has_set, Hk. apply Bool.orb_true_r. }
  assert (Hinner : children_placed M excl np ->
                   children_placed M (fun p => excl p \/ p = r) np1).
  { intros Hcp p n c Hex Hp Hg Hc Hm. apply Hgrow.
    apply (Hcp p n c); auto.
    unfold np1 in Hp. rewrite has_set in Hp.
    destruct (r =? p) eqn:E; [| exact Hp].
    apply String.eqb_eq in E. exfalso. apply Hex. right. symmetry. exact E. }
  assert (Hleaf : children_of node = [] -> np' = np1 ->
                  (JsMap.has M r = true -> JsMap.has np' r = true)
                  /\ (children_placed M excl np -> children_placed M excl np')).
  { intros Hnil ->. split; [intros _; exact Hr1 |].
    intros Hcp p n c Hex Hp Hg Hc Hm.
    destruct (string_dec p r) as [-> | Hne].
    - rewrite Hn in Hg. injection Hg as <-. rewrite Hnil in Hc. contradiction.
    - apply (Hinner Hcp p n c); auto. intros [K | K]; [exact (Hex K) | exact (Hne K)]. }
  destruct (children node) as [[| c1 cs] |] eqn:Hc.
  - apply Hleaf; [unfold children_of; rewrite Hc; reflexivity | congruence].
  - set (Q := fun (c : string) (acc : PosMap) =>
                JsMap.has M c = true -> JsMap.has acc c = true).
    destruct (layout_blocks_covers Q _ _ _ _ _ _ _ _
                (fun c c' cx0 acc acc' (E : executeLayout fuel M C c cx0 (d + zq 1)%Qc acc
                                            = Some acc') (Hq : Q c' acc) Hm =>
                   executeLayout_grows _ _ _ _ _ _ _ _ _ E (Hq Hm))
                (fun c cx0 acc acc' (E : executeLayout fuel M C c cx0 (d + zq 1)%Qc acc
                                         = Some acc') =>
                   proj1 (IH _ _ _ _ _ (fun _ => False) E))
                (le_n _) H) as [Hall Hm].
    split.
    + intro Hr. apply (Hm r); [intros _; exact Hr1 | exact Hr].
    + intros Hcp p n c Hex Hp Hg Hin Hmc.
      destruct (string_dec p r) as [-> | Hne].
      * rewrite Hn in Hg. injection Hg as <-.
        apply (Hall c); [| exact Hmc]. unfold children_of in Hin. rewrite Hc in Hin.
        exact Hin.
      * assert (Hcp' : children_placed M (fun p => excl p \/ p = r) np').
        { eapply (layout_blocks_invariant
                    (children_placed M (fun p => excl p \/ p = r)));
            [| exact (Hinner Hcp) | exact H].
          intros c0 cx0 acc acc' Hacc E. cbv beta in E.
          apply (proj2 (IH _ _ _ _ _ _ E)). exact Hacc. }
        apply (Hcp' p n c); auto. intros [K | K]; [exact (Hex K) | exact (Hne K)].
  - apply Hleaf; [unfold children_of; rewrite Hc; reflexivity | congruence].
Qed.

Lemma layout_root_none M C roots : fold_left (layout_root M C) roots None = None.
Proof. induction roots as [| r rs IH]; [reflexivity | exact IH]. Qed.

Lemma layout_roots_fold_covers M C roots :
  JsMap.wf M -> ids_ok M ->
  (forall r, In r roots -> In r (JsMap.values M)) ->
  forall rx np0 rx' np',
    fold_left (layout_root M C) roots (Some (rx, np0)) = Some (rx', np') ->
    (children_placed M (fun _ => False) np0 -> children_placed M (fun _ => False) np')
    /\ (forall k, JsMap.has np0 k = true -> JsMap.has np' k = true)
    /\ (forall r, In r roots -> JsMap.has np' (id r) = true).
Proof.
  intros Hwf Hids. induction roots as [| r rs IH]; intros Hroots rx np0 rx' np' H;
    cbn [fold_left] in H.
  - injection H as _ <-. split; [auto | split; [auto | contradiction]].
  - unfold layout_root at 2 in H.
    destruct (measureSubtree (depth_bound M) M (id r)) as [w |];
      [| rewrite layout_root_none in H; discriminate].
    destruct (executeLayout (depth_bound M) M C (id r) rx (zq 0) np0) as [np1 |] eqn:E;
      [| rewrite layout_root_none in H; discriminate].
    destruct (IH (fun r0 Hr0 => Hroots r0 (or_intror Hr0)) _ _ _ _ H)
      as [Hcp [Hgrow Hrs]].
    destruct (executeLayout_covers M C _ _ _ _ _ _ (fun _ => False) E) as [Hr Hcp1].
    split; [auto | split].
    + intros k Hk. apply Hgrow. apply (executeLayout_grows _ _ _ _ _ _ _ _ _ E Hk).
    + intros r0 [<- | Hin]; [| apply Hrs; exact Hin].
      apply Hgrow. apply Hr.
      apply (get_has _ _ r). apply in_values_get; auto. apply Hroots. left. reflexivity.
Qed.

Lemma layout_roots_covers M C np :
  JsMap.wf M -> ids_ok M -> layout_roots M C = Some np ->
  children_placed M (fun _ => False) np
  /\ forall root, In root (JsMap.values M) ->
                  includes (flat_map children_of (JsMap.values M)) (id root) = false ->
                  functionalTypes (type root) = true ->
                  JsMap.has np (id root) = true.
Proof.
  intros Hwf Hids H. unfold layout_roots in H. cbv zeta in H.
  match type of H with
  | option_map snd (fold_left _ ?roots _) = _ =>
      destruct (fold_left (layout_root M C) roots (Some (zq 0, JsMap.empty)))
        as [[rx' np'] |] eqn:E; [| discriminate];
      pose proof (layout_roots_fold_covers M C roots Hwf Hids) as Hfold
  end.
  injection H as <-.
  destruct (Hfold (fun r Hr => proj1 (proj1 (filter_In _ _ _) Hr)) _ _ _ _ E)
    as [Hcp [_ Hroots]].
  split.
  - apply Hcp. intros p n c _ Hp. discriminate.
  - intros root Hin Hnc Hf. apply Hroots. apply filter_In. split; [exact Hin |].
    rewrite Hnc, Hf. reflexivity.
Qed.

Lemma layout_roots_places_cards M C np :
  JsMap.wf M -> ids_ok M -> acyclic M -> hierarchy_ok M ->
  layout_roots M C = Some np ->
  forall k, functional_at M k = true -> JsMap.has np k = true.
Proof.
  intros Hwf Hids Hac Hh H k Hk.
  destruct (layout_roots_covers M C np Hwf Hids H) as [Hcp Hroots].
  destruct (JsMap.has np k) eqn:Hnk; [reflexivity | exfalso].
  assert (Hchain : forall n, exists y l,
             functional_at M y = true /\ JsMap.has np y = false
             /\ length l = n /\ chain_from M y l).
  { induction n as [| n [y [l [Hy [Hny [Hlen Hl]]]]]].
    - exists k, []. repeat split; auto. constructor.
    - unfold functional_at in Hy.
      destruct (JsMap.get M y) as [ny |] eqn:Hgy; [| discriminate].
      assert (Hiny : In ny (JsMap.values M)).
      { apply get_In in Hgy. apply (in_map snd) in Hgy. exact Hgy. }
      assert (Hidy : id ny = y) by apply (ids_ok_get _ _ _ Hids Hgy).
      destruct (includes (flat_map children_of (JsMap.values M)) y) eqn:Hinc.
      + apply includes_In in Hinc. apply in_flat_map in Hinc.
        destruct Hinc as [pn [Hpn Hyc]].
        pose proof (in_values_get _ _ Hwf Hids Hpn) as Hgp.
        assert (Hfp : functional_at M (id pn) = true).
        { apply (Hh (id pn) y); [exists pn; auto |].
          unfold functional_at. rewrite Hgy. exact Hy. }
        exists (id pn), (id pn :: l). split; [exact Hfp |]. split; [| split].
        * destruct (JsMap.has np (id pn)) eqn:Hp; [| reflexivity].
          rewrite <- Hny. symmetry.
          apply (Hcp (id pn) pn y); auto. apply (get_has _ _ _ Hgy).
        * simpl. rewrite Hlen. reflexivity.
        * apply (cf_cons M (id pn) pn y l Hgp Hyc Hl).
      + rewrite <- Hidy in Hinc, Hny.
        rewrite (Hroots ny Hiny Hinc Hy) in Hny. discriminate. }
  destruct (Hchain (S (length M))) as [y [l [_ [_ [Hlen Hl]]]]].
  destruct (chain_too_long M y l Hl) as [a Pa]; [rewrite Hlen; lia |].
  exact (Hac a Pa).
Qed.

Lemma hierarchy_ok_sorted m : hierarchy_ok m -> hierarchy_ok (sortChildrenByDepartment m).
Proof.
  assert (Hf : forall k, functional_at (sortChildrenByDepartment m) k = functional_at m k).
  { intro k. unfold functional_at, sortChildrenByDepartment. rewrite get_map_values.
    destruct (JsMap.get m k) as [n |]; [| reflexivity]. cbn [option_map].
    destruct (sort_node_children_keeps m n) as [_ [-> _]]. reflexivity. }
  intros H p c He Hc. rewrite Hf in *. apply (H p c); [| exact Hc].
  apply edge_sorted. exact He.
Qed.

Lemma parity_layout M C A F :
  JsMap.wf M -> ids_ok M -> JsMap.wf C -> acyclic M -> hierarchy_ok M ->
  parity M C -> layout M C A = Some F -> parity M F.
Proof.
  intros Hwf Hids HwfC Hac Hh Hpar H. unfold layout in H.
  destruct (layout_roots M C) as [np |] eqn:E; [| discriminate].
  injection H as <-. intro k. rewrite has_reattach.
  pose proof (layout_roots_places_cards M C np Hwf Hids Hac Hh E k) as Hcards.
  pose proof (laid_out_roots M C np E k) as Hlaid.
  pose proof (Hpar k) as Hk.
  unfold JsMap.has in *. unfold functional_at in Hcards.
  rewrite (get_fit_groups M _ k Hwf Hids), (get_transfer M C np k HwfC).
  destruct (JsMap.get M k) as [n |].
  - destruct (JsMap.get C k) as [pos |]; [| discriminate].
    destruct (functionalTypes (type n)).
    + specialize (Hcards eq_refl). destruct (JsMap.get np k); [| discriminate].
      destruct (NodeType_eqb (type n) group); [| reflexivity].
      destruct (group_box _ _ n); reflexivity.
    + destruct (NodeType_eqb (type n) group); [| reflexivity].
      destruct (group_box _ _ n); reflexivity.
  - destruct (JsMap.get C k); [discriminate |].
    destruct (JsMap.get np k) as [p |]; [| reflexivity].
    destruct (Hlaid p eq_refl) as [[node Hnode] _]. discriminate.
Qed.

Lemma keyed_autoLayout b s :
  wf_state s -> keyed s -> acyclic (nodes s) -> hierarchy_ok (nodes s) ->
  keyed (state_of (autoLayout b s)).
Proof.
  intros [Hn Hp] [Hids Hpar] Hac Hh. unfold keyed.
  destruct (autoLayout_maps false b s s eq_refl eq_refl) as [-> ->].
  unfold autoLayout. cbv zeta. cbn [nodes nodePositions set_nodes].
  assert (HparS : parity (sortChildrenByDepartment (nodes s)) (nodePositions s))
    by (apply parity_map_values; exact Hpar).
  destruct (layout _ _ _) as [F |] eqn:E; split;
    cbn [state_of nodes nodePositions set_nodes set_nodePositions];
    try (apply ids_ok_sorted; exact Hids); try exact HparS.
  eapply parity_layout; [| | | | | exact HparS | exact E].
  - apply wf_map_values. exact Hn.
  - apply ids_ok_sorted. exact Hids.
  - exact Hp.
  - apply acyclic_sorted. exact Hac.
  - apply hierarchy_ok_sorted. exact Hh.
Qed.

(** ** Parity along the history *)

Lemma snapshot_ok_current s : wf_state s -> keyed s -> snapshot_ok (current_snapshot s).
Proof. intros [Hn Hp] [Hids Hpar]. repeat split; assumption. Qed.

Lemma Forall_push_bounded (P : HistorySnapshot -> Prop) st snap :
  Forall P st -> P snap -> Forall P (push_bounded st snap).
Proof.
  intros Hst Hsnap. unfold push_bounded.
  assert (H : Forall P (st ++ [snap])) by (apply Forall_app; split; auto).
  destruct (Nat.ltb maxHistorySize (length (st ++ [snap]))); [| exact H].
  destruct (st ++ [snap]); [constructor |]. inversion H; assumption.
Qed.

Lemma parity_inv_saveHistory s : parity_inv s -> parity_inv (saveHistory s).
Proof.
  intros [Hwf [Hk [Hu Hr]]]. split; [exact Hwf |]. split; [exact Hk |].
  split; cbn [saveHistory undoStack redoStack set_undoStack set_redoStack];
    [| constructor].
  apply Forall_push_bounded; [exact Hu | apply snapshot_ok_current; assumption].
Qed.

Lemma parity_inv_applySnapshot s snap :
  snapshot_ok snap ->
  Forall snapshot_ok (undoStack s) -> Forall snapshot_ok (redoStack s) ->
  parity_inv (applySnapshot s snap).
Proof.
  intros [Hn [Hp [Hids Hpar]]] Hu Hr. unfold parity_inv, wf_state, keyed.
  cbn [applySnapshot clearSelection nodes nodePositions undoStack redoStack
       set_nodes set_nodePositions set_drawings set_selectedNodeIds
       set_selectedDrawingIds set_selectedEdgeId].
  rewrite !of_entries_id by assumption. repeat split; assumption.
Qed.

Lemma parity_inv_undo s : parity_inv s -> parity_inv (undo s).
Proof.
  intros Hinv. pose proof Hinv as [Hwf [Hk [Hu Hr]]]. unfold undo.
  destruct (pop (undoStack s)) as [[prev rest] |] eqn:E; [| exact Hinv].
  apply pop_some in E. rewrite E in Hu. apply Forall_app in Hu. destruct Hu as [Hrest Hprev].
  apply parity_inv_applySnapshot; cbn [undoStack redoStack set_undoStack set_redoStack].
  - inversion Hprev; assumption.
  - exact Hrest.
  - apply Forall_app. split; [exact Hr |]. constructor; [| constructor].
    apply snapshot_ok_current; assumption.
Qed.

Lemma parity_inv_redo s : parity_inv s -> parity_inv (redo s).
Proof.
  intros Hinv. pose proof Hinv as [Hwf [Hk [Hu Hr]]]. unfold redo.
  destruct (pop (redoStack s)) as [[next rest] |] eqn:E; [| exact Hinv].
  apply pop_some in E. rewrite E in Hr. apply Forall_app in Hr. destruct Hr as [Hrest Hnext].
  apply parity_inv_applySnapshot; cbn [undoStack redoStack set_undoStack set_redoStack].
  - inversion Hnext; assumption.
  - apply Forall_app. split; [exact Hu |]. constructor; [| constructor].
    apply snapshot_ok_current; assumption.
  - exact Hrest.
Qed.

Lemma parity_inv_drop_redo s : parity_inv s -> parity_inv (set_redoStack s []).
Proof.
  intros [Hwf [Hk [Hu Hr]]]. split; [exact Hwf |]. split; [exact Hk |].
  split; [exact Hu | constructor].
Qed.

Lemma parity_inv_hist_model c s : parity_inv s -> parity_inv (hist_model c s).
Proof.
  intro H. unfold hist_model.
  destruct c;
    try (destruct (records_history _ s); [apply parity_inv_saveHistory |]; exact H).
  - apply parity_inv_undo. exact H.
  - apply parity_inv_redo. exact H.
  - destruct (import_case data).
    + exact H.
    + apply parity_inv_drop_redo. apply parity_inv_undo. apply parity_inv_saveHistory.
      exact H.
    + apply parity_inv_saveHistory. exact H.
  - apply parity_inv_saveHistory. apply parity_inv_saveHistory. exact H.
Qed.

Lemma keyed_step c s : parity_inv s -> keeps_parity c s -> keyed (step c s).
Proof.
  intros Hinv Hsafe. pose proof Hinv as [Hwf [Hk _]].
  pose proof Hwf as [Hn Hp]. pose proof Hk as [Hids Hpar].
  destruct c; unfold step; cbn [run state_of]; cbn [keeps_parity] in Hsafe.
  - (* saveHistory *) exact Hk.
  - apply parity_inv_undo. exact Hinv.
  - apply parity_inv_redo. exact Hinv.
  - apply keyed_loadFunctionalChart.
  - (* loadWhiteboard *) split; [intros k n [] | intro k; reflexivity].
  - apply keyed_autoLayout; tauto.
  - apply keyed_linkNodes; assumption.
  - apply keyed_unlinkEdge. exact Hk.
  - (* deleteSelectedEdge *)
    unfold deleteSelectedEdge. destruct (selectedEdgeId s) as [e |]; [| exact Hk].
    destruct (negb (str_truthy e)); [exact Hk |].
    destruct (find _ _) as [e0 |]; [| exact Hk].
    apply (keyed_unlinkEdge _ _ (saveHistory s)). exact Hk.
  - (* updateNodePosition *)
    split; [exact Hids |]. apply parity_set_pos; assumption.
  - (* moveSelectedDrawings *)
    unfold moveSelectedDrawings. destruct (Nat.eqb _ 0); exact Hk.
  - (* updateNodeDimensions *)
    split; [exact Hids |]. cbn [nodes nodePositions updateNodeDimensions set_nodePositions].
    destruct (JsMap.get (nodePositions s) i); [| apply parity_set_pos; assumption].
    destruct (_ || _); [apply parity_set_pos |]; assumption.
  - (* selectNode *) unfold selectNode. destruct multi; exact Hk.
  - (* selectDrawing *) unfold selectDrawing. destruct multi; exact Hk.
  - (* selectAll *) exact Hk.
  - (* selectEdge *) exact Hk.
  - (* clearSelection *) exact Hk.
  - apply keyed_updateNode; assumption.
  - apply keyed_updateGroupMembership; assumption.
  - apply keyed_updateNodeMembership. exact Hk.
  - apply keyed_deleteSelection; assumption.
  - (* deleteDrawing *) exact Hk.
  - apply keyed_deleteSelection; assumption.
  - (* copySelection *) unfold copySelection. destruct (_ && _); exact Hk.
  - apply keyed_pasteNodes; assumption.
  - (* importFromJson *)
    unfold import_ok, import_case in Hsafe. unfold importFromJson.
    destruct data as [[[| ns] [| ps] ds] |]; cbn [state_of]; try exact Hk.
    assert (Hback : keyed (set_redoStack (undo (saveHistory s)) [])).
    { apply parity_inv_drop_redo. apply parity_inv_undo. apply parity_inv_saveHistory.
      exact Hinv. }
    destruct (map_of_json ns JsMap.empty) as [nn |]; [| exact Hback].
    destruct (map_of_json ps JsMap.empty) as [pp |]; [| exact Hback].
    exact Hsafe.
  - apply keyed_addNode; assumption.
  - apply keyed_addMember; assumption.
  - (* addDrawing *) exact Hk.
  - (* clearDrawings *) exact Hk.
  - (* updatePan *) exact Hk.
  - (* setZoom *) exact Hk.
  - (* setPan *) exact Hk.
  - (* toggleDarkMode *) exact Hk.
Qed.

Lemma parity_inv_step c s : parity_inv s -> keeps_parity c s -> parity_inv (step c s).
Proof.
  intros Hinv Hsafe. split; [apply wf_step; exact (proj1 Hinv) |].
  split; [apply keyed_step; assumption |].
  destruct (parity_inv_hist_model c s Hinv) as [_ [_ [Hu Hr]]].
  pose proof (stacks_step c s) as Hst. unfold stacks in Hst.
  injection Hst as -> ->. split; assumption.
Qed.

Lemma parity_inv_initial : parity_inv initial.
Proof.
  destruct keyed_initial as [Hwf Hk]. split; [exact Hwf |]. split; [exact Hk |].
  split; constructor.
Qed.

Lemma parity_inv_run_all cs s : parity_inv s -> safe_trace cs s -> parity_inv (run_all cs s).
Proof.
  revert s. induction cs as [| c r IH]; intros s Hinv Hsafe; [exact Hinv |].
  destruct Hsafe as [Hc Hr]. cbn [run_all fold_left]. apply IH; [| exact Hr].
  apply parity_inv_step; assumption.
Qed.

(** C2: from the initial chart, along every sequence of operations in which
    each call keeps to [keeps_parity] (a geometry is written only for a stored
    node, a patch does not carry an [id], an import brings maps with the same
    ids, the layout runs on an acyclic hierarchy of cards), the node map and
    the geometry map hold the same ids. *)
Theorem keyset_parity (cs : list Command) :
  safe_trace cs initial ->
  parity (nodes (run_all cs initial)) (nodePositions (run_all cs initial)).
Proof.
  intro Hsafe.
  destruct (parity_inv_run_all cs initial parity_inv_initial Hsafe) as [_ [[_ Hpar] _]].
  exact Hpar.
Qed.

Lemma keyset_parity_witness :
  safe_trace sample_session initial
  /\ parity (nodes (run_all sample_session initial))
            (nodePositions (run_all sample_session initial)).
Proof.
  assert (Hsafe : safe_trace sample_session initial).
  { unfold sample_session. cbn [safe_trace keeps_parity].
    split; [exact I |]. split; [vm_compute; reflexivity |]. split; [exact I |].
    split; [| repeat split].
    split; [apply acyclicb_sound | apply hierarchy_okb_sound]; vm_compute; reflexivity. }
  split; [exact Hsafe | exact (keyset_parity sample_session Hsafe)].
Defined.

(** Without the side conditions parity fails: [updateNodePosition] writes a
    geometry for an id that no node has. *)
Lemma ghost_geometry_breaks_parity :
  ~ parity (nodes (run_all [c_updateNodePosition "ghost" (zq 0) (zq 0)] initial))
           (nodePositions (run_all [c_updateNodePosition "ghost" (zq 0) (zq 0)] initial)).
Proof.
  intro H. specialize (H "ghost"). vm_compute in H. discriminate.
Qed.

(** The layout leaves a card that hangs under a note without a geometry. *)
Example layout_drops_card_under_note :
  JsMap.has (nodes (run_all card_under_note initial)) "e" = true
  /\ JsMap.has (nodePositions (run_all card_under_note initial)) "e" = false.
Proof. split; vm_compute; reflexivity. Qed.

(** * Further properties of the service *)

(** ** Export and import *)

Lemma map_of_json_entries {V} (l : list (string * V)) (acc : JsMap.t V) :
  map_of_json (map (fun kv => entry (fst kv) (snd kv)) l) acc
  = Some (fold_left (fun m kv => JsMap.set m (fst kv) (snd kv)) l acc).
Proof.
  revert acc. induction l as [| [k v] r IH]; intro acc; [reflexivity |].
  cbn [map map_of_json fold_left fst snd]. apply IH.
Qed.

(** X1: a file written by [exportAsJson] is read back by [importFromJson]
    into any chart: the import returns, records one history entry, and the
    nodes, geometries and drawings are those of the exported chart, with
    nothing selected. *)
Theorem export_import_roundtrip (s t : State) :
  wf_state s ->
  exists t',
    importFromJson (Some (exportAsJson s)) t = Returned t'
    /\ content t' = content s
    /\ selectionCount t' = 0 /\ selectedEdgeId t' = None
    /\ undoStack t' = push_bounded (undoStack t) (current_snapshot t)
    /\ redoStack t' = [].
Proof.
  intros [Hn Hp]. unfold importFromJson, exportAsJson, entries_of.
  rewrite !map_of_json_entries.
  change (fold_left (fun m kv => JsMap.set m (fst kv) (snd kv)) (nodes s) JsMap.empty)
    with (JsMap.of_entries (nodes s)).
  change (fold_left (fun m kv => JsMap.set m (fst kv) (snd kv)) (nodePositions s)
                    JsMap.empty)
    with (JsMap.of_entries (nodePositions s)).
  rewrite !of_entries_id by assumption.
  eexists. split; [reflexivity |]. repeat split.
Qed.

Lemma export_import_roundtrip_witness :
  wf_state initial
  /\ exists t',
       importFromJson (Some (exportAsJson initial)) blank = Returned t'
       /\ content t' = content initial
       /\ selectionCount t' = 0 /\ selectedEdgeId t' = None
       /\ undoStack t' = push_bounded (undoStack blank) (current_snapshot blank)
       /\ redoStack t' = [].
Proof.
  assert (Hwf : wf_state initial) by (apply wf_stateb_sound; vm_compute; reflexivity).
  split; [exact Hwf | exact (export_import_roundtrip initial blank Hwf)].
Defined.

(** ** The computed views *)

Lemma in_edges s e :
  In e (edges s) <->
  exists n c, In n (JsMap.values (nodes s)) /\ In c (children_of n)
              /\ JsMap.has (nodes s) c = true
              /\ e = {| edge_id := edge_name (id n) c; sourceId := id n; targetId := c |}.
Proof.
  unfold edges. cbv zeta. rewrite in_flat_map. split.
  - intros [n [Hn He]]. apply in_flat_map in He. destruct He as [c [Hc He]].
    destruct (JsMap.has (nodes s) c) eqn:Hhas; [| contradiction].
    destruct He as [<- | []]. exists n, c. auto.
  - intros [n [c [Hn [Hc [Hhas ->]]]]]. exists n. split; [exact Hn |].
    apply in_flat_map. exists c. split; [exact Hc |]. rewrite Hhas. left. reflexivity.
Qed.

(** X2: on a chart whose nodes are stored under their own ids, the
    rendered edges are exactly the children links between two stored nodes:
    an edge from [a] to [b] is listed if and only if the node stored under
    [a] lists [b] as a child and [b] is stored; a child id that no node has
    yields no edge, and every edge is named [a-b]. *)
Theorem edges_join_stored_nodes (s : State) :
  JsMap.wf (nodes s) -> ids_ok (nodes s) ->
  (forall a b,
      (exists e, In e (edges s) /\ sourceId e = a /\ targetId e = b)
      <-> (edge (nodes s) a b /\ JsMap.has (nodes s) b = true))
  /\ (forall e, In e (edges s) ->
                JsMap.has (nodes s) (sourceId e) = true
                /\ JsMap.has (nodes s) (targetId e) = true
                /\ edge_id e = edge_name (sourceId e) (targetId e)).
Proof.
  intros Hwf Hids. split.
  - intros a b. split.
    + intros [e [He [<- <-]]]. apply in_edges in He.
      destruct He as [n [c [Hn [Hc [Hhas ->]]]]]. cbn [sourceId targetId].
      split; [| exact Hhas]. exists n. split; [| exact Hc].
      apply in_values_get; assumption.
    + intros [[n [Hget Hc]] Hhas].
      exists {| edge_id := edge_name a b; sourceId := a; targetId := b |}.
      split; [| split; reflexivity]. apply in_edges. exists n, b.
      rewrite (ids_ok_get _ _ _ Hids Hget). repeat split; auto.
      apply get_In in Hget. apply (in_map snd) in Hget. exact Hget.
  - intros e He. apply in_edges in He.
    destruct He as [n [c [Hn [Hc [Hhas ->]]]]]. cbn [sourceId targetId edge_id].
    split; [| split; [exact Hhas | reflexivity]].
    apply (get_has _ _ n). apply in_values_get; assumption.
Qed.

Lemma edges_join_stored_nodes_witness :
  JsMap.wf (nodes initial) /\ ids_ok (nodes initial)
  /\ (forall a b,
         (exists e, In e (edges initial) /\ sourceId e = a /\ targetId e = b)
         <-> (edge (nodes initial) a b /\ JsMap.has (nodes initial) b = true))
  /\ (forall e, In e (edges initial) ->
                JsMap.has (nodes initial) (sourceId e) = true
                /\ JsMap.has (nodes initial) (targetId e) = true
                /\ edge_id e = edge_name (sourceId e) (targetId e)).
Proof.
  assert (Hwf : JsMap.wf (nodes initial)) by (apply nodupb_sound; vm_compute; reflexivity).
  assert (Hids : ids_ok (nodes initial)) by (apply ids_okb_sound; vm_compute; reflexivity).
  split; [exact Hwf |]. split; [exact Hids |].
  exact (edges_join_stored_nodes initial Hwf Hids).
Defined.

Lemma insert_node_groups_first a G N :
  forallb is_group G = true -> forallb (fun n => negb (is_group n)) N = true ->
  insert_node groups_first a (G ++ N)
  = if is_group a then a :: G ++ N else G ++ a :: N.
Proof.
  intros HG HN. induction G as [| g G IH]; cbn [app].
  - destruct N as [| n N]; cbn [insert_node]; [destruct (is_group a); reflexivity |].
    unfold groups_first. cbn [forallb] in HN. apply andb_prop in HN.
    destruct HN as [Hn _]. apply Bool.negb_true_iff in Hn. rewrite Hn.
    rewrite Bool.andb_false_r. cbn [negb]. destruct (is_group a); reflexivity.
  - cbn [forallb] in HG. apply andb_prop in HG. destruct HG as [Hg HG].
    cbn [insert_node]. unfold groups_first at 1. rewrite Hg, Bool.andb_true_r.
    rewrite Bool.negb_involutive. destruct (is_group a) eqn:Ea; [reflexivity |].
    rewrite (IH HG). reflexivity.
Qed.

Lemma forallb_filter_same {A} (f : A -> bool) (l : list A) : forallb f (filter f l) = true.
Proof.
  induction l as [| a r IH]; [reflexivity |]. cbn [filter].
  destruct (f a) eqn:E; [cbn [forallb]; rewrite E; exact IH | exact IH].
Qed.

Lemma sort_nodes_groups_first l :
  sort_nodes groups_first l
  = filter is_group l ++ filter (fun n => negb (is_group n)) l.
Proof.
  induction l as [| a r IH]; [reflexivity |].
  unfold sort_nodes in *. cbn [fold_right]. rewrite IH.
  rewrite insert_node_groups_first by apply forallb_filter_same.
  cbn [filter]. destruct (is_group a); reflexivity.
Qed.

(** X3: [flatNodes] lists every stored node once, the groups first and the
    other nodes after them, each of the two parts in the order of the node
    map; a node without a geometry is listed at (0, 0) without a size. *)
Theorem flatNodes_groups_first (s : State) :
  flatNodes s
  = map (flat_of (nodePositions s))
        (filter is_group (JsMap.values (nodes s))
         ++ filter (fun n => negb (is_group n)) (JsMap.values (nodes s)))
  /\ forall n, JsMap.get (nodePositions s) (id n) = None ->
               flat_of (nodePositions s) n
               = {| f_data := n; f_x := zq 0; f_y := zq 0;
                    f_width := None; f_height := None |}.
Proof.
  split.
  - unfold flatNodes. rewrite sort_nodes_groups_first. reflexivity.
  - intros n H. unfold flat_of. rewrite H. reflexivity.
Qed.

(** ** Linking and unlinking *)

Lemma get_delete {V} (m : JsMap.t V) k k' :
  JsMap.wf m -> JsMap.get (JsMap.delete m k) k' = if k =? k' then None else JsMap.get m k'.
Proof.
  unfold JsMap.wf. induction m as [| [k0 v0] r IH]; cbn [JsMap.delete JsMap.get JsMap.keys map fst];
    intro Hnd.
  - destruct (k =? k'); reflexivity.
  - apply NoDup_cons_iff in Hnd. destruct Hnd as [Hfresh Hnd].
    destruct (k0 =? k) eqn:E0.
    + apply String.eqb_eq in E0. subst k0. destruct (k =? k') eqn:E; [| reflexivity].
      apply String.eqb_eq in E. subst k'. apply get_None_keys. exact Hfresh.
    + cbn [JsMap.get]. destruct (k0 =? k') eqn:E1.
      * destruct (k =? k') eqn:E; [| reflexivity].
        apply String.eqb_eq in E. apply String.eqb_eq in E1. subst.
        rewrite String.eqb_refl in E0. discriminate.
      * apply IH. exact Hnd.
Qed.

Lemma in_children_strip b n c :
  In c (children_of (strip_child b n)) <-> In c (children_of n) /\ c <> b.
Proof.
  unfold strip_child. destruct (includes (children_of n) b) eqn:E.
  - unfold children_of at 1. simpl.
    rewrite filter_In, Bool.negb_true_iff, String.eqb_neq. tauto.
  - split; [| tauto]. intro H. split; [exact H |]. intros ->.
    apply includes_In in H. congruence.
Qed.

Lemma children_of_with_children n l : children_of (with_children n l) = l.
Proof. reflexivity. Qed.

Lemma edge_linked_iff m a b node p c :
  JsMap.get m a = Some node -> ~ In b (children_of node) ->
  (edge (linked m a b node) p c <-> (edge m p c /\ c <> b) \/ (p = a /\ c = b)).
Proof.
  intros Hnode Hnb. unfold edge, linked. split.
  - intros [n [Hget Hin]]. rewrite get_set in Hget. destruct (a =? p) eqn:E.
    + apply String.eqb_eq in E. subst p. injection Hget as <-.
      rewrite children_of_with_children in Hin. apply in_app_or in Hin.
      destruct Hin as [Hin | [<- | []]]; [left | right; auto].
      split; [exists node; auto |]. intros ->. exact (Hnb Hin).
    + rewrite get_map_values in Hget.
      destruct (JsMap.get m p) as [n0 |] eqn:Hp; [| discriminate].
      injection Hget as <-. apply in_children_strip in Hin. left.
      split; [exists n0; tauto | tauto].
  - intros [[[n [Hget Hin]] Hne] | [-> ->]].
    + rewrite get_set. destruct (a =? p) eqn:E.
      * apply String.eqb_eq in E. subst p. rewrite Hnode in Hget. injection Hget as <-.
        eexists. split; [reflexivity |]. rewrite children_of_with_children.
        apply in_or_app. left. exact Hin.
      * rewrite get_map_values, Hget. eexists. split; [reflexivity |].
        apply in_children_strip. auto.
    + rewrite get_set, String.eqb_refl. eexists. split; [reflexivity |].
      rewrite children_of_with_children. apply in_or_app. right. left. reflexivity.
Qed.

(** X4: on a chart whose nodes are stored under their own ids, after an
    accepted [linkNodes a b] whose source is stored, [a] is the one and only
    node that lists [b] as a child, every other link is as it was, and a
    map in which no node has two parents stays so. *)
Theorem linkNodes_single_parent (a b : string) (s : State) :
  JsMap.wf (nodes s) -> ids_ok (nodes s) ->
  link_accepted a b s = true -> JsMap.has (nodes s) a = true ->
  (forall p, edge (nodes (state_of (linkNodes a b s))) p b <-> p = a)
  /\ (forall p c, c <> b ->
                  (edge (nodes (state_of (linkNodes a b s))) p c <-> edge (nodes s) p c))
  /\ (single_parent (nodes s) -> single_parent (nodes (state_of (linkNodes a b s)))).
Proof.
  intros Hwf Hids Hacc Ha. rewrite (nodes_linkNodes a b s Hwf Hids), Hacc.
  destruct (has_get _ _ Ha) as [node Hnode]. rewrite Hnode.
  assert (Hnb : ~ In b (children_of node)).
  { unfold link_accepted, already_linked in Hacc. rewrite Hnode in Hacc.
    intro Hin. apply includes_In in Hin. rewrite Hin in Hacc.
    rewrite Bool.andb_false_r in Hacc. discriminate. }
  pose proof (edge_linked_iff (nodes s) a b node) as Hedge.
  assert (H1 : forall p, edge (linked (nodes s) a b node) p b <-> p = a).
  { intro p. rewrite (Hedge p b Hnode Hnb). split; [| auto].
    intros [[_ Hne] | [-> _]]; [contradiction | reflexivity]. }
  assert (H2 : forall p c, c <> b ->
                           (edge (linked (nodes s) a b node) p c <-> edge (nodes s) p c)).
  { intros p c Hne. rewrite (Hedge p c Hnode Hnb). split; [| auto].
    intros [[He _] | [_ ->]]; [exact He | contradiction]. }
  split; [exact H1 |]. split; [exact H2 |].
  intros Hsingle p q c Hp Hq. destruct (string_dec c b) as [-> | Hne].
  - apply H1 in Hp. apply H1 in Hq. congruence.
  - apply (H2 _ _ Hne) in Hp. apply (H2 _ _ Hne) in Hq. exact (Hsingle p q c Hp Hq).
Qed.

Lemma linkNodes_single_parent_witness :
  JsMap.wf (nodes initial) /\ ids_ok (nodes initial)
  /\ link_accepted "2" "3" initial = true /\ JsMap.has (nodes initial) "2" = true
  /\ (forall p, edge (nodes (state_of (linkNodes "2" "3" initial))) p "3" <-> p = "2")
  /\ (forall p c, c <> "3" ->
                  (edge (nodes (state_of (linkNodes "2" "3" initial))) p c
                   <-> edge (nodes initial) p c))
  /\ (single_parent (nodes initial) ->
      single_parent (nodes (state_of (linkNodes "2" "3" initial)))).
Proof.
  assert (Hwf : JsMap.wf (nodes initial)) by (apply nodupb_sound; vm_compute; reflexivity).
  assert (Hids : ids_ok (nodes initial)) by (apply ids_okb_sound; vm_compute; reflexivity).
  assert (Hacc : link_accepted "2" "3" initial = true) by (vm_compute; reflexivity).
  assert (Ha : JsMap.has (nodes initial) "2" = true) by (vm_compute; reflexivity).
  split; [exact Hwf |]. split; [exact Hids |]. split; [exact Hacc |]. split; [exact Ha |].
  exact (linkNodes_single_parent "2" "3" initial Hwf Hids Hacc Ha).
Defined.

Lemma edge_unlinkEdge a b s p c :
  edge (nodes (unlinkEdge a b s)) p c <-> edge (nodes s) p c /\ ~ (p = a /\ c = b).
Proof.
  unfold unlinkEdge. cbn [nodes set_nodes]. unfold edge.
  destruct (JsMap.get (nodes s) a) as [node |] eqn:Hnode.
  - destruct (children node) as [cs |] eqn:Hcs.
    + split.
      * intros [n [Hget Hin]]. rewrite get_set in Hget. destruct (a =? p) eqn:E.
        -- apply String.eqb_eq in E. subst p. injection Hget as <-.
           rewrite children_of_with_children in Hin. apply filter_In in Hin.
           destruct Hin as [Hin Hne]. apply Bool.negb_true_iff, String.eqb_neq in Hne.
           split; [| tauto]. exists node. split; [exact Hnode |].
           unfold children_of. rewrite Hcs. exact Hin.
        -- apply String.eqb_neq in E. split; [eauto |]. intros [-> _]. apply E. reflexivity.
      * intros [[n [Hget Hin]] Hne]. rewrite get_set. destruct (a =? p) eqn:E.
        -- apply String.eqb_eq in E. subst p. rewrite Hnode in Hget. injection Hget as <-.
           eexists. split; [reflexivity |]. rewrite children_of_with_children.
           unfold children_of in Hin. rewrite Hcs in Hin. apply filter_In.
           split; [exact Hin |]. apply Bool.negb_true_iff, String.eqb_neq. intros ->.
           apply Hne. auto.
        -- eauto.
    + split; [| tauto]. intros [n [Hget Hin]]. split; [eauto |]. intros [-> ->].
      rewrite Hnode in Hget. injection Hget as <-. unfold children_of in Hin.
      rewrite Hcs in Hin. exact Hin.
  - split; [| tauto]. intros [n [Hget Hin]]. split; [eauto |]. intros [-> _].
    congruence.
Qed.

(** X5: [unlinkEdge a b] removes the link from [a] to [b] and no other link,
    whatever the two ids are; it touches neither the geometries nor the
    drawings and pushes nothing on the history stacks. *)
Theorem unlinkEdge_removes_one_link (a b : string) (s : State) :
  (forall p c, edge (nodes (unlinkEdge a b s)) p c
               <-> edge (nodes s) p c /\ ~ (p = a /\ c = b))
  /\ nodePositions (unlinkEdge a b s) = nodePositions s
  /\ drawings (unlinkEdge a b s) = drawings s
  /\ stacks (unlinkEdge a b s) = stacks s.
Proof.
  split; [intros p c; apply edge_unlinkEdge |]. repeat split.
Qed.

(** X6: [deleteSelectedEdge] with no selected edge, or with a selected id
    that names no rendered edge, changes nothing; otherwise it records one
    history entry, removes the link of the first rendered edge with that id
    and no other link, and clears the edge selection. *)
Theorem deleteSelectedEdge_effect (s : State) :
  (edge_found s = false -> deleteSelectedEdge s = s)
  /\ (forall i e,
         selectedEdgeId s = Some i -> i <> "" ->
         find (fun ed => edge_id ed =? i) (edges s) = Some e ->
         (forall p c, edge (nodes (deleteSelectedEdge s)) p c
                      <-> edge (nodes s) p c /\ ~ (p = sourceId e /\ c = targetId e))
         /\ selectedEdgeId (deleteSelectedEdge s) = None
         /\ stacks (deleteSelectedEdge s) = stacks (saveHistory s)).
Proof.
  unfold edge_found, deleteSelectedEdge. split.
  - destruct (selectedEdgeId s) as [i |]; [| reflexivity].
    destruct (str_truthy i); cbn [negb andb]; [| reflexivity].
    destruct (find _ (edges s)); [discriminate | reflexivity].
  - intros i e -> Hi ->.
    assert (Ht : str_truthy i = true).
    { unfold str_truthy. apply Bool.negb_true_iff, String.eqb_neq. exact Hi. }
    rewrite Ht. cbn [negb]. split; [| split; reflexivity].
    intros p c. apply (edge_unlinkEdge (sourceId e) (targetId e) (saveHistory s)).
Qed.

(** ** Deleting *)

Lemma ltb_size_nil (l : JsSet.t) : Nat.ltb 0 (JsSet.size l) = false -> l = [].
Proof.
  unfold JsSet.size. destruct l; [reflexivity |]. cbn. discriminate.
Qed.

Lemma nodes_deleteSelection s :
  nodes (deleteSelection s)
  = fold_left (fun newMap idToDelete =>
                 JsMap.delete (removeFromParent newMap idToDelete) idToDelete)
              (selectedNodeIds s) (nodes s)
  /\ nodePositions (deleteSelection s)
     = fold_left (fun newMap i => JsMap.delete newMap i) (selectedNodeIds s)
                 (nodePositions s).
Proof.
  unfold deleteSelection.
  destruct (Nat.eqb (JsSet.size (selectedNodeIds s)) 0
            && Nat.eqb (JsSet.size (selectedDrawingIds s)) 0) eqn:E.
  - apply andb_prop in E. destruct E as [E _]. apply Nat.eqb_eq in E.
    unfold JsSet.size in E. apply length_zero_iff_nil in E. rewrite E. split; reflexivity.
  - cbv zeta. destruct (Nat.ltb 0 (JsSet.size (selectedNodeIds s))) eqn:E1.
    + destruct (Nat.ltb 0 (JsSet.size (selectedDrawingIds s))); split; reflexivity.
    + rewrite (ltb_size_nil _ E1).
      destruct (Nat.ltb 0 (JsSet.size (selectedDrawingIds s))); split; reflexivity.
Qed.

Lemma edge_delete_strip (m : NodeMap) a p c :
  JsMap.wf m ->
  (edge (JsMap.delete (JsMap.map_values (strip_child a) m) a) p c
   <-> edge m p c /\ p <> a /\ c <> a).
Proof.
  intro Hwf. unfold edge.
  assert (Hget : JsMap.get (JsMap.delete (JsMap.map_values (strip_child a) m) a) p
                 = if a =? p then None else option_map (strip_child a) (JsMap.get m p)).
  { rewrite get_delete by (apply wf_map_values; exact Hwf).
    rewrite get_map_values. reflexivity. }
  rewrite Hget. destruct (a =? p) eqn:E.
  - apply String.eqb_eq in E. subst p. split.
    + intros [n [H _]]. discriminate.
    + intros [_ [H _]]. contradiction.
  - apply String.eqb_neq in E. split.
    + intros [n [H Hin]]. destruct (JsMap.get m p) as [n0 |]; [| discriminate].
      injection H as <-. apply in_children_strip in Hin.
      split; [exists n0; tauto |]. split; [congruence | tauto].
    + intros [[n [H Hin]] [_ Hc]]. rewrite H. eexists. split; [reflexivity |].
      apply in_children_strip. auto.
Qed.

Lemma delete_fold_effect (l : list string) :
  forall m : NodeMap, JsMap.wf m -> ids_ok m ->
    let m' := fold_left (fun newMap idToDelete =>
                           JsMap.delete (removeFromParent newMap idToDelete) idToDelete)
                        l m in
    (forall k, JsMap.has m' k = negb (includes l k) && JsMap.has m k)
    /\ (forall p c, edge m' p c <-> edge m p c /\ ~ In p l /\ ~ In c l).
Proof.
  induction l as [| a r IH]; intros m Hm Hi; cbn [fold_left].
  - split; [reflexivity |]. intros p c. cbn [In]. tauto.
  - rewrite (removeFromParent_pointwise m a Hm Hi).
    assert (Hm1 : JsMap.wf (JsMap.map_values (strip_child a) m))
      by (apply wf_map_values; exact Hm).
    assert (Hi1 : ids_ok (JsMap.delete (JsMap.map_values (strip_child a) m) a)).
    { apply ids_ok_delete. apply ids_ok_map_values; [apply id_strip_child | exact Hi]. }
    destruct (IH _ (wf_delete _ _ Hm1) Hi1) as [Hk He]. split.
    + intro k. rewrite Hk, has_delete, has_map_values by exact Hm1.
      unfold includes. cbn [existsb]. rewrite (String.eqb_sym k a).
      destruct (a =? k); destruct (existsb _ r); reflexivity.
    + intros p c. rewrite He, (edge_delete_strip m a p c Hm). cbn [In].
      split.
      * intros [[H [H1 H2]] [H3 H4]]. split; [exact H |].
        split; intros [K | K]; auto.
      * intros [H [H1 H2]]. repeat split; auto.
Qed.

Lemma deleteSelection_kept (s : State) :
  wf_state s -> ids_ok (nodes s) ->
  (forall k, JsMap.has (nodes (deleteSelection s)) k
             = negb (includes (selectedNodeIds s) k) && JsMap.has (nodes s) k)
  /\ (forall k, JsMap.has (nodePositions (deleteSelection s)) k
                = negb (includes (selectedNodeIds s) k) && JsMap.has (nodePositions s) k)
  /\ drawings (deleteSelection s)
     = filter (fun d => negb (JsSet.has (selectedDrawingIds s) (d_id d))) (drawings s).
Proof.
  intros [Hn Hp] Hids. destruct (nodes_deleteSelection s) as [EN EP].
  destruct (delete_fold_effect (selectedNodeIds s) (nodes s) Hn Hids) as [Hk _].
  cbv zeta in Hk. rewrite <- EN in Hk.
  split; [exact Hk |]. split.
  - intro k. rewrite EP. apply has_fold_delete. exact Hp.
  - unfold deleteSelection.
    destruct (Nat.eqb (JsSet.size (selectedNodeIds s)) 0
              && Nat.eqb (JsSet.size (selectedDrawingIds s)) 0) eqn:E.
    + apply andb_prop in E. destruct E as [_ E]. apply Nat.eqb_eq in E.
      unfold JsSet.size in E. apply length_zero_iff_nil in E. rewrite E.
      cbn [JsSet.has existsb negb]. symmetry. clear.
      induction (drawings s) as [| d r IH]; [reflexivity |]. cbn [filter]. rewrite IH at 1.
      reflexivity.
    + cbv zeta. destruct (Nat.ltb 0 (JsSet.size (selectedDrawingIds s))) eqn:E2.
      * destruct (Nat.ltb 0 (JsSet.size (selectedNodeIds s))); reflexivity.
      * rewrite (ltb_size_nil _ E2). cbn [JsSet.has existsb negb].
        assert (Hall : forall l : list Drawing, filter (fun _ => true) l = l).
        { induction l as [| d r IH]; [reflexivity |]. cbn [filter]. rewrite IH.
          reflexivity. }
        rewrite Hall.
        destruct (Nat.ltb 0 (JsSet.size (selectedNodeIds s))); reflexivity.
Qed.



Lemma in_set_add (acc : JsSet.t) a x : In x (JsSet.add acc a) <-> In x acc \/ x = a.
Proof.
  unfold JsSet.add. destruct (JsSet.has acc a) eqn:E.
  - split; [auto |]. intros [H | ->]; [exact H |].
    unfold JsSet.has in E. apply existsb_exists in E. destruct E as [y [Hy E]].
    apply String.eqb_eq in E. subst. exact Hy.
  - rewrite in_app_iff. cbn [In]. split; [intros [H | [H | []]]; auto | intros [H | H]; auto].
Qed.

Lemma in_set_of_list (l : list string) x : In x (JsSet.of_list l) <-> In x l.
Proof.
  unfold JsSet.of_list.
  assert (H : forall acc, In x (fold_left JsSet.add l acc) <-> In x acc \/ In x l).
  { induction l as [| a r IH]; intro acc; cbn [fold_left In]; [tauto |].
    rewrite IH, in_set_add. split; [intros [[H | H] | H]; auto | intros [H | [H | H]]; auto]. }
  rewrite H. unfold JsSet.empty. cbn [In]. tauto.
Qed.

Lemma has_none_nil {V} (m : JsMap.t V) : (forall k, JsMap.has m k = false) -> m = [].
Proof.
  destruct m as [| [k v] r]; [reflexivity |]. intro H. specialize (H k).
  unfold JsMap.has in H. cbn [JsMap.get] in H. rewrite String.eqb_refl in H. discriminate.
Qed.

Lemma filter_none {A} (f : A -> bool) (l : list A) :
  (forall a, In a l -> f a = false) -> filter f l = [].
Proof.
  induction l as [| a r IH]; intro H; [reflexivity |]. cbn [filter].
  rewrite (H a (or_introl eq_refl)). apply IH. intros b Hb. apply H. right. exact Hb.
Qed.

(** X8: on a chart whose nodes are stored under their own ids and whose
    geometry map has the keys of its node map, selecting everything and
    deleting the selection leaves a chart with no node, no geometry and no
    drawing. *)
Theorem selectAll_delete_clears (s : State) :
  wf_state s -> ids_ok (nodes s) -> parity (nodes s) (nodePositions s) ->
  content (deleteSelection (selectAll s)) = (JsMap.empty, JsMap.empty, []).
Proof.
  intros Hwf Hids Hpar.
  destruct (deleteSelection_kept (selectAll s) Hwf Hids) as [Hk [Hp Hd]].
  cbn [selectAll nodes nodePositions drawings selectedNodeIds selectedDrawingIds
       set_selectedNodeIds set_selectedDrawingIds set_selectedEdgeId] in Hk, Hp, Hd.
  assert (Hsel : forall k, JsMap.has (nodes s) k = true ->
                           includes (JsSet.of_list (JsMap.keys (nodes s))) k = true).
  { intros k H. apply includes_In. apply in_set_of_list. apply has_in_keys. exact H. }
  unfold content. f_equal; [f_equal |].
  - apply has_none_nil. intro k. rewrite Hk.
    destruct (JsMap.has (nodes s) k) eqn:E; [rewrite (Hsel k E) |];
      [reflexivity | apply Bool.andb_false_r].
  - apply has_none_nil. intro k. rewrite Hp, <- (Hpar k).
    destruct (JsMap.has (nodes s) k) eqn:E; [rewrite (Hsel k E) |];
      [reflexivity | apply Bool.andb_false_r].
  - rewrite Hd. apply filter_none. intros d Hin. apply Bool.negb_false_iff.
    change (includes (JsSet.of_list (map d_id (drawings s))) (d_id d) = true).
    apply includes_In. apply in_set_of_list. apply in_map. exact Hin.
Qed.

Lemma selectAll_delete_clears_witness :
  wf_state initial /\ ids_ok (nodes initial)
  /\ parity (nodes initial) (nodePositions initial)
  /\ content (deleteSelection (selectAll initial)) = (JsMap.empty, JsMap.empty, []).
Proof.
  destruct keyed_initial as [Hwf [Hids Hpar]].
  split; [exact Hwf |]. split; [exact Hids |]. split; [exact Hpar |].
  exact (selectAll_delete_clears initial Hwf Hids Hpar).
Defined.

(** ** Selection *)

Lemma set_has_delete (S : JsSet.t) i x :
  JsSet.has (JsSet.delete S i) x = JsSet.has S x && negb (x =? i).
Proof.
  unfold JsSet.has, JsSet.delete. induction S as [| a r IH]; [reflexivity |].
  cbn [filter existsb]. destruct (a =? i) eqn:E; cbn [negb].
  - rewrite IH. apply String.eqb_eq in E. subst a.
    destruct (x =? i); cbn [negb orb]; [| reflexivity].
    rewrite !Bool.andb_false_r. reflexivity.
  - cbn [existsb]. rewrite IH. destruct (x =? a) eqn:E1; [| reflexivity].
    apply String.eqb_eq in E1. subst a. rewrite E. reflexivity.
Qed.

Lemma set_has_add (S : JsSet.t) i x :
  JsSet.has (JsSet.add S i) x = JsSet.has S x || (x =? i).
Proof.
  unfold JsSet.add. destruct (JsSet.has S i) eqn:E.
  - destruct (x =? i) eqn:E1; [| rewrite Bool.orb_false_r; reflexivity].
    apply String.eqb_eq in E1. subst x. rewrite E. reflexivity.
  - unfold JsSet.has. rewrite existsb_app. cbn [existsb]. rewrite Bool.orb_false_r.
    reflexivity.
Qed.

Lemma toggle_twice (S : JsSet.t) i x :
  JsSet.has (toggle true (toggle true S i) i) x = JsSet.has S x.
Proof.
  unfold toggle. cbn [andb]. destruct (JsSet.has S i) eqn:E.
  - rewrite set_has_delete, String.eqb_refl, Bool.andb_false_r.
    rewrite set_has_add, set_has_delete.
    destruct (x =? i) eqn:E1; cbn [negb]; [| rewrite Bool.andb_true_r, Bool.orb_false_r; reflexivity].
    apply String.eqb_eq in E1. subst x. rewrite E. reflexivity.
  - rewrite set_has_add, E, String.eqb_refl. cbn [orb].
    rewrite set_has_delete, set_has_add.
    destruct (x =? i) eqn:E1; cbn [negb]; [| rewrite Bool.andb_true_r, Bool.orb_false_r; reflexivity].
    apply String.eqb_eq in E1. subst x. rewrite E. reflexivity.
Qed.

(** X9: a multi-select click on a node adds it to the selection when it is
    not selected and removes it when it is, so two such clicks on the same
    node give back the same selected nodes; the selected drawings are not
    touched, and the selected edge is dropped. *)
Theorem selectNode_multi_twice (i : string) (s : State) :
  (forall x, JsSet.has (selectedNodeIds (selectNode i true s)) x
             = if x =? i then negb (JsSet.has (selectedNodeIds s) i)
               else JsSet.has (selectedNodeIds s) x)
  /\ (forall x, JsSet.has (selectedNodeIds (selectNode i true (selectNode i true s))) x
                = JsSet.has (selectedNodeIds s) x)
  /\ selectedDrawingIds (selectNode i true (selectNode i true s)) = selectedDrawingIds s
  /\ selectedEdgeId (selectNode i true s) = None.
Proof.
  split; [| split; [| split; reflexivity]].
  - intro x. cbn [selectNode selectedNodeIds set_selectedNodeIds set_selectedEdgeId].
    unfold toggle. cbn [andb]. destruct (JsSet.has (selectedNodeIds s) i) eqn:E.
    + rewrite set_has_delete. destruct (x =? i) eqn:E1; cbn [negb].
      * apply Bool.andb_false_r.
      * apply Bool.andb_true_r.
    + rewrite set_has_add. destruct (x =? i) eqn:E1; cbn [negb].
      * apply Bool.orb_true_r.
      * apply Bool.orb_false_r.
  - intro x. cbn [selectNode selectedNodeIds set_selectedNodeIds set_selectedEdgeId].
    apply toggle_twice.
Qed.

(** ** History *)

(** X10: a command that records history leaves the redo stack empty, so a
    [redo] right after it changes nothing: what was undone before the
    command can no longer be redone. *)
Theorem recording_discards_redo (c : Command) (s : State) :
  records_history c s = true ->
  redoStack (step c s) = [] /\ redo (step c s) = step c s.
Proof.
  intro Hrec.
  assert (H : redoStack (step c s) = []).
  { pose proof (stacks_step c s) as Hst. unfold stacks in Hst.
    injection Hst as _ ->. unfold hist_model.
    destruct c; try (rewrite Hrec; reflexivity); try discriminate.
    - cbn [records_history] in Hrec. destruct (import_case data); [discriminate .. |].
      reflexivity.
    - reflexivity. }
  split; [exact H |]. unfold redo. rewrite H. reflexivity.
Qed.

Lemma recording_discards_redo_witness :
  records_history c_deleteSelection (undo (deleteSelection sample_selection)) = false
  /\ records_history (c_addMember "m") (undo (deleteSelection sample_selection)) = true
  /\ redoStack (undo (deleteSelection sample_selection)) <> []
  /\ redoStack (step (c_addMember "m") (undo (deleteSelection sample_selection))) = [].
Proof.
  split; [vm_compute; reflexivity |].
  assert (H : records_history (c_addMember "m") (undo (deleteSelection sample_selection))
              = true) by reflexivity.
  split; [exact H |]. split; [vm_compute; discriminate |].
  exact (proj1 (recording_discards_redo (c_addMember "m")
                  (undo (deleteSelection sample_selection)) H)).
Defined.

(** ** Geometry setters *)

Lemma set_set_same {V} (m : JsMap.t V) k v v' :
  JsMap.set (JsMap.set m k v) k v' = JsMap.set m k v'.
Proof.
  induction m as [| [k0 v0] r IH]; cbn [JsMap.set].
  - rewrite String.eqb_refl. reflexivity.
  - destruct (k0 =? k) eqn:E; cbn [JsMap.set].
    + rewrite String.eqb_refl. reflexivity.
    + rewrite E, IH. reflexivity.
Qed.

Lemma resized_twice i w h P : resized i w h (resized i w h P) = resized i w h P.
Proof.
  assert (Hfix : forall Q cur,
             JsMap.get Q i = Some cur -> width cur = Some w -> height cur = Some h ->
             resized i w h Q = Q).
  { intros Q cur Hget Hw Hh. unfold resized. rewrite Hget.
    destruct (_ || _); [| reflexivity].
    rewrite <- Hw, <- Hh. destruct cur as [cx cy cw ch]. cbn [x y width height].
    apply set_get_same. exact Hget. }
  unfold resized at 2 3. destruct (JsMap.get P i) as [cur |] eqn:Hget.
  - destruct (_ || _) eqn:E.
    + eapply Hfix; [apply get_set_same | reflexivity | reflexivity].
    + unfold resized. rewrite Hget, E. reflexivity.
  - eapply Hfix; [apply get_set_same | reflexivity | reflexivity].
Qed.

(** X11: reporting the same size of a node twice is the same as reporting
    it once, whether the first report is stored, ignored as a change of at
    most one unit, or creates the geometry. *)
Theorem updateNodeDimensions_idempotent (i : string) (w h : num) (s : State) :
  updateNodeDimensions i w h (updateNodeDimensions i w h s) = updateNodeDimensions i w h s.
Proof.
  change (set_nodePositions (set_nodePositions s (resized i w h (nodePositions s)))
                            (resized i w h (resized i w h (nodePositions s)))
          = set_nodePositions s (resized i w h (nodePositions s))).
  rewrite resized_twice. reflexivity.
Qed.

(** ** Membership of a group *)




(** ** The view *)

Lemma zq_le (a b : Z) : (a <= b)%Z -> (zq a <= zq b)%Qc.
Proof.
  intro H. unfold zq, Qcle. cbn [this Q2Qc]. rewrite !Qred_correct.
  rewrite <- Zle_Qle. exact H.
Qed.

Lemma Qfloor_le_zq (q : Qc) (z : Z) : (q <= zq z)%Qc -> (Qfloor q <= z)%Z.
Proof.
  intro H. unfold Qcle in H. apply Qfloor_resp_le in H.
  unfold zq in H. cbn [this Q2Qc] in H. rewrite Qred_correct, Qfloor_Z in H. exact H.
Qed.

Lemma num_min_le_r a b : (num_min a b <= b)%Qc.
Proof.
  unfold num_min. destruct (num_ltb b a) eqn:E; [apply Qcle_refl |].
  apply num_ltb_false in E. exact E.
Qed.

Lemma num_max_ge_r a b : (b <= num_max a b)%Qc.
Proof.
  unfold num_max. destruct (num_ltb a b) eqn:E; [apply Qcle_refl |].
  apply num_ltb_false in E. exact E.
Qed.

Lemma num_min_ge a b c : (c <= a)%Qc -> (c <= b)%Qc -> (c <= num_min a b)%Qc.
Proof. intros Ha Hb. unfold num_min. destruct (num_ltb b a); assumption. Qed.

Lemma num_max_le a b c : (a <= c)%Qc -> (b <= c)%Qc -> (num_max a b <= c)%Qc.
Proof. intros Ha Hb. unfold num_max. destruct (num_ltb a b); assumption. Qed.

Lemma fit_percentage_range sc :
  (zq 1 <= fit_percentage sc)%Qc /\ (fit_percentage sc <= zq 150)%Qc
  /\ exists z : Z, fit_percentage sc = zq z.
Proof.
  unfold fit_percentage. cbv zeta.
  set (newScale := if num_ltb (Q2Qc (3 # 2)) sc then Q2Qc (3 # 2) else sc).
  assert (Hcap : (newScale <= Q2Qc (3 # 2))%Qc).
  { unfold newScale. destruct (num_ltb (Q2Qc (3 # 2)) sc) eqn:E; [apply Qcle_refl |].
    apply num_ltb_false in E. exact E. }
  assert (Hfloor : (Qfloor (newScale * zq 100)%Qc <= 150)%Z).
  { apply Qfloor_le_zq.
    replace (zq 150) with (Q2Qc (3 # 2) * zq 100)%Qc by (apply Qc_is_canon; reflexivity).
    apply Qcmult_le_compat_r; [exact Hcap |]. apply (zq_le 0 100). lia. }
  destruct (num_ltb (zq (Qfloor (newScale * zq 100)%Qc)) (zq 1)) eqn:E.
  - split; [apply Qcle_refl |]. split; [apply zq_le; lia | exists 1%Z; reflexivity].
  - apply num_ltb_false in E. split; [exact E |].
    split; [apply zq_le; exact Hfloor | eexists; reflexivity].
Qed.

(** A zoom that [zoomToFit] may set: a whole percent from 1 to 150. *)
Lemma fit_zoom_range q z :
  fit_zoom q = Some z ->
  (zq 1 <= z)%Qc /\ (z <= zq 150)%Qc /\ exists k : Z, z = zq k.
Proof.
  destruct q as [v | | |]; cbn [fit_zoom]; intro H; try discriminate; injection H as <-.
  - apply fit_percentage_range.
  - split; [apply zq_le; lia |]. split; [apply Qcle_refl | exists 150%Z; reflexivity].
  - split; [apply Qcle_refl |]. split; [apply zq_le; lia | exists 1%Z; reflexivity].
Qed.

Lemma js_div_number a b : a <> zq 0 -> js_div a b <> q_nan.
Proof.
  intros Ha. unfold js_div. destruct (num_eqb b (zq 0)); [| discriminate].
  destruct (num_eqb a (zq 0)) eqn:E; [apply num_eqb_true in E; contradiction |].
  destruct (num_ltb (zq 0) a); discriminate.
Qed.

Lemma quotient_min_number a b : a <> q_nan -> b <> q_nan -> quotient_min a b <> q_nan.
Proof. destruct a, b; cbn [quotient_min]; intros Ha Hb; congruence. Qed.

Lemma zoomToFit_cases cw ch s s' :
  zoomToFit cw ch s = Some s' ->
  s' = reset_view s
  \/ (exists q z pan, fit_zoom q = Some z
                      /\ s' = set_panOffset (set_zoomLevel s z) pan
                      /\ (nodePositions s = [] -> drawings s = [] -> False)).
Proof.
  unfold zoomToFit. cbv zeta.
  destruct (Nat.eqb (length (nodePositions s)) 0 && Nat.eqb (length (drawings s)) 0)
    eqn:Eempty.
  - intro H. injection H as <-. left. reflexivity.
  - destruct (fold_left drawing_bounds _ _) as [a b c d].
    unfold b_minX, b_minY, b_maxX, b_maxY.
    destruct a as [minX |]; [| intro H; injection H as <-; left; reflexivity].
    destruct b as [minY |]; [| intro H; injection H as <-; left; reflexivity].
    destruct c as [maxX |]; [| intro H; injection H as <-; left; reflexivity].
    destruct d as [maxY |]; [| intro H; injection H as <-; left; reflexivity].
    match goal with
    | |- context [fit_zoom ?q] => destruct (fit_zoom q) as [z |] eqn:Ez; [| discriminate]
    end.
    intro H. injection H as <-. right. eexists. exists z. eexists.
    split; [exact Ez |]. split; [reflexivity |].
    intros Hp Hd. rewrite Hp, Hd in Eempty. discriminate.
Qed.

Lemma zoomToFit_sets cw ch s :
  cw <> zq 0 -> ch <> zq 0 -> exists s', zoomToFit cw ch s = Some s'.
Proof.
  intros Hw Hh. unfold zoomToFit. cbv zeta.
  destruct (Nat.eqb (length (nodePositions s)) 0 && Nat.eqb (length (drawings s)) 0);
    [eexists; reflexivity |].
  destruct (fold_left drawing_bounds _ _) as [a b c d].
  unfold b_minX, b_minY, b_maxX, b_maxY.
  destruct a as [minX |]; [| eexists; reflexivity].
  destruct b as [minY |]; [| eexists; reflexivity].
  destruct c as [maxX |]; [| eexists; reflexivity].
  destruct d as [maxY |]; [| eexists; reflexivity].
  match goal with
  | |- context [fit_zoom (quotient_min ?qx ?qy)] =>
      pose proof (quotient_min_number qx qy (js_div_number _ _ Hw) (js_div_number _ _ Hh))
        as Hq;
      destruct (quotient_min qx qy); cbn [fit_zoom]
  end; try (eexists; reflexivity).
  exfalso. apply Hq. reflexivity.
Qed.

(** X13: for a container whose width and height are not [0], [zoomToFit]
    always sets a view; any view it sets has a zoom that is a whole number
    of percent between 1 and 150, also where the padded content has a zero
    width or height and the scale is infinite; nodes, geometries and
    drawings are unchanged, and on a canvas without geometries and drawings
    the view is reset to zoom 100 and pan (0, 0).  (With a container
    dimension of [0] over a padded content dimension of [0] the code stores
    [NaN]: the model sets no view then.) *)
Theorem zoomToFit_range (cw ch : num) (s : State) :
  (cw <> zq 0 -> ch <> zq 0 -> exists s', zoomToFit cw ch s = Some s')
  /\ (forall s', zoomToFit cw ch s = Some s' ->
        (zq 1 <= zoomLevel s')%Qc /\ (zoomLevel s' <= zq 150)%Qc
        /\ (exists z : Z, zoomLevel s' = zq z)
        /\ content s' = content s
        /\ (nodePositions s = [] -> drawings s = [] -> s' = reset_view s)).
Proof.
  split; [apply zoomToFit_sets |].
  intros s' H. destruct (zoomToFit_cases cw ch s s' H) as [-> | [q [z [pan [Hz [-> Hne]]]]]].
  - split; [apply (zq_le 1 100); lia |]. split; [apply (zq_le 100 150); lia |].
    split; [exists 100%Z; reflexivity |]. split; reflexivity.
  - destruct (fit_zoom_range q z Hz) as [H1 [H2 H3]].
    split; [exact H1 |]. split; [exact H2 |]. split; [exact H3 |].
    split; [reflexivity |]. intros Hp Hd. destruct (Hne Hp Hd).
Qed.

Lemma zoomToFit_range_witness :
  exists s', zoomToFit (zq 800) (zq 600) narrow_card = Some s'
             /\ (zq 1 <= zoomLevel s')%Qc /\ (zoomLevel s' <= zq 150)%Qc.
Proof.
  destruct (zoomToFit_range (zq 800) (zq 600) narrow_card) as [Hsets Hrange].
  destruct Hsets as [s' E].
  - intro K. apply (f_equal Qcanon.this) in K. discriminate.
  - intro K. apply (f_equal Qcanon.this) in K. discriminate.
  - exists s'. split; [exact E |].
    destruct (Hrange s' E) as [H1 [H2 _]]. split; assumption.
Defined.

Lemma Qc_le_plus_nonneg (a z c : Qc) : (a <= z)%Qc -> (zq 0 <= c)%Qc -> (a <= z + c)%Qc.
Proof.
  intros H1 H2. pose proof (Qcplus_le_compat _ _ _ _ H1 H2) as H.
  change (zq 0) with 0%Qc in H. rewrite Qcplus_0_r in H. exact H.
Qed.

Lemma Qc_plus_nonpos_le (a z c : Qc) : (z <= a)%Qc -> (c <= zq 0)%Qc -> (z + c <= a)%Qc.
Proof.
  intros H1 H2. pose proof (Qcplus_le_compat _ _ _ _ H1 H2) as H.
  change (zq 0) with 0%Qc in H. rewrite Qcplus_0_r in H. exact H.
Qed.

Lemma view_step_range o s s' :
  zoom_in_range s -> view_step o s = Some s' ->
  zoom_in_range s' /\ content s' = content s.
Proof.
  intros [Hlo Hhi] H. destruct o; cbn [view_step] in H.
  - injection H as <-. split; [| reflexivity]. split; cbn [zoomIn zoomLevel set_zoomLevel].
    + apply num_min_ge; [| apply zq_le; lia].
      apply Qc_le_plus_nonneg; [exact Hlo | apply zq_le; lia].
    + apply num_min_le_r.
  - injection H as <-. split; [| reflexivity]. split; cbn [zoomOut zoomLevel set_zoomLevel].
    + apply (Qcle_trans _ (zq 10)); [apply zq_le; lia | apply num_max_ge_r].
    + apply num_max_le; [| apply zq_le; lia].
      apply (Qc_plus_nonpos_le (zq 500) (zoomLevel s) (- zq 10)); [exact Hhi |].
      replace (- zq 10)%Qc with (zq (-10)) by (apply Qc_is_canon; reflexivity).
      apply zq_le. lia.
  - injection H as <-. split; [| reflexivity].
    split; cbn [resetZoom zoomLevel set_zoomLevel set_panOffset]; apply zq_le; lia.
  - injection H as <-. split; [| reflexivity].
    split; cbn [wheelZoom zoomLevel set_zoomLevel].
    + apply num_min_ge; [| apply zq_le; lia].
      apply (Qcle_trans _ (zq 10)); [apply zq_le; lia | apply num_max_ge_r].
    + apply num_min_le_r.
  - destruct (zoomToFit_cases _ _ _ _ H) as [-> | [q [z [pan [Hz [-> _]]]]]].
    + split; [| reflexivity]. split; apply zq_le; lia.
    + destruct (fit_zoom_range q z Hz) as [H1 [H2 _]]. split; [| reflexivity].
      split; [exact H1 |]. apply (Qcle_trans _ (zq 150)); [exact H2 | apply zq_le; lia].
Qed.

Lemma view_step_sets o s : view_ok o -> exists s', view_step o s = Some s'.
Proof.
  destruct o; cbn [view_step view_ok]; intro H; try (eexists; reflexivity).
  destruct H as [Hw Hh]. apply zoomToFit_sets; assumption.
Qed.

(** X14: along every sequence of the zoom controls (zoom in, zoom out,
    reset, control-wheel, zoom to fit) in which zoom to fit is given a
    container whose width and height are not [0], every control sets a
    view, a zoom that starts between 1 and 500 percent stays between 1 and
    500 percent, and nodes, geometries and drawings are never touched. *)
Theorem zoom_stays_in_range (ops : list ViewOp) (s : State) :
  zoom_in_range s -> Forall view_ok ops ->
  exists s', view_run ops s = Some s' /\ zoom_in_range s' /\ content s' = content s.
Proof.
  revert s. induction ops as [| o r IH]; intros s Hs Hok; cbn [view_run].
  - exists s. split; [reflexivity |]. split; [exact Hs | reflexivity].
  - inversion Hok as [| o' r' Ho Hr]; subst.
    destruct (view_step_sets o s Ho) as [s1 E]. rewrite E.
    destruct (view_step_range o s s1 Hs E) as [H1 Hc1].
    destruct (IH s1 H1 Hr) as [s' [Hrun [H2 Hc2]]].
    exists s'. split; [exact Hrun |]. split; [exact H2 |]. rewrite Hc2. exact Hc1.
Qed.

Lemma zoom_stays_in_range_witness :
  zoom_in_range narrow_card /\ Forall view_ok sample_view_ops
  /\ exists s', view_run sample_view_ops narrow_card = Some s' /\ zoom_in_range s'.
Proof.
  assert (H0 : zoom_in_range narrow_card).
  { split; [apply (zq_le 1 100) | apply (zq_le 100 500)]; lia. }
  assert (Hok : Forall view_ok sample_view_ops).
  { unfold sample_view_ops. repeat constructor;
      intro K; apply (f_equal Qcanon.this) in K; discriminate. }
  split; [exact H0 |]. split; [exact Hok |].
  destruct (zoom_stays_in_range sample_view_ops narrow_card H0 Hok) as [s' [E [H1 _]]].
  exists s'. split; assumption.
Defined.

(** ** What the layout moves *)

Lemma autoLayout_result b s :
  wf_state s -> ids_ok (nodes s) -> acyclic (nodes s) ->
  exists np,
    layout_roots (sortChildrenByDepartment (nodes s)) (nodePositions s) = Some np
    /\ autoLayout b s
       = Returned
           (set_nodePositions
              (set_nodes (if b then saveHistory s else s)
                         (sortChildrenByDepartment (nodes s)))
              (reattach (capture_anchors (nodes s) (nodePositions s))
                 (fit_groups (sortChildrenByDepartment (nodes s))
                    (transfer_non_hierarchy (sortChildrenByDepartment (nodes s))
                       (nodePositions s) np)))).
Proof.
  intros Hwf Hids Hac.
  pose proof (acyclic_sorted _ Hac) as HacM.
  destruct (layout_roots (sortChildrenByDepartment (nodes s)) (nodePositions s))
    as [np |] eqn:E; [| exfalso; exact (layout_roots_total _ _ HacM E)].
  exists np. split; [reflexivity |]. unfold autoLayout. cbv zeta.
  assert (H1 : nodes (if b then saveHistory s else s) = nodes s)
    by (destruct b; reflexivity).
  assert (H2 : nodePositions (if b then saveHistory s else s) = nodePositions s)
    by (destruct b; reflexivity).
  cbn [nodes set_nodes]. rewrite H1, H2. unfold layout. rewrite E. reflexivity.
Qed.

Lemma get_sorted m k :
  JsMap.get (sortChildrenByDepartment m) k
  = option_map (sort_node_children m) (JsMap.get m k).
Proof. unfold sortChildrenByDepartment. apply get_map_values. Qed.

Lemma capture_anchors_inv (R : string -> Anchor -> Prop) map C :
  (forall node grp nodePos gpos,
      In node (JsMap.values map) -> is_freeform (type node) = true ->
      JsMap.get C (id node) = Some nodePos ->
      In grp (JsMap.values map) -> type grp = group ->
      JsMap.get C (id grp) = Some gpos -> center_inside nodePos gpos = true ->
      R (id node) {| groupId := id grp;
                     offsetX := (x nodePos - x gpos)%Qc;
                     offsetY := (y nodePos - y gpos)%Qc |}) ->
  forall k a, In (k, a) (capture_anchors map C) -> R k a.
Proof.
  intro HR. unfold capture_anchors.
  assert (Hgroups : forall node nodePos,
             In node (JsMap.values map) -> is_freeform (type node) = true ->
             JsMap.get C (id node) = Some nodePos ->
             forall (gl : list ChartNode) acc,
               incl gl (JsMap.values map) ->
               (forall k a, In (k, a) acc -> R k a) ->
               forall k a,
                 In (k, a) (fold_left (anchor_to_group C node nodePos) gl acc) -> R k a).
  { intros node nodePos Hnode Hfree Hpos.
    induction gl as [| grp gr IHg]; intros acc Hincl Hacc k1 a1 H1;
      [apply Hacc; exact H1 |].
    cbn [fold_left] in H1. apply IHg in H1; [exact H1 | | ].
    - intros n Hn. apply Hincl. right. exact Hn.
    - clear k1 a1 H1. unfold anchor_to_group.
      destruct (NodeType_eqb (type grp) group) eqn:Ety; [| exact Hacc].
      destruct (JsMap.get C (id grp)) as [gpos |] eqn:Eg; [| exact Hacc].
      destruct (center_inside nodePos gpos) eqn:Ein; [| exact Hacc].
      intros k2 a2 H2. apply in_set_inv in H2.
      destruct H2 as [H2 | H2]; [| apply Hacc; exact H2].
      injection H2 as -> ->. apply NodeType_eqb_eq in Ety.
      apply HR; auto. apply Hincl. left. reflexivity. }
  assert (Hgen : forall (l : list ChartNode) acc,
             incl l (JsMap.values map) ->
             (forall k a, In (k, a) acc -> R k a) ->
             forall k a, In (k, a) (fold_left (anchor_node map C) l acc) -> R k a).
  { induction l as [| node r IH]; intros acc Hincl Hacc k0 a0 H; [apply Hacc; exact H |].
    cbn [fold_left] in H. apply IH in H; [exact H | | ].
    - intros n Hn. apply Hincl. right. exact Hn.
    - clear k0 a0 H. unfold anchor_node.
      destruct (is_freeform (type node)) eqn:Efree; [| exact Hacc].
      destruct (JsMap.get C (id node)) as [nodePos |] eqn:Epos; [| exact Hacc].
      apply (Hgroups node nodePos); auto; [apply Hincl; left; reflexivity |].
      apply incl_refl. }
  apply Hgen; [apply incl_refl |]. intros k0 a0 [].
Qed.

Lemma anchored_inside map C k :
  In k (JsMap.keys (capture_anchors map C)) ->
  inside_some_group map C k
  /\ exists node, In node (JsMap.values map) /\ id node = k
                  /\ is_freeform (type node) = true.
Proof.
  intro Hk. apply get_Some_keys in Hk. destruct Hk as [a Ha]. apply get_In in Ha.
  revert k a Ha. apply capture_anchors_inv.
  intros node grp nodePos gpos Hn Hfree Hpos Hg Hty Hgp Hin. split.
  - exists nodePos, grp, gpos. auto.
  - exists node. auto.
Qed.

Lemma lower_bound acc v :
  exists r, lower acc v = Some r /\ (r <= v)%Qc /\ (forall u, acc = Some u -> (r <= u)%Qc).
Proof.
  unfold lower. destruct acc as [m |].
  - destruct (num_ltb v m) eqn:E.
    + exists v. split; [reflexivity |]. split; [apply Qcle_refl |].
      intros u Hu. injection Hu as <-. apply Qclt_le_weak. apply num_ltb_true. exact E.
    + exists m. split; [reflexivity |]. apply num_ltb_false in E. split; [exact E |].
      intros u Hu. injection Hu as <-. apply Qcle_refl.
  - exists v. split; [reflexivity |]. split; [apply Qcle_refl | discriminate].
Qed.

Lemma raise_bound acc v :
  exists r, raise acc v = Some r /\ (v <= r)%Qc /\ (forall u, acc = Some u -> (u <= r)%Qc).
Proof.
  unfold raise. destruct acc as [m |].
  - destruct (num_ltb m v) eqn:E.
    + exists v. split; [reflexivity |]. split; [apply Qcle_refl |].
      intros u Hu. injection Hu as <-. apply Qclt_le_weak. apply num_ltb_true. exact E.
    + exists m. split; [reflexivity |]. apply num_ltb_false in E. split; [exact E |].
      intros u Hu. injection Hu as <-. apply Qcle_refl.
  - exists v. split; [reflexivity |]. split; [apply Qcle_refl | discriminate].
Qed.

Lemma member_bounds_covers B ms m pm :
  In m ms -> JsMap.get B (id m) = Some pm ->
  exists minX minY maxX maxY,
    member_bounds B ms = mkBounds (Some minX) (Some minY) (Some maxX) (Some maxY)
    /\ (minX <= x pm)%Qc /\ (minY <= y pm)%Qc
    /\ (x pm + num_or (width pm) (zq 208) <= maxX)%Qc
    /\ (y pm + num_or (height pm) (zq 100) <= maxY)%Qc.
Proof.
  intros Hin Hpm. unfold member_bounds.
  match goal with
  | |- context [fold_left ?f ms ?b0] =>
      set (step := f);
      assert (Hgen : forall l b,
                 (In m l
                  \/ exists minX minY maxX maxY,
                       b = mkBounds (Some minX) (Some minY) (Some maxX) (Some maxY)
                       /\ (minX <= x pm)%Qc /\ (minY <= y pm)%Qc
                       /\ (x pm + num_or (width pm) (zq 208) <= maxX)%Qc
                       /\ (y pm + num_or (height pm) (zq 100) <= maxY)%Qc) ->
                 exists minX minY maxX maxY,
                   fold_left step l b
                   = mkBounds (Some minX) (Some minY) (Some maxX) (Some maxY)
                   /\ (minX <= x pm)%Qc /\ (minY <= y pm)%Qc
                   /\ (x pm + num_or (width pm) (zq 208) <= maxX)%Qc
                   /\ (y pm + num_or (height pm) (zq 100) <= maxY)%Qc)
  end.
  { induction l as [| a r IH]; intros b H; cbn [fold_left].
    - destruct H as [[] | H]. exact H.
    - apply IH. destruct H as [[-> | H] | H]; [right | left; exact H | right].
      + unfold step. rewrite Hpm.
        destruct (lower_bound (b_minX b) (x pm)) as [r1 [E1 [H1 _]]].
        destruct (lower_bound (b_minY b) (y pm)) as [r2 [E2 [H2 _]]].
        destruct (raise_bound (b_maxX b) (x pm + num_or (width pm) (zq 208))%Qc)
          as [r3 [E3 [H3 _]]].
        destruct (raise_bound (b_maxY b) (y pm + num_or (height pm) (zq 100))%Qc)
          as [r4 [E4 [H4 _]]].
        rewrite E1, E2, E3, E4. exists r1, r2, r3, r4. auto.
      + destruct H as [minX [minY [maxX [maxY [-> [H1 [H2 [H3 H4]]]]]]]].
        unfold step. destruct (JsMap.get B (id a)) as [pa |];
          [| exists minX, minY, maxX, maxY; auto].
        cbn [b_minX b_minY b_maxX b_maxY].
        destruct (lower_bound (Some minX) (x pa)) as [r1 [E1 [_ K1]]].
        destruct (lower_bound (Some minY) (y pa)) as [r2 [E2 [_ K2]]].
        destruct (raise_bound (Some maxX) (x pa + num_or (width pa) (zq 208))%Qc)
          as [r3 [E3 [_ K3]]].
        destruct (raise_bound (Some maxY) (y pa + num_or (height pa) (zq 100))%Qc)
          as [r4 [E4 [_ K4]]].
        rewrite E1, E2, E3, E4. exists r1, r2, r3, r4. split; [reflexivity |].
        split; [exact (Qcle_trans _ _ _ (K1 _ eq_refl) H1) |].
        split; [exact (Qcle_trans _ _ _ (K2 _ eq_refl) H2) |].
        split; [exact (Qcle_trans _ _ _ H3 (K3 _ eq_refl)) |].
        exact (Qcle_trans _ _ _ H4 (K4 _ eq_refl)). }
  apply Hgen. left. exact Hin.
Qed.

Lemma pad_low (m v c : Qc) : (m <= v)%Qc -> (m - c + c <= v)%Qc.
Proof. intro H. replace (m - c + c)%Qc with m by ring. exact H. Qed.

Lemma pad_high_x (mn mx v c : Qc) :
  (v <= mx)%Qc -> (v + c <= mn - c + (mx - mn + (c + c)))%Qc.
Proof.
  intro H. replace (mn - c + (mx - mn + (c + c)))%Qc with (mx + c)%Qc by ring.
  apply Qcplus_le_compat; [exact H | apply Qcle_refl].
Qed.

Lemma pad_high_y (mn mx v c d : Qc) :
  (v <= mx)%Qc -> (v + d <= mn - c + (mx - mn + c + d))%Qc.
Proof.
  intro H. replace (mn - c + (mx - mn + c + d))%Qc with (mx + d)%Qc by ring.
  apply Qcplus_le_compat; [exact H | apply Qcle_refl].
Qed.

Lemma group_box_surrounds M B grp m pm :
  In m (group_members M grp) -> JsMap.get B (id m) = Some pm ->
  exists box, group_box M B grp = Some box /\ surrounds box pm.
Proof.
  intros Hin Hpm. unfold group_box. cbv zeta.
  destruct (member_bounds_covers B (group_members M grp) m pm Hin Hpm)
    as [minX [minY [maxX [maxY [-> [H1 [H2 [H3 H4]]]]]]]].
  cbn [b_minX b_minY b_maxX b_maxY]. eexists. split; [reflexivity |].
  unfold surrounds. cbn [x y width height]. eexists. eexists.
  split; [reflexivity |]. split; [reflexivity |].
  unfold BOX_PADDING_SIDE, BOX_PADDING_TOP, BOX_PADDING_BOTTOM.
  replace (zq 100 * zq 2)%Qc with (zq 100 + zq 100)%Qc
    by (apply Qc_is_canon; reflexivity).
  split; [apply pad_low; exact H1 |]. split; [apply pad_high_x; exact H3 |].
  split; [apply pad_low; exact H2 | apply pad_high_y; exact H4].
Qed.

Lemma functional_not_freeform ty : functionalTypes ty = true -> is_freeform ty = false.
Proof. destruct ty; simpl; intro H; try reflexivity; discriminate. Qed.

Lemma group_not_freeform ty : ty = group -> is_freeform ty = false.
Proof. intros ->. reflexivity. Qed.

(** A stored node that is not freeform, or that lies in no group, is not
    anchored. *)
Lemma not_anchored M0 C k n :
  JsMap.wf M0 -> ids_ok M0 -> JsMap.get M0 k = Some n ->
  is_freeform (type n) = false \/ ~ inside_some_group M0 C k ->
  ~ In k (JsMap.keys (capture_anchors M0 C)).
Proof.
  intros Hwf Hids Hk Hfree Hin. apply anchored_inside in Hin.
  destruct Hin as [Hinside [node [Hnode [Hid Hff]]]].
  destruct Hfree as [Hfree | Hfree]; [| exact (Hfree Hinside)].
  pose proof (in_values_get _ _ Hwf Hids Hnode) as Hg. rewrite Hid, Hk in Hg.
  injection Hg as ->. congruence.
Qed.

(** X15: on a chart whose nodes are stored under their own ids and whose
    children links are acyclic, [autoLayout] returns, and the geometry it
    gives to an executive, manager or employee carries the width and the
    height stored for the card before; where none was stored, or [0], the
    card gets the width 208, respectively the height 100. *)
Theorem autoLayout_keeps_card_sizes (b : bool) (s : State) :
  wf_state s -> ids_ok (nodes s) -> acyclic (nodes s) ->
  exists s',
    autoLayout b s = Returned s'
    /\ forall k n p,
         JsMap.get (nodes s) k = Some n -> functionalTypes (type n) = true ->
         JsMap.get (nodePositions s') k = Some p ->
         width p = Some (side (stored_width (nodePositions s) k) 208)
         /\ height p = Some (side (stored_height (nodePositions s) k) 100).
Proof.
  intros Hwf Hids Hac. pose proof Hwf as [Hn Hp].
  destruct (autoLayout_result b s Hwf Hids Hac) as [np [Hnp ->]].
  eexists. split; [reflexivity |]. intros k n p Hk Hf.
  cbn [nodePositions set_nodePositions].
  rewrite get_reattach_other
    by (apply (not_anchored _ _ k n Hn Hids Hk); left;
        apply functional_not_freeform; exact Hf).
  rewrite get_fit_groups by (try apply wf_map_values; try apply ids_ok_sorted; assumption).
  rewrite get_sorted, Hk. cbn [option_map].
  destruct (sort_node_children_keeps (nodes s) n) as [_ [Hty _]]. rewrite Hty.
  assert (Hng : NodeType_eqb (type n) group = false)
    by (destruct (type n); try reflexivity; discriminate).
  rewrite Hng, get_transfer by exact Hp. rewrite get_sorted, Hk. cbn [option_map].
  rewrite Hty, Hf. intro Hget.
  assert (Hnp' : JsMap.get np k = Some p) by (destruct (JsMap.get (nodePositions s) k); exact Hget).
  destruct (laid_out_roots _ _ _ Hnp k p Hnp') as [_ [Hw Hh]].
  unfold old_width in Hw. unfold old_height in Hh. rewrite side_num_or in Hw, Hh.
  split; assumption.
Qed.

Lemma autoLayout_keeps_card_sizes_witness :
  wf_state flattened_card /\ ids_ok (nodes flattened_card)
  /\ acyclic (nodes flattened_card)
  /\ stored_width (nodePositions flattened_card) "2-1" = Some (zq 0)
  /\ exists s' p,
       autoLayout true flattened_card = Returned s'
       /\ JsMap.get (nodePositions s') "2-1" = Some p
       /\ width p = Some (zq 208) /\ height p = Some (zq 100).
Proof.
  assert (Hwf : wf_state flattened_card)
    by (apply wf_stateb_sound; vm_compute; reflexivity).
  assert (Hids : ids_ok (nodes flattened_card))
    by (apply ids_okb_sound; vm_compute; reflexivity).
  assert (Hac : acyclic (nodes flattened_card))
    by (apply acyclicb_sound; vm_compute; reflexivity).
  split; [exact Hwf |]. split; [exact Hids |]. split; [exact Hac |].
  split; [vm_compute; reflexivity |].
  destruct (autoLayout_keeps_card_sizes true flattened_card Hwf Hids Hac) as [s' [E H]].
  destruct (JsMap.get (nodes flattened_card) "2-1") as [n |] eqn:En;
    [| vm_compute in En; discriminate].
  assert (Hf : functionalTypes (type n) = true).
  { apply (f_equal (option_map (fun n => functionalTypes (type n)))) in En.
    vm_compute in En. injection En as En. symmetry. exact En. }
  destruct (JsMap.get (nodePositions s') "2-1") as [p |] eqn:Ep.
  - exists s', p. split; [exact E |]. split; [exact Ep |].
    destruct (H "2-1" n p En Hf Ep) as [Hw Hh]. rewrite Hw, Hh.
    split; vm_compute; reflexivity.
  - exfalso.
    assert (K : JsMap.has (nodePositions (state_of (autoLayout true flattened_card))) "2-1"
                = true) by (vm_compute; reflexivity).
    rewrite E in K. cbn [state_of] in K. unfold JsMap.has in K. rewrite Ep in K.
    discriminate.
Defined.




Lemma get_sorted_inv M0 k n :
  JsMap.get (sortChildrenByDepartment M0) k = Some n ->
  exists n0, JsMap.get M0 k = Some n0 /\ type n0 = type n.
Proof.
  rewrite get_sorted. destruct (JsMap.get M0 k) as [n0 |]; [| discriminate].
  intro H. injection H as <-. exists n0. split; [reflexivity |].
  destruct (sort_node_children_keeps M0 n0) as [_ [Hty _]]. symmetry. exact Hty.
Qed.

(** X17: on a chart whose nodes are stored under their own ids and whose
    children links are acyclic, [autoLayout] returns, and afterwards the
    geometry of every group surrounds each of its member cards (the cards
    whose department is the name of the group) that has a geometry, with a
    margin of 100 at the sides and the top and of 140 below. *)
Theorem autoLayout_group_surrounds_members (b : bool) (s : State) :
  wf_state s -> ids_ok (nodes s) -> acyclic (nodes s) ->
  exists s',
    autoLayout b s = Returned s'
    /\ forall g gn m pm,
         JsMap.get (nodes s') g = Some gn -> type gn = group ->
         In m (group_members (nodes s') gn) ->
         JsMap.get (nodePositions s') (id m) = Some pm ->
         exists box, JsMap.get (nodePositions s') g = Some box /\ surrounds box pm.
Proof.
  intros Hwf Hids Hac. pose proof Hwf as [Hn Hp].
  destruct (autoLayout_result b s Hwf Hids Hac) as [np [Hnp ->]].
  eexists. split; [reflexivity |]. intros g gn m pm.
  cbn [nodes nodePositions set_nodes set_nodePositions].
  set (M := sortChildrenByDepartment (nodes s)).
  set (T := transfer_non_hierarchy M (nodePositions s) np).
  assert (HwfM : JsMap.wf M) by (apply wf_map_values; exact Hn).
  assert (HidsM : ids_ok M) by (apply ids_ok_sorted; exact Hids).
  intros Hg Hty Hm Hpm.
  pose proof Hm as Hm'. unfold group_members in Hm'. apply filter_In in Hm'.
  destruct Hm' as [HmM Hcond]. apply andb_prop in Hcond. destruct Hcond as [_ Hf].
  pose proof (in_values_get _ _ HwfM HidsM HmM) as HgetM.
  destruct (get_sorted_inv _ _ _ HgetM) as [m0 [Hm0 Hty0]].
  destruct (get_sorted_inv _ _ _ Hg) as [gn0 [Hgn0 Htyg]].
  assert (HT : JsMap.get T (id m) = Some pm).
  { rewrite get_reattach_other in Hpm
      by (apply (not_anchored _ _ _ m0 Hn Hids Hm0); left;
          apply functional_not_freeform; rewrite Hty0; exact Hf).
    rewrite (get_fit_groups M _ _ HwfM HidsM), HgetM in Hpm.
    assert (Hng : NodeType_eqb (type m) group = false)
      by (destruct (type m); try reflexivity; discriminate).
    rewrite Hng in Hpm. exact Hpm. }
  destruct (group_box_surrounds M T gn m pm Hm HT) as [box [Hbox Hs]].
  exists box. split; [| exact Hs].
  rewrite get_reattach_other
    by (apply (not_anchored _ _ _ gn0 Hn Hids Hgn0); left;
        apply group_not_freeform; rewrite Htyg; exact Hty).
  rewrite (get_fit_groups M _ _ HwfM HidsM), Hg, Hty. cbn [NodeType_eqb].
  fold T. rewrite Hbox. reflexivity.
Qed.

Lemma autoLayout_group_surrounds_members_witness :
  wf_state initial /\ ids_ok (nodes initial) /\ acyclic (nodes initial)
  /\ exists s',
       autoLayout true initial = Returned s'
       /\ forall g gn m pm,
            JsMap.get (nodes s') g = Some gn -> type gn = group ->
            In m (group_members (nodes s') gn) ->
            JsMap.get (nodePositions s') (id m) = Some pm ->
            exists box, JsMap.get (nodePositions s') g = Some box /\ surrounds box pm.
Proof.
  assert (Hwf : wf_state initial) by (apply wf_stateb_sound; vm_compute; reflexivity).
  assert (Hids : ids_ok (nodes initial)) by (apply ids_okb_sound; vm_compute; reflexivity).
  assert (Hac : acyclic (nodes initial)) by (apply acyclicb_sound; vm_compute; reflexivity).
  split; [exact Hwf |]. split; [exact Hids |]. split; [exact Hac |].
  exact (autoLayout_group_surrounds_members true initial Hwf Hids Hac).
Defined.

(** ** Adding a member *)



Lemma push_bounded_twice U a :
  exists r2, push_bounded (push_bounded U a) a = (r2 ++ [a]) ++ [a].
Proof.
  destruct (push_bounded_last U a) as [r1 E1]. unfold push_bounded at 1. rewrite E1.
  destruct r1 as [| b r1'].
  - exists []. reflexivity.
  - destruct (Nat.ltb maxHistorySize _); [exists r1' | exists (b :: r1')]; reflexivity.
Qed.

(** X19: [addMember] records two history entries, one of its own and one
    through [addNode]: on a chart with unique keys the first [undo] after it
    gives back the chart from before the member was added, and so does the
    second one. *)
Theorem addMember_two_undo_steps (newId : string) (s : State) :
  wf_state s ->
  stacks (addMember newId s) = stacks (saveHistory (saveHistory s))
  /\ content (undo (addMember newId s)) = content s
  /\ content (undo (undo (addMember newId s))) = content s.
Proof.
  intros [Hn Hp].
  pose proof (stacks_step (c_addMember newId) s) as Hst.
  change (stacks (addMember newId s) = stacks (saveHistory (saveHistory s))) in Hst.
  split; [exact Hst |].
  assert (Hu : undoStack (addMember newId s)
               = push_bounded (push_bounded (undoStack s) (current_snapshot s))
                              (current_snapshot s))
    by exact (f_equal fst Hst).
  destruct (push_bounded_twice (undoStack s) (current_snapshot s)) as [r2 E2].
  rewrite E2 in Hu.
  assert (Hsnap : forall t, content (applySnapshot t (current_snapshot s)) = content s).
  { intro t. unfold content, applySnapshot, current_snapshot.
    cbn [nodes nodePositions drawings clearSelection set_nodes set_nodePositions
         set_drawings set_selectedNodeIds set_selectedDrawingIds set_selectedEdgeId
         snap_nodes snap_positions snap_drawings].
    rewrite !of_entries_id by assumption. reflexivity. }
  assert (Hundo1 : exists t, undo (addMember newId s)
                             = applySnapshot t (current_snapshot s)
                             /\ undoStack t = r2 ++ [current_snapshot s]).
  { unfold undo. rewrite Hu, pop_app. eexists. split; [reflexivity | reflexivity]. }
  destruct Hundo1 as [t [Ht Hut]]. split.
  - rewrite Ht. apply Hsnap.
  - rewrite Ht. unfold undo at 1.
    assert (Hu2 : undoStack (applySnapshot t (current_snapshot s))
                  = r2 ++ [current_snapshot s]) by exact Hut.
    rewrite Hu2, pop_app. apply Hsnap.
Qed.

Lemma addMember_two_undo_steps_witness :
  wf_state initial
  /\ content (undo (addMember "m" initial)) = content initial
  /\ content (undo (undo (addMember "m" initial))) = content initial.
Proof.
  assert (Hwf : wf_state initial) by (apply wf_stateb_sound; vm_compute; reflexivity).
  split; [exact Hwf |].
  exact (proj2 (addMember_two_undo_steps "m" initial Hwf)).
Defined.

(** ** The descendant search *)

(** X20: on an acyclic node map the search of [isDescendant] returns, and it
    answers [true] exactly when a chain of one or more children links leads
    from the root id to the searched id; on any node map, an answer it gives
    is right. *)
Theorem isDescendant_decides_paths (m : NodeMap) (r x : string) :
  acyclic m ->
  (exists b, isDescendant (depth_bound m) m r x = Some b /\ (b = true <-> descends m r x))
  /\ (forall m' fuel b, isDescendant fuel m' r x = Some b ->
                        (b = true <-> descends m' r x)).
Proof.
  intro Hac.
  assert (Hsound : forall m' fuel b, isDescendant fuel m' r x = Some b ->
                                     (b = true <-> descends m' r x)).
  { intros m' fuel [|] H.
    - split; [intros _; apply (isDescendant_true_sound _ _ _ _ H) | reflexivity].
    - split; [discriminate |]. intro P.
      exfalso. exact (isDescendant_false_sound _ _ _ _ H P). }
  split; [| exact Hsound].
  destruct (isDescendant (depth_bound m) m r x) as [b |] eqn:E.
  - exists b. split; [reflexivity | apply (Hsound m _ b E)].
  - exfalso. exact (isDescendant_total m r x Hac E).
Qed.

Lemma isDescendant_decides_paths_witness :
  acyclic (nodes initial)
  /\ isDescendant (depth_bound (nodes initial)) (nodes initial) "1" "3-2" = Some true
  /\ descends (nodes initial) "1" "3-2".
Proof.
  assert (Hac : acyclic (nodes initial)) by (apply acyclicb_sound; vm_compute; reflexivity).
  split; [exact Hac |].
  assert (E : isDescendant (depth_bound (nodes initial)) (nodes initial) "1" "3-2"
              = Some true) by (vm_compute; reflexivity).
  split; [exact E |].
  destruct (isDescendant_decides_paths (nodes initial) "1" "3-2" Hac) as [_ H].
  apply (H _ _ true E). reflexivity.
Defined.

(** ** Overlap *)






(** ** Sorting the children *)

Lemma count_insert_by le a l c :
  count_occ string_dec (insert_by le a l) c = count_occ string_dec (a :: l) c.
Proof.
  induction l as [| b r IH]; [reflexivity |]. cbn [insert_by].
  destruct (le a b); [reflexivity |]. cbn [count_occ] in *.
  destruct (string_dec b c); destruct (string_dec a c); rewrite IH; reflexivity.
Qed.

Lemma count_stable_sort le l c :
  count_occ string_dec (stable_sort le l) c = count_occ string_dec l c.
Proof.
  induction l as [| a r IH]; [reflexivity |]. unfold stable_sort in *.
  cbn [fold_right]. rewrite count_insert_by. cbn [count_occ]. rewrite IH. reflexivity.
Qed.

(** X22: [sortChildrenByDepartment] keeps every node under its key and
    changes nothing but the order of the children lists: each list holds the
    same ids as before, each as often as before; and where the departments
    of the children are ASCII text the list is in non-decreasing order of
    the department of the child (a child that is not stored, or has no
    department, counts as the empty string). *)
Theorem sortChildrenByDepartment_permutes (m : NodeMap) (k : string) (n : ChartNode) :
  JsMap.get m k = Some n ->
  exists n',
    JsMap.get (sortChildrenByDepartment m) k = Some n'
    /\ (forall c, count_occ string_dec (children_of n') c
                  = count_occ string_dec (children_of n) c)
    /\ ((forall c, In c (children_of n) -> ascii_only (dept_of m c) = true) ->
        sortedb (dept_le m) (children_of n') = true)
    /\ id n' = id n /\ type n' = type n /\ name n' = name n
    /\ department n' = department n.
Proof.
  intro Hk. rewrite get_sorted, Hk. cbn [option_map]. eexists. split; [reflexivity |].
  split; [| split; [| apply sort_node_children_keeps]].
  - intro c. unfold sort_node_children.
    destruct (children n) as [[| c1 [| c2 cs]] |] eqn:E; try reflexivity.
    rewrite children_of_with_children. unfold children_of. rewrite E.
    apply count_stable_sort.
  - intros _. unfold sort_node_children.
    destruct (children n) as [[| c1 [| c2 cs]] |] eqn:E;
      try (unfold children_of; rewrite E; reflexivity).
    rewrite children_of_with_children. apply sortedb_stable_sort. apply dept_le_total.
Qed.

Lemma sortChildrenByDepartment_permutes_witness :
  exists n n',
    JsMap.get (nodes shuffled_reports) "1" = Some n
    /\ children_of n = ["3"; "2"]
    /\ JsMap.get (sortChildrenByDepartment (nodes shuffled_reports)) "1" = Some n'
    /\ children_of n' = ["2"; "3"]
    /\ sortedb (dept_le (nodes shuffled_reports)) (children_of n') = true.
Proof.
  destruct (JsMap.get (nodes shuffled_reports) "1") as [n |] eqn:Hn;
    [| vm_compute in Hn; discriminate].
  assert (Hc : children_of n = ["3"; "2"]).
  { apply (f_equal (option_map children_of)) in Hn. vm_compute in Hn.
    injection Hn as Hn. symmetry. exact Hn. }
  destruct (sortChildrenByDepartment_permutes (nodes shuffled_reports) "1" n Hn)
    as [n' [H1 [_ [H2 _]]]].
  assert (Hc' : children_of n' = ["2"; "3"]).
  { apply (f_equal (option_map children_of)) in H1. vm_compute in H1.
    injection H1 as H1. symmetry. exact H1. }
  exists n, n'. split; [reflexivity |]. split; [exact Hc |]. split; [exact H1 |].
  split; [exact Hc' |]. apply H2. intros c Hin. rewrite Hc in Hin.
  destruct Hin as [<- | [<- | []]]; vm_compute; reflexivity.
Defined.

(** ** Copying *)

Lemma clipboard_ids_of_nodes (s : State) (sel : list string) :
  ids_ok (nodes s) ->
  clipboard_node_ids
    (flat_map
       (fun i =>
          match JsMap.get (nodes s) i, JsMap.get (nodePositions s) i with
          | Some node, Some pos =>
              [{| c_data := clip_node node; c_x := x pos; c_y := y pos;
                  c_width := num_or (width pos) (zq 208);
                  c_height := num_or (height pos) (zq 100) |}]
          | _, _ => []
          end) sel)
  = filter (fun i => JsMap.has (nodes s) i && JsMap.has (nodePositions s) i) sel.
Proof.
  intro Hids. unfold clipboard_node_ids, JsMap.has.
  induction sel as [| i r IH]; [reflexivity |].
  cbn [flat_map filter]. rewrite flat_map_app, IH.
  destruct (JsMap.get (nodes s) i) as [node |] eqn:E; [| reflexivity].
  destruct (JsMap.get (nodePositions s) i); [| reflexivity].
  cbn [flat_map c_data app andb]. rewrite (ids_ok_get _ _ _ Hids E). reflexivity.
Qed.

Lemma clipboard_ids_of_drawings (s : State) (sel : list string) :
  clipboard_node_ids
    (flat_map
       (fun i =>
          match find (fun d => d_id d =? i) (drawings s) with
          | Some drawing =>
              let bounds := getDrawingBounds (path drawing) in
              [{| c_data := clip_drawing drawing; c_x := rx bounds; c_y := ry bounds;
                  c_width := rw bounds; c_height := rh bounds |}]
          | None => []
          end) sel)
  = [].
Proof.
  unfold clipboard_node_ids. induction sel as [| i r IH]; [reflexivity |].
  cbn [flat_map]. rewrite flat_map_app, IH.
  destruct (find _ (drawings s)); reflexivity.
Qed.

(** X23: on a chart whose nodes are stored under their own ids,
    [copySelection] never changes nodes, geometries, drawings, the
    selection or the history; with nothing selected it keeps the old
    clipboard; otherwise the nodes on the new clipboard are the selected ids
    that are stored and have a geometry, in selection order, so a selected
    id without a node or without a geometry is skipped and no node is
    copied twice. *)
Theorem copySelection_clipboard (s : State) :
  ids_ok (nodes s) ->
  content (copySelection s) = content s
  /\ stacks (copySelection s) = stacks s
  /\ selectedNodeIds (copySelection s) = selectedNodeIds s
  /\ selectedDrawingIds (copySelection s) = selectedDrawingIds s
  /\ (selectionCount s = 0 -> copySelection s = s)
  /\ (selectionCount s <> 0 ->
      clipboard_node_ids (clipboard (copySelection s))
      = filter (fun i => JsMap.has (nodes s) i && JsMap.has (nodePositions s) i)
               (selectedNodeIds s))
  /\ (selectionCount s <> 0 -> NoDup (selectedNodeIds s) ->
      NoDup (clipboard_node_ids (clipboard (copySelection s)))).
Proof.
  intro Hids.
  assert (Hcond : selectionCount s = 0 <->
                  Nat.eqb (JsSet.size (selectedNodeIds s)) 0
                  && Nat.eqb (JsSet.size (selectedDrawingIds s)) 0 = true).
  { unfold selectionCount. rewrite Bool.andb_true_iff, !Nat.eqb_eq. lia. }
  assert (Hids_clip : selectionCount s <> 0 ->
            clipboard_node_ids (clipboard (copySelection s))
            = filter (fun i => JsMap.has (nodes s) i && JsMap.has (nodePositions s) i)
                     (selectedNodeIds s)).
  { intro Hne. unfold copySelection.
    destruct (Nat.eqb (JsSet.size (selectedNodeIds s)) 0
              && Nat.eqb (JsSet.size (selectedDrawingIds s)) 0) eqn:E;
      [exfalso; apply Hne; apply Hcond; reflexivity |].
    cbv zeta. cbn [clipboard set_clipboard].
    unfold clipboard_node_ids at 1. rewrite flat_map_app.
    fold (clipboard_node_ids
            (flat_map
               (fun i =>
                  match JsMap.get (nodes s) i, JsMap.get (nodePositions s) i with
                  | Some node, Some pos =>
                      [{| c_data := clip_node node; c_x := x pos; c_y := y pos;
                          c_width := num_or (width pos) (zq 208);
                          c_height := num_or (height pos) (zq 100) |}]
                  | _, _ => []
                  end) (selectedNodeIds s))).
    rewrite (clipboard_ids_of_nodes s _ Hids).
    pose proof (clipboard_ids_of_drawings s (selectedDrawingIds s)) as Hd.
    unfold clipboard_node_ids in Hd. rewrite Hd. apply app_nil_r. }
  split; [| split; [| split; [| split; [| split; [| split]]]]].
  - unfold copySelection. destruct (_ && _); reflexivity.
  - unfold copySelection. destruct (_ && _); reflexivity.
  - unfold copySelection. destruct (_ && _); reflexivity.
  - unfold copySelection. destruct (_ && _); reflexivity.
  - intro H0. apply Hcond in H0. unfold copySelection. rewrite H0. reflexivity.
  - exact Hids_clip.
  - intros Hne Hnd. rewrite (Hids_clip Hne). apply NoDup_filter. exact Hnd.
Qed.

Lemma copySelection_clipboard_witness :
  ids_ok (nodes sample_selection) /\ selectionCount sample_selection <> 0
  /\ clipboard_node_ids (clipboard (copySelection sample_selection)) = ["2"].
Proof.
  assert (Hids : ids_ok (nodes sample_selection))
    by (apply ids_okb_sound; vm_compute; reflexivity).
  assert (Hne : selectionCount sample_selection <> 0) by (vm_compute; discriminate).
  split; [exact Hids |]. split; [exact Hne |].
  destruct (copySelection_clipboard sample_selection Hids) as [_ [_ [_ [_ [_ [H _]]]]]].
  rewrite (H Hne). vm_compute. reflexivity.
Defined.

(** ** Drawings *)

Lemma filter_all {A} (f : A -> bool) (l : list A) :
  (forall a, In a l -> f a = true) -> filter f l = l.
Proof.
  induction l as [| a r IH]; intro H; [reflexivity |]. cbn [filter].
  rewrite (H a (or_introl eq_refl)), IH; [reflexivity |].
  intros b Hb. apply H. right. exact Hb.
Qed.

(** X24: [deleteDrawing i] removes every drawing with the id [i] and no
    other, takes [i] out of the selected drawings, and records a history
    entry even when no drawing has that id; deleting a drawing right after
    adding it under an unused id gives back the drawings from before. *)
Theorem deleteDrawing_effect (i : string) (d : Drawing) (s : State) :
  drawings (deleteDrawing i s) = filter (fun d0 => negb (d_id d0 =? i)) (drawings s)
  /\ (forall x, JsSet.has (selectedDrawingIds (deleteDrawing i s)) x
                = JsSet.has (selectedDrawingIds s) x && negb (x =? i))
  /\ stacks (deleteDrawing i s) = stacks (saveHistory s)
  /\ nodes (deleteDrawing i s) = nodes s
  /\ nodePositions (deleteDrawing i s) = nodePositions s
  /\ ((forall d0, In d0 (drawings s) -> d_id d0 <> i) ->
      drawings (deleteDrawing i s) = drawings s)
  /\ ((forall d0, In d0 (drawings s) -> d_id d0 <> d_id d) ->
      drawings (deleteDrawing (d_id d) (addDrawing d s)) = drawings s).
Proof.
  split; [reflexivity |]. split; [intro x; apply set_has_delete |].
  split; [reflexivity |]. split; [reflexivity |]. split; [reflexivity |]. split.
  - intro H. cbn [deleteDrawing drawings set_drawings set_selectedDrawingIds saveHistory
                  set_undoStack set_redoStack].
    apply filter_all. intros d0 Hd0. apply Bool.negb_true_iff, String.eqb_neq.
    apply H. exact Hd0.
  - intro H. cbn [deleteDrawing addDrawing drawings set_drawings set_selectedDrawingIds
                  saveHistory set_undoStack set_redoStack].
    rewrite filter_app. cbn [filter]. rewrite String.eqb_refl. cbn [negb].
    rewrite app_nil_r. apply filter_all. intros d0 Hd0.
    apply Bool.negb_true_iff, String.eqb_neq. apply H. exact Hd0.
Qed.

(** ** Patching the selected nodes *)





(** ** Where a paste lands *)

Lemma clip_min_spec (f : ClipboardItem -> num) (others : list ClipboardItem) :
  forall m0,
    let r := fold_left (fun m item => if num_ltb (f item) m then f item else m) others m0 in
    (r <= m0)%Qc /\ (forall item, In item others -> (r <= f item)%Qc)
    /\ (r = m0 \/ exists item, In item others /\ f item = r).
Proof.
  induction others as [| a r IH]; intro m0; cbn [fold_left].
  - split; [apply Qcle_refl |]. split; [intros item [] | left; reflexivity].
  - cbv zeta in IH. destruct (num_ltb (f a) m0) eqn:E.
    + apply num_ltb_true in E. destruct (IH (f a)) as [H1 [H2 H3]].
      split; [exact (Qcle_trans _ _ _ H1 (Qclt_le_weak _ _ E)) |]. split.
      * intros item [<- | Hin]; [exact H1 | apply H2; exact Hin].
      * right. destruct H3 as [H3 | [item [Hin H3]]].
        -- exists a. split; [left; reflexivity | symmetry; exact H3].
        -- exists item. split; [right; exact Hin | exact H3].
    + apply num_ltb_false in E. destruct (IH m0) as [H1 [H2 H3]].
      split; [exact H1 |]. split.
      * intros item [<- | Hin]; [exact (Qcle_trans _ _ _ H1 E) | apply H2; exact Hin].
      * destruct H3 as [H3 | [item [Hin H3]]]; [left; exact H3 |].
        right. exists item. split; [right; exact Hin | exact H3].
Qed.

Lemma paste_item_placed minX minY tx ty acc d :
  map (fun it => (id (fst it), snd it)) (newItems (paste_item minX minY tx ty acc d))
  = map (fun it => (id (fst it), snd it)) (newItems acc) ++ placed minX minY tx ty d.
Proof.
  unfold paste_item, placed. destruct d as [nid item]. cbn [fst snd].
  destruct (c_data item) as [n | dr]; cbn [newItems].
  - rewrite map_app. reflexivity.
  - rewrite app_nil_r. reflexivity.
Qed.

Lemma paste_items_placed minX minY tx ty drawn acc :
  map (fun it => (id (fst it), snd it))
      (newItems (fold_left (paste_item minX minY tx ty) drawn acc))
  = map (fun it => (id (fst it), snd it)) (newItems acc)
    ++ flat_map (placed minX minY tx ty) drawn.
Proof.
  revert acc. induction drawn as [| d r IH]; intro acc; cbn [fold_left flat_map].
  - rewrite app_nil_r. reflexivity.
  - rewrite IH, paste_item_placed, app_assoc. reflexivity.
Qed.

Lemma map_fst_placed minX minY tx ty drawn :
  map fst (flat_map (placed minX minY tx ty) drawn) = map fst (flat_map pasted_node drawn).
Proof.
  induction drawn as [| [nid item] r IH]; [reflexivity |].
  cbn [flat_map]. rewrite !map_app, IH. unfold placed, pasted_node. cbn [fst snd].
  destruct (c_data item); reflexivity.
Qed.

Lemma in_drawn_ids gen (clip : list ClipboardItem) i item :
  nth_error clip i = Some item -> In (gen i, item) (drawn_ids gen clip).
Proof.
  unfold drawn_ids.
  assert (H : forall start i,
             nth_error clip i = Some item ->
             In (gen (start + i), item)
                (combine (map gen (seq start (length clip))) clip)).
  { induction clip as [| a r IH]; intros start j Hj; [destruct j; discriminate |].
    cbn [length seq map combine]. destruct j as [| j].
    - injection Hj as ->. left. rewrite Nat.add_0_r. reflexivity.
    - right. rewrite <- Nat.add_succ_comm. apply IH. exact Hj. }
  apply (H 0 i).
Qed.

Lemma nodePositions_fold_membership (items : list (ChartNode * NodePosition)) s :
  nodePositions (fold_left (fun st it => if NodeType_eqb (type (fst it)) group
                                         then updateGroupMembership (id (fst it)) st
                                         else st) items s)
  = nodePositions s.
Proof.
  revert s. induction items as [| it r IH]; intro s; cbn [fold_left]; [reflexivity |].
  rewrite IH. destruct (NodeType_eqb (type (fst it)) group); [| reflexivity].
  unfold updateGroupMembership.
  destruct (JsMap.get (nodes s) (id (fst it))); [| reflexivity].
  destruct (JsMap.get (nodePositions s) (id (fst it))); [| reflexivity].
  destruct (negb _); reflexivity.
Qed.

Lemma nodePositions_pasteNodes gen tx ty first others s :
  clipboard s = first :: others ->
  nodePositions (pasteNodes gen tx ty s)
  = fold_left (fun newMap it => JsMap.set newMap (id (fst it)) (snd it))
      (map (fun it => (remap_children
                         (idMap (fold_left
                                   (paste_item (clip_min c_x first others)
                                               (clip_min c_y first others) tx ty)
                                   (drawn_ids gen (clipboard s))
                                   (mkPasteAcc JsMap.empty [] [])))
                         (fst it), snd it))
           (newItems (fold_left
                        (paste_item (clip_min c_x first others)
                                    (clip_min c_y first others) tx ty)
                        (drawn_ids gen (clipboard s))
                        (mkPasteAcc JsMap.empty [] []))))
      (nodePositions s).
Proof.
  intro Hclip. unfold pasteNodes, drawn_ids, clip_min. rewrite Hclip. cbv zeta.
  rewrite nodePositions_fold_membership.
  match goal with
  | |- context [if Nat.ltb 0 (length ?its) then _ else _] =>
      destruct (Nat.ltb 0 (length its)) eqn:E1
  end;
  match goal with
  | |- context [if Nat.ltb 0 (length ?ds) then _ else _] =>
      destruct (Nat.ltb 0 (length ds)) eqn:E2
  end;
    repeat match goal with
           | H : Nat.ltb 0 (length _) = false |- _ =>
               apply ltb_length_nil in H; rewrite ?H
           end;
    reflexivity.
Qed.

(** X26: [pasteNodes] puts the copies where the clipboard says: with
    distinct drawn ids, the copy of a clipboard node gets the width and
    height recorded on the clipboard and lies as far right of [targetX], and
    as far below [targetY], as the original lay from the leftmost and from
    the topmost clipboard item; geometries under other ids are untouched. *)
Theorem pasteNodes_places_block (gen : nat -> string) (tx ty : num)
    (first : ClipboardItem) (others : list ClipboardItem) (s : State) :
  clipboard s = first :: others ->
  NoDup (map gen (seq 0 (length (clipboard s)))) ->
  (forall item, In item (clipboard s) ->
                (clip_min c_x first others <= c_x item)%Qc
                /\ (clip_min c_y first others <= c_y item)%Qc)
  /\ (exists item, In item (clipboard s) /\ c_x item = clip_min c_x first others)
  /\ (exists item, In item (clipboard s) /\ c_y item = clip_min c_y first others)
  /\ (forall i item n,
         nth_error (clipboard s) i = Some item -> c_data item = clip_node n ->
         JsMap.get (nodePositions (pasteNodes gen tx ty s)) (gen i)
         = Some (pasted_geometry (clip_min c_x first others)
                                 (clip_min c_y first others) tx ty item))
  /\ (forall k, ~ In k (map gen (seq 0 (length (clipboard s)))) ->
                JsMap.get (nodePositions (pasteNodes gen tx ty s)) k
                = JsMap.get (nodePositions s) k).
Proof.
  intros Hclip Hnd.
  assert (Hmin : forall f,
             (forall item, In item (first :: others) ->
                           (clip_min f first others <= f item)%Qc)
             /\ exists item, In item (first :: others) /\ f item = clip_min f first others).
  { intro f. destruct (clip_min_spec f others (f first)) as [H1 [H2 H3]].
    cbv zeta in H1, H2, H3. fold (clip_min f first others) in H1, H2, H3. split.
    - intros item [<- | Hin]; [exact H1 | apply H2; exact Hin].
    - destruct H3 as [H3 | [item [Hin H3]]].
      + exists first. split; [left; reflexivity | symmetry; exact H3].
      + exists item. split; [right; exact Hin | exact H3]. }
  rewrite (nodePositions_pasteNodes gen tx ty first others s Hclip).
  set (minX := clip_min c_x first others). set (minY := clip_min c_y first others).
  set (acc := fold_left (paste_item minX minY tx ty) (drawn_ids gen (clipboard s))
                        (mkPasteAcc JsMap.empty [] [])).
  set (items := map (fun it => (remap_children (idMap acc) (fst it), snd it))
                    (newItems acc)).
  assert (Hitems : map (fun it => (id (fst it), snd it)) items
                   = flat_map (placed minX minY tx ty) (drawn_ids gen (clipboard s))).
  { unfold items. rewrite map_map. cbn [fst snd].
    rewrite (map_ext _ (fun it => (id (fst it), snd it)))
      by (intro it; rewrite id_remap; reflexivity).
    unfold acc. rewrite paste_items_placed. reflexivity. }
  assert (Hkeys : map (fun it => id (fst it)) items
                  = map fst (flat_map pasted_node (drawn_ids gen (clipboard s)))).
  { rewrite <- map_fst_placed with (minX := minX) (minY := minY) (tx := tx) (ty := ty).
    rewrite <- Hitems, map_map. reflexivity. }
  assert (Hndk : NoDup (map (fun it => id (fst it)) items)).
  { rewrite Hkeys. apply nodup_pasted_fst. rewrite map_fst_drawn. exact Hnd. }
  rewrite Hclip in *.
  split; [| split; [| split; [| split]]].
  - intros item Hin. split; [apply (Hmin c_x) | apply (Hmin c_y)]; exact Hin.
  - apply (Hmin c_x).
  - apply (Hmin c_y).
  - intros i item n Hnth Hdata.
    rewrite (get_fold_set (fun it => id (fst it)) snd items _ _ Hndk).
    assert (Hin : In (gen i, pasted_geometry minX minY tx ty item)
                     (map (fun it => (id (fst it), snd it)) items)).
    { rewrite Hitems. apply in_flat_map. exists (gen i, item).
      split; [apply in_drawn_ids; exact Hnth |].
      unfold placed. cbn [fst snd]. rewrite Hdata. left. reflexivity. }
    apply in_map_iff in Hin. destruct Hin as [it [Heq Hit]].
    injection Heq as Hid Hsnd. rewrite <- Hid.
    rewrite (find_key_unique (fun it => id (fst it)) items it Hndk Hit).
    rewrite Hsnd. reflexivity.
  - intros k Hk.
    rewrite (get_fold_set (fun it => id (fst it)) snd items _ _ Hndk).
    destruct (find (fun a => id (fst a) =? k) items) as [it |] eqn:E; [| reflexivity].
    exfalso. apply Hk. apply find_some in E. destruct E as [Hit Hid].
    apply String.eqb_eq in Hid. rewrite <- (map_fst_drawn gen (first :: others)).
    apply in_pasted_fst. rewrite <- Hkeys, <- Hid.
    apply (in_map (fun it => id (fst it))). exact Hit.
Qed.

Lemma pasteNodes_places_block_witness :
  exists first others,
    clipboard copied_manager = first :: others
    /\ NoDup (map sample_ids (seq 0 (length (clipboard copied_manager))))
    /\ exists item, In item (clipboard copied_manager)
                    /\ c_x item = clip_min c_x first others.
Proof.
  assert (Hc : exists first others, clipboard copied_manager = first :: others)
    by (vm_compute; eexists; eexists; reflexivity).
  assert (Hnd : NoDup (map sample_ids (seq 0 (length (clipboard copied_manager)))))
    by (apply nodupb_sound; vm_compute; reflexivity).
  destruct Hc as [first [others Hc]]. exists first, others.
  split; [exact Hc |]. split; [exact Hnd |].
  exact (proj1 (proj2 (pasteNodes_places_block sample_ids (zq 0) (zq 0) first others
                         copied_manager Hc Hnd))).
Defined.

(** ** Acyclic links along the operations *)

Lemma acyclic_sub (M M' : NodeMap) :
  (forall p c, edge M' p c -> edge M p c) -> acyclic M -> acyclic M'.
Proof.
  intros Hsub Hac k P. apply (Hac k). clear Hac.
  assert (H : forall a b, descends M' a b -> descends M a b).
  { intros a b Q. induction Q as [u v E | u v w E Q IH].
    - apply desc_edge. apply Hsub. exact E.
    - apply (desc_step M u v w); [apply Hsub; exact E | exact IH]. }
  apply H. exact P.
Qed.

Lemma links_ok_same (M M' : NodeMap) :
  JsMap.wf M' -> same_links M M' -> links_ok M -> links_ok M'.
Proof.
  intros Hwf Hsame [Hids Hac]. split.
  - intros k n Hin. pose proof (In_get _ _ _ Hwf Hin) as Hg.
    pose proof (Hsame k) as Hk. rewrite Hg in Hk. cbn [option_map] in Hk.
    destruct (JsMap.get M k) as [n0 |] eqn:E; [| discriminate].
    cbn [option_map] in Hk. injection Hk as Hid _. rewrite Hid.
    apply (ids_ok_get _ _ _ Hids E).
  - apply (acyclic_sub M); [| exact Hac]. intros p c [n [Hg Hin]].
    pose proof (Hsame p) as Hp. rewrite Hg in Hp. cbn [option_map] in Hp.
    destruct (JsMap.get M p) as [n0 |] eqn:E; [| discriminate].
    cbn [option_map] in Hp. injection Hp as _ Hch. exists n0. split; [exact E |].
    unfold children_of in *. rewrite <- Hch. exact Hin.
Qed.

Lemma same_links_set (m : NodeMap) k n n' :
  JsMap.get m k = Some n -> id n' = id n -> children n' = children n ->
  same_links m (JsMap.set m k n').
Proof.
  intros Hg Hid Hch k'. rewrite get_set. destruct (k =? k') eqn:E; [| reflexivity].
  apply String.eqb_eq in E. subst k'. rewrite Hg. cbn [option_map].
  rewrite Hid, Hch. reflexivity.
Qed.

Lemma links_ok_empty : links_ok (@JsMap.empty ChartNode).
Proof.
  split; [intros k n [] |]. intros k P. apply descends_first in P.
  destruct P as [n [b [H _]]]. discriminate.
Qed.

Lemma links_ok_unlinkEdge a b s :
  links_ok (nodes s) -> links_ok (nodes (unlinkEdge a b s)).
Proof.
  intros [Hids Hac]. split.
  - unfold unlinkEdge. cbn [nodes set_nodes].
    destruct (JsMap.get (nodes s) a) as [node |] eqn:E; [| exact Hids].
    destruct (children node); [| exact Hids].
    apply ids_ok_set; [exact Hids | apply (ids_ok_get _ _ _ Hids E)].
  - apply (acyclic_sub (nodes s)); [| exact Hac].
    intros p c H. apply edge_unlinkEdge in H. tauto.
Qed.

Lemma links_ok_updateGroupMembership g s :
  JsMap.wf (nodes s) -> links_ok (nodes s) -> links_ok (nodes (updateGroupMembership g s)).
Proof.
  intros Hwf Hl. destruct (updateGroupMembership_pointwise g s Hwf (proj1 Hl))
    as [f [Hf ->]].
  cbn [nodes set_nodes]. apply (links_ok_same (nodes s)); [| | exact Hl].
  - apply wf_map_values. exact Hwf.
  - apply same_links_map_values. exact Hf.
Qed.

Lemma links_ok_updateNodeMembership i s :
  JsMap.wf (nodes s) -> links_ok (nodes s) -> links_ok (nodes (updateNodeMembership i s)).
Proof.
  intros Hwf Hl. unfold updateNodeMembership.
  destruct (JsMap.get (nodes s) i) as [node |] eqn:E; [| exact Hl].
  destruct (JsMap.get (nodePositions s) i); [| exact Hl].
  destruct (negb (functionalTypes (type node))); [exact Hl |].
  cbn [nodes set_nodes].
  assert (Hset : forall d, links_ok (JsMap.set (nodes s) i (with_department node d))).
  { intro d. apply (links_ok_same (nodes s)); [apply wf_set; exact Hwf | | exact Hl].
    apply (same_links_set _ _ node); [exact E | reflexivity | reflexivity]. }
  destruct (fst _) as [g |].
  - destruct (department_is node (name g)); [exact Hl | apply Hset].
  - destruct (str_truthy _); [apply Hset | exact Hl].
Qed.

Lemma same_links_updateNode_step p m i :
  p_id p = None -> p_children p = None -> JsMap.wf m -> ids_ok m ->
  same_links m (updateNode_step p m i).
Proof.
  intros Hid Hch Hwf Hids. unfold updateNode_step.
  destruct (JsMap.get m i) as [node |] eqn:E; [| apply same_links_refl].
  assert (Hspread : id (spread node p) = id node
                    /\ children (spread node p) = children node).
  { unfold spread. cbn [id children]. rewrite Hid, Hch. split; reflexivity. }
  destruct (p_name p) as [nn |];
    [| apply (same_links_set _ _ node); [exact E | apply Hspread | apply Hspread]].
  destruct (NodeType_eqb (type node) group && str_truthy nn && negb (name node =? nn));
    [| apply (same_links_set _ _ node); [exact E | apply Hspread | apply Hspread]].
  rewrite (propagate_rename_pointwise _ _ _ Hwf Hids).
  eapply same_links_trans.
  - apply (same_links_map_values (rename_department (name node) nn)).
    intro n. unfold rename_department. destruct (department_is n (name node)); auto.
  - apply (same_links_set _ _ (rename_department (name node) nn node)).
    + rewrite get_map_values, E. reflexivity.
    + destruct Hspread as [-> _]. unfold rename_department.
      destruct (department_is node (name node)); reflexivity.
    + destruct Hspread as [_ ->]. unfold rename_department.
      destruct (department_is node (name node)); reflexivity.
Qed.

Lemma links_ok_updateNode p s :
  p_id p = None -> p_children p = None ->
  JsMap.wf (nodes s) -> links_ok (nodes s) -> links_ok (nodes (updateNode p s)).
Proof.
  intros Hid Hch Hwf Hl. unfold updateNode.
  destruct (Nat.eqb (JsSet.size (selectedNodeIds s)) 0); [exact Hl |].
  cbn [nodes set_nodes]. generalize (selectedNodeIds s) as sel.
  revert Hwf Hl. generalize (nodes s) as m.
  intros m Hwf Hl sel. revert m Hwf Hl.
  induction sel as [| i r IH]; intros m Hwf Hl; cbn [fold_left]; [exact Hl |].
  apply IH; [apply wf_updateNode_step; exact Hwf |].
  apply (links_ok_same m); [apply wf_updateNode_step; exact Hwf | | exact Hl].
  apply same_links_updateNode_step; auto. exact (proj1 Hl).
Qed.

Lemma links_ok_deleteSelection s :
  wf_state s -> links_ok (nodes s) -> links_ok (nodes (deleteSelection s)).
Proof.
  intros [Hn Hp] [Hids Hac]. destruct (nodes_deleteSelection s) as [-> _].
  split.
  - generalize (selectedNodeIds s) as sel. revert Hn Hids. generalize (nodes s) as m.
    intros m Hn Hids sel. revert m Hn Hids.
    induction sel as [| a r IH]; intros m Hn Hids; cbn [fold_left]; [exact Hids |].
    rewrite (removeFromParent_pointwise m a Hn Hids). apply IH.
    + apply wf_delete. apply wf_map_values. exact Hn.
    + apply ids_ok_delete. apply ids_ok_map_values; [apply id_strip_child | exact Hids].
  - apply (acyclic_sub (nodes s)); [| exact Hac]. intros p c H.
    apply (delete_fold_effect (selectedNodeIds s) (nodes s) Hn Hids) in H. tauto.
Qed.

Lemma links_ok_addNode newId ty nx ny options dims s :
  p_children options = None ->
  JsMap.wf (nodes s) -> links_ok (nodes s) ->
  links_ok (nodes (addNode newId ty nx ny options dims s))
  /\ (NodeType_eqb ty group = false ->
      exists n, JsMap.get (nodes (addNode newId ty nx ny options dims s))
                          (over newId (p_id options)) = Some n
                /\ children_of n = []).
Proof.
  intros Hch Hwf [Hids Hac]. unfold addNode. cbv zeta.
  match goal with
  | |- links_ok (nodes (if _ then updateGroupMembership ?i ?st else ?st')) /\ _ =>
      assert (Hst : JsMap.wf (nodes st) /\ links_ok (nodes st)
                    /\ exists n, JsMap.get (nodes st) (over newId (p_id options)) = Some n
                                 /\ children_of n = [])
  end.
  { cbn [nodes set_nodes set_nodePositions saveHistory set_undoStack set_redoStack].
    match goal with
    | |- JsMap.wf (JsMap.set _ _ ?n) /\ _ => set (newNode := n)
    end.
    assert (Hkey : id newNode = over newId (p_id options)) by reflexivity.
    assert (Hnil : children_of newNode = []).
    { unfold children_of, newNode, spread. cbn [children]. rewrite Hch. reflexivity. }
    split; [apply wf_set; exact Hwf |]. split; [split |].
    - apply ids_ok_set; [exact Hids | reflexivity].
    - apply (acyclic_sub (nodes s)); [| exact Hac]. intros p c [n [Hg Hin]].
      rewrite get_set in Hg. destruct (id newNode =? p) eqn:E.
      + injection Hg as <-. rewrite Hnil in Hin. contradiction.
      + exists n. auto.
    - exists newNode. rewrite <- Hkey. split; [apply get_set_same | exact Hnil]. }
  destruct Hst as [Hwf1 [Hl1 Hnew]].
  destruct (NodeType_eqb ty group).
  - split; [apply links_ok_updateGroupMembership; assumption | discriminate].
  - split; [exact Hl1 | intros _; exact Hnew].
Qed.

Lemma acyclic_add_edge (M M' : NodeMap) a b :
  (forall k c, edge M' k c -> edge M k c \/ (k = a /\ c = b)) ->
  a <> b -> acyclic M -> ~ descends M b a -> acyclic M'.
Proof.
  intros Hedge Hne Hac Hno.
  assert (H : forall u w, descends M' u w ->
                          descends M u w
                          \/ ((u = a \/ descends M u a) /\ (b = w \/ descends M b w))).
  { intros u w P. induction P as [u v E | u v w E P IH].
    - destruct (Hedge u v E) as [E' | [-> ->]]; [left; apply desc_edge; exact E' |].
      right. auto.
    - destruct (Hedge u v E) as [E' | [-> ->]].
      + destruct IH as [Q | [[-> | Q1] Q2]].
        * left. apply (desc_step M u v w E' Q).
        * right. split; [right; apply desc_edge; exact E' | exact Q2].
        * right. split; [right; apply (desc_step M u v a E' Q1) | exact Q2].
      + destruct IH as [Q | [_ Q2]].
        * right. split; [left; reflexivity | right; exact Q].
        * right. split; [left; reflexivity | exact Q2]. }
  intros k P. destruct (H k k P) as [Q | [[-> | Q1] [<- | Q2]]].
  - exact (Hac k Q).
  - apply Hne. reflexivity.
  - exact (Hno Q2).
  - exact (Hno Q1).
  - apply Hno. apply (descends_trans M b k a); assumption.
Qed.

Lemma pop_in {A} (l : list A) a r : pop l = Some (a, r) -> In a l.
Proof. intro H. apply pop_some in H. rewrite H. apply in_or_app. right. left. reflexivity. Qed.

Lemma links_ok_addMember newId s :
  ~ In newId (selectedNodeIds s) ->
  JsMap.wf (nodes s) -> links_ok (nodes s) -> links_ok (nodes (addMember newId s)).
Proof.
  intros Hfresh Hwf Hl. unfold addMember. cbv zeta.
  cbn [saveHistory selectedNodeIds nodePositions nodes set_undoStack set_redoStack].
  match goal with
  | |- links_ok (nodes (set_selectedNodeIds
                          (if ?b then set_nodes (addNode ?i ?t ?px ?py ?o ?d ?s1) _
                           else _) _)) =>
      destruct (links_ok_addNode i t px py o d s1 eq_refl Hwf Hl) as [H2 Hnew];
      specialize (Hnew eq_refl);
      destruct b eqn:Eb
  end; [| exact H2].
  cbn [nodes set_nodes set_selectedNodeIds].
  destruct (pop (selectedNodeIds s)) as [[lastId rest] |] eqn:Epop; [| discriminate].
  cbn [str_or_empty] in *.
  assert (Hne : lastId <> newId).
  { intros ->. apply Hfresh. apply (pop_in _ _ _ Epop). }
  match goal with
  | |- links_ok (match JsMap.get ?m lastId with _ => _ end) =>
      destruct (JsMap.get m lastId) as [parent |] eqn:Eparent; [| exact H2]
  end.
  destruct H2 as [Hids2 Hac2]. destruct Hnew as [n [Hn Hnil]]. cbn [over p_id no_fields] in Hn.
  split.
  - apply ids_ok_set; [exact Hids2 | apply (ids_ok_get _ _ _ Hids2 Eparent)].
  - eapply (acyclic_add_edge _ _ lastId newId); [| exact Hne | exact Hac2 |].
    + intros k c [n' [Hg Hin]]. rewrite get_set in Hg. destruct (lastId =? k) eqn:E.
      * apply String.eqb_eq in E. subst k. injection Hg as <-.
        rewrite children_of_with_children in Hin. apply in_app_or in Hin.
        destruct Hin as [Hin | [<- | []]]; [left; exists parent; auto | right; auto].
      * left. exists n'. auto.
    + intro P. apply descends_first in P. destruct P as [n' [b [Hg [Hin _]]]].
      rewrite Hn in Hg. injection Hg as <-. rewrite Hnil in Hin. contradiction.
Qed.

Lemma links_initial : wf_state initial /\ links_ok (nodes initial).
Proof.
  split; [apply wf_stateb_sound; vm_compute; reflexivity |].
  split; [apply ids_okb_sound | apply acyclicb_sound]; vm_compute; reflexivity.
Qed.

Lemma links_ok_loadFunctionalChart b s :
  links_ok (nodes (state_of (loadFunctionalChart b s))).
Proof.
  unfold loadFunctionalChart. cbv zeta.
  match goal with
  | |- context [autoLayout false ?s2] =>
      destruct (autoLayout_maps false false
                  (set_nodePositions (set_nodes blank (fst functional_template))
                                     (snd functional_template)) s2) as [-> _];
        [reflexivity | reflexivity |]
  end.
  rewrite <- initial_unfold. exact (proj2 links_initial).
Qed.

Lemma nodes_autoLayout b s :
  nodes (state_of (autoLayout b s)) = sortChildrenByDepartment (nodes s).
Proof.
  unfold autoLayout. cbv zeta.
  assert (H1 : nodes (if b then saveHistory s else s) = nodes s)
    by (destruct b; reflexivity).
  cbn [nodes set_nodes]. rewrite H1.
  destruct (layout _ _ _); reflexivity.
Qed.

Lemma links_ok_sorted m : links_ok m -> links_ok (sortChildrenByDepartment m).
Proof. intros [H1 H2]. split; [apply ids_ok_sorted | apply acyclic_sorted]; assumption. Qed.

Lemma snapshot_links_ok_current s :
  wf_state s -> links_ok (nodes s) -> snapshot_links_ok (current_snapshot s).
Proof. intros [Hn Hp] Hl. repeat split; try assumption; apply Hl. Qed.

Lemma links_inv_saveHistory s : links_inv s -> links_inv (saveHistory s).
Proof.
  intros [Hwf [Hl [Hu Hr]]]. split; [exact Hwf |]. split; [exact Hl |].
  split; cbn [saveHistory undoStack redoStack set_undoStack set_redoStack];
    [| constructor].
  apply Forall_push_bounded; [exact Hu | apply snapshot_links_ok_current; assumption].
Qed.

Lemma links_inv_applySnapshot s snap :
  snapshot_links_ok snap ->
  Forall snapshot_links_ok (undoStack s) -> Forall snapshot_links_ok (redoStack s) ->
  links_inv (applySnapshot s snap).
Proof.
  intros [Hn [Hp Hl]] Hu Hr. unfold links_inv, wf_state.
  cbn [applySnapshot clearSelection nodes nodePositions undoStack redoStack
       set_nodes set_nodePositions set_drawings set_selectedNodeIds
       set_selectedDrawingIds set_selectedEdgeId].
  rewrite !of_entries_id by assumption. repeat split; try assumption; apply Hl.
Qed.

Lemma links_inv_undo s : links_inv s -> links_inv (undo s).
Proof.
  intros Hinv. pose proof Hinv as [Hwf [Hl [Hu Hr]]]. unfold undo.
  destruct (pop (undoStack s)) as [[prev rest] |] eqn:E; [| exact Hinv].
  apply pop_some in E. rewrite E in Hu. apply Forall_app in Hu. destruct Hu as [Hrest Hprev].
  apply links_inv_applySnapshot; cbn [undoStack redoStack set_undoStack set_redoStack].
  - inversion Hprev; assumption.
  - exact Hrest.
  - apply Forall_app. split; [exact Hr |]. constructor; [| constructor].
    apply snapshot_links_ok_current; assumption.
Qed.

Lemma links_inv_redo s : links_inv s -> links_inv (redo s).
Proof.
  intros Hinv. pose proof Hinv as [Hwf [Hl [Hu Hr]]]. unfold redo.
  destruct (pop (redoStack s)) as [[next rest] |] eqn:E; [| exact Hinv].
  apply pop_some in E. rewrite E in Hr. apply Forall_app in Hr. destruct Hr as [Hrest Hnext].
  apply links_inv_applySnapshot; cbn [undoStack redoStack set_undoStack set_redoStack].
  - inversion Hnext; assumption.
  - apply Forall_app. split; [exact Hu |]. constructor; [| constructor].
    apply snapshot_links_ok_current; assumption.
  - exact Hrest.
Qed.

Lemma links_inv_drop_redo s : links_inv s -> links_inv (set_redoStack s []).
Proof.
  intros [Hwf [Hl [Hu Hr]]]. split; [exact Hwf |]. split; [exact Hl |].
  split; [exact Hu | constructor].
Qed.

Lemma links_inv_hist_model c s : links_inv s -> links_inv (hist_model c s).
Proof.
  intro H. unfold hist_model.
  destruct c;
    try (destruct (records_history _ s); [apply links_inv_saveHistory |]; exact H).
  - apply links_inv_undo. exact H.
  - apply links_inv_redo. exact H.
  - destruct (import_case data).
    + exact H.
    + apply links_inv_drop_redo. apply links_inv_undo. apply links_inv_saveHistory.
      exact H.
    + apply links_inv_saveHistory. exact H.
  - apply links_inv_saveHistory. apply links_inv_saveHistory. exact H.
Qed.

Lemma links_ok_step c s : links_inv s -> keeps_links c s -> links_ok (nodes (step c s)).
Proof.
  intros Hinv Hsafe. pose proof Hinv as [Hwf [Hl _]]. pose proof Hwf as [Hn Hp].
  destruct c; unfold step; cbn [run state_of]; cbn [keeps_links] in Hsafe.
  - (* saveHistory *) exact Hl.
  - apply links_inv_undo. exact Hinv.
  - apply links_inv_redo. exact Hinv.
  - apply links_ok_loadFunctionalChart.
  - (* loadWhiteboard *) apply links_ok_empty.
  - rewrite nodes_autoLayout. apply links_ok_sorted. exact Hl.
  - destruct (linkNodes_keeps source target s Hn (proj1 Hl) (proj2 Hl)) as [_ [H1 H2]].
    split; assumption.
  - apply links_ok_unlinkEdge. exact Hl.
  - (* deleteSelectedEdge *)
    unfold deleteSelectedEdge. destruct (selectedEdgeId s) as [e |]; [| exact Hl].
    destruct (negb (str_truthy e)); [exact Hl |].
    destruct (find _ _) as [e0 |]; [| exact Hl].
    apply (links_ok_unlinkEdge _ _ (saveHistory s)). exact Hl.
  - (* updateNodePosition *) exact Hl.
  - (* moveSelectedDrawings *)
    unfold moveSelectedDrawings. destruct (Nat.eqb _ 0); exact Hl.
  - (* updateNodeDimensions *) exact Hl.
  - (* selectNode *) unfold selectNode. destruct multi; exact Hl.
  - (* selectDrawing *) unfold selectDrawing. destruct multi; exact Hl.
  - (* selectAll *) exact Hl.
  - (* selectEdge *) exact Hl.
  - (* clearSelection *) exact Hl.
  - apply links_ok_updateNode; tauto.
  - apply links_ok_updateGroupMembership; assumption.
  - apply links_ok_updateNodeMembership; assumption.
  - apply links_ok_deleteSelection; assumption.
  - (* deleteDrawing *) exact Hl.
  - apply links_ok_deleteSelection; assumption.
  - (* copySelection *) unfold copySelection. destruct (_ && _); exact Hl.
  - (* pasteNodes *) contradiction.
  - (* importFromJson *)
    unfold import_case in Hsafe. unfold importFromJson.
    destruct data as [[[| ns] [| ps] ds] |]; cbn [state_of]; try exact Hl.
    assert (Hback : links_ok (nodes (set_redoStack (undo (saveHistory s)) []))).
    { apply links_inv_drop_redo. apply links_inv_undo. apply links_inv_saveHistory.
      exact Hinv. }
    destruct (map_of_json ns JsMap.empty) as [nn |]; [| exact Hback].
    destruct (map_of_json ps JsMap.empty) as [pp |]; [| exact Hback].
    exact Hsafe.
  - apply (links_ok_addNode newId ty nx ny options dimensions s Hsafe Hn Hl).
  - apply links_ok_addMember; assumption.
  - (* addDrawing *) exact Hl.
  - (* clearDrawings *) exact Hl.
  - (* updatePan *) exact Hl.
  - (* setZoom *) exact Hl.
  - (* setPan *) exact Hl.
  - (* toggleDarkMode *) exact Hl.
Qed.

Lemma links_inv_step c s : links_inv s -> keeps_links c s -> links_inv (step c s).
Proof.
  intros Hinv Hsafe. split; [apply wf_step; exact (proj1 Hinv) |].
  split; [apply links_ok_step; assumption |].
  destruct (links_inv_hist_model c s Hinv) as [_ [_ [Hu Hr]]].
  pose proof (stacks_step c s) as Hst. unfold stacks in Hst.
  injection Hst as -> ->. split; assumption.
Qed.

Lemma links_inv_run_all cs s : links_inv s -> links_trace cs s -> links_inv (run_all cs s).
Proof.
  revert s. induction cs as [| c r IH]; intros s Hinv Hsafe; [exact Hinv |].
  destruct Hsafe as [Hc Hr]. cbn [run_all fold_left]. apply IH; [| exact Hr].
  apply links_inv_step; assumption.
Qed.

(** X27: from the initial chart, along every sequence of operations
    without [pasteNodes] in which patches and the options of new nodes bring
    no [id] and no [children], the id drawn for a new member is not a
    selected id, and imports bring acyclic links between nodes stored under
    their own ids, the children links stay acyclic and every node stays
    stored under its own id; this covers linking, unlinking, deleting,
    adding, the layout, the membership updates, undo and redo. *)
Theorem links_stay_acyclic (cs : list Command) :
  links_trace cs initial ->
  acyclic (nodes (run_all cs initial)) /\ ids_ok (nodes (run_all cs initial)).
Proof.
  intro Hsafe.
  assert (H0 : links_inv initial).
  { destruct links_initial as [Hwf Hl]. split; [exact Hwf |]. split; [exact Hl |].
    split; constructor. }
  destruct (links_inv_run_all cs initial H0 Hsafe) as [_ [[Hids Hac] _]].
  split; assumption.
Qed.

Lemma links_stay_acyclic_witness :
  links_trace sample_topology initial
  /\ acyclic (nodes (run_all sample_topology initial)).
Proof.
  assert (Hsafe : links_trace sample_topology initial).
  { unfold sample_topology. cbn [links_trace keeps_links].
    split; [exact I |]. split; [exact I |]. split; [| repeat split].
    vm_compute. intros [H | []]. discriminate. }
  split; [exact Hsafe | exact (proj1 (links_stay_acyclic sample_topology Hsafe))].
Defined.
